(** * FSNRedux: scanner, tree aggregator and layout engine

    A shallow embedding of the computational core of FSNRedux
    (packages [internal/fs] and [internal/layout], the scene graph of
    package [scene] and the row list of the tree panel of package [ui])
    together with the properties its specification states about it.

    Conventions used throughout:
    - Go's [int] and [int64] are 64-bit two's complement integers; they are
      modelled by [Z] and every addition is wrapped with [Go.wrap64].
    - A [*fs.Entry] tree is modelled by the inductive type [Fs.Entry]; a
      function that mutates an entry in place returns the updated entry.
    - The scene nodes are shared between a graph, its two indexes and the
      nodes themselves; they live in a store, and a pointer to a scene node
      is its index in the store.
    - What the Go standard library provides ([sort.Slice], [filepath.Join],
      ...) is not part of the repository: it is taken as a parameter
      ([Go.Lib]) and characterised by its documented contract. *)

From Stdlib Require Import ZArith QArith Lia Bool Ascii String.
From Stdlib Require Import Floats.SpecFloat.
From stdpp Require Import base option list sorting strings gmap.

Close Scope Q_scope.
Local Open Scope Z_scope.
Local Set Warnings "-register-all".

(** ** The parts of the Go language and library the code relies on *)
Module Go.

(** [int64] / [int] arithmetic: results are reduced into [-2^63, 2^63). *)
Definition wrap64 (z : Z) : Z := (z + 2 ^ 63) `mod` 2 ^ 64 - 2 ^ 63.
Definition add64 (a b : Z) : Z := wrap64 (a + b).
Definition in_int64 (z : Z) : Prop := - 2 ^ 63 ≤ z < 2 ^ 63.

(** [total += x] over a slice of [int64], starting from [acc]. *)
Definition sum64_from (acc : Z) (xs : list Z) : Z := foldl add64 acc xs.
Definition sum64 (xs : list Z) : Z := sum64_from 0 xs.

(** The exact (unbounded) sum, for comparison. *)
Definition sumZ (xs : list Z) : Z := foldr Z.add 0 xs.

(** [time.Time] values are opaque to the code under study. *)
Definition Time := Z.
Definition zeroTime : Time := 0.

(** An [error] value is represented by its message ([err.Error()]). *)
Inductive Result (A : Type) : Type :=
| Ok (a : A)
| Err (msg : string).
Global Arguments Ok {A} a.
Global Arguments Err {A} msg.

(** The signature of [sort.Slice], with the comparison lifted from indices
    to elements ([less i j] reads [s[i]] and [s[j]] of the slice being
    sorted). *)
Definition SliceSort : Type := ∀ A : Type, (A → A → bool) → list A → list A.

(** [less] is a strict weak ordering, as [sort.Interface] requires. *)
Record strict_weak {A} (less : A → A → bool) : Prop := {
  sw_irrefl : ∀ x, less x x = false;
  sw_trans : ∀ x y z, less x y = true → less y z = true → less x z = true;
  sw_negtrans : ∀ x y z, less x y = false → less y z = false → less x z = false
}.

(** [sort] rearranges the slice: it neither drops nor invents elements. *)
Definition sort_permutes (sort : SliceSort) : Prop :=
  ∀ A (less : A → A → bool) (l : list A), sort A less l ≡ₚ l.

(** The documented contract of [sort.Slice]: the slice is rearranged (a
    permutation) so that no element is [less] than one before it.  The
    documentation adds that the sort is not guaranteed to be stable. *)
Record sort_contract (sort : SliceSort) : Prop := {
  sort_perm : sort_permutes sort;
  sort_sorted : ∀ A (less : A → A → bool) (l : list A),
    strict_weak less →
    StronglySorted (λ x y, less y x = false) (sort A less l)
}.

(** *** A model of Go's own [sort.Slice]

    Since Go 1.19 [sort.Slice] runs the pattern-defeating quicksort of
    [sort/zsortfunc.go] ([pdqsort_func]).  The slice is a list, indices are
    natural numbers, loops carry fuel bounded by the length of the range. *)
Section Pdqsort.
Context {A : Type} (less : A → A → bool).
Local Open Scope nat_scope.

Definition Less (data : list A) (i j : nat) : bool :=
  match data !! i, data !! j with
  | Some x, Some y => less x y
  | _, _ => false
  end.

Definition Swap (data : list A) (i j : nat) : list A :=
  match data !! i, data !! j with
  | Some x, Some y => <[i:=y]> (<[j:=x]> data)
  | _, _ => data
  end.

(** [for j := i; j > a && data.Less(j, j-1); j-- { data.Swap(j, j-1) }] *)
Fixpoint shift_down (data : list A) (a j : nat) : list A :=
  match j with
  | O => data
  | S j' => if (a <? j) && Less data j j' then shift_down (Swap data j j') a j' else data
  end.

(** [for i := a + 1; i < b; i++ { ... }], [n] iterations left. *)
Fixpoint insertion_loop (data : list A) (a i n : nat) : list A :=
  match n with
  | O => data
  | S n' => insertion_loop (shift_down data a i) a (S i) n'
  end.

Definition insertionSort_func (data : list A) (a b : nat) : list A :=
  insertion_loop data a (a + 1) (b - (a + 1)).

Fixpoint siftDown_func (fuel : nat) (data : list A) (root hi first : nat) : list A :=
  match fuel with
  | O => data
  | S fuel' =>
      let child := 2 * root + 1 in
      if hi <=? child then data
      else
        let child :=
          if (child + 1 <? hi) && Less data (first + child) (first + child + 1)
          then child + 1 else child in
        if negb (Less data (first + root) (first + child)) then data
        else siftDown_func fuel' (Swap data (first + root) (first + child)) child hi first
  end.

Definition heapSort_func (data : list A) (a b : nat) : list A :=
  let first := a in
  let lo := 0 in
  let hi := b - a in
  let data :=
    foldl (λ d i, siftDown_func hi d i hi first) data (reverse (seq 0 (S ((hi - 1) / 2)))) in
  foldl (λ d i, siftDown_func hi (Swap d first (first + i)) lo i first) data
    (reverse (seq 0 hi)).

(** [for i <= j && p(i) { i++ }] and [for i <= j && p(j) { j-- }] *)
Fixpoint scan_up (p : nat → bool) (fuel i j : nat) : nat :=
  match fuel with
  | O => i
  | S f => if (i <=? j) && p i then scan_up p f (S i) j else i
  end.
Fixpoint scan_down (p : nat → bool) (fuel i j : nat) : nat :=
  match fuel with
  | O => j
  | S f => if (i <=? j) && p j then scan_down p f i (pred j) else j
  end.

(** The [for { ... }] loop of [partition_func]; returns the data and [j]. *)
Fixpoint partition_loop (fuel : nat) (data : list A) (a i j : nat) : list A * nat :=
  match fuel with
  | O => (data, j)
  | S f =>
      let i := scan_up (λ i, Less data i a) (length data) i j in
      let j := scan_down (λ j, negb (Less data j a)) (length data) i j in
      if j <? i then (data, j)
      else partition_loop f (Swap data i j) a (S i) (pred j)
  end.

Definition partition_func (data : list A) (a b pivot : nat) : list A * nat * bool :=
  let data := Swap data a pivot in
  let i := a + 1 in
  let j := b - 1 in
  let i := scan_up (λ i, Less data i a) (length data) i j in
  let j := scan_down (λ j, negb (Less data j a)) (length data) i j in
  if j <? i then (Swap data j a, j, true)
  else
    let data := Swap data i j in
    let '(data, j) := partition_loop (length data) data a (S i) (pred j) in
    (Swap data j a, j, false).

(** The [for { ... }] loop of [partitionEqual_func]; returns the data and [i]. *)
Fixpoint partitionEqual_loop (fuel : nat) (data : list A) (a i j : nat) : list A * nat :=
  match fuel with
  | O => (data, i)
  | S f =>
      let i := scan_up (λ i, negb (Less data a i)) (length data) i j in
      let j := scan_down (λ j, Less data a j) (length data) i j in
      if j <? i then (data, i)
      else partitionEqual_loop f (Swap data i j) a (S i) (pred j)
  end.

Definition partitionEqual_func (data : list A) (a b pivot : nat) : list A * nat :=
  let data := Swap data a pivot in
  partitionEqual_loop (length data) data a (a + 1) (b - 1).

(** The inner [break]-loops of [partialInsertionSort_func]. *)
Fixpoint shift_smaller (data : list A) (j : nat) : list A :=
  match j with
  | O => data
  | S j' => if negb (Less data j j') then data else shift_smaller (Swap data j j') j'
  end.
Fixpoint shift_greater (fuel : nat) (data : list A) (j b : nat) : list A :=
  match fuel with
  | O => data
  | S f =>
      if b <=? j then data
      else if negb (Less data j (j - 1)) then data
      else shift_greater f (Swap data j (j - 1)) (S j) b
  end.

Fixpoint partialInsertionSort_loop (steps : nat) (data : list A) (a b i : nat)
  : list A * bool :=
  match steps with
  | O => (data, false)
  | S steps' =>
      let i := scan_up (λ i, (i <? b) && negb (Less data i (i - 1))) (length data) i b in
      if i =? b then (data, true)
      else if b - a <? 50 then (data, false)
      else
        let data := Swap data i (i - 1) in
        let data := if 2 <=? i - a then shift_smaller data (i - 1) else data in
        let data := if 2 <=? b - i then shift_greater (length data) data (i + 1) b else data in
        partialInsertionSort_loop steps' data a b i
  end.

Definition partialInsertionSort_func (data : list A) (a b : nat) : list A * bool :=
  partialInsertionSort_loop 5 data a b (a + 1).

(** [bits.Len(uint(n))] *)
Definition bits_Len (n : nat) : nat := if n =? 0 then 0 else S (Nat.log2 n).

(** [xorshift.Next] on [uint64]. *)
Definition xorshift_Next (r : Z) : Z :=
  let mask := (2 ^ 64)%Z in
  let r := Z.lxor r (Z.shiftl r 13 `mod` mask) in
  let r := Z.lxor r (Z.shiftr r 7) in
  Z.lxor r (Z.shiftl r 17 `mod` mask).

Definition breakPatterns_func (data : list A) (a b : nat) : list A :=
  let length := b - a in
  if 8 <=? length then
    let modulus := Z.pow 2 (Z.of_nat (bits_Len length)) in
    let idx := a + (length / 4) * 2 - 1 in
    let step (st : list A * Z) (i : nat) : list A * Z :=
      let random := xorshift_Next st.2 in
      let other := Z.to_nat (Z.land random (modulus - 1)) in
      let other := if length <=? other then other - length else other in
      (Swap st.1 (idx - 1 + i) (a + other), random) in
    (foldl step (data, Z.of_nat length) [0; 1; 2]).1
  else data.

Inductive sortedHint : Type := unknownHint | increasingHint | decreasingHint.

(** [order2_func], [median_func], [medianAdjacent_func]: the swap counter
    is threaded explicitly. *)
Definition order2_func (data : list A) (a b swaps : nat) : nat * nat * nat :=
  if Less data b a then (b, a, S swaps) else (a, b, swaps).

Definition median_func (data : list A) (a b c swaps : nat) : nat * nat :=
  let '(a, b, swaps) := order2_func data a b swaps in
  let '(b, c, swaps) := order2_func data b c swaps in
  let '(a, b, swaps) := order2_func data a b swaps in
  (b, swaps).

Definition medianAdjacent_func (data : list A) (a swaps : nat) : nat * nat :=
  median_func data (a - 1) a (a + 1) swaps.

Definition choosePivot_func (data : list A) (a b : nat) : nat * sortedHint :=
  let l := b - a in
  let i := a + l / 4 * 1 in
  let j := a + l / 4 * 2 in
  let k := a + l / 4 * 3 in
  let '(j, swaps) :=
    if 8 <=? l then
      let '(i, j, k, swaps) :=
        if 50 <=? l then
          let '(i, swaps) := medianAdjacent_func data i 0 in
          let '(j, swaps) := medianAdjacent_func data j swaps in
          let '(k, swaps) := medianAdjacent_func data k swaps in
          (i, j, k, swaps)
        else (i, j, k, 0) in
      median_func data i j k swaps
    else (j, 0) in
  if swaps =? 0 then (j, increasingHint)
  else if swaps =? 12 then (j, decreasingHint)
  else (j, unknownHint).

(** [reverseRange_func]: [n] swaps from the ends inwards. *)
Fixpoint reverse_loop (fuel : nat) (data : list A) (i j : nat) : list A :=
  match fuel with
  | O => data
  | S f => if i <? j then reverse_loop f (Swap data i j) (S i) (pred j) else data
  end.
Definition reverseRange_func (data : list A) (a b : nat) : list A :=
  reverse_loop (length data) data a (b - 1).

(** [pdqsort_func(data, a, b, limit)]; [wasBalanced] and [wasPartitioned]
    are the loop's local variables, [true] on entry. *)
Fixpoint pdqsort_loop (fuel : nat) (data : list A) (a b limit : nat)
    (wasBalanced wasPartitioned : bool) : list A :=
  match fuel with
  | O => data
  | S fuel' =>
      let length := b - a in
      if length <=? 12 then insertionSort_func data a b
      else if limit =? 0 then heapSort_func data a b
      else
        let '(data, limit) :=
          if negb wasBalanced then (breakPatterns_func data a b, limit - 1)
          else (data, limit) in
        let '(pivot, hint) := choosePivot_func data a b in
        let '(data, pivot, hint) :=
          match hint with
          | decreasingHint =>
              (reverseRange_func data a b, (b - 1) - (pivot - a), increasingHint)
          | _ => (data, pivot, hint)
          end in
        let '(data, sorted) :=
          match hint with
          | increasingHint =>
              if wasBalanced && wasPartitioned then partialInsertionSort_func data a b
              else (data, false)
          | _ => (data, false)
          end in
        if sorted then data
        else if (0 <? a) && negb (Less data (a - 1) pivot) then
          let '(data, mid) := partitionEqual_func data a b pivot in
          pdqsort_loop fuel' data mid b limit wasBalanced wasPartitioned
        else
          let '(data, mid, alreadyPartitioned) := partition_func data a b pivot in
          let leftLen := mid - a in
          let rightLen := b - mid in
          let balanceThreshold := length / 8 in
          if leftLen <? rightLen then
            let data := pdqsort_loop fuel' data a mid limit true true in
            pdqsort_loop fuel' data (mid + 1) b limit
              (balanceThreshold <=? leftLen) alreadyPartitioned
          else
            let data := pdqsort_loop fuel' data (mid + 1) b limit true true in
            pdqsort_loop fuel' data a mid limit
              (balanceThreshold <=? rightLen) alreadyPartitioned
  end.

Definition pdqsort_func (data : list A) (a b limit : nat) : list A :=
  pdqsort_loop (S (b - a)) data a b limit true true.
End Pdqsort.

(** [sort.Slice(x, less)] as the Go runtime executes it. *)
Definition go_sort_Slice : SliceSort :=
  λ A less data, pdqsort_func less data 0 (length data) (bits_Len (length data)).

(** *** Go's [sort.Slice] permutes

    Every step of [pdqsort_func] is a [Swap]. *)
Section PdqsortPermutes.
Context {A : Type} (less : A → A → bool).
Local Open Scope nat_scope.

Lemma Swap_perm (data : list A) i j : Swap data i j ≡ₚ data.
Proof.
  unfold Swap. destruct (data !! i) as [x|] eqn:Hi; [|done].
  destruct (data !! j) as [y|] eqn:Hj; [|done].
  by apply Permutation_insert_swap.
Qed.

Lemma foldl_perm {B} (f : list A → B → list A) (l : list B) :
  (∀ d i, f d i ≡ₚ d) → ∀ d, foldl f d l ≡ₚ d.
Proof.
  intros Hf. induction l as [|i l IH]; intros d; simpl; [done|].
  by rewrite IH.
Qed.

Lemma shift_down_perm a j : ∀ data, shift_down less data a j ≡ₚ data.
Proof.
  induction j as [|j IH]; intros data; simpl; [done|].
  case_match; [|done]. by rewrite IH, Swap_perm.
Qed.

Lemma insertionSort_func_perm data a b : insertionSort_func less data a b ≡ₚ data.
Proof.
  unfold insertionSort_func. generalize (a + 1) (b - (a + 1)). intros i n.
  revert data i. induction n as [|n IH]; intros data i; simpl; [done|].
  by rewrite IH, shift_down_perm.
Qed.

Lemma siftDown_func_perm fuel : ∀ data root hi first,
  siftDown_func less fuel data root hi first ≡ₚ data.
Proof.
  induction fuel as [|fuel IH]; intros data root hi first; simpl; [done|].
  repeat case_match; try done; by rewrite IH, Swap_perm.
Qed.

Lemma heapSort_func_perm data a b : heapSort_func less data a b ≡ₚ data.
Proof.
  unfold heapSort_func. rewrite foldl_perm.
  - apply foldl_perm. intros d i. apply siftDown_func_perm.
  - intros d i. by rewrite siftDown_func_perm, Swap_perm.
Qed.

Lemma partition_loop_perm fuel : ∀ data a i j,
  (partition_loop less fuel data a i j).1 ≡ₚ data.
Proof.
  induction fuel as [|fuel IH]; intros data a i j; simpl; [done|].
  case_match; [done|]. by rewrite IH, Swap_perm.
Qed.

Lemma partition_func_perm data a b pivot :
  (partition_func less data a b pivot).1.1 ≡ₚ data.
Proof.
  unfold partition_func. case_match; simpl.
  - by rewrite !Swap_perm.
  - match goal with |- context [partition_loop less ?f ?d ?a ?i ?j] =>
      pose proof (partition_loop_perm f d a i j) as Hloop;
      destruct (partition_loop less f d a i j) as [d' j'] end.
    simpl in *. by rewrite Swap_perm, Hloop, !Swap_perm.
Qed.

Lemma partitionEqual_loop_perm fuel : ∀ data a i j,
  (partitionEqual_loop less fuel data a i j).1 ≡ₚ data.
Proof.
  induction fuel as [|fuel IH]; intros data a i j; simpl; [done|].
  case_match; [done|]. by rewrite IH, Swap_perm.
Qed.

Lemma partitionEqual_func_perm data a b pivot :
  (partitionEqual_func less data a b pivot).1 ≡ₚ data.
Proof. unfold partitionEqual_func. by rewrite partitionEqual_loop_perm, Swap_perm. Qed.

Lemma shift_smaller_perm j : ∀ data, shift_smaller less data j ≡ₚ data.
Proof.
  induction j as [|j IH]; intros data; simpl; [done|].
  case_match; [done|]. by rewrite IH, Swap_perm.
Qed.

Lemma shift_greater_perm fuel : ∀ data j b, shift_greater less fuel data j b ≡ₚ data.
Proof.
  induction fuel as [|fuel IH]; intros data j b; simpl; [done|].
  repeat case_match; try done. by rewrite IH, Swap_perm.
Qed.

Lemma partialInsertionSort_func_perm data a b :
  (partialInsertionSort_func less data a b).1 ≡ₚ data.
Proof.
  unfold partialInsertionSort_func. generalize 5 (a + 1). intros steps i.
  revert data i. induction steps as [|steps IH]; intros data i; simpl; [done|].
  repeat case_match; simpl; try done;
    rewrite IH, ?shift_greater_perm, ?shift_smaller_perm; apply Swap_perm.
Qed.

Lemma breakPatterns_func_perm (data : list A) a b : breakPatterns_func data a b ≡ₚ data.
Proof.
  unfold breakPatterns_func. case_match; [|done].
  simpl. by rewrite !Swap_perm.
Qed.

Lemma reverseRange_func_perm (data : list A) a b : reverseRange_func data a b ≡ₚ data.
Proof.
  unfold reverseRange_func. generalize (length data) (b - 1). intros fuel j.
  revert data a j. induction fuel as [|fuel IH]; intros data a j; simpl; [done|].
  case_match; [|done]. by rewrite IH, Swap_perm.
Qed.

Lemma pdqsort_loop_perm fuel : ∀ data a b limit wasBalanced wasPartitioned,
  pdqsort_loop less fuel data a b limit wasBalanced wasPartitioned ≡ₚ data.
Proof.
  induction fuel as [|fuel IH]; intros data a b limit wb wp; simpl; [done|].
  destruct (b - a <=? 12); [apply insertionSort_func_perm|].
  destruct (limit =? 0); [apply heapSort_func_perm|].
  set (st := if negb wb then (breakPatterns_func data a b, limit - 1) else (data, limit)).
  assert (st.1 ≡ₚ data) as Hst.
  { unfold st. destruct wb; simpl; [done|apply breakPatterns_func_perm]. }
  destruct st as [data1 limit1]. simpl in Hst.
  destruct (choosePivot_func less data1 a b) as [pivot hint].
  set (st2 := match hint with
              | decreasingHint => _
              | _ => (data1, pivot, hint)
              end).
  assert (st2.1.1 ≡ₚ data) as Hst2.
  { unfold st2. destruct hint; simpl; try done. by rewrite reverseRange_func_perm. }
  destruct st2 as [[data2 pivot2] hint2]. simpl in Hst2.
  set (st3 := match hint2 with
              | increasingHint => _
              | _ => (data2, false)
              end).
  assert (st3.1 ≡ₚ data) as Hst3.
  { unfold st3. destruct hint2; simpl; try done.
    destruct (wb && wp); simpl; [|done]. by rewrite partialInsertionSort_func_perm. }
  destruct st3 as [data3 sorted]. simpl in Hst3.
  destruct sorted; [done|].
  destruct ((0 <? a) && negb (Less less data3 (a - 1) pivot2)).
  - pose proof (partitionEqual_func_perm data3 a b pivot2) as Hpe.
    destruct (partitionEqual_func less data3 a b pivot2) as [data4 mid]. simpl in Hpe.
    by rewrite IH, Hpe.
  - pose proof (partition_func_perm data3 a b pivot2) as Hp.
    destruct (partition_func less data3 a b pivot2) as [[data4 mid] already]. simpl in Hp.
    destruct (mid - a <? b - mid); by rewrite !IH, Hp.
Qed.
End PdqsortPermutes.

Lemma go_sort_Slice_permutes : sort_permutes go_sort_Slice.
Proof. intros A less l. apply pdqsort_loop_perm. Qed.

(** The library functions used by the scanner, as parameters. *)
Record Lib : Type := {
  sort_Slice : SliceSort;
  filepath_Join : string → string → string;
  filepath_Base : string → string;
  (** [matched, _ := filepath.Match(pattern, name)] *)
  filepath_Match : string → string → bool;
  strings_EqualFold : string → string → bool
}.

(** *** Facts about wrapped arithmetic and sorting *)

Lemma wrap64_id z : in_int64 z → wrap64 z = z.
Proof. unfold in_int64, wrap64. intros H. rewrite Z.mod_small; lia. Qed.

Lemma wrap64_range z : in_int64 (wrap64 z).
Proof.
  unfold in_int64, wrap64.
  pose proof (Z.mod_pos_bound (z + 2 ^ 63) (2 ^ 64) ltac:(lia)). lia.
Qed.

Lemma wrap64_add_l a b : wrap64 (wrap64 a + b) = wrap64 (a + b).
Proof.
  unfold wrap64. f_equal.
  replace ((a + 2 ^ 63) `mod` 2 ^ 64 - 2 ^ 63 + b + 2 ^ 63)
    with ((a + 2 ^ 63) `mod` 2 ^ 64 + b) by lia.
  rewrite Zplus_mod_idemp_l. f_equal. lia.
Qed.

Lemma sum64_from_wrap acc xs :
  wrap64 (sum64_from acc xs) = wrap64 (acc + sumZ xs).
Proof.
  revert acc. induction xs as [|x xs IH]; intros acc; simpl.
  - f_equal. lia.
  - unfold sum64_from in *. simpl. rewrite IH. unfold add64.
    rewrite wrap64_add_l. f_equal. lia.
Qed.

Lemma sum64_cons x xs : sum64 (x :: xs) = sum64_from (add64 0 x) xs.
Proof. reflexivity. Qed.

Lemma sum64_from_in_range acc xs : in_int64 acc → in_int64 (sum64_from acc xs).
Proof.
  revert acc. induction xs as [|x xs IH]; intros acc Hacc; simpl; [done|].
  apply IH, wrap64_range.
Qed.

(** The [int64] sum is the exact sum reduced modulo [2^64]. *)
Lemma sum64_wrap xs : sum64 xs = wrap64 (sumZ xs).
Proof.
  rewrite <- (wrap64_id (sum64 xs)).
  - unfold sum64. rewrite sum64_from_wrap. f_equal.
  - apply sum64_from_in_range. unfold in_int64. lia.
Qed.

Lemma sum64_exact xs : in_int64 (sumZ xs) → sum64 xs = sumZ xs.
Proof. intros H. rewrite sum64_wrap. by apply wrap64_id. Qed.

Lemma sumZ_perm xs ys : xs ≡ₚ ys → sumZ xs = sumZ ys.
Proof. induction 1; simpl; lia. Qed.

Lemma sum64_perm xs ys : xs ≡ₚ ys → sum64 xs = sum64 ys.
Proof. intros H. rewrite !sum64_wrap. f_equal. by apply sumZ_perm. Qed.

Lemma StronglySorted_mono {A} (R S : relation A) l :
  (∀ x y, R x y → S x y) → StronglySorted R l → StronglySorted S l.
Proof.
  intros HRS. induction 1 as [|x l _ IH Hx]; constructor; [done|].
  eapply Forall_impl; eauto.
Qed.

(** A sort that meets the contract: stdpp's merge sort on the relation
    "[y] is not less than [x]". *)
Definition notAfter {A} (less : A → A → bool) : relation A := λ x y, less y x = false.

Global Instance notAfter_dec {A} (less : A → A → bool) x y : Decision (notAfter less x y).
Proof. unfold notAfter. apply _. Defined.

Definition merge_sort_Slice : SliceSort := λ A less l, merge_sort (notAfter less) l.

Lemma strict_weak_asym {A} (less : A → A → bool) x y :
  strict_weak less → less x y = true → less y x = false.
Proof.
  intros [Hi Ht _] Hxy. destruct (less y x) eqn:Hyx; [|done].
  by rewrite <- (Hi x), (Ht x y x).
Qed.

Lemma merge_sort_Slice_contract : sort_contract merge_sort_Slice.
Proof.
  split; intros A less l.
  - apply merge_sort_Permutation.
  - intros Hsw. apply StronglySorted_merge_sort.
    + intros x y z Hxy Hyz. unfold notAfter in *. by eapply (sw_negtrans _ Hsw).
    + intros x y. unfold notAfter.
      destruct (less y x) eqn:Hyx; [|by left]. right. by eapply strict_weak_asym.
Qed.

(** *** Go's [sort.Slice] sorts

    [pdqsort_func] leaves the range [[a, b)] in order, for every strict
    weak [less]: insertion sort and heap sort order their range, the
    partitions split it around the pivot, and the element before the
    range, when there is one, is never after an element of the range. *)
Section PdqsortSorts.
Context {A : Type} (less : A → A → bool).
Hypothesis Hsw : strict_weak less.
Local Open Scope nat_scope.

(** [x] is not after [y]. *)
Definition ord_le (x y : A) : Prop := less y x = false.

Lemma ord_le_refl x : ord_le x x.
Proof. apply (sw_irrefl _ Hsw). Qed.

Lemma ord_le_trans x y z : ord_le x y → ord_le y z → ord_le x z.
Proof. unfold ord_le. intros Hxy Hyz. by eapply (sw_negtrans _ Hsw). Qed.

Lemma ord_lt_le x y : less x y = true → ord_le x y.
Proof. intros H. by eapply strict_weak_asym. Qed.

Lemma ord_le_total x y : ord_le x y ∨ ord_le y x.
Proof.
  unfold ord_le. destruct (less y x) eqn:H; [|by left]. right. by apply ord_lt_le.
Qed.

Lemma ord_not_lt_le x y : less x y = false → ord_le y x.
Proof. done. Qed.

Lemma ord_lt_le_trans x y z : less x y = true → ord_le y z → less x z = true.
Proof.
  unfold ord_le. intros Hxy Hyz. destruct (less x z) eqn:Hxz; [done|].
  by rewrite (sw_negtrans _ Hsw x z y Hxz Hyz) in Hxy.
Qed.

Lemma ord_le_lt_trans x y z : ord_le x y → less y z = true → less x z = true.
Proof.
  unfold ord_le. intros Hxy Hyz. destruct (less x z) eqn:Hxz; [done|].
  by rewrite (sw_negtrans _ Hsw y x z Hxy Hxz) in Hyz.
Qed.

(** *** Swaps *)

Lemma Swap_length (d : list A) i j : length (Swap d i j) = length d.
Proof.
  unfold Swap. repeat case_match; by rewrite ?length_insert.
Qed.

Lemma Swap_lookup (d : list A) i j k :
  i < length d → j < length d →
  Swap d i j !! k =
    if decide (k = i) then d !! j else if decide (k = j) then d !! i else d !! k.
Proof.
  intros Hi Hj. unfold Swap.
  destruct (lookup_lt_is_Some_2 d i Hi) as [x Hx].
  destruct (lookup_lt_is_Some_2 d j Hj) as [y Hy].
  rewrite Hx, Hy.
  destruct (decide (k = i)) as [->|Hki].
  - rewrite list_lookup_insert_eq; [done|]. by rewrite length_insert.
  - rewrite list_lookup_insert_ne by done.
    destruct (decide (k = j)) as [->|Hkj].
    + by rewrite list_lookup_insert_eq.
    + by rewrite list_lookup_insert_ne.
Qed.

Lemma Less_lookup (d : list A) i j x y :
  d !! i = Some x → d !! j = Some y → Less less d i j = less x y.
Proof. intros Hi Hj. unfold Less. by rewrite Hi, Hj. Qed.

(** *** Ranges *)

Definition same_outside (d d' : list A) (a b : nat) : Prop :=
  length d' = length d ∧ ∀ k, k < a ∨ b ≤ k → d' !! k = d !! k.

Definition sorted_on (d : list A) (a b : nat) : Prop :=
  ∀ i j x y, a ≤ i → i ≤ j → j < b → d !! i = Some x → d !! j = Some y → ord_le x y.

Definition all_in (d : list A) (a b : nat) (P : A → Prop) : Prop :=
  ∀ k x, a ≤ k → k < b → d !! k = Some x → P x.

Lemma same_outside_refl d a b : same_outside d d a b.
Proof. by split. Qed.

Lemma same_outside_trans d1 d2 d3 a b :
  same_outside d1 d2 a b → same_outside d2 d3 a b → same_outside d1 d3 a b.
Proof.
  intros [Hl1 H1] [Hl2 H2]. split; [congruence|].
  intros k Hk. by rewrite H2, H1.
Qed.

Lemma same_outside_weaken d d' a b a' b' :
  a' ≤ a → b ≤ b' → same_outside d d' a b → same_outside d d' a' b'.
Proof. intros Ha Hb [Hl H]. split; [done|]. intros k Hk. apply H. lia. Qed.

Lemma Swap_same_outside d i j a b :
  a ≤ i → i < b → a ≤ j → j < b → b ≤ length d → same_outside d (Swap d i j) a b.
Proof.
  intros. split; [apply Swap_length|].
  intros k Hk. rewrite Swap_lookup by lia. repeat case_decide; try done; lia.
Qed.

Definition segment (d : list A) (a b : nat) : list A := take (b - a) (drop a d).

Lemma segment_split (d : list A) a b :
  a ≤ b → b ≤ length d → d = take a d ++ segment d a b ++ drop b d.
Proof.
  intros Hab Hb. unfold segment.
  rewrite <- (take_drop a d) at 1. f_equal.
  rewrite <- (take_drop (b - a) (drop a d)) at 1. f_equal.
  rewrite drop_drop. f_equal. lia.
Qed.

Lemma segment_lookup (d : list A) a b k :
  k < b - a → segment d a b !! k = d !! (a + k).
Proof. intros Hk. unfold segment. rewrite lookup_take_lt by done. by rewrite lookup_drop. Qed.

Lemma segment_perm d d' a b :
  a ≤ b → b ≤ length d →
  d' ≡ₚ d → same_outside d d' a b → segment d' a b ≡ₚ segment d a b.
Proof.
  intros Hab Hb Hperm [Hlen Hout].
  assert (take a d' = take a d) as Htake.
  { apply list_eq. intros k. destruct (decide (k < a)).
    - rewrite !lookup_take_lt by done. apply Hout. lia.
    - rewrite !lookup_take_ge by lia. done. }
  assert (drop b d' = drop b d) as Hdrop.
  { apply list_eq. intros k. rewrite !lookup_drop. apply Hout. lia. }
  pose proof (segment_split d a b Hab Hb) as E.
  pose proof (segment_split d' a b Hab ltac:(lia)) as E'.
  rewrite Htake, Hdrop in E'.
  assert (take a d ++ segment d' a b ++ drop b d ≡ₚ take a d ++ segment d a b ++ drop b d) as H.
  { by rewrite <- E', <- E. }
  apply Permutation_app_inv_l in H.
  by apply Permutation_app_inv_r in H.
Qed.

Lemma all_in_segment d a b P :
  b ≤ length d → (all_in d a b P ↔ Forall P (segment d a b)).
Proof.
  intros Hb. rewrite Forall_lookup. split.
  - intros H k x Hk. assert (k < b - a) as Hlt.
    { apply lookup_lt_Some in Hk. unfold segment in Hk. rewrite length_take in Hk. lia. }
    rewrite segment_lookup in Hk by done. eapply H; [| |exact Hk]; lia.
  - intros H k x Hak Hkb Hk. apply (H (k - a)).
    rewrite segment_lookup by lia. by replace (a + (k - a)) with k by lia.
Qed.

(** Elements that were in the range still are, after a rearrangement of
    the range. *)
Lemma all_in_perm d d' a b P :
  a ≤ b → b ≤ length d →
  d' ≡ₚ d → same_outside d d' a b → all_in d a b P → all_in d' a b P.
Proof.
  intros Hab Hb Hperm Hout H.
  apply all_in_segment; [destruct Hout; lia|].
  rewrite (segment_perm d d' a b) by done. by apply all_in_segment.
Qed.

Lemma sorted_on_all (d : list A) :
  sorted_on d 0 (length d) → StronglySorted (λ x y, less y x = false) d.
Proof.
  induction d as [|x d IH]; intros H; constructor.
  - apply IH. intros i j y z Hi Hij Hj Hy Hz.
    apply (H (S i) (S j)); simpl in *; try done; lia.
  - apply Forall_lookup. intros k y Hk.
    apply (H 0 (S k)); simpl; try done; try lia.
    apply lookup_lt_Some in Hk. lia.
Qed.

Lemma sorted_on_same d d' a b a' b' :
  same_outside d d' a' b' → (b ≤ a' ∨ b' ≤ a) →
  sorted_on d a b → sorted_on d' a b.
Proof.
  intros [_ Hout] Hdisj H i j x y Hi Hij Hj Hx Hy.
  rewrite Hout in Hx, Hy by lia. by eapply H.
Qed.

(** *** Insertion sort *)

Lemma lookup_in_range (d : list A) i : i < length d → ∃ x, d !! i = Some x.
Proof. intros H. by apply lookup_lt_is_Some_2. Qed.

Ltac swap_lookup H :=
  rewrite Swap_lookup in H by lia; repeat case_decide; try lia.

Lemma shift_down_spec a J : ∀ j d,
  a ≤ j → j ≤ J → J < length d →
  sorted_on d a j → sorted_on d j (S J) →
  (∀ i k x y, a ≤ i → i < j → j < k → k ≤ J →
     d !! i = Some x → d !! k = Some y → ord_le x y) →
  sorted_on (shift_down less d a j) a (S J)
  ∧ same_outside d (shift_down less d a j) a (S J).
Proof.
  induction j as [|j IH]; intros d Ha HJ Hlen Hpre Hsuf Hcross; simpl.
  - split; [|apply same_outside_refl]. assert (a = 0) as -> by lia. done.
  - destruct (lookup_in_range d (S j)) as [x Hx]; [lia|].
    destruct (lookup_in_range d j) as [y Hy]; [lia|].
    rewrite (Less_lookup d (S j) j x y) by done.
    destruct ((a <? S j) && less x y) eqn:Hgo.
    + apply andb_true_iff in Hgo as [Haj Hlt]. apply Nat.ltb_lt in Haj.
      destruct (IH (Swap d (S j) j)) as [Hs Ho]; try lia.
      * by rewrite Swap_length.
      * intros i k u v Hi Hik Hk Hu Hv. swap_lookup Hu. swap_lookup Hv.
        eapply Hpre; [| | |exact Hu|exact Hv]; lia.
      * intros i k u v Hi Hik Hk Hu Hv. swap_lookup Hu; swap_lookup Hv.
        -- simplify_eq. apply ord_le_refl.
        -- simplify_eq. eapply (Hcross j k); try done; lia.
        -- simplify_eq. by apply ord_lt_le.
        -- simplify_eq. apply ord_le_refl.
        -- simplify_eq. eapply (Hsuf (S j) k); try done; lia.
        -- eapply (Hsuf i k); try done; lia.
      * intros i k u v Hi Hik Hjk Hk Hu Hv. swap_lookup Hu; swap_lookup Hv.
        -- simplify_eq. eapply (Hpre i j); try done; lia.
        -- eapply (Hcross i k); try done; lia.
      * split; [done|].
        eapply same_outside_trans; [|exact Ho].
        apply Swap_same_outside; lia.
    + split; [|apply same_outside_refl].
      apply andb_false_iff in Hgo as [Haj|Hlt].
      * apply Nat.ltb_ge in Haj. assert (a = S j) as -> by lia. done.
      * intros i k u v Hi Hik Hk Hu Hv.
        destruct (decide (k < S j)); [eapply (Hpre i k); try done; lia|].
        destruct (decide (S j ≤ i)); [eapply (Hsuf i k); try done; lia|].
        destruct (decide (k = S j)) as [->|].
        -- simplify_eq. apply (ord_le_trans _ y); [|done].
           eapply (Hpre i j); try done; lia.
        -- eapply (Hcross i k); try done; lia.
Qed.

Lemma insertion_loop_spec a b : ∀ n i d,
  a < i → i + n = b → b ≤ length d →
  sorted_on d a i →
  sorted_on (insertion_loop less d a i n) a b
  ∧ same_outside d (insertion_loop less d a i n) a b.
Proof.
  induction n as [|n IH]; intros i d Hai Hb Hlen Hs; simpl.
  - split; [|apply same_outside_refl]. by replace b with i by lia.
  - destruct (shift_down_spec a i i d) as [Hs1 Ho1]; try lia; try done.
    + intros j k x y Hj Hjk Hk Hx Hy. assert (j = k) as -> by lia.
      simplify_eq. apply ord_le_refl.
    + destruct (IH (S i) (shift_down less d a i)) as [Hs2 Ho2]; try lia; try done.
      * destruct Ho1 as [-> _]. done.
      * split; [done|]. eapply same_outside_trans; [|exact Ho2].
        eapply same_outside_weaken; [| |exact Ho1]; lia.
Qed.

Lemma insertionSort_func_spec d a b :
  a ≤ b → b ≤ length d →
  sorted_on (insertionSort_func less d a b) a b
  ∧ same_outside d (insertionSort_func less d a b) a b.
Proof.
  intros Hab Hb. unfold insertionSort_func.
  destruct (decide (b ≤ a + 1)).
  - replace (b - (a + 1)) with 0 by lia. simpl. split; [|apply same_outside_refl].
    intros i j x y Hi Hij Hj Hx Hy. assert (i = j) as -> by lia.
    simplify_eq. apply ord_le_refl.
  - apply insertion_loop_spec; try lia; try done.
    intros i j x y Hi Hij Hj Hx Hy. assert (i = j) as -> by lia.
    simplify_eq. apply ord_le_refl.
Qed.

(** *** Partitioning *)

Lemma scan_up_spec (P : nat → bool) : ∀ fuel i j,
  i ≤ scan_up P fuel i j
  ∧ scan_up P fuel i j ≤ i `max` S j
  ∧ (∀ k, i ≤ k → k < scan_up P fuel i j → P k = true)
  ∧ (S j - i ≤ fuel → j < scan_up P fuel i j ∨ P (scan_up P fuel i j) = false).
Proof.
  induction fuel as [|fuel IH]; intros i j; simpl.
  - repeat split; intros; lia.
  - destruct ((i <=? j) && P i) eqn:Hgo.
    + apply andb_true_iff in Hgo as [Hij HP]. apply Nat.leb_le in Hij.
      destruct (IH (S i) j) as (H1 & H2 & H3 & H4).
      repeat split; try lia.
      * intros k Hk1 Hk2. destruct (decide (k = i)) as [->|]; [done|]. apply H3; lia.
      * intros Hf. apply H4. lia.
    + repeat split; try lia. intros _.
      apply andb_false_iff in Hgo as [Hij|HP]; [|by right].
      apply Nat.leb_gt in Hij. left. lia.
Qed.

Lemma scan_down_spec (P : nat → bool) : ∀ fuel i j,
  1 ≤ i →
  scan_down P fuel i j ≤ j
  ∧ (i ≤ S j → i ≤ S (scan_down P fuel i j))
  ∧ (∀ k, scan_down P fuel i j < k → k ≤ j → P k = true)
  ∧ (S j - i ≤ fuel → scan_down P fuel i j < i ∨ P (scan_down P fuel i j) = false).
Proof.
  induction fuel as [|fuel IH]; intros i j Hi; simpl.
  - repeat split; intros; lia.
  - destruct ((i <=? j) && P j) eqn:Hgo.
    + apply andb_true_iff in Hgo as [Hij HP]. apply Nat.leb_le in Hij.
      destruct (IH i (pred j) Hi) as (H1 & H2 & H3 & H4).
      repeat split; try lia.
      * intros k Hk1 Hk2. destruct (decide (k = j)) as [->|]; [done|]. apply H3; lia.
      * intros Hf. apply H4. lia.
    + repeat split; try lia. intros _.
      apply andb_false_iff in Hgo as [Hij|HP]; [|by right].
      apply Nat.leb_gt in Hij. left. lia.
Qed.

Lemma scan_down_ext (P Q : nat → bool) : (∀ k, P k = Q k) →
  ∀ fuel i j, scan_down P fuel i j = scan_down Q fuel i j.
Proof.
  intros HPQ. induction fuel as [|fuel IH]; intros i j; simpl; [done|].
  rewrite HPQ. by rewrite IH.
Qed.

(** The loop shared by [partition_func] and [partitionEqual_func]: [q]
    tells, from the data, which positions belong to the left part. *)
Fixpoint gen_loop (q : list A → nat → bool) (fuel : nat) (d : list A) (i j : nat)
  : list A * nat * nat :=
  match fuel with
  | O => (d, i, j)
  | S f =>
      let i1 := scan_up (q d) (length d) i j in
      let j1 := scan_down (λ k, negb (q d k)) (length d) i1 j in
      if j1 <? i1 then (d, i1, j1)
      else gen_loop q f (Swap d i1 j1) (S i1) (pred j1)
  end.

Lemma partition_loop_gen a : ∀ fuel d i j,
  partition_loop less fuel d a i j
  = ((gen_loop (λ d k, Less less d k a) fuel d i j).1.1,
     (gen_loop (λ d k, Less less d k a) fuel d i j).2).
Proof.
  induction fuel as [|fuel IH]; intros d i j; simpl; [done|].
  case_match; [done|]. apply IH.
Qed.

Lemma partitionEqual_loop_gen a : ∀ fuel d i j,
  partitionEqual_loop less fuel d a i j
  = ((gen_loop (λ d k, negb (Less less d a k)) fuel d i j).1.1,
     (gen_loop (λ d k, negb (Less less d a k)) fuel d i j).1.2).
Proof.
  induction fuel as [|fuel IH]; intros d i j; simpl; [done|].
  rewrite (scan_down_ext (λ k, negb (negb (Less less d a k))) (λ k, Less less d a k))
    by (intros; apply negb_involutive).
  case_match; [done|]. apply IH.
Qed.

Lemma gen_loop_spec (q : list A → nat → bool) (q0 : A → bool) (p : A) a b :
  (∀ d k x, d !! a = Some p → d !! k = Some x → q d k = q0 x) →
  ∀ fuel d i j,
    a < i → i ≤ S j → j < b → b ≤ length d →
    d !! a = Some p →
    all_in d (S a) i (λ x, q0 x = true) →
    all_in d (S j) b (λ x, q0 x = false) →
    S j - i ≤ fuel →
    let r := gen_loop q fuel d i j in
    same_outside d r.1.1 (S a) b
    ∧ r.1.2 = S r.2 ∧ a < r.1.2 ∧ r.1.2 ≤ b
    ∧ all_in r.1.1 (S a) r.1.2 (λ x, q0 x = true)
    ∧ all_in r.1.1 r.1.2 b (λ x, q0 x = false).
Proof.
  intros Hq. induction fuel as [|fuel IH]; intros d i j Hai Hij Hjb Hb Hp Hleft Hright Hfuel;
    simpl.
  - assert (i = S j) as -> by lia.
    split; [apply same_outside_refl|]. repeat split; try done; lia.
  - set (i1 := scan_up (q d) (length d) i j).
    set (j1 := scan_down (λ k, negb (q d k)) (length d) i1 j).
    destruct (scan_up_spec (q d) (length d) i j) as (U1 & U2 & U3 & U4).
    fold i1 in U1, U2, U3, U4.
    destruct (scan_down_spec (λ k, negb (q d k)) (length d) i1 j) as (D1 & D2 & D3 & D4);
      [lia|]. fold j1 in D1, D2, D3, D4.
    assert (all_in d (S a) i1 (λ x, q0 x = true)) as Hleft1.
    { intros k x Hk1 Hk2 Hx. destruct (decide (k < i)); [by eapply Hleft|].
      rewrite <- (Hq d k x Hp Hx). apply U3; lia. }
    assert (all_in d (S j1) b (λ x, q0 x = false)) as Hright1.
    { intros k x Hk1 Hk2 Hx. destruct (decide (j < k)); [eapply Hright; eauto; lia|].
      rewrite <- (Hq d k x Hp Hx). apply negb_true_iff. apply D3; lia. }
    destruct (j1 <? i1) eqn:Hexit; simpl.
    + apply Nat.ltb_lt in Hexit.
      split; [apply same_outside_refl|].
      assert (i1 = S j1) as Hi1 by lia.
      repeat split; try done; try lia.
      by rewrite Hi1.
    + apply Nat.ltb_ge in Hexit.
      destruct (lookup_in_range d i1) as [x Hx]; [lia|].
      destruct (lookup_in_range d j1) as [y Hy]; [lia|].
      assert (q0 x = false) as Hqx.
      { destruct U4 as [?|U4]; [lia|lia|]. by rewrite (Hq d i1 x Hp Hx) in U4. }
      assert (q0 y = true) as Hqy.
      { destruct D4 as [?|D4]; [lia|lia|].
        rewrite (Hq d j1 y Hp Hy) in D4. by apply negb_false_iff in D4. }
      assert (i1 < j1) as Hlt.
      { destruct (decide (i1 = j1)) as [E|]; [|lia]. rewrite E in Hx. congruence. }
      destruct (IH (Swap d i1 j1) (S i1) (pred j1)) as (R1 & R2 & R3 & R4 & R5 & R6);
        try lia.
      * by rewrite Swap_length.
      * rewrite Swap_lookup by lia. repeat case_decide; try lia. done.
      * intros k z Hk1 Hk2 Hz. swap_lookup Hz.
        -- by simplify_eq.
        -- eapply (Hleft1 k z); [lia|lia|done].
      * intros k z Hk1 Hk2 Hz. swap_lookup Hz.
        -- by simplify_eq.
        -- eapply (Hright1 k z); [lia|lia|done].
      * split; [|done].
        eapply same_outside_trans; [|exact R1].
        apply Swap_same_outside; lia.
Qed.

Lemma partition_func_gen d a b pivot :
  (partition_func less d a b pivot).1
  = (Swap (gen_loop (λ d k, Less less d k a) (S (length d)) (Swap d a pivot)
             (a + 1) (b - 1)).1.1
       (gen_loop (λ d k, Less less d k a) (S (length d)) (Swap d a pivot)
          (a + 1) (b - 1)).2 a,
     (gen_loop (λ d k, Less less d k a) (S (length d)) (Swap d a pivot)
        (a + 1) (b - 1)).2).
Proof.
  unfold partition_func. simpl. case_match; [done|].
  rewrite partition_loop_gen, !Swap_length.
  by destruct (gen_loop _ _ _ _ _) as [[? ?] ?].
Qed.

Lemma partition_func_spec d a b pivot p :
  a ≤ pivot → pivot < b → b ≤ length d → d !! pivot = Some p →
  let r := (partition_func less d a b pivot).1 in
  same_outside d r.1 a b
  ∧ a ≤ r.2 ∧ r.2 < b ∧ r.1 !! r.2 = Some p
  ∧ all_in r.1 a r.2 (λ x, less x p = true)
  ∧ all_in r.1 (S r.2) b (λ x, less x p = false).
Proof.
  intros Hap Hpb Hb Hp. rewrite partition_func_gen. cbv zeta.
  set (d0 := Swap d a pivot).
  assert (d0 !! a = Some p) as Hp0.
  { unfold d0. rewrite Swap_lookup by lia. by rewrite decide_True. }
  assert (same_outside d d0 a b) as Ho0 by (apply Swap_same_outside; lia).
  assert (length d0 = length d) as Hl0 by apply Swap_length.
  pose proof (gen_loop_spec (λ d k, Less less d k a) (λ x, less x p) p a b
                ltac:(intros; by apply Less_lookup)
                (S (length d)) d0 (a + 1) (b - 1)) as Hgen.
  cbv zeta in Hgen.
  destruct Hgen as (R1 & R2 & R3 & R4 & R5 & R6); try lia; try done.
  { intros k x ? ?; lia. }
  { intros k x ? ?; lia. }
  destruct (gen_loop _ _ d0 _ _) as [[d2 i2] j2]. simpl in *. subst i2.
  destruct R1 as [Hl2 Hout2].
  assert (d2 !! a = Some p) as Hp2 by (rewrite Hout2 by lia; done).
  repeat split; try lia.
  - rewrite Swap_length. lia.
  - intros k Hk. rewrite Swap_lookup by lia. repeat case_decide; try lia.
    rewrite Hout2 by lia. by apply Ho0.
  - rewrite Swap_lookup by lia. by rewrite decide_True.
  - intros k x Hk1 Hk2 Hx. swap_lookup Hx.
    + eapply (R5 j2 x); [lia|lia|done].
    + eapply (R5 k x); [lia|lia|done].
  - intros k x Hk1 Hk2 Hx. swap_lookup Hx.
    eapply (R6 k x); [lia|lia|done].
Qed.

Lemma partitionEqual_func_spec d a b pivot p :
  a ≤ pivot → pivot < b → b ≤ length d → d !! pivot = Some p →
  let r := partitionEqual_func less d a b pivot in
  same_outside d r.1 a b
  ∧ a < r.2 ∧ r.2 ≤ b
  ∧ all_in r.1 a r.2 (λ x, less p x = false)
  ∧ all_in r.1 r.2 b (λ x, less p x = true).
Proof.
  intros Hap Hpb Hb Hp. unfold partitionEqual_func. rewrite partitionEqual_loop_gen. cbv zeta.
  set (d0 := Swap d a pivot).
  assert (d0 !! a = Some p) as Hp0.
  { unfold d0. rewrite Swap_lookup by lia. by rewrite decide_True. }
  assert (same_outside d d0 a b) as Ho0 by (apply Swap_same_outside; lia).
  assert (length d0 = length d) as Hl0 by apply Swap_length.
  pose proof (gen_loop_spec (λ d k, negb (Less less d a k)) (λ x, negb (less p x)) p a b
                ltac:(intros; simpl; f_equal; by apply Less_lookup)
                (length d0) d0 (a + 1) (b - 1)) as Hgen.
  cbv zeta in Hgen.
  destruct Hgen as (R1 & R2 & R3 & R4 & R5 & R6); try lia; try done.
  { intros k x ? ?; lia. }
  { intros k x ? ?; lia. }
  destruct (gen_loop _ _ d0 _ _) as [[d2 i2] j2]. simpl in *. subst i2.
  destruct R1 as [Hl2 Hout2].
  assert (d2 !! a = Some p) as Hp2 by (rewrite Hout2 by lia; done).
  repeat split; try lia.
  - intros k Hk. rewrite Hout2 by lia. by apply Ho0.
  - intros k x Hk1 Hk2 Hx. destruct (decide (k = a)) as [->|].
    + simplify_eq. apply (sw_irrefl _ Hsw).
    + apply negb_true_iff. eapply (R5 k x); [lia|lia|done].
  - intros k x Hk1 Hk2 Hx. apply negb_false_iff. eapply (R6 k x); [lia|lia|done].
Qed.

Definition lower_bounded (d : list A) (a b : nat) : Prop :=
  ∀ x, 0 < a → d !! (a - 1) = Some x → all_in d a b (ord_le x).

Lemma lower_bounded_preserved d d' a b :
  a ≤ b → b ≤ length d → d' ≡ₚ d → same_outside d d' a b → lower_bounded d a b → lower_bounded d' a b.
Proof.
  intros Hab Hb Hp Ho Hlb x Ha Hx.
  eapply all_in_perm; eauto. apply Hlb; [done|].
  destruct Ho as [_ Ho]. rewrite <- Ho by lia. done.
Qed.

Lemma lower_bounded_weaken d a b b' : b' ≤ b → lower_bounded d a b → lower_bounded d a b'.
Proof.
  intros ? Hlb x Ha Hx k y ? ? Hy. eapply (Hlb x Ha Hx k y); [lia|lia|done].
Qed.

Lemma reverse_loop_frame a b : ∀ fuel d i j,
  a ≤ i → j < b → b ≤ length d → same_outside d (reverse_loop fuel d i j) a b.
Proof.
  induction fuel as [|fuel IH]; intros d i j ? ? ?; simpl; [apply same_outside_refl|].
  destruct (i <? j) eqn:Hij; [|apply same_outside_refl].
  apply Nat.ltb_lt in Hij.
  apply (same_outside_trans _ (Swap d i j)); [apply Swap_same_outside; lia|].
  apply IH; rewrite ?Swap_length; lia.
Qed.

Lemma reverseRange_func_frame d a b :
  a < b → b ≤ length d → same_outside d (reverseRange_func d a b) a b.
Proof. intros. apply reverse_loop_frame; lia. Qed.

Lemma shift_greater_frame a b : ∀ fuel d j,
  a < j → b ≤ length d → same_outside d (shift_greater less fuel d j b) a b.
Proof.
  induction fuel as [|fuel IH]; intros d j ? ?; simpl; [apply same_outside_refl|].
  destruct (b <=? j) eqn:Hbj; [apply same_outside_refl|].
  apply Nat.leb_gt in Hbj.
  destruct (Less less d j (j - 1)); simpl; [|apply same_outside_refl].
  apply (same_outside_trans _ (Swap d j (j - 1))); [apply Swap_same_outside; lia|].
  apply IH; rewrite ?Swap_length; lia.
Qed.

Lemma shift_smaller_shift_down j : ∀ d, shift_smaller less d j = shift_down less d 0 j.
Proof.
  induction j as [|j IH]; intros d; simpl; [done|].
  destruct (Less less d (S j) j); simpl; [apply IH|done].
Qed.

Lemma shift_down_lb a x : ∀ j d,
  0 < a → a ≤ j → j < length d → d !! (a - 1) = Some x →
  (∀ y, d !! j = Some y → ord_le x y) →
  shift_down less d 0 j = shift_down less d a j.
Proof.
  induction j as [|j IH]; intros d Ha Haj Hj Hx Hy; [lia|].
  simpl. destruct (a <? S j) eqn:Ha'.
  - apply Nat.ltb_lt in Ha'. destruct (Less less d (S j) j) eqn:HL; simpl; [|done].
    apply IH; rewrite ?Swap_length; try lia.
    + rewrite Swap_lookup by lia. repeat case_decide; try lia. done.
    + intros y Hy'. swap_lookup Hy'. by apply Hy.
  - apply Nat.ltb_ge in Ha'. assert (j = a - 1) as -> by lia.
    destruct (lookup_in_range d (S (a - 1)) ltac:(lia)) as [y Hy'].
    rewrite (Less_lookup d _ _ y x) by done.
    by rewrite (Hy y Hy').
Qed.

Lemma sorted_on_adjacent d a i : ∀ i',
  a < i → i ≤ i' → i' ≤ length d → sorted_on d a i →
  (∀ k x y, i ≤ k → k < i' → d !! (k - 1) = Some x → d !! k = Some y → ord_le x y) →
  sorted_on d a i'.
Proof.
  intros i' Ha Hi. induction Hi as [|i' Hi IH]; intros Hlen Hs Hadj; [done|].
  assert (sorted_on d a i') as Hs'.
  { apply IH; [lia|done|]. intros k x y ? ?. apply Hadj; lia. }
  intros u v x y Hu Huv Hv Hx Hy.
  destruct (decide (v = i')) as [->|]; [|eapply (Hs' u v); eauto; lia].
  destruct (decide (u = i')) as [->|]; [simplify_eq; apply ord_le_refl|].
  destruct (lookup_in_range d (i' - 1) ltac:(lia)) as [z Hz].
  apply (ord_le_trans x z y).
  - eapply (Hs' u (i' - 1)); eauto; lia.
  - eapply (Hadj i'); eauto; lia.
Qed.

Lemma partialInsertionSort_loop_spec a b : ∀ steps d i,
  a < i → i ≤ b → b ≤ length d → sorted_on d a i → lower_bounded d a b →
  same_outside d (partialInsertionSort_loop less steps d a b i).1 a b
  ∧ ((partialInsertionSort_loop less steps d a b i).2 = true →
     sorted_on (partialInsertionSort_loop less steps d a b i).1 a b).
Proof.
  induction steps as [|steps IH]; intros d i Hai Hib Hlen Hs Hlb; simpl.
  { split; [apply same_outside_refl|done]. }
  set (P := λ k, (k <? b) && negb (Less less d k (k - 1))).
  destruct (scan_up_spec P (length d) i b) as (S1 & S2 & S3 & S4).
  set (i' := scan_up P (length d) i b) in *.
  assert (i' ≤ b) as Hi'b.
  { destruct (decide (i' ≤ b)); [done|].
    assert (P b = true) as HP by (apply S3; lia).
    unfold P in HP. apply andb_true_iff in HP as [HP _]. apply Nat.ltb_lt in HP. lia. }
  assert (sorted_on d a i') as Hs'.
  { apply (sorted_on_adjacent d a i); try done; try lia.
    intros k x y ? ? Hx Hy. assert (P k = true) as HP by (apply S3; lia).
    unfold P in HP. apply andb_true_iff in HP as [_ HP]. apply negb_true_iff in HP.
    rewrite (Less_lookup d _ _ y x) in HP by done. done. }
  destruct (i' =? b) eqn:Heq.
  { apply Nat.eqb_eq in Heq. simpl. split; [apply same_outside_refl|]. intros _. by rewrite <- Heq. }
  apply Nat.eqb_neq in Heq.
  destruct (b - a <? 50); simpl; [split; [apply same_outside_refl|done]|].
  assert (Less less d i' (i' - 1) = true) as HL.
  { destruct S4 as [?|HP]; [lia|lia|]. unfold P in HP.
    apply andb_false_iff in HP as [HP|HP]; [apply Nat.ltb_ge in HP; lia|].
    by apply negb_false_iff in HP. }
  set (d1 := Swap d i' (i' - 1)).
  set (d2 := if 2 <=? i' - a then shift_smaller less d1 (i' - 1) else d1).
  set (d3 := if 2 <=? b - i' then shift_greater less (length d2) d2 (i' + 1) b else d2).
  assert (same_outside d d1 a b) as Ho1 by (apply Swap_same_outside; lia).
  assert (d1 ≡ₚ d) as Hp1 by apply Swap_perm.
  assert (lower_bounded d1 a b) as Hlb1 by (eapply lower_bounded_preserved; eauto; lia).
  assert (length d1 = length d) as Hl1 by apply Swap_length.
  assert (sorted_on d1 a (i' - 1)) as Hs1.
  { intros u v x y ? ? ? Hx Hy. unfold d1 in Hx, Hy. swap_lookup Hx. swap_lookup Hy.
    eapply (Hs' u v); eauto; lia. }
  assert (same_outside d1 d2 a i' ∧ sorted_on d2 a i') as [Ho2 Hs2].
  { unfold d2. destruct (2 <=? i' - a) eqn:H2.
    - apply Nat.leb_le in H2. rewrite shift_smaller_shift_down.
      assert (shift_down less d1 0 (i' - 1) = shift_down less d1 a (i' - 1)) as ->.
      { destruct (decide (0 < a)) as [Ha0|Ha0]; [|by replace a with 0 by lia].
        destruct (lookup_in_range d1 (a - 1) ltac:(lia)) as [x Hx].
        apply (shift_down_lb a x); try done; try lia.
        intros y Hy. eapply (Hlb1 x Ha0 Hx (i' - 1)); [lia|lia|done]. }
      destruct (shift_down_spec a (i' - 1) (i' - 1) d1) as [Q1 Q2]; try lia; try done.
      + intros u v x y ? ? ? Hx Hy. assert (u = v) by lia. simplify_eq. apply ord_le_refl.
      + replace (S (i' - 1)) with i' in * by lia. done.
    - apply Nat.leb_gt in H2. split; [apply same_outside_refl|].
      intros u v x y ? ? ? Hx Hy. assert (u = v) by lia. simplify_eq. apply ord_le_refl. }
  assert (length d2 = length d1) as Hl2 by apply Ho2.
  assert (same_outside d2 d3 i' b) as Ho3.
  { unfold d3. destruct (2 <=? b - i'); [|apply same_outside_refl].
    apply shift_greater_frame; lia. }
  assert (same_outside d d3 a b) as Ho.
  { eapply same_outside_trans; [exact Ho1|].
    eapply same_outside_trans; [eapply same_outside_weaken; [| |exact Ho2]; lia|].
    eapply same_outside_weaken; [| |exact Ho3]; lia. }
  assert (d3 ≡ₚ d) as Hp3.
  { unfold d3, d2. repeat case_match;
      rewrite ?shift_greater_perm, ?shift_smaller_perm; done. }
  destruct (IH d3 i') as [I1 I2]; try lia.
  - destruct Ho as [-> _]. lia.
  - eapply sorted_on_same; [exact Ho3| |exact Hs2]. lia.
  - eapply lower_bounded_preserved; eauto; lia.
  - split; [|done]. eapply same_outside_trans; eauto.
Qed.

Lemma partialInsertionSort_func_spec d a b :
  a < b → b ≤ length d → lower_bounded d a b →
  same_outside d (partialInsertionSort_func less d a b).1 a b
  ∧ ((partialInsertionSort_func less d a b).2 = true →
     sorted_on (partialInsertionSort_func less d a b).1 a b).
Proof.
  intros. apply partialInsertionSort_loop_spec; try lia; try done.
  intros u v x y ? ? ? Hx Hy. assert (u = v) by lia. simplify_eq. apply ord_le_refl.
Qed.

Lemma median_func_range d x y z s :
  (median_func less d x y z s).1 = x ∨ (median_func less d x y z s).1 = y
  ∨ (median_func less d x y z s).1 = z.
Proof.
  unfold median_func, order2_func. repeat case_match; simplify_eq; simpl; auto.
Qed.

Lemma choosePivot_func_range d a b :
  8 ≤ b - a →
  a ≤ (choosePivot_func less d a b).1 ∧ (choosePivot_func less d a b).1 < b.
Proof.
  intros Hl. unfold choosePivot_func, medianAdjacent_func.
  pose proof (Nat.div_mod_eq (b - a) 4) as Hq.
  pose proof (Nat.mod_upper_bound (b - a) 4 ltac:(lia)) as Hr.
  set (q := (b - a) / 4) in *.
  assert (2 ≤ q) as Hq2 by lia.
  destruct (8 <=? b - a) eqn:H8; [|apply Nat.leb_gt in H8; lia].
  destruct (50 <=? b - a);
    repeat match goal with
    | |- context [median_func less ?d ?x ?y ?z ?s] =>
        let H := fresh "Hm" in
        pose proof (median_func_range d x y z s) as H;
        destruct (median_func less d x y z s) as [? ?]; simpl in H
    end;
    repeat case_match; simpl; lia.
Qed.

Lemma breakPatterns_other_lt (l : nat) (r : Z) :
  0 < l →
  (if l <=? Z.to_nat (Z.land r (2 ^ Z.of_nat (bits_Len l) - 1))
   then Z.to_nat (Z.land r (2 ^ Z.of_nat (bits_Len l) - 1)) - l
   else Z.to_nat (Z.land r (2 ^ Z.of_nat (bits_Len l) - 1))) < l.
Proof.
  intros Hl. unfold bits_Len. destruct (l =? 0) eqn:H0; [apply Nat.eqb_eq in H0; lia|].
  replace (2 ^ Z.of_nat (S (Nat.log2 l)) - 1)%Z with (Z.ones (Z.of_nat (S (Nat.log2 l))))
    by (rewrite Z.ones_equiv; lia).
  rewrite Z.land_ones by lia.
  pose proof (Z.mod_pos_bound r (2 ^ Z.of_nat (S (Nat.log2 l))) ltac:(lia)) as Hm.
  pose proof (Nat.log2_spec l Hl) as [Hlog _].
  assert (2 ^ Z.of_nat (S (Nat.log2 l)) ≤ 2 * Z.of_nat l)%Z as Hpow.
  { rewrite Nat2Z.inj_succ, Z.pow_succ_r by lia.
    pose proof (Nat2Z.inj_pow 2 (Nat.log2 l)) as Hp. simpl Z.of_nat in Hp at 2. lia. }
  destruct (l <=? _) eqn:Hc; [|apply Nat.leb_gt in Hc; lia].
  lia.
Qed.

Lemma breakPatterns_func_frame (d : list A) a b :
  b ≤ length d → same_outside d (breakPatterns_func d a b) a b.
Proof.
  intros Hb. unfold breakPatterns_func.
  destruct (8 <=? b - a) eqn:H8; [|apply same_outside_refl].
  apply Nat.leb_le in H8.
  pose proof (Nat.div_mod_eq (b - a) 4) as Hq.
  pose proof (Nat.mod_upper_bound (b - a) 4 ltac:(lia)) as Hr.
  cbn [foldl fst snd].
  repeat match goal with
  | |- same_outside ?d (Swap ?d' ?i (?a + ?o)) _ _ =>
      apply (same_outside_trans d d');
      [|let H := fresh in
        pose proof (breakPatterns_other_lt (b - a) ltac:(match o with context [Z.land ?r _] => exact r end)
                      ltac:(lia)) as H;
        apply Swap_same_outside; rewrite ?Swap_length; lia]
  end.
  apply same_outside_refl.
Qed.

Definition child_of (c i : nat) : Prop := c = 2 * i + 1 ∨ c = 2 * i + 2.

Definition heap_but (d : list A) (first lo hi : nat) (ex : option nat) : Prop :=
  ∀ i c x y, lo ≤ i → ex ≠ Some i → child_of c i → c < hi →
    d !! (first + i) = Some x → d !! (first + c) = Some y → ord_le y x.

Definition heap_gp (d : list A) (first lo hi root : nat) : Prop :=
  ∀ i c x y, lo ≤ i → child_of root i → child_of c root → c < hi →
    d !! (first + i) = Some x → d !! (first + c) = Some y → ord_le y x.

Lemma heap_but_leaf d first lo hi root :
  hi ≤ 2 * root + 1 → heap_but d first lo hi (Some root) → heap_but d first lo hi None.
Proof.
  intros Hhi Hb i c x y Hi _ Hc Hchi Hx Hy.
  destruct (decide (i = root)) as [->|Hne]; [unfold child_of in Hc; lia|].
  eapply (Hb i c); eauto. congruence.
Qed.

Lemma Less_lookup' (d : list A) i j i' j' x y :
  i = i' → j = j' → d !! i' = Some x → d !! j' = Some y → Less less d i j = less x y.
Proof. intros -> ->. apply Less_lookup. Qed.

Lemma siftDown_func_spec first lo hi : ∀ fuel d root,
  first + hi ≤ length d → lo ≤ root → hi - root ≤ fuel →
  heap_but d first lo hi (Some root) → heap_gp d first lo hi root →
  heap_but (siftDown_func less fuel d root hi first) first lo hi None
  ∧ same_outside d (siftDown_func less fuel d root hi first) (first + root) (first + hi).
Proof.
  induction fuel as [|fuel IH]; intros d root Hlen Hlo Hfuel Hb Hg; cbn [siftDown_func].
  { split; [|apply same_outside_refl]. apply (heap_but_leaf _ _ _ _ root); [lia|done]. }
  destruct (hi <=? 2 * root + 1) eqn:Hchild.
  { apply Nat.leb_le in Hchild. split; [|apply same_outside_refl].
    by apply (heap_but_leaf _ _ _ _ root). }
  apply Nat.leb_gt in Hchild.
  destruct (lookup_in_range d (first + root) ltac:(lia)) as [xr Hxr].
  destruct (lookup_in_range d (first + (2 * root + 1)) ltac:(lia)) as [x1 Hx1].
  set (c := if (2 * root + 1 + 1 <? hi)
                 && Less less d (first + (2 * root + 1)) (first + (2 * root + 1) + 1)
            then 2 * root + 1 + 1 else 2 * root + 1).
  assert (∃ xc, d !! (first + c) = Some xc ∧ root < c ∧ c < hi ∧ child_of c root ∧
     ∀ c' y, child_of c' root → c' < hi → d !! (first + c') = Some y → ord_le y xc)
    as (xc & Hxc & Hrc & Hchi & Hcc & Hmax).
  { subst c. destruct (2 * root + 1 + 1 <? hi) eqn:H2; simpl andb.
    - apply Nat.ltb_lt in H2.
      destruct (lookup_in_range d (first + (2 * root + 2)) ltac:(lia)) as [x2 Hx2].
      rewrite (Less_lookup' d _ _ (first + (2 * root + 1)) (first + (2 * root + 2)) x1 x2)
        by (done || lia).
      destruct (less x1 x2) eqn:HL.
      + exists x2. replace (first + (2 * root + 1 + 1)) with (first + (2 * root + 2)) by lia.
        split; [done|]. split; [lia|]. split; [lia|]. split; [right; lia|].
        intros c' y [-> | ->] ? Hy; simplify_eq; [by apply ord_lt_le | apply ord_le_refl].
      + exists x1. split; [done|]. split; [lia|]. split; [lia|]. split; [left; lia|].
        intros c' y [-> | ->] ? Hy; simplify_eq; [apply ord_le_refl | by apply ord_not_lt_le].
    - apply Nat.ltb_ge in H2. exists x1.
      split; [done|]. split; [lia|]. split; [lia|]. split; [left; lia|].
      intros c' y [-> | ->] ? Hy; simplify_eq; [apply ord_le_refl | lia]. }
  clearbody c.
  rewrite (Less_lookup d _ _ xr xc) by done.
  destruct (less xr xc) eqn:HL; simpl negb; cbv iota.
  2: { split; [|apply same_outside_refl].
       intros i c' x y Hi _ Hc Hc' Hx Hy.
       destruct (decide (i = root)) as [->|Hne].
       - assert (x = xr) as -> by congruence.
         apply (ord_le_trans y xc xr); [by eapply Hmax | by apply ord_not_lt_le].
       - eapply (Hb i c'); eauto. congruence. }
  destruct (IH (Swap d (first + root) (first + c)) c) as [I1 I2];
    rewrite ?Swap_length; try lia.
  - intros i k x y Hi Hne Hk Hkhi Hx Hy.
    assert (i ≠ c) as Hic by congruence.
    destruct (decide (i = root)) as [->|Hir].
    + rewrite Swap_lookup in Hx by lia. rewrite decide_True in Hx by done.
      assert (x = xc) as -> by congruence.
      destruct (decide (k = c)) as [->|Hkc].
      * rewrite Swap_lookup in Hy by lia.
        rewrite decide_False, decide_True in Hy by (done || lia).
        assert (y = xr) as -> by congruence. by apply ord_lt_le.
      * rewrite Swap_lookup in Hy by lia.
        rewrite !decide_False in Hy by (unfold child_of in *; lia).
        by eapply Hmax.
    + rewrite Swap_lookup in Hx by lia.
      rewrite !decide_False in Hx by lia.
      destruct (decide (k = root)) as [->|Hkr].
      * rewrite Swap_lookup in Hy by lia. rewrite decide_True in Hy by done.
        assert (y = xc) as -> by congruence.
        by eapply (Hg i c).
      * assert (k ≠ c) by (unfold child_of in *; lia).
        rewrite Swap_lookup in Hy by lia. rewrite !decide_False in Hy by lia.
        eapply (Hb i k); eauto. congruence.
  - intros i k x y Hi Hci Hk Hkhi Hx Hy.
    assert (i = root) as -> by (unfold child_of in *; lia).
    rewrite Swap_lookup in Hx by lia. rewrite decide_True in Hx by done.
    assert (x = xc) as -> by congruence.
    rewrite Swap_lookup in Hy by lia.
    rewrite !decide_False in Hy by (unfold child_of in *; lia).
    eapply (Hb c k); eauto; try lia. intros [=]; lia.
  - split; [done|].
    apply (same_outside_trans _ (Swap d (first + root) (first + c)));
      [apply Swap_same_outside; lia|].
    eapply same_outside_weaken; [| |exact I2]; lia.
Qed.

Lemma heap_root_max d first hi :
  first + hi ≤ length d → heap_but d first 0 hi None →
  ∀ k x y, k < hi → d !! first = Some x → d !! (first + k) = Some y → ord_le y x.
Proof.
  intros Hlen Hh k. induction (lt_wf k) as [k _ IH]. intros x y Hk Hx Hy.
  destruct (decide (k = 0)) as [->|Hk0].
  - rewrite Nat.add_0_r in Hy. simplify_eq. apply ord_le_refl.
  - set (p := (k - 1) / 2).
    assert (child_of k p) as Hc.
    { unfold child_of, p. pose proof (Nat.div_mod_eq (k - 1) 2).
      pose proof (Nat.mod_upper_bound (k - 1) 2). lia. }
    destruct (lookup_in_range d (first + p)) as [z Hz]; [unfold child_of in *; lia|].
    apply (ord_le_trans y z x).
    + eapply (Hh p k); eauto. lia.
    + eapply (IH p); eauto; unfold child_of in *; lia.
Qed.

Lemma heapify_spec first hi : ∀ n d,
  first + hi ≤ length d →
  heap_but d first n hi None →
  heap_but (foldl (λ d i, siftDown_func less hi d i hi first) d (reverse (seq 0 n)))
    first 0 hi None
  ∧ same_outside d
      (foldl (λ d i, siftDown_func less hi d i hi first) d (reverse (seq 0 n)))
      first (first + hi).
Proof.
  induction n as [|n IH]; intros d Hlen Hh.
  { simpl. split; [done|apply same_outside_refl]. }
  rewrite seq_S, reverse_snoc. cbn [foldl]. rewrite Nat.add_0_l.
  destruct (siftDown_func_spec first n hi hi d n) as [S1 S2]; try lia.
  - intros i c x y Hi Hne. apply Hh; [|done]. destruct (decide (i = n)); [congruence|lia].
  - intros i c x y Hi Hc. unfold child_of in Hc. lia.
  - destruct (IH (siftDown_func less hi d n hi first)) as [I1 I2]; [|done|].
    + destruct S2 as [-> _]. done.
    + split; [done|]. eapply same_outside_trans; [|exact I2].
      eapply same_outside_weaken; [| |exact S2]; lia.
Qed.

Lemma heap_extract_spec first hi0 : ∀ n d,
  n ≤ hi0 → first + hi0 ≤ length d →
  heap_but d first 0 n None →
  sorted_on d (first + n) (first + hi0) →
  (∀ k j x y, k < n → n ≤ j → j < hi0 →
     d !! (first + k) = Some x → d !! (first + j) = Some y → ord_le x y) →
  sorted_on
    (foldl (λ d i, siftDown_func less hi0 (Swap d first (first + i)) 0 i first) d
       (reverse (seq 0 n))) first (first + hi0)
  ∧ same_outside d
      (foldl (λ d i, siftDown_func less hi0 (Swap d first (first + i)) 0 i first) d
         (reverse (seq 0 n))) first (first + hi0).
Proof.
  induction n as [|n IH]; intros d Hn Hlen Hh Hs Hcross.
  { simpl. rewrite Nat.add_0_r in Hs. split; [done|apply same_outside_refl]. }
  rewrite seq_S, reverse_snoc. cbn [foldl]. rewrite Nat.add_0_l.
  set (d1 := Swap d first (first + n)).
  assert (length d1 = length d) as Hl1 by apply Swap_length.
  assert (same_outside d d1 first (first + S n)) as Ho1
    by (apply Swap_same_outside; lia).
  destruct (lookup_in_range d first ltac:(lia)) as [r Hr].
  destruct (siftDown_func_spec first 0 n hi0 d1 0) as [S1 S2]; try lia.
  { intros i c x y Hi Hne Hc Hcn Hx Hy.
    assert (i ≠ 0) by congruence.
    unfold d1 in Hx, Hy. rewrite Swap_lookup in Hx by lia. rewrite Swap_lookup in Hy by lia.
    rewrite !decide_False in Hx by (unfold child_of in *; lia).
    rewrite !decide_False in Hy by (unfold child_of in *; lia).
    eapply (Hh i c); eauto; lia. }
  { intros i c x y Hi Hc. unfold child_of in Hc. lia. }
  set (d2 := siftDown_func less hi0 d1 0 n first) in *.
  rewrite Nat.add_0_r in S2.
  assert (length d2 = length d1) as Hl2 by apply S2.
  assert (d2 !! (first + n) = Some r) as Hr2.
  { destruct S2 as [_ ->]; [|lia]. unfold d1. rewrite Swap_lookup by lia.
    destruct (decide (first + n = first)) as [Heq|_]; [by rewrite Heq|].
    by rewrite decide_True. }
  assert (∀ j, n < j → j < hi0 → d2 !! (first + j) = d !! (first + j)) as Hrest.
  { intros j ? ?. destruct S2 as [_ ->]; [|lia]. unfold d1.
    rewrite Swap_lookup by lia. by rewrite !decide_False by lia. }
  assert (∀ y, (∀ k x, k < S n → d !! (first + k) = Some x → ord_le x y) →
               ∀ k x, k < n → d2 !! (first + k) = Some x → ord_le x y) as Hall.
  { intros y Hy k x Hk Hx.
    assert (all_in d first (first + S n) (λ x, ord_le x y)) as Ha.
    { intros u z ? ? Hz. apply (Hy (u - first)); [lia|].
      by replace (first + (u - first)) with u by lia. }
    apply (all_in_perm d d1) in Ha; [|lia|lia|apply Swap_perm|done].
    assert (all_in d1 first (first + n) (λ x, ord_le x y)) as Ha'.
    { intros u z ? ? Hz. eapply (Ha u z); [lia|lia|done]. }
    apply (all_in_perm d1 d2) in Ha'; [|lia|lia|apply siftDown_func_perm|done].
    eapply (Ha' (first + k) x); [lia|lia|done]. }
  destruct (IH d2) as [I1 I2]; try lia; try done.
  - intros u v x y Hu Huv Hv Hx Hy.
    destruct (decide (u = v)) as [->|Hne]; [simplify_eq; apply ord_le_refl|].
    destruct (decide (u = first + n)) as [->|Hun].
    + assert (x = r) as -> by congruence.
      rewrite <- (Nat.sub_add first v), Nat.add_comm in Hy by lia.
      rewrite Hrest in Hy by lia.
      eapply (Hcross 0 (v - first)); eauto; try lia. by rewrite Nat.add_0_r.
    + rewrite <- (Nat.sub_add first v), Nat.add_comm in Hy by lia.
      rewrite <- (Nat.sub_add first u), Nat.add_comm in Hx by lia.
      rewrite Hrest in Hx by lia. rewrite Hrest in Hy by lia.
      eapply (Hs (first + (u - first)) (first + (v - first))); eauto; lia.
  - intros k j x y Hk Hj Hj' Hx Hy. revert k x Hk Hx. apply Hall.
    destruct (decide (j = n)) as [->|Hjn].
    + assert (y = r) as -> by congruence.
      intros k x Hk Hx. eapply (heap_root_max d first (S n)); eauto. lia.
    + rewrite Hrest in Hy by lia.
      intros k x Hk Hx. eapply (Hcross k j); eauto; lia.
  - split; [done|].
    eapply same_outside_trans; [|exact I2].
    apply (same_outside_trans _ d1);
      [eapply same_outside_weaken; [| |exact Ho1]; lia|].
    eapply same_outside_weaken; [| |exact S2]; lia.
Qed.

Lemma heapSort_func_spec d a b :
  a ≤ b → b ≤ length d →
  sorted_on (heapSort_func less d a b) a b
  ∧ same_outside d (heapSort_func less d a b) a b.
Proof.
  intros Hab Hb. unfold heapSort_func. cbv zeta.
  destruct (heapify_spec a (b - a) (S ((b - a - 1) / 2)) d) as [H1 H2]; [lia| |].
  { intros i c x y Hi _ Hc Hchi. unfold child_of in Hc.
    pose proof (Nat.div_mod_eq (b - a - 1) 2).
    pose proof (Nat.mod_upper_bound (b - a - 1) 2). lia. }
  set (d1 := foldl _ d _) in *.
  assert (length d1 = length d) as Hl1 by apply H2.
  destruct (heap_extract_spec a (b - a) (b - a) d1) as [E1 E2]; try lia; try done.
  - intros u v x y ? ? ?. lia.
  - replace (a + (b - a)) with b in * by lia.
    split; [done|]. eapply same_outside_trans; eauto.
Qed.

Lemma sorted_on_join d a mid b p :
  sorted_on d a mid → sorted_on d (S mid) b → d !! mid = Some p →
  all_in d a mid (λ y, ord_le y p) → all_in d (S mid) b (λ y, ord_le p y) →
  sorted_on d a b.
Proof.
  intros Hl Hr Hp Hal Har i j x y Hi Hij Hj Hx Hy.
  destruct (decide (j < mid)); [eapply (Hl i j); eauto; lia|].
  destruct (decide (mid < i)); [eapply (Hr i j); eauto; lia|].
  apply (ord_le_trans x p y).
  - destruct (decide (i = mid)) as [->|].
    + assert (x = p) as -> by congruence. apply ord_le_refl.
    + eapply (Hal i); eauto; lia.
  - destruct (decide (j = mid)) as [->|].
    + assert (y = p) as -> by congruence. apply ord_le_refl.
    + eapply (Har j); eauto; lia.
Qed.

Lemma all_in_frame d d' a b a' b' P :
  same_outside d d' a' b' → (b ≤ a' ∨ b' ≤ a) → all_in d a b P → all_in d' a b P.
Proof.
  intros [_ Ho] Hd Ha k x ? ? Hx. rewrite Ho in Hx by lia. eapply Ha; eauto.
Qed.

Lemma all_in_impl d a b (P Q : A → Prop) :
  (∀ x, P x → Q x) → all_in d a b P → all_in d a b Q.
Proof. intros HPQ Ha k x ? ? Hx. apply HPQ. eapply Ha; eauto. Qed.

Lemma pdqsort_loop_spec : ∀ fuel d a b limit wb wp,
  b - a < fuel → a ≤ b → b ≤ length d → lower_bounded d a b →
  sorted_on (pdqsort_loop less fuel d a b limit wb wp) a b
  ∧ same_outside d (pdqsort_loop less fuel d a b limit wb wp) a b.
Proof.
  induction fuel as [|fuel IH]; intros d a b limit wb wp Hfuel Hab Hb Hlb; [lia|].
  simpl.
  destruct (b - a <=? 12) eqn:H12; [by apply insertionSort_func_spec|].
  apply Nat.leb_gt in H12.
  destruct (limit =? 0); [by apply heapSort_func_spec|].
  set (st := if negb wb then (breakPatterns_func d a b, limit - 1) else (d, limit)).
  assert (same_outside d st.1 a b ∧ st.1 ≡ₚ d) as [Ho1 Hp1].
  { unfold st. destruct wb; simpl.
    - split; [apply same_outside_refl|done].
    - split; [by apply breakPatterns_func_frame|apply breakPatterns_func_perm]. }
  destruct st as [d1 limit1]. simpl in Ho1, Hp1.
  pose proof (choosePivot_func_range d1 a b ltac:(lia)) as Hpiv.
  destruct (choosePivot_func less d1 a b) as [pivot hint]. simpl in Hpiv.
  assert (length d1 = length d) as Hl1 by apply Ho1.
  set (st2 := match hint with
              | decreasingHint => _
              | _ => (d1, pivot, hint)
              end).
  assert (same_outside d st2.1.1 a b ∧ st2.1.1 ≡ₚ d ∧ a ≤ st2.1.2 ∧ st2.1.2 < b)
    as (Ho2 & Hp2 & Hpa & Hpb).
  { unfold st2. destruct hint; simpl; try (split; [done|split; [done|lia]]).
    split; [|split; [by rewrite reverseRange_func_perm|lia]].
    eapply same_outside_trans; [exact Ho1|]. apply reverseRange_func_frame; lia. }
  destruct st2 as [[d2 pivot2] hint2]. simpl in Ho2, Hp2, Hpa, Hpb.
  assert (length d2 = length d) as Hl2 by apply Ho2.
  assert (lower_bounded d2 a b) as Hlb2 by (eapply lower_bounded_preserved; eauto).
  set (st3 := match hint2 with
              | increasingHint => _
              | _ => (d2, false)
              end).
  assert (same_outside d st3.1 a b ∧ st3.1 ≡ₚ d ∧ (st3.2 = true → sorted_on st3.1 a b))
    as (Ho3 & Hp3 & Hs3).
  { unfold st3. destruct hint2; simpl; try (split; [done|split; [done|done]]).
    destruct (wb && wp); simpl; [|split; [done|split; [done|done]]].
    destruct (partialInsertionSort_func_spec d2 a b) as [Q1 Q2]; [lia|lia|done|].
    split; [by eapply same_outside_trans|].
    split; [by rewrite partialInsertionSort_func_perm|done]. }
  destruct st3 as [d3 sorted]. simpl in Ho3, Hp3, Hs3.
  destruct sorted; [split; [by apply Hs3|done]|]. clear Hs3.
  assert (length d3 = length d) as Hl3 by apply Ho3.
  assert (lower_bounded d3 a b) as Hlb3 by (eapply lower_bounded_preserved; eauto).
  destruct (lookup_in_range d3 pivot2 ltac:(lia)) as [p Hp].
  destruct ((0 <? a) && negb (Less less d3 (a - 1) pivot2)) eqn:Hcond.
  - apply andb_true_iff in Hcond as [Ha0 Hnl].
    apply Nat.ltb_lt in Ha0. apply negb_true_iff in Hnl.
    destruct (lookup_in_range d3 (a - 1) ltac:(lia)) as [x Hx].
    rewrite (Less_lookup d3 _ _ x p) in Hnl by done.
    pose proof (partitionEqual_func_spec d3 a b pivot2 p Hpa Hpb ltac:(lia) Hp) as Hpe.
    pose proof (partitionEqual_func_perm less d3 a b pivot2) as Hpp.
    destruct (partitionEqual_func less d3 a b pivot2) as [d4 mid]. simpl in Hpe, Hpp.
    destruct Hpe as (Ho4 & Hm1 & Hm2 & Hleft & Hright).
    assert (length d4 = length d3) as Hl4 by apply Ho4.
    assert (lower_bounded d4 a b) as Hlb4 by (apply (lower_bounded_preserved d3 d4); [lia|lia|done|done|done]).
    assert (d4 !! (a - 1) = Some x) as Hx4.
    { destruct Ho4 as [_ ->]; [done|lia]. }
    destruct (lookup_in_range d4 (mid - 1) ltac:(lia)) as [y0 Hy0].
    assert (less p y0 = false) as Hpy0 by (eapply (Hleft (mid - 1)); eauto; lia).
    destruct (IH d4 mid b limit1 wb wp) as [I1 I2]; try lia.
    { intros z _ Hz. assert (z = y0) as -> by congruence.
      intros k y ? ? Hy. apply ord_lt_le. apply (ord_le_lt_trans y0 p y); [exact Hpy0|].
      eapply (Hright k); eauto. }
    set (d5 := pdqsort_loop less fuel d4 mid b limit1 wb wp) in *.
    assert (all_in d5 mid b (λ y, less p y = true)) as Hright5.
    { eapply (all_in_perm d4 d5); eauto; try lia. apply pdqsort_loop_perm. }
    split.
    + intros i j u v Hi Hij Hj Hu Hv.
      destruct (decide (mid ≤ i)); [eapply (I1 i j); eauto; lia|].
      destruct I2 as [_ I2]. rewrite I2 in Hu by lia.
      assert (less p u = false) as Hpu by (eapply (Hleft i); eauto; lia).
      destruct (decide (mid ≤ j)).
      * apply ord_lt_le. apply (ord_le_lt_trans u p v); [exact Hpu|].
        eapply (Hright5 j); eauto; lia.
      * rewrite I2 in Hv by lia.
        apply (ord_le_trans u p v); [exact Hpu|].
        apply (ord_le_trans p x v); [exact Hnl|].
        eapply (Hlb4 x Ha0 Hx4 j); eauto; lia.
    + eapply same_outside_trans; [exact Ho3|].
      eapply same_outside_trans; [exact Ho4|].
      eapply same_outside_weaken; [| |exact I2]; lia.
  - clear Hcond.
    pose proof (partition_func_spec d3 a b pivot2 p Hpa Hpb ltac:(lia) Hp) as Hps.
    pose proof (partition_func_perm less d3 a b pivot2) as Hpp.
    destruct (partition_func less d3 a b pivot2) as [[d4 mid] already].
    simpl in Hps, Hpp.
    destruct Hps as (Ho4 & Hm1 & Hm2 & Hmid & Hleft & Hright).
    assert (length d4 = length d3) as Hl4 by apply Ho4.
    assert (lower_bounded d4 a b) as Hlb4 by (apply (lower_bounded_preserved d3 d4); [lia|lia|done|done|done]).
    assert (same_outside d d4 a b) as Ho by (eapply same_outside_trans; eauto).
    destruct (mid - a <? b - mid).
    + destruct (IH d4 a mid limit1 true true) as [I1 I2]; try lia.
      { eapply lower_bounded_weaken; [|exact Hlb4]. lia. }
      set (d5 := pdqsort_loop less fuel d4 a mid limit1 true true) in *.
      assert (length d5 = length d4) as Hl5 by apply I2.
      assert (d5 !! mid = Some p) as Hmid5.
      { destruct I2 as [_ ->]; [done|lia]. }
      assert (all_in d5 a mid (λ y, less y p = true)) as Hleft5.
      { eapply (all_in_perm d4 d5); eauto; try lia. apply pdqsort_loop_perm. }
      assert (all_in d5 (S mid) b (λ y, less y p = false)) as Hright5.
      { eapply all_in_frame; [exact I2| |exact Hright]. lia. }
      match goal with
      | |- context [pdqsort_loop less fuel d5 _ _ _ ?w _] => generalize w; intros wb'
      end.
      destruct (IH d5 (mid + 1) b limit1 wb' already) as [J1 J2]; try lia.
      { intros z _ Hz. replace (mid + 1 - 1) with mid in Hz by lia.
        assert (z = p) as -> by congruence.
        intros k y ? ? Hy. eapply (Hright5 k); eauto; lia. }
      set (d6 := pdqsort_loop less fuel d5 (mid + 1) b limit1 _ already) in *.
      replace (mid + 1) with (S mid) in * by lia.
      split.
      * apply (sorted_on_join d6 a mid b p).
        -- eapply sorted_on_same; [exact J2| |exact I1]. lia.
        -- done.
        -- destruct J2 as [_ ->]; [done|lia].
        -- eapply all_in_frame; [exact J2| |]; [lia|].
           eapply all_in_impl; [|exact Hleft5]. intros y. apply ord_lt_le.
        -- eapply (all_in_perm d5 d6); eauto; try lia. apply pdqsort_loop_perm.
      * eapply same_outside_trans; [exact Ho|].
        apply (same_outside_trans _ d5);
          eapply same_outside_weaken; [| |exact I2| | |exact J2]; lia.
    + destruct (IH d4 (mid + 1) b limit1 true true) as [I1 I2]; try lia.
      { intros z _ Hz. replace (mid + 1 - 1) with mid in Hz by lia.
        assert (z = p) as -> by congruence.
        intros k y ? ? Hy. eapply (Hright k); eauto; lia. }
      set (d5 := pdqsort_loop less fuel d4 (mid + 1) b limit1 true true) in *.
      replace (mid + 1) with (S mid) in * by lia.
      assert (length d5 = length d4) as Hl5 by apply I2.
      assert (d5 !! mid = Some p) as Hmid5.
      { destruct I2 as [_ ->]; [done|lia]. }
      assert (all_in d5 (S mid) b (λ y, less y p = false)) as Hright5.
      { eapply (all_in_perm d4 d5); eauto; try lia. apply pdqsort_loop_perm. }
      assert (all_in d5 a mid (λ y, less y p = true)) as Hleft5.
      { eapply all_in_frame; [exact I2| |exact Hleft]. lia. }
      match goal with
      | |- context [pdqsort_loop less fuel d5 _ _ _ ?w _] => generalize w; intros wb'
      end.
      destruct (IH d5 a mid limit1 wb' already) as [J1 J2]; try lia.
      { apply (lower_bounded_weaken _ _ b); [lia|].
        apply (lower_bounded_preserved d4 d5); [lia|lia|apply pdqsort_loop_perm| |done].
        eapply same_outside_weaken; [| |exact I2]; lia. }
      set (d6 := pdqsort_loop less fuel d5 a mid limit1 _ already) in *.
      split.
      * apply (sorted_on_join d6 a mid b p).
        -- done.
        -- eapply sorted_on_same; [exact J2| |exact I1]. lia.
        -- destruct J2 as [_ ->]; [done|lia].
        -- eapply all_in_impl; [|eapply (all_in_perm d5 d6); eauto; try lia].
           ++ intros y. apply ord_lt_le.
           ++ apply pdqsort_loop_perm.
        -- eapply all_in_frame; [exact J2| |exact Hright5]. lia.
      * eapply same_outside_trans; [exact Ho|].
        apply (same_outside_trans _ d5);
          eapply same_outside_weaken; [| |exact I2| | |exact J2]; lia.
Qed.

Lemma pdqsort_func_sorted (d : list A) limit :
  StronglySorted (λ x y, less y x = false) (pdqsort_func less d 0 (length d) limit).
Proof.
  unfold pdqsort_func.
  destruct (pdqsort_loop_spec (S (length d - 0)) d 0 (length d) limit true true)
    as [Hs [Hl _]]; try lia.
  { intros x ?. lia. }
  apply sorted_on_all. by rewrite Hl.
Qed.

End PdqsortSorts.

Lemma go_sort_Slice_contract : sort_contract go_sort_Slice.
Proof.
  split; [apply go_sort_Slice_permutes|].
  intros A less l Hsw. by apply pdqsort_func_sorted.
Qed.

(** Comparisons of a key in descending order are strict weak orderings. *)
Lemma strict_weak_key_desc {A} (key : A → Z) : strict_weak (λ a b, key b <? key a).
Proof. split; intros; rewrite ?Z.ltb_lt, ?Z.ltb_ge in *; lia. Qed.

(** Library instances: the contract-abiding merge sort, and Go's own sort. *)
Definition simple_Join (dir name : string) : string := (dir +:+ "/" +:+ name)%string.

Definition merge_lib : Lib :=
  {| sort_Slice := merge_sort_Slice;
     filepath_Join := simple_Join;
     filepath_Base := λ p, p;
     filepath_Match := λ pattern name, bool_decide (pattern = name);
     strings_EqualFold := λ a b, bool_decide (a = b) |}.

Definition go_lib : Lib :=
  {| sort_Slice := go_sort_Slice;
     filepath_Join := simple_Join;
     filepath_Base := λ p, p;
     filepath_Match := λ pattern name, bool_decide (pattern = name);
     strings_EqualFold := λ a b, bool_decide (a = b) |}.

End Go.

(** ** Package [internal/fs]: entries, trees, aggregation *)
Module Fs.
Import Go.

Inductive EntryType : Type := TypeFile | TypeDir | TypeSymlink | TypeOther.

Global Instance EntryType_eq_dec : EqDecision EntryType.
Proof. solve_decision. Defined.

(** [type Entry struct]; [Children []*Entry] is the list of the children
    themselves. *)
Inductive Entry : Type := mkEntry {
  Name : string;
  Path : string;
  Type_ : EntryType;
  Size : Z;
  ModTime : Time;
  Children : list Entry;
  Depth : Z;
  Error : string;
  Loaded : bool
}.

Definition IsDir (e : Entry) : bool := bool_decide (Type_ e = TypeDir).

Definition set_Size (e : Entry) (n : Z) : Entry :=
  mkEntry (Name e) (Path e) (Type_ e) n (ModTime e) (Children e) (Depth e) (Error e) (Loaded e).
Definition set_Children (e : Entry) (cs : list Entry) : Entry :=
  mkEntry (Name e) (Path e) (Type_ e) (Size e) (ModTime e) cs (Depth e) (Error e) (Loaded e).
Definition set_Error (e : Entry) (msg : string) : Entry :=
  mkEntry (Name e) (Path e) (Type_ e) (Size e) (ModTime e) (Children e) (Depth e) msg (Loaded e).
Definition set_Loaded (e : Entry) (b : bool) : Entry :=
  mkEntry (Name e) (Path e) (Type_ e) (Size e) (ModTime e) (Children e) (Depth e) (Error e) b.

Record ScanError : Type := mkScanError { se_Path : string; se_Message : string }.

(** [type Tree struct] *)
Record Tree : Type := mkTree {
  Root : Entry;
  ScannedAt : Time;
  TotalSize : Z;
  FileCount : Z;
  DirCount : Z;
  MaxDepth : Z;
  Errors : list ScanError
}.

(** The comparison passed to [sort.Slice] by [aggregate] and [LoadDir]:
    [Children[i].Size > Children[j].Size]. *)
Definition bySizeDesc (a b : Entry) : bool := Size b <? Size a.

(** The loop [for _, child := range entry.Children { t.aggregate(child);
    totalSize += child.Size }], for a given recursive call [agg]. *)
Section AggregateChildren.
Variable agg : Tree → Entry → Tree * Entry.

Fixpoint aggregate_children (t : Tree) (cs : list Entry) (totalSize : Z)
  : Tree * list Entry * Z :=
  match cs with
  | [] => (t, [], totalSize)
  | child :: rest =>
      let '(t1, child') := agg t child in
      let '(t2, rest', total') :=
        aggregate_children t1 rest (add64 totalSize (Size child')) in
      (t2, child' :: rest', total')
  end.
End AggregateChildren.

Definition track_depth (t : Tree) (depth : Z) : Tree :=
  if MaxDepth t <? depth
  then mkTree (Root t) (ScannedAt t) (TotalSize t) (FileCount t) (DirCount t) depth (Errors t)
  else t.

Definition record_error (t : Tree) (e : Entry) : Tree :=
  if decide (Error e = ""%string) then t
  else mkTree (Root t) (ScannedAt t) (TotalSize t) (FileCount t) (DirCount t) (MaxDepth t)
         (Errors t ++ [mkScanError (Path e) (Error e)]).

Definition incr_DirCount (t : Tree) : Tree :=
  mkTree (Root t) (ScannedAt t) (TotalSize t) (FileCount t) (add64 (DirCount t) 1)
    (MaxDepth t) (Errors t).
Definition incr_FileCount (t : Tree) : Tree :=
  mkTree (Root t) (ScannedAt t) (TotalSize t) (add64 (FileCount t) 1) (DirCount t)
    (MaxDepth t) (Errors t).

Section Aggregate.
Variable lib : Lib.

(** [func (t *Tree) aggregate(entry *Entry)]: returns the updated
    statistics and the updated entry. *)
Fixpoint aggregate (t : Tree) (entry : Entry) {struct entry} : Tree * Entry :=
  match Type_ entry with
  | TypeDir =>
      let t := incr_DirCount t in
      let '(t, children, totalSize) := aggregate_children aggregate t (Children entry) 0 in
      let entry := set_Size (set_Children entry children) totalSize in
      let entry := set_Children entry (sort_Slice lib Entry bySizeDesc (Children entry)) in
      let t := track_depth t (Depth entry) in
      (record_error t entry, entry)
  | _ =>
      let t := incr_FileCount t in
      let t := track_depth t (Depth entry) in
      (record_error t entry, entry)
  end.

(** [func buildTree(root *Entry) *Tree]; [now] is what [time.Now()]
    returns.  [tree.Root] aliases the entry that [aggregate] updates. *)
Definition buildTree (now : Time) (root : Entry) : Tree :=
  let tree := mkTree root now 0 0 0 0 [] in
  let '(tree, root) := aggregate tree root in
  mkTree root (ScannedAt tree) (Size root) (FileCount tree) (DirCount tree)
    (MaxDepth tree) (Errors tree).
End Aggregate.

(** *** The scanner *)

(** [fs.FileInfo] as far as the scanner reads it. *)
Record FileInfo : Type := mkFileInfo {
  fi_Size : Z;
  fi_ModTime : Time;
  fi_IsDir : bool
}.

(** The type bits of [fs.FileMode] ([io/fs]). *)
Definition ModeDir : Z := Z.shiftl 1 31.
Definition ModeSymlink : Z := Z.shiftl 1 27.
Definition ModeDevice : Z := Z.shiftl 1 26.
Definition ModeNamedPipe : Z := Z.shiftl 1 25.
Definition ModeSocket : Z := Z.shiftl 1 24.
Definition ModeCharDevice : Z := Z.shiftl 1 21.
Definition ModeIrregular : Z := Z.shiftl 1 19.
Definition ModeType : Z :=
  Z.lor ModeDir (Z.lor ModeSymlink (Z.lor ModeNamedPipe
    (Z.lor ModeSocket (Z.lor ModeDevice (Z.lor ModeCharDevice ModeIrregular))))).

(** An [os.DirEntry] together with what [os.Stat] and [os.Lstat] answer for
    the entry's path. *)
Record DirEntry : Type := mkDirEntry {
  de_Name : string;
  de_Type : Z;
  de_Info : Result FileInfo;
  de_Stat : Result FileInfo;
  de_Lstat : Result FileInfo
}.

Definition de_IsSymlink (de : DirEntry) : bool := negb (Z.land (de_Type de) ModeSymlink =? 0).
Definition de_IsDir (de : DirEntry) : bool := negb (Z.land (de_Type de) ModeDir =? 0).
Definition de_IsRegular (de : DirEntry) : bool := Z.land (de_Type de) ModeType =? 0.

(** The outcome of [os.ReadDir] on a directory: an error, or the entries,
    each paired with the outcome of [os.ReadDir] on the entry's own path
    (consulted only when the walk descends into it). *)
Inductive ReadDirResult : Type := mkReadDir {
  rd_err : option string;
  rd_entries : list (DirEntry * ReadDirResult)
}.

(** The operating system, as the scanner queries it. *)
Record Os : Type := mkOs {
  os_Abs : string → Result string;
  os_Stat : string → Result FileInfo;
  os_ReadDir : string → ReadDirResult
}.

(** What a goroutine observes of the [context.Context]: [ctx g k] tells
    whether the [k]-th cancellation check made by the goroutine walking the
    directory at position [g] (indices into the successive listings) finds
    the context cancelled.  Goroutines only write to the entry they were
    started for and [scanSync] waits for all of them, so the tree that
    results is a function of the operating system's answers and of these
    observations. *)
Definition Ctx : Type := list nat → nat → bool.
Definition background : Ctx := λ _ _, false.
Definition cancelled : Ctx := λ _ _, true.

(** [type Scanner struct]; the atomic progress counters do not influence
    the tree and are left out. *)
Record Scanner : Type := mkScanner {
  workerCount : Z;
  maxDepth : Z;
  ignorePatterns : list string;
  showHidden : bool
}.

Record ScannerOptions : Type := mkScannerOptions {
  opt_WorkerCount : Z;
  opt_MaxDepth : Z;
  opt_IgnorePatterns : list string;
  opt_ShowHidden : bool
}.

Definition defaultIgnorePatterns : list string :=
  [ ".git"; ".hg"; ".svn"; "node_modules"; ".DS_Store"; "Thumbs.db";
    "$RECYCLE.BIN"; "System Volume Information"; "proc"; "sys"; "dev";
    ".Trash"; ".Spotlight-V100"; ".fseventsd"; ".DocumentRevisions-V100";
    ".TemporaryItems" ]%string.

(** [NewScanner]; [numCPU] is [runtime.NumCPU()]. *)
Definition NewScanner (numCPU : Z) (opts : ScannerOptions) : Scanner :=
  mkScanner
    (if opt_WorkerCount opts <=? 0 then wrap64 (numCPU * 2) else opt_WorkerCount opts)
    (opt_MaxDepth opts)
    (match opt_IgnorePatterns opts with [] => defaultIgnorePatterns | ps => ps end)
    (opt_ShowHidden opts).

(** [strings.HasPrefix(name, ".")] *)
Definition hasDotPrefix (name : string) : bool :=
  match name with
  | String c _ => bool_decide (c = "."%char)
  | EmptyString => false
  end.

Section Scanner.
Variable lib : Lib.
Variable s : Scanner.

Definition shouldIgnore (name : string) : bool :=
  existsb (λ pattern, strings_EqualFold lib name pattern || filepath_Match lib pattern name)
    (ignorePatterns s).

(** The entries skipped by both [walkDir] and [LoadDir]. *)
Definition skipped (de : DirEntry) : bool :=
  shouldIgnore (de_Name de) || (negb (showHidden s) && hasDotPrefix (de_Name de)).

(** [child := &Entry{Name, Path, Depth: parent.Depth + 1}] *)
Definition newChild (parent : Entry) (de : DirEntry) : Entry :=
  mkEntry (de_Name de) (filepath_Join lib (Path parent) (de_Name de)) TypeFile 0
    zeroTime [] (add64 (Depth parent) 1) "" false.

Definition set_Type (e : Entry) (ty : EntryType) : Entry :=
  mkEntry (Name e) (Path e) ty (Size e) (ModTime e) (Children e) (Depth e) (Error e) (Loaded e).
Definition set_ModTime (e : Entry) (mt : Time) : Entry :=
  mkEntry (Name e) (Path e) (Type_ e) (Size e) mt (Children e) (Depth e) (Error e) (Loaded e).
Definition with_ModTime (e : Entry) (info : Result FileInfo) : Entry :=
  match info with Ok i => set_ModTime e (fi_ModTime i) | Err _ => e end.
Definition with_Size_ModTime (e : Entry) (info : Result FileInfo) : Entry :=
  match info with
  | Ok i => set_ModTime (set_Size e (fi_Size i)) (fi_ModTime i)
  | Err _ => e
  end.

(** The [switch] of [walkDir], up to the point where a directory's own
    walk is started. *)
Definition walk_classify (parent : Entry) (de : DirEntry) : Entry :=
  let child := newChild parent de in
  if de_IsSymlink de then
    let child := set_Type child TypeSymlink in
    match de_Stat de with
    | Ok _ => with_Size_ModTime child (de_Stat de)
    | Err _ => with_ModTime child (de_Lstat de)
    end
  else if de_IsDir de then with_ModTime (set_Type child TypeDir) (de_Info de)
  else if de_IsRegular de then with_Size_ModTime (set_Type child TypeFile) (de_Info de)
  else with_ModTime (set_Type child TypeOther) (de_Info de).

(** The [for _, de := range dirEntries] loop of [walkDir], [i] being the
    index of the next entry; [None] when the loop returns on a cancelled
    context, which leaves [parent.Children] unset. *)
Section WalkEntries.
Variable walk : list nat → Entry → ReadDirResult → Entry.
Variable ctx : Ctx.
Variable g : list nat.
Variable parent : Entry.

Fixpoint walk_entries (des : list (DirEntry * ReadDirResult)) (i : nat)
    (children : list Entry) : option (list Entry) :=
  match des with
  | [] => Some children
  | (de, sub) :: rest =>
      if ctx g (2 + i)%nat then None
      else if skipped de then walk_entries rest (S i) children
      else
        let child := walk_classify parent de in
        let child :=
          if negb (de_IsSymlink de) && de_IsDir de
          then walk (g ++ [i]) child sub else child in
        walk_entries rest (S i) (children ++ [child])
  end.
End WalkEntries.

(** [func (s *Scanner) walkDir(ctx, parent, sem, wg)]; [rd] is what
    [os.ReadDir(parent.Path)] returns.  Check 0 is [ctx.Err() != nil] on
    entry, check 1 the [<-ctx.Done()] arm of the [select] that waits for a
    semaphore slot, check [2 + i] the one at the [i]-th directory entry. *)
Fixpoint walkDir (ctx : Ctx) (g : list nat) (parent : Entry) (rd : ReadDirResult)
    {struct rd} : Entry :=
  if ctx g 0%nat then parent
  else if (0 <? maxDepth s) && (maxDepth s <=? Depth parent) then parent
  else if ctx g 1%nat then parent
  else
    match rd_err rd with
    | Some msg => set_Error parent msg
    | None =>
        match walk_entries (walkDir ctx) ctx g parent (rd_entries rd) 0 [] with
        | None => parent
        | Some children => set_Loaded (set_Children parent children) true
        end
    end.

(** [func (s *Scanner) scanSync(ctx, root)], returning the tree pointer
    ([None] for [nil]) and the error ([None] for [nil]). *)
Definition scanSync (os : Os) (ctx : Ctx) (now : Time) (root : string)
  : option Tree * option string :=
  match os_Abs os root with
  | Err msg => (None, Some msg)
  | Ok absRoot =>
      match os_Stat os absRoot with
      | Err msg => (None, Some msg)
      | Ok info =>
          if negb (fi_IsDir info)
          then (None, Some ("scan " +:+ absRoot +:+ ": invalid argument")%string)
          else
            let rootEntry :=
              mkEntry (filepath_Base lib absRoot) absRoot TypeDir 0 (fi_ModTime info)
                [] 0 "" false in
            let rootEntry := walkDir ctx [] rootEntry (os_ReadDir os absRoot) in
            (Some (buildTree lib now rootEntry), None)
      end
  end.

Definition ScanSync := scanSync.

(** [Scan]: the [ScanResult] delivered on the result channel. *)
Record ScanResult : Type := mkScanResult { sr_Tree : option Tree; sr_Error : option string }.
Definition Scan (os : Os) (ctx : Ctx) (now : Time) (root : string) : ScanResult :=
  let '(tree, err) := scanSync os ctx now root in mkScanResult tree err.

(** The [switch] of [LoadDir]. *)
Definition load_classify (entry : Entry) (de : DirEntry) : Entry :=
  let child := newChild entry de in
  if de_IsSymlink de then with_Size_ModTime (set_Type child TypeSymlink) (de_Stat de)
  else if de_IsDir de then with_ModTime (set_Type child TypeDir) (de_Info de)
  else if de_IsRegular de then with_Size_ModTime (set_Type child TypeFile) (de_Info de)
  else set_Type child TypeOther.

Definition load_entries (entry : Entry) (des : list (DirEntry * ReadDirResult))
  : list Entry :=
  map (load_classify entry) (filter (λ de, negb (skipped de)) (map fst des)).

(** [func (s *Scanner) LoadDir(entry *Entry) error]: the updated entry and
    the error returned. *)
Definition LoadDir (os : Os) (entry : Entry) : Entry * option string :=
  if negb (bool_decide (Type_ entry = TypeDir)) || Loaded entry then (entry, None)
  else
    let rd := os_ReadDir os (Path entry) in
    match rd_err rd with
    | Some msg => (set_Loaded (set_Error entry msg) true, Some msg)
    | None =>
        let children := load_entries entry (rd_entries rd) in
        let children := sort_Slice lib Entry bySizeDesc children in
        let entry := set_Loaded (set_Children entry children) true in
        (set_Size entry (sum64 (Size <$> children)), None)
    end.
End Scanner.

(** *** Entries addressed inside a tree

    [LoadDir] is handed a pointer to an entry that lives in a tree; the
    entry is designated by the child indices leading to it from the root. *)
Fixpoint get_at (addr : list nat) (e : Entry) : option Entry :=
  match addr with
  | [] => Some e
  | i :: addr' => Children e !! i ≫= get_at addr'
  end.

Fixpoint update_at (f : Entry → Entry) (addr : list nat) (e : Entry) : Entry :=
  match addr with
  | [] => f e
  | i :: addr' => set_Children e (alter (update_at f addr') i (Children e))
  end.

(** [LoadDir] applied to the entry at [addr] of the tree under [root]. *)
Definition LoadDir_at (lib : Lib) (s : Scanner) (os : Os) (addr : list nat) (root : Entry)
  : Entry :=
  update_at (λ e, (LoadDir lib s os e).1) addr root.

(** A sequence of lazy loads, each against the file system of its time. *)
Definition load_all (lib : Lib) (s : Scanner) (ops : list (Os * list nat)) (root : Entry)
  : Entry :=
  foldl (λ r op, LoadDir_at lib s op.1 op.2 r) root ops.

(** *** Reasoning about entry trees *)

(** Induction over an entry with the hypothesis available for every child. *)
Lemma Entry_ind' (P : Entry → Prop) :
  (∀ e, Forall P (Children e) → P e) → ∀ e, P e.
Proof.
  intros H. fix IH 1. intros e. apply H.
  destruct e as [? ? ? ? ? cs ? ? ?]. simpl.
  induction cs as [|c cs IHcs]; constructor; [apply IH | apply IHcs].
Qed.

(** [InTree d e]: [d] is [e] or one of its descendants. *)
Inductive InTree (d : Entry) : Entry → Prop :=
| InTree_here : InTree d d
| InTree_child c e : c ∈ Children e → InTree d c → InTree d e.

Lemma InTree_inv d e : InTree d e → d = e ∨ ∃ c, c ∈ Children e ∧ InTree d c.
Proof. destruct 1; eauto. Qed.

Lemma InTree_trans d c e : InTree d c → InTree c e → InTree d e.
Proof. intros Hd Hc. induction Hc; [done|]. eapply InTree_child; eauto. Qed.

(** [Q] holds of every entry of the tree under [root]. *)
Definition all_nodes (Q : Entry → Prop) (root : Entry) : Prop :=
  ∀ e, InTree e root → Q e.

Lemma all_nodes_unfold Q e :
  all_nodes Q e ↔ Q e ∧ Forall (all_nodes Q) (Children e).
Proof.
  split.
  - intros H. split; [apply H, InTree_here|].
    apply Forall_forall. intros c Hc d Hd. apply H. by eapply InTree_child.
  - intros [Hq Hcs] d Hd. apply InTree_inv in Hd as [->|(c & Hc & Hd)]; [done|].
    rewrite Forall_forall in Hcs. by eapply Hcs.
Qed.

Lemma all_nodes_child Q c e : all_nodes Q e → c ∈ Children e → all_nodes Q c.
Proof. intros H Hc d Hd. apply H. by eapply InTree_child. Qed.

Lemma all_nodes_leaf Q e : Children e = [] → Q e → all_nodes Q e.
Proof. intros Hcs Hq. apply all_nodes_unfold. rewrite Hcs. by split. Qed.

(** What the scanner guarantees about the shape of a tree: only a
    directory has children. *)
Definition files_are_leaves (root : Entry) : Prop :=
  all_nodes (λ e, Type_ e ≠ TypeDir → Children e = []) root.

Lemma files_are_leaves_child c e :
  files_are_leaves e → c ∈ Children e → files_are_leaves c.
Proof. apply all_nodes_child. Qed.

(** All directories below (and including) [root] satisfy [P]. *)
Definition all_dirs (P : Entry → Prop) (root : Entry) : Prop :=
  all_nodes (λ d, Type_ d = TypeDir → P d) root.

(** The depth invariant: each child is one level below its parent, in
    Go's [int] arithmetic. *)
Definition depth_inv (root : Entry) : Prop :=
  all_nodes (λ p, ∀ c, c ∈ Children p → Depth c = add64 (Depth p) 1) root.

Section AggregateFacts.
Variable lib : Lib.

(** The entry that [aggregate] leaves behind does not depend on the
    statistics accumulated so far. *)
Fixpoint aggregate_entry (entry : Entry) : Entry :=
  match Type_ entry with
  | TypeDir =>
      let children := map aggregate_entry (Children entry) in
      mkEntry (Name entry) (Path entry) (Type_ entry) (sum64 (Size <$> children))
        (ModTime entry) (sort_Slice lib Entry bySizeDesc children)
        (Depth entry) (Error entry) (Loaded entry)
  | _ => entry
  end.

Lemma aggregate_children_spec (agg : Tree → Entry → Tree * Entry) (f : Entry → Entry) cs :
  Forall (λ c, ∀ t, (agg t c).2 = f c) cs →
  ∀ t total,
    (aggregate_children agg t cs total).1.2 = map f cs ∧
    (aggregate_children agg t cs total).2 = sum64_from total (Size <$> map f cs).
Proof.
  induction 1 as [|c cs Hc _ IH]; intros t total; simpl; [done|].
  specialize (Hc t). destruct (agg t c) as [t1 c'] eqn:E1. simpl in Hc. subst c'.
  specialize (IH t1 (add64 total (Size (f c)))).
  destruct (aggregate_children agg t1 cs _) as [[t2 rest'] total'].
  simpl in *. destruct IH as [-> ->]. done.
Qed.

Lemma aggregate_snd entry : ∀ t, (aggregate lib t entry).2 = aggregate_entry entry.
Proof.
  induction entry as [e IH] using Entry_ind'. intros t.
  destruct e as [n p ty sz mt cs d err ld]. simpl in *.
  destruct ty; try done.
  pose proof (aggregate_children_spec (aggregate lib) aggregate_entry cs IH
                (incr_DirCount t) 0) as [H1 H2].
  destruct (aggregate_children _ _ cs 0) as [[t2 cs'] total]. simpl in *.
  subst. done.
Qed.

Lemma aggregate_entry_Type e : Type_ (aggregate_entry e) = Type_ e.
Proof. destruct e as [n p ty sz mt cs d err ld]. by destruct ty. Qed.

Lemma buildTree_Root now root : Root (buildTree lib now root) = aggregate_entry root.
Proof.
  unfold buildTree. rewrite <- (aggregate_snd root (mkTree root now 0 0 0 0 [])).
  by destruct (aggregate lib _ root).
Qed.

Hypothesis sort_ok : sort_permutes (sort_Slice lib).

(** A property of aggregated directories that follows from the directory's
    own node holds throughout the aggregated tree. *)
Lemma aggregate_entry_all_dirs (P : Entry → Prop) :
  (∀ e cs, Type_ e = TypeDir →
     P (mkEntry (Name e) (Path e) (Type_ e) (sum64 (Size <$> cs)) (ModTime e)
          (sort_Slice lib Entry bySizeDesc cs) (Depth e) (Error e) (Loaded e))) →
  ∀ root, files_are_leaves root → all_dirs P (aggregate_entry root).
Proof.
  intros HP root. induction root as [e IH] using Entry_ind'. intros Hwf d Hd Hdir.
  destruct (decide (Type_ e = TypeDir)) as [He|He].
  - assert (aggregate_entry e =
      mkEntry (Name e) (Path e) (Type_ e)
        (sum64 (Size <$> map aggregate_entry (Children e))) (ModTime e)
        (sort_Slice lib Entry bySizeDesc (map aggregate_entry (Children e)))
        (Depth e) (Error e) (Loaded e)) as Heq.
    { destruct e as [n p ty sz mt cs dp err ld]. simpl in *. by subst ty. }
    rewrite Heq in Hd. apply InTree_inv in Hd as [->|(c' & Hc' & Hd)].
    + by apply HP.
    + simpl in Hc'. rewrite (sort_ok _ _ _) in Hc'.
      apply list_elem_of_fmap in Hc' as (c & -> & Hc).
      rewrite Forall_forall in IH. eapply IH; eauto.
      by eapply files_are_leaves_child.
  - assert (aggregate_entry e = e) as Heq.
    { destruct e as [n p ty sz mt cs dp err ld]. simpl in *. by destruct ty. }
    rewrite Heq in Hd. apply InTree_inv in Hd as [->|(c & Hc & _)]; [done|].
    rewrite (Hwf e (InTree_here e) He) in Hc. by apply elem_of_nil in Hc.
Qed.
End AggregateFacts.

(** *** Facts about the scanner *)

Lemma ReadDirResult_ind' (P : ReadDirResult → Prop) :
  (∀ rd, Forall (λ x, P x.2) (rd_entries rd) → P rd) → ∀ rd, P rd.
Proof.
  intros H. fix IH 1. intros rd. apply H.
  destruct rd as [err des]. simpl.
  induction des as [|[de sub] des IHdes]; constructor; [apply IH | apply IHdes].
Qed.

(** An entry is well scanned when the depth invariant holds below it and
    only directories have children. *)
Definition scan_ok (root : Entry) : Prop := depth_inv root ∧ files_are_leaves root.

Lemma scan_ok_leaf e : Children e = [] → scan_ok e.
Proof.
  intros He. split; apply all_nodes_leaf; try done.
  intros c. rewrite He. by intros ?%elem_of_nil.
Qed.

Lemma scan_ok_dir e :
  Type_ e = TypeDir →
  Forall (λ c, Depth c = add64 (Depth e) 1 ∧ scan_ok c) (Children e) →
  scan_ok e.
Proof.
  intros Hdir Hcs. rewrite Forall_forall in Hcs.
  split; apply all_nodes_unfold; (split; [|apply Forall_forall; intros c Hc; by apply Hcs]).
  - intros c Hc. by apply Hcs.
  - done.
Qed.

Section ScannerFacts.
Variable lib : Lib.
Variable s : Scanner.

Lemma walk_classify_fresh parent de :
  Children (walk_classify lib parent de) = [] ∧
  Depth (walk_classify lib parent de) = add64 (Depth parent) 1.
Proof.
  unfold walk_classify, with_Size_ModTime, with_ModTime.
  repeat (case_match; simpl); done.
Qed.

Lemma walk_classify_dir parent de :
  de_IsSymlink de = false → de_IsDir de = true →
  Type_ (walk_classify lib parent de) = TypeDir.
Proof.
  intros H1 H2. unfold walk_classify, with_ModTime. rewrite H1, H2.
  by case_match.
Qed.

Lemma load_classify_fresh entry de :
  Children (load_classify lib entry de) = [] ∧
  Depth (load_classify lib entry de) = add64 (Depth entry) 1.
Proof.
  unfold load_classify, with_Size_ModTime, with_ModTime.
  repeat (case_match; simpl); done.
Qed.

(** The three ways [walkDir] can leave its entry. *)
Lemma walkDir_cases ctx g parent rd :
  walkDir lib s ctx g parent rd = parent
  ∨ (∃ msg, walkDir lib s ctx g parent rd = set_Error parent msg)
  ∨ (∃ cs, walk_entries lib s (walkDir lib s ctx) ctx g parent (rd_entries rd) 0 [] = Some cs
           ∧ walkDir lib s ctx g parent rd = set_Loaded (set_Children parent cs) true).
Proof.
  destruct rd as [err des]. simpl.
  repeat (case_match; eauto).
Qed.

Lemma walkDir_Depth ctx g parent rd :
  Depth (walkDir lib s ctx g parent rd) = Depth parent
  ∧ Type_ (walkDir lib s ctx g parent rd) = Type_ parent.
Proof.
  destruct (walkDir_cases ctx g parent rd) as [->|[[msg ->]|(cs & _ & ->)]]; done.
Qed.

Lemma walk_entries_ok ctx g parent des :
  Forall (λ x, ∀ g' child, Children child = [] → Type_ child = TypeDir →
               scan_ok (walkDir lib s ctx g' child x.2)) des →
  ∀ i acc cs,
    Forall (λ c, Depth c = add64 (Depth parent) 1 ∧ scan_ok c) acc →
    walk_entries lib s (walkDir lib s ctx) ctx g parent des i acc = Some cs →
    Forall (λ c, Depth c = add64 (Depth parent) 1 ∧ scan_ok c) cs.
Proof.
  induction 1 as [|[de sub] des Hsub _ IH]; intros i acc cs Hacc Hrun; simpl in Hrun.
  - by inversion Hrun; subst.
  - destruct (ctx g (S (S i))); [done|].
    destruct (skipped lib s de); [by eapply IH|].
    eapply IH; [|exact Hrun].
    apply Forall_app. split; [done|]. constructor; [|done].
    destruct (walk_classify_fresh parent de) as [Hnil Hdepth].
    destruct (negb (de_IsSymlink de) && de_IsDir de) eqn:Hwalk.
    + apply andb_true_iff in Hwalk as [Hsym Hdir]. apply negb_true_iff in Hsym.
      split.
      * destruct (walkDir_Depth ctx (g ++ [i]) (walk_classify lib parent de) sub) as [-> _].
        done.
      * apply Hsub; [done|]. by apply walk_classify_dir.
    + split; [done|]. by apply scan_ok_leaf.
Qed.

(** Every walk leaves a well-scanned entry. *)
Lemma walkDir_scan_ok ctx rd :
  ∀ g parent, Children parent = [] → Type_ parent = TypeDir →
    scan_ok (walkDir lib s ctx g parent rd).
Proof.
  induction rd as [rd IH] using ReadDirResult_ind'. intros g parent Hnil Hdir.
  destruct (walkDir_cases ctx g parent rd) as [->|[[msg ->]|(cs & Hcs & ->)]].
  - by apply scan_ok_leaf.
  - by apply scan_ok_leaf.
  - apply scan_ok_dir; [done|]. simpl.
    eapply (walk_entries_ok ctx g parent (rd_entries rd)); [exact IH| |exact Hcs].
    constructor.
Qed.

(** [get_at] and [update_at]. *)
Lemma update_at_get (f : Entry → Entry) addr : ∀ root e,
  get_at addr root = Some e → get_at addr (update_at f addr root) = Some (f e).
Proof.
  induction addr as [|i addr IH]; intros root e Hget; simpl in *.
  - by inversion Hget.
  - rewrite list_lookup_alter_eq.
    destruct (Children root !! i) as [c|]; simpl in *; [|done]. by apply IH.
Qed.

Lemma update_at_frame (f : Entry → Entry) addr : ∀ q root x,
  ¬ addr `prefix_of` q →
  get_at q root = Some x →
  ∃ x', get_at q (update_at f addr root) = Some x' ∧ Size x' = Size x.
Proof.
  induction addr as [|i addr IH]; intros q root x Hpre Hget.
  - destruct Hpre. apply prefix_nil.
  - destruct q as [|j q]; simpl in *.
    + inversion Hget; subst. eexists. split; [done|]. done.
    + destruct (decide (i = j)) as [->|Hne].
      * rewrite list_lookup_alter_eq.
        destruct (Children root !! j) as [c|]; simpl in *; [|done].
        apply IH; [|done]. intros Hp. apply Hpre. by apply prefix_cons.
      * rewrite list_lookup_alter_ne by done. eauto.
Qed.

Lemma update_at_Depth (f : Entry → Entry) addr root :
  (∀ e, Depth (f e) = Depth e) → Depth (update_at f addr root) = Depth root.
Proof. intros Hf. destruct addr; simpl; [apply Hf|done]. Qed.

Lemma update_at_inv (Q : Entry → Prop) (f : Entry → Entry) :
  (∀ e, Depth (f e) = Depth e) →
  (∀ e, Q e → Q (f e)) →
  (∀ e cs, Q e → Forall (λ p, Depth p.1 = Depth p.2) (zip cs (Children e)) →
           length cs = length (Children e) → Forall Q cs → Q (set_Children e cs)) →
  (∀ e c, Q e → c ∈ Children e → Q c) →
  ∀ addr root, Q root → Q (update_at f addr root).
Proof.
  intros Hdepth Hf Hset Hchild. induction addr as [|i addr IH]; intros root HQ; simpl.
  - by apply Hf.
  - apply Hset; [done| |by rewrite length_alter|].
    + apply Forall_forall. intros [a b] Hab.
      apply list_elem_of_lookup in Hab as [k Hk].
      apply lookup_zip_with_Some in Hk as (a' & b' & [= <- <-] & Ha & Hb).
      destruct (decide (i = k)) as [->|Hne].
      * rewrite list_lookup_alter_eq, Hb in Ha. simpl in Ha. inversion Ha; subst.
        simpl. by apply update_at_Depth.
      * rewrite list_lookup_alter_ne, Hb in Ha by done. by inversion Ha.
    + apply Forall_alter.
      * apply Forall_forall. intros c Hc. by eapply Hchild.
      * intros c Hc Hq. by apply IH.
Qed.

Lemma LoadDir_Depth os e : Depth (LoadDir lib s os e).1 = Depth e.
Proof. unfold LoadDir. repeat (case_match; simpl); done. Qed.

Lemma depth_inv_set_Children e cs :
  Forall (λ p, Depth p.1 = Depth p.2) (zip cs (Children e)) →
  length cs = length (Children e) →
  depth_inv e → Forall depth_inv cs → depth_inv (set_Children e cs).
Proof.
  intros Hzip Hlen He Hcs. apply all_nodes_unfold. split; [|done].
  simpl. intros c Hc. apply list_elem_of_lookup in Hc as [k Hk].
  destruct (lookup_lt_is_Some_2 (Children e) k) as [c0 Hc0].
  { rewrite <- Hlen. by eapply lookup_lt_Some. }
  rewrite Forall_forall in Hzip.
  specialize (Hzip (c, c0)). simpl in Hzip. rewrite Hzip.
  - apply all_nodes_unfold in He as [He _]. apply He.
    apply list_elem_of_lookup. eauto.
  - apply list_elem_of_lookup. exists k.
    apply lookup_zip_with_Some. eauto.
Qed.

Hypothesis sort_ok : sort_permutes (sort_Slice lib).

Lemma LoadDir_depth_inv os e : depth_inv e → depth_inv (LoadDir lib s os e).1.
Proof.
  intros He. unfold LoadDir.
  destruct (negb _ || Loaded e); [done|].
  destruct (rd_err (os_ReadDir os (Path e))) as [msg|]; simpl.
  - apply all_nodes_unfold in He as [Htop Hcs].
    apply all_nodes_unfold. by split.
  - apply all_nodes_unfold. simpl. split.
    + intros c. rewrite (sort_ok _ _ _). unfold load_entries.
      intros (de & -> & _)%list_elem_of_fmap. apply load_classify_fresh.
    + apply Forall_forall. intros c. rewrite (sort_ok _ _ _). unfold load_entries.
      intros (de & -> & _)%list_elem_of_fmap.
      apply all_nodes_leaf; [apply load_classify_fresh|].
      intros c'. destruct (load_classify_fresh e de) as [-> _]. by intros ?%elem_of_nil.
Qed.

Lemma LoadDir_at_depth_inv os addr root :
  depth_inv root → depth_inv (LoadDir_at lib s os addr root).
Proof.
  intros H. unfold LoadDir_at.
  apply (update_at_inv depth_inv); try done.
  - intros e. apply LoadDir_Depth.
  - intros e. apply LoadDir_depth_inv.
  - intros e cs He Hzip Hlen Hcs. by apply depth_inv_set_Children.
  - intros e c. apply all_nodes_child.
Qed.

Lemma aggregate_entry_Depth e : Depth (aggregate_entry lib e) = Depth e.
Proof. destruct e as [n p ty sz mt cs d err ld]. by destruct ty. Qed.

Lemma aggregate_entry_depth_inv root :
  depth_inv root → depth_inv (aggregate_entry lib root).
Proof.
  induction root as [e IH] using Entry_ind'. intros He.
  apply all_nodes_unfold in He as [Htop Hcs].
  destruct e as [n p ty sz mt cs d err ld]. simpl in *.
  destruct ty; try (apply all_nodes_unfold; split; assumption).
  apply all_nodes_unfold. simpl. split.
  - intros c'. rewrite (sort_ok _ _ _).
    intros (c & -> & Hc)%list_elem_of_fmap.
    rewrite aggregate_entry_Depth. by apply Htop.
  - apply Forall_forall. intros c'. rewrite (sort_ok _ _ _).
    intros (c & -> & Hc)%list_elem_of_fmap.
    rewrite Forall_forall in IH, Hcs. apply IH; [done|]. by apply Hcs.
Qed.
End ScannerFacts.

(** *** Sample trees *)

Definition file (name : string) (size : Z) (depth : Z) : Entry :=
  mkEntry name ("/r/" +:+ name) TypeFile size zeroTime [] depth "" false.

(** A directory as the walk leaves it: size not yet computed. *)
Definition scanned_dir (name path : string) (depth : Z) (children : list Entry) : Entry :=
  mkEntry name path TypeDir 0 zeroTime children depth "" true.

Definition sample_root : Entry :=
  scanned_dir "r" "/r" 0
    [ file "a" 100 1;
      scanned_dir "sub" "/r/sub" 1 [ file "b" 300 2; file "c" 50 2 ];
      file "d" 200 1 ].

(** Thirteen files in discovery order: two of one byte, ten empty ones and
    one of five bytes. *)
Definition thirteen_files : Entry :=
  scanned_dir "r" "/r" 0
    [ file "f00" 1 1; file "f01" 1 1; file "f02" 0 1; file "f03" 0 1;
      file "f04" 0 1; file "f05" 0 1; file "f06" 0 1; file "f07" 0 1;
      file "f08" 0 1; file "f09" 0 1; file "f10" 0 1; file "f11" 0 1;
      file "f12" 5 1 ].

(** A small file system rooted at [/r]: two files, a hidden file, a
    readable directory [sub] and a directory [locked] that cannot be
    listed. *)
Definition info_file (size : Z) : Result FileInfo := Ok (mkFileInfo size 7 false).
Definition info_dir : Result FileInfo := Ok (mkFileInfo 4096 7 true).
Definition de_file (name : string) (size : Z) : DirEntry :=
  mkDirEntry name 0 (info_file size) (info_file size) (info_file size).
Definition de_dir (name : string) : DirEntry :=
  mkDirEntry name ModeDir info_dir info_dir info_dir.
Definition not_a_dir : ReadDirResult := mkReadDir (Some "not a directory"%string) [].

Definition sub_listing : ReadDirResult :=
  mkReadDir None [ (de_file "c" 50, not_a_dir); (de_file "b" 300, not_a_dir) ].
Definition locked_listing : ReadDirResult :=
  mkReadDir (Some "open /r/locked: permission denied"%string) [].
Definition root_listing : ReadDirResult :=
  mkReadDir None
    [ (de_file "a" 100, not_a_dir);
      (de_dir "sub", sub_listing);
      (de_dir "locked", locked_listing);
      (de_file ".hidden" 7, not_a_dir);
      (de_file "d" 200, not_a_dir) ].

Definition sample_os : Os :=
  mkOs (λ p, Ok p)
    (λ p, if decide (p = "/r"%string) then info_dir
          else if decide (p = "/r/a"%string) then info_file 100
          else Err "stat: no such file or directory"%string)
    (λ p, if decide (p = "/r"%string) then root_listing
          else if decide (p = "/r/sub"%string) then sub_listing
          else if decide (p = "/r/locked"%string) then locked_listing
          else mkReadDir (Some "no such file or directory"%string) []).

Definition sample_scanner : Scanner := NewScanner 4 (mkScannerOptions 0 0 [] false).

(** A tree scanned with [MaxDepth = 1] and aggregated: [sub] was found but
    not listed. *)
Definition shallow_root : Entry :=
  mkEntry "/r" "/r" TypeDir 300 7
    [ mkEntry "d" "/r/d" TypeFile 200 7 [] 1 "" false;
      mkEntry "a" "/r/a" TypeFile 100 7 [] 1 "" false;
      mkEntry "sub" "/r/sub" TypeDir 0 7 [] 1 "" false;
      mkEntry "locked" "/r/locked" TypeDir 0 7 [] 1 "" false ]
    0 "" true.

(** A decidable check of [files_are_leaves]. *)
Fixpoint leaves_check (e : Entry) : bool :=
  (IsDir e || match Children e with [] => true | _ => false end)
  && forallb leaves_check (Children e).

Lemma leaves_check_sound root : leaves_check root = true → files_are_leaves root.
Proof.
  induction root as [r IH] using Entry_ind'. intros Hc e He Hty.
  destruct r as [n p ty sz mt cs dp err ld]. simpl in *.
  apply andb_true_iff in Hc as [Hhere Hcs].
  apply InTree_inv in He as [->|(c & Hc & He)].
  - simpl in *. unfold IsDir in Hhere. simpl in Hhere.
    rewrite bool_decide_eq_false_2 in Hhere by done. by destruct cs.
  - simpl in Hc. rewrite Forall_forall in IH.
    rewrite forallb_forall in Hcs.
    eapply IH; eauto. apply Hcs. by apply list_elem_of_In.
Qed.

(** [x] comes before [y] in [l]. *)
Definition precedes {A} (x y : A) (l : list A) : Prop :=
  ∃ i j : nat, (i < j)%nat ∧ l !! i = Some x ∧ l !! j = Some y.

(** *** Properties of aggregation *)

(** C1. After [buildTree] (that is, [aggregate]) has run over a scanned
    root, the [Size] of every directory of the tree is the sum of the
    [Size]s of its children, the sum being the [int64] sum the code
    computes; it is the exact integer sum whenever that sum fits [int64]. *)
Theorem aggregate_size_is_sum (lib : Lib) (now : Time) (root : Entry) :
  sort_permutes (sort_Slice lib) →
  files_are_leaves root →
  ∀ d, InTree d (Root (buildTree lib now root)) → Type_ d = TypeDir →
    Size d = sum64 (Size <$> Children d) ∧
    (in_int64 (sumZ (Size <$> Children d)) → Size d = sumZ (Size <$> Children d)).
Proof.
  intros Hsort Hwf. rewrite buildTree_Root.
  assert (∀ d, InTree d (aggregate_entry lib root) → Type_ d = TypeDir →
               Size d = sum64 (Size <$> Children d)) as Hsum.
  { apply (aggregate_entry_all_dirs lib Hsort
             (λ d, Size d = sum64 (Size <$> Children d))); [|done].
    intros e cs _. simpl. apply sum64_perm.
    by rewrite (Hsort _ _ _). }
  intros d Hd Hdir. split; [by apply Hsum|].
  intros Hfit. rewrite (Hsum d Hd Hdir). by apply sum64_exact.
Qed.

Lemma aggregate_size_is_sum_witness :
  Size (Root (buildTree go_lib 0 sample_root))
    = sum64 (Size <$> Children (Root (buildTree go_lib 0 sample_root)))
  ∧ (in_int64 (sumZ (Size <$> Children (Root (buildTree go_lib 0 sample_root)))) →
     Size (Root (buildTree go_lib 0 sample_root))
       = sumZ (Size <$> Children (Root (buildTree go_lib 0 sample_root)))).
Proof.
  apply (aggregate_size_is_sum go_lib 0 sample_root go_sort_Slice_permutes).
  - apply leaves_check_sound. vm_compute. reflexivity.
  - apply InTree_here.
  - vm_compute. reflexivity.
Defined.

(** The sample tree aggregates to 650 bytes, its children ordered
    [sub] (350), [d] (200), [a] (100). *)
Example sample_root_aggregated :
  TotalSize (buildTree go_lib 0 sample_root) = 650 ∧
  Name <$> Children (Root (buildTree go_lib 0 sample_root)) = ["sub"; "d"; "a"]%string ∧
  FileCount (buildTree go_lib 0 sample_root) = 4 ∧
  DirCount (buildTree go_lib 0 sample_root) = 2 ∧
  MaxDepth (buildTree go_lib 0 sample_root) = 2.
Proof. vm_compute. done. Qed.

(** C2, as amended. After aggregation the [Children] of every directory
    are sorted non-increasing by [Size].  (The order among children of equal
    [Size] is whatever [sort.Slice] leaves; see
    [aggregate_order_of_ties_not_kept].) *)
Theorem aggregate_children_sorted (lib : Lib) (now : Time) (root : Entry) :
  sort_contract (sort_Slice lib) →
  files_are_leaves root →
  ∀ d, InTree d (Root (buildTree lib now root)) → Type_ d = TypeDir →
    StronglySorted (λ a b, Size b ≤ Size a) (Children d).
Proof.
  intros Hsort Hwf. rewrite buildTree_Root.
  apply (aggregate_entry_all_dirs lib (sort_perm _ Hsort)
           (λ d, StronglySorted (λ a b, Size b ≤ Size a) (Children d))); [|done].
  intros e cs _. simpl.
  eapply StronglySorted_mono; [|apply (sort_sorted _ Hsort), (strict_weak_key_desc Size)].
  intros a b. unfold bySizeDesc. rewrite Z.ltb_ge. lia.
Qed.

Lemma aggregate_children_sorted_witness :
  StronglySorted (λ a b, Size b ≤ Size a)
    (Children (Root (buildTree go_lib 0 sample_root))).
Proof.
  apply (aggregate_children_sorted go_lib 0 sample_root go_sort_Slice_contract).
  - apply leaves_check_sound. vm_compute. reflexivity.
  - apply InTree_here.
  - vm_compute. reflexivity.
Defined.

(** Aggregation neither drops nor invents children. *)
Lemma aggregate_children_perm (lib : Lib) (now : Time) (root : Entry) :
  sort_permutes (sort_Slice lib) → Type_ root = TypeDir →
  Children (Root (buildTree lib now root)) ≡ₚ map (aggregate_entry lib) (Children root).
Proof.
  intros Hsort Hdir. rewrite buildTree_Root.
  destruct root as [n p ty sz mt cs dp err ld]. simpl in *. subst ty. simpl.
  apply Hsort.
Qed.

(** C2, as stated, fails: with Go's [sort.Slice] the thirteen files come out
    as f12, f00, f01, f06, f04, f05, f03, f07, ..., f11, f02, so the empty
    file f03 now precedes the empty file f02 that was discovered before it. *)
Lemma aggregate_order_of_ties_not_kept :
  Name <$> Children (Root (buildTree go_lib 0 thirteen_files))
    = ["f12"; "f00"; "f01"; "f06"; "f04"; "f05"; "f03"; "f07"; "f08"; "f09";
       "f10"; "f11"; "f02"]%string
  ∧ ∃ a b, Size a = Size b
      ∧ precedes a b (Children thirteen_files)
      ∧ precedes b a (Children (Root (buildTree go_lib 0 thirteen_files))).
Proof.
  split; [vm_compute; reflexivity|].
  exists (file "f02" 0 1), (file "f03" 0 1). split; [done|]. split.
  - exists 2%nat, 3%nat. split; [lia|]. split; reflexivity.
  - exists 6%nat, 12%nat. split; [lia|]. split; vm_compute; reflexivity.
Qed.

(** The order among the empty files depends on the sort: the merge sort,
    which meets the same contract, leaves them in yet another order. *)
Example order_of_ties_depends_on_sort :
  Name <$> Children (Root (buildTree merge_lib 0 thirteen_files))
    = ["f12"; "f00"; "f01"; "f08"; "f09"; "f10"; "f11"; "f02"; "f03"; "f04";
       "f05"; "f06"; "f07"]%string.
Proof. vm_compute. reflexivity. Qed.

(** *** Properties of the scanner *)

(** The sample file system scanned without limits: the unreadable directory
    is in the tree with its error, the scan itself reports none. *)
Example sample_scan :
  ∃ tree, ScanSync go_lib sample_scanner sample_os background 0 "/r" = (Some tree, None)
    ∧ Name <$> Children (Root tree) = ["sub"; "d"; "a"; "locked"]%string
    ∧ Error <$> Children (Root tree) = [""; ""; ""; "open /r/locked: permission denied"]%string
    ∧ Errors tree = [mkScanError "/r/locked" "open /r/locked: permission denied"]
    ∧ TotalSize tree = 650 ∧ FileCount tree = 4 ∧ DirCount tree = 3 ∧ MaxDepth tree = 2.
Proof. eexists. split; [vm_compute; reflexivity|]. vm_compute. done. Qed.

Example sample_scan_shallow :
  ScanSync go_lib (NewScanner 4 (mkScannerOptions 0 1 [] false)) sample_os background 0 "/r"
  = (Some (mkTree shallow_root 0 300 2 3 1 []), None).
Proof. vm_compute. reflexivity. Qed.

(** C5. A root that cannot be resolved, cannot be stat-ed or is not a
    directory makes [ScanSync] (and the result [Scan] delivers) return an
    error and a nil tree; for a directory root the scan returns a tree and a
    nil error whatever the directory reads below it do, and a failed read
    of a directory is recorded in the [Error] field of that directory's
    entry. *)
Theorem scanSync_error_handling (lib : Lib) (s : Scanner) (os : Os) (ctx : Ctx)
    (now : Time) (root : string) :
  (∀ msg, os_Abs os root = Err msg →
     ScanSync lib s os ctx now root = (None, Some msg))
  ∧ (∀ absRoot msg, os_Abs os root = Ok absRoot → os_Stat os absRoot = Err msg →
     ScanSync lib s os ctx now root = (None, Some msg))
  ∧ (∀ absRoot info, os_Abs os root = Ok absRoot → os_Stat os absRoot = Ok info →
     fi_IsDir info = false →
     ∃ msg, ScanSync lib s os ctx now root = (None, Some msg))
  ∧ (∀ absRoot info, os_Abs os root = Ok absRoot → os_Stat os absRoot = Ok info →
     fi_IsDir info = true →
     ∃ tree, ScanSync lib s os ctx now root = (Some tree, None))
  ∧ (sr_Tree (Scan lib s os ctx now root), sr_Error (Scan lib s os ctx now root))
     = ScanSync lib s os ctx now root
  ∧ (∀ g parent rd msg,
       ctx g 0%nat = false → ctx g 1%nat = false →
       (0 <? maxDepth s) && (maxDepth s <=? Depth parent) = false →
       rd_err rd = Some msg →
       walkDir lib s ctx g parent rd = set_Error parent msg).
Proof.
  unfold ScanSync, Scan, scanSync. repeat split.
  - by intros msg ->.
  - by intros absRoot msg -> ->.
  - intros absRoot info -> -> ->. simpl. eauto.
  - intros absRoot info -> -> ->. simpl. eauto.
  - by destruct (match os_Abs os root with Ok _ => _ | Err _ => _ end).
  - intros g parent [err des] msg H0 H1 Hd Herr. simpl in *.
    by rewrite H0, Hd, H1, Herr.
Qed.

(** C6. For a directory root, [ScanSync] returns a tree and a nil error
    under every context; the tree is the aggregation of whatever the walk
    built, it is well formed, and under a context that was cancelled before
    the scan started it is the bare root: no children, nothing counted but
    the root directory itself, no error recorded. *)
Theorem scanSync_cancellation (lib : Lib) (s : Scanner) (os : Os) (ctx : Ctx)
    (now : Time) (root absRoot : string) (info : FileInfo) :
  sort_permutes (sort_Slice lib) →
  os_Abs os root = Ok absRoot → os_Stat os absRoot = Ok info → fi_IsDir info = true →
  (∃ tree, ScanSync lib s os ctx now root = (Some tree, None)
     ∧ Path (Root tree) = absRoot ∧ Type_ (Root tree) = TypeDir
     ∧ depth_inv (Root tree))
  ∧ (∃ tree, ScanSync lib s os cancelled now root = (Some tree, None)
       ∧ Children (Root tree) = [] ∧ Loaded (Root tree) = false
       ∧ Size (Root tree) = 0 ∧ TotalSize tree = 0
       ∧ FileCount tree = 0 ∧ DirCount tree = 1 ∧ Errors tree = []).
Proof.
  intros Hsort Habs Hstat Hdir. unfold ScanSync, scanSync. rewrite Habs, Hstat, Hdir. simpl.
  split.
  - eexists. split; [reflexivity|].
    set (rootEntry := mkEntry _ _ _ _ _ _ _ _ _).
    rewrite buildTree_Root.
    destruct (walkDir_Depth lib s ctx [] rootEntry (os_ReadDir os absRoot)) as [_ Hty].
    split; [|split].
    + destruct (walkDir lib s ctx [] rootEntry (os_ReadDir os absRoot))
        as [n p ty sz mt cs dp err ld] eqn:E.
      assert (p = absRoot) as ->.
      { change p with (Path (mkEntry n p ty sz mt cs dp err ld)). rewrite <- E.
        destruct (walkDir_cases lib s ctx [] rootEntry (os_ReadDir os absRoot))
          as [->|[[msg ->]|(cs' & _ & ->)]]; done. }
      simpl in *. by subst ty.
    + by rewrite aggregate_entry_Type.
    + apply aggregate_entry_depth_inv; [done|].
      by apply (walkDir_scan_ok lib s ctx (os_ReadDir os absRoot) [] rootEntry).
  - eexists. split; [reflexivity|].
    assert (sort_Slice lib Entry bySizeDesc [] = []) as Hnil.
    { apply Permutation_nil_r. apply Hsort. }
    destruct (os_ReadDir os absRoot) as [err des].
    unfold buildTree. simpl. rewrite Hnil. simpl. done.
Qed.

Lemma scanSync_cancellation_witness :
  (∃ tree, ScanSync go_lib sample_scanner sample_os background 0 "/r" = (Some tree, None)
     ∧ Path (Root tree) = "/r"%string ∧ Type_ (Root tree) = TypeDir
     ∧ depth_inv (Root tree))
  ∧ (∃ tree, ScanSync go_lib sample_scanner sample_os cancelled 0 "/r" = (Some tree, None)
       ∧ Children (Root tree) = [] ∧ Loaded (Root tree) = false
       ∧ Size (Root tree) = 0 ∧ TotalSize tree = 0
       ∧ FileCount tree = 0 ∧ DirCount tree = 1 ∧ Errors tree = []).
Proof.
  apply (scanSync_cancellation go_lib sample_scanner sample_os background 0 "/r" "/r"
           (mkFileInfo 4096 7 true) go_sort_Slice_permutes);
    reflexivity.
Defined.

(** C7. When [LoadDir] succeeds on a directory that was not loaded, the
    entry's [Size] becomes the sum of the [Size]s of the children just read,
    the children are sorted by descending [Size], and the [Size] of every
    entry outside the loaded directory, its ancestors included, is what it
    was. *)
Theorem LoadDir_updates_only_its_entry (lib : Lib) (s : Scanner) (os : Os)
    (addr : list nat) (root e : Entry) :
  sort_contract (sort_Slice lib) →
  get_at addr root = Some e →
  Type_ e = TypeDir → Loaded e = false →
  rd_err (os_ReadDir os (Path e)) = None →
  ∃ e', LoadDir lib s os e = (e', None)
    ∧ get_at addr (LoadDir_at lib s os addr root) = Some e'
    ∧ Loaded e' = true
    ∧ Children e' ≡ₚ load_entries lib s e (rd_entries (os_ReadDir os (Path e)))
    ∧ Size e' = sum64 (Size <$> Children e')
    ∧ StronglySorted (λ a b, Size b ≤ Size a) (Children e')
    ∧ ∀ q x, ¬ addr `prefix_of` q → get_at q root = Some x →
        ∃ x', get_at q (LoadDir_at lib s os addr root) = Some x' ∧ Size x' = Size x.
Proof.
  intros Hsort Hget Hdir Hld Hrd.
  assert (LoadDir lib s os e =
    (set_Size (set_Loaded (set_Children e
       (sort_Slice lib Entry bySizeDesc
          (load_entries lib s e (rd_entries (os_ReadDir os (Path e)))))) true)
       (sum64 (Size <$> sort_Slice lib Entry bySizeDesc
          (load_entries lib s e (rd_entries (os_ReadDir os (Path e)))))), None)) as HL.
  { unfold LoadDir. by rewrite Hdir, Hld, Hrd. }
  eexists. split; [exact HL|]. split; [|split; [|split; [|split; [|split]]]].
  - unfold LoadDir_at. erewrite update_at_get; [|done]. by rewrite HL.
  - done.
  - simpl. apply (sort_perm _ Hsort).
  - done.
  - simpl. eapply StronglySorted_mono;
      [|apply (sort_sorted _ Hsort), (strict_weak_key_desc Size)].
    intros a b. unfold bySizeDesc. rewrite Z.ltb_ge. lia.
  - intros q x Hpre Hq. by apply update_at_frame.
Qed.

Lemma LoadDir_updates_only_its_entry_witness :
  ∃ e', LoadDir go_lib sample_scanner sample_os
          (mkEntry "sub" "/r/sub" TypeDir 0 7 [] 1 "" false) = (e', None)
    ∧ get_at [2%nat] (LoadDir_at go_lib sample_scanner sample_os [2%nat] shallow_root)
        = Some e'
    ∧ Loaded e' = true
    ∧ Children e' ≡ₚ load_entries go_lib sample_scanner
         (mkEntry "sub" "/r/sub" TypeDir 0 7 [] 1 "" false)
         (rd_entries (os_ReadDir sample_os "/r/sub"))
    ∧ Size e' = sum64 (Size <$> Children e')
    ∧ StronglySorted (λ a b, Size b ≤ Size a) (Children e')
    ∧ ∀ q x, ¬ [2%nat] `prefix_of` q → get_at q shallow_root = Some x →
        ∃ x', get_at q (LoadDir_at go_lib sample_scanner sample_os [2%nat] shallow_root)
                = Some x' ∧ Size x' = Size x.
Proof.
  apply (LoadDir_updates_only_its_entry go_lib sample_scanner sample_os [2%nat]
           shallow_root (mkEntry "sub" "/r/sub" TypeDir 0 7 [] 1 "" false)
           go_sort_Slice_contract);
    reflexivity.
Defined.

(** After the lazy load of [sub] its entry weighs 350 bytes while the root
    still says 300. *)
Example lazy_load_leaves_root_stale :
  Size <$> get_at [2%nat] (LoadDir_at go_lib sample_scanner sample_os [2%nat] shallow_root)
    = Some 350
  ∧ Size (LoadDir_at go_lib sample_scanner sample_os [2%nat] shallow_root) = 300.
Proof. vm_compute. done. Qed.

(** C8. The root of a scanned tree has [Depth] 0 and every child of the
    tree is one level below its parent ([parent.Depth + 1] as Go computes
    it, which is the exact successor unless the depth reaches [2^63 - 1]);
    both facts still hold after any sequence of [LoadDir] calls on entries
    of the tree. *)
Theorem scanner_depth_invariant (lib : Lib) (s : Scanner) (os : Os) (ctx : Ctx)
    (now : Time) (root : string) (tree : Tree) (ops : list (Os * list nat)) :
  sort_permutes (sort_Slice lib) →
  ScanSync lib s os ctx now root = (Some tree, None) →
  Depth (Root tree) = 0 ∧ depth_inv (Root tree)
  ∧ Depth (load_all lib s ops (Root tree)) = 0
  ∧ depth_inv (load_all lib s ops (Root tree))
  ∧ ∀ p c, InTree p (load_all lib s ops (Root tree)) → c ∈ Children p →
      in_int64 (Depth p + 1) → Depth c = Depth p + 1.
Proof.
  intros Hsort Hscan.
  assert (Depth (Root tree) = 0 ∧ depth_inv (Root tree)) as [H0 Hinv].
  { unfold ScanSync, scanSync in Hscan.
    destruct (os_Abs os root) as [absRoot|]; [|done].
    destruct (os_Stat os absRoot) as [info|]; [|done].
    destruct (fi_IsDir info); [|done]. simpl in Hscan.
    injection Hscan as <-.
    set (rootEntry := mkEntry _ _ _ _ _ _ _ _ _).
    rewrite buildTree_Root, aggregate_entry_Depth.
    split.
    - by destruct (walkDir_Depth lib s ctx [] rootEntry (os_ReadDir os absRoot)) as [-> _].
    - apply aggregate_entry_depth_inv; [done|].
      by apply (walkDir_scan_ok lib s ctx (os_ReadDir os absRoot) [] rootEntry). }
  assert (Depth (load_all lib s ops (Root tree)) = 0
          ∧ depth_inv (load_all lib s ops (Root tree))) as [H0' Hinv'].
  { unfold load_all. clear Hscan. revert H0 Hinv. generalize (Root tree).
    induction ops as [|[os' addr] ops IH]; intros r H0 Hinv; simpl; [done|].
    apply IH.
    - unfold LoadDir_at. rewrite update_at_Depth; [done|]. intros e. apply LoadDir_Depth.
    - by apply LoadDir_at_depth_inv. }
  repeat split; try done.
  intros p c Hp Hc Hfit. rewrite (Hinv' p Hp c Hc). by apply wrap64_id.
Qed.

Lemma scanner_depth_invariant_witness :
  Depth shallow_root = 0 ∧ depth_inv shallow_root
  ∧ Depth (load_all go_lib sample_scanner [(sample_os, [2%nat]); (sample_os, [3%nat])]
             shallow_root) = 0
  ∧ depth_inv (load_all go_lib sample_scanner [(sample_os, [2%nat]); (sample_os, [3%nat])]
                 shallow_root)
  ∧ ∀ p c, InTree p (load_all go_lib sample_scanner
                       [(sample_os, [2%nat]); (sample_os, [3%nat])] shallow_root) →
      c ∈ Children p → in_int64 (Depth p + 1) → Depth c = Depth p + 1.
Proof.
  apply (scanner_depth_invariant go_lib (NewScanner 4 (mkScannerOptions 0 1 [] false))
           sample_os background 0 "/r" (mkTree shallow_root 0 300 2 3 1 [])
           [(sample_os, [2%nat]); (sample_os, [3%nat])] go_sort_Slice_permutes).
  vm_compute. reflexivity.
Defined.

(** C10. On an entry that is not a directory, or that is already loaded,
    [LoadDir] returns nil and leaves the entry as it is, without consulting
    the file system; so a directory whose load failed (the failure recorded
    in [Error], [Loaded] set) is not read again and reports nothing on later
    calls. *)
Theorem LoadDir_skips_loaded_and_files (lib : Lib) (s : Scanner) (e : Entry) :
  (Type_ e ≠ TypeDir ∨ Loaded e = true → ∀ os, LoadDir lib s os e = (e, None))
  ∧ (Type_ e = TypeDir → Loaded e = false →
     ∀ os msg, rd_err (os_ReadDir os (Path e)) = Some msg →
       ∃ e1, LoadDir lib s os e = (e1, Some msg)
         ∧ Error e1 = msg ∧ Loaded e1 = true ∧ Children e1 = Children e
         ∧ ∀ os', LoadDir lib s os' e1 = (e1, None)).
Proof.
  split.
  - intros H os. unfold LoadDir. destruct H as [H|H].
    + by rewrite bool_decide_eq_false_2.
    + rewrite H. by rewrite orb_true_r.
  - intros Hdir Hld os msg Hrd. eexists. split.
    + unfold LoadDir. by rewrite Hdir, Hld, Hrd.
    + repeat split. intros os'. unfold LoadDir. simpl. by rewrite orb_true_r.
Qed.

Example LoadDir_failure_sticks :
  ∃ e1, LoadDir go_lib sample_scanner sample_os
          (mkEntry "locked" "/r/locked" TypeDir 0 7 [] 1 "" false)
        = (e1, Some "open /r/locked: permission denied"%string)
    ∧ Loaded e1 = true
    ∧ LoadDir go_lib sample_scanner sample_os e1 = (e1, None).
Proof. eexists. split; [vm_compute; reflexivity|]. split; reflexivity. Qed.

(** The tree that a scan returns is aggregated throughout: in every
    directory of it, [Size] is the [int64] sum of the children's [Size]s
    and the children are in non-increasing order of [Size]; [TotalSize] is
    the root's [Size]. *)
Theorem scanSync_tree_aggregated (lib : Lib) (s : Scanner) (os : Os) (ctx : Ctx)
    (now : Time) (root : string) (tree : Tree) :
  sort_contract (sort_Slice lib) →
  ScanSync lib s os ctx now root = (Some tree, None) →
  TotalSize tree = Size (Root tree)
  ∧ ∀ d, InTree d (Root tree) → Type_ d = TypeDir →
      Size d = sum64 (Size <$> Children d)
      ∧ StronglySorted (λ a b, Size b ≤ Size a) (Children d).
Proof.
  intros Hsort Hscan. unfold ScanSync, scanSync in Hscan.
  destruct (os_Abs os root) as [absRoot|]; [|done].
  destruct (os_Stat os absRoot) as [info|]; [|done].
  destruct (fi_IsDir info); [|done]. simpl in Hscan. injection Hscan as <-.
  set (rootEntry := mkEntry _ _ _ _ _ _ _ _ _).
  split.
  { unfold buildTree. by destruct (aggregate lib _ _). }
  rewrite buildTree_Root.
  apply (aggregate_entry_all_dirs lib (sort_perm _ Hsort)
           (λ d, Size d = sum64 (Size <$> Children d)
                 ∧ StronglySorted (λ a b, Size b ≤ Size a) (Children d))).
  - intros e cs _. simpl. split.
    + apply sum64_perm. by rewrite (sort_perm _ Hsort _ _ _).
    + eapply StronglySorted_mono;
        [|apply (sort_sorted _ Hsort), (strict_weak_key_desc Size)].
      intros a b. unfold bySizeDesc. rewrite Z.ltb_ge. lia.
  - by apply (walkDir_scan_ok lib s ctx (os_ReadDir os absRoot) [] rootEntry).
Qed.

Lemma scanSync_tree_aggregated_witness :
  TotalSize (mkTree shallow_root 0 300 2 3 1 []) = Size shallow_root
  ∧ ∀ d, InTree d shallow_root → Type_ d = TypeDir →
      Size d = sum64 (Size <$> Children d)
      ∧ StronglySorted (λ a b, Size b ≤ Size a) (Children d).
Proof.
  apply (scanSync_tree_aggregated go_lib (NewScanner 4 (mkScannerOptions 0 1 [] false))
           sample_os background 0 "/r" (mkTree shallow_root 0 300 2 3 1 [])
           go_sort_Slice_contract).
  vm_compute. reflexivity.
Defined.

(** *** Entry methods ([entry.go]) and the statistics of a tree *)

(** [func (e *Entry) FileCount() int] *)
Fixpoint Entry_FileCount (e : Entry) : Z :=
  if negb (IsDir e) then 1
  else sum64 (map Entry_FileCount (Children e)).

(** [func (e *Entry) DirCount() int] *)
Fixpoint Entry_DirCount (e : Entry) : Z :=
  if negb (IsDir e) then 0
  else sum64_from 1 (map Entry_DirCount (Children e)).

(** The entries of a tree that are not directories, from left to right. *)
Fixpoint leaf_entries (e : Entry) : list Entry :=
  if IsDir e then concat (map leaf_entries (Children e)) else [e].

Lemma wrap64_idem z : wrap64 (wrap64 z) = wrap64 z.
Proof. apply wrap64_id, wrap64_range. Qed.

Lemma wrap64_add_r a b : wrap64 (a + wrap64 b) = wrap64 (a + b).
Proof. rewrite (Z.add_comm a), wrap64_add_l. f_equal. lia. Qed.

Lemma wrap64_add_both a b c d :
  wrap64 a = wrap64 c → wrap64 b = wrap64 d → wrap64 (a + b) = wrap64 (c + d).
Proof.
  intros Hac Hbd.
  rewrite <- wrap64_add_l, <- wrap64_add_r, Hac, Hbd, wrap64_add_l, wrap64_add_r. done.
Qed.

Lemma sum64_from_in_int64 acc xs : in_int64 acc → in_int64 (sum64_from acc xs).
Proof. apply sum64_from_in_range. Qed.

Lemma IsDir_Type e : IsDir e = true ↔ Type_ e = TypeDir.
Proof. unfold IsDir. apply bool_decide_eq_true. Qed.

Lemma IsDir_false e : IsDir e = false ↔ Type_ e ≠ TypeDir.
Proof. unfold IsDir. apply bool_decide_eq_false. Qed.

Section StatisticsFacts.
Variable lib : Lib.

Lemma aggregate_children_fst (agg : Tree → Entry → Tree * Entry) cs : ∀ t total,
  (aggregate_children agg t cs total).1.1 = foldl (λ t c, (agg t c).1) t cs.
Proof.
  induction cs as [|c cs IH]; intros t total; simpl; [done|].
  destruct (agg t c) as [t1 c'] eqn:E1.
  specialize (IH t1 (add64 total (Size c'))).
  destruct (aggregate_children agg t1 cs _) as [[t2 rest'] total']. simpl in *.
  done.
Qed.

Lemma record_error_ext t e e' :
  Path e' = Path e → Error e' = Error e → record_error t e' = record_error t e.
Proof. intros Hp He. unfold record_error. by rewrite Hp, He. Qed.

(** The statistics after [aggregate] has visited a directory, and a file. *)
Lemma aggregate_fst_dir e t :
  Type_ e = TypeDir →
  (aggregate lib t e).1
  = record_error
      (track_depth (foldl (λ t c, (aggregate lib t c).1) (incr_DirCount t) (Children e))
         (Depth e)) e.
Proof.
  intros Hdir. destruct e as [n p ty sz mt cs d err ld]. simpl in *. subst ty.
  pose proof (aggregate_children_fst (aggregate lib) cs (incr_DirCount t) 0) as Hfst.
  destruct (aggregate_children _ _ cs 0) as [[t2 cs'] total]. simpl in *. subst t2.
  by apply record_error_ext.
Qed.

Lemma aggregate_fst_file e t :
  Type_ e ≠ TypeDir →
  (aggregate lib t e).1 = record_error (track_depth (incr_FileCount t) (Depth e)) e.
Proof.
  intros Hdir. destruct e as [n p ty sz mt cs d err ld]. simpl in *. by destruct ty.
Qed.

Lemma FileCount_record_error t e : FileCount (record_error t e) = FileCount t.
Proof. unfold record_error. by case_decide. Qed.
Lemma DirCount_record_error t e : DirCount (record_error t e) = DirCount t.
Proof. unfold record_error. by case_decide. Qed.
Lemma MaxDepth_record_error t e : MaxDepth (record_error t e) = MaxDepth t.
Proof. unfold record_error. by case_decide. Qed.
Lemma FileCount_track_depth t d : FileCount (track_depth t d) = FileCount t.
Proof. unfold track_depth. by case_match. Qed.
Lemma DirCount_track_depth t d : DirCount (track_depth t d) = DirCount t.
Proof. unfold track_depth. by case_match. Qed.
Lemma Errors_track_depth t d : Errors (track_depth t d) = Errors t.
Proof. unfold track_depth. by case_match. Qed.
Lemma MaxDepth_track_depth t d : MaxDepth (track_depth t d) = Z.max (MaxDepth t) d.
Proof. unfold track_depth. case_match eqn:H; simpl; [apply Z.ltb_lt in H|apply Z.ltb_ge in H]; lia. Qed.

(** [aggregate] counts the entries that are not directories. *)
Lemma aggregate_FileCount e : ∀ t,
  wrap64 (FileCount (aggregate lib t e).1) = wrap64 (FileCount t + Entry_FileCount e)
  ∧ (in_int64 (FileCount t) → in_int64 (FileCount (aggregate lib t e).1)).
Proof.
  induction e as [e IH] using Entry_ind'. intros t.
  destruct (decide (Type_ e = TypeDir)) as [Hdir|Hdir].
  - rewrite (aggregate_fst_dir e t Hdir), FileCount_record_error, FileCount_track_depth.
    assert (Entry_FileCount e = sum64 (map Entry_FileCount (Children e))) as ->.
    { destruct e; simpl in *. unfold IsDir. simpl. by rewrite bool_decide_eq_true_2. }
    rewrite sum64_wrap, wrap64_add_r.
    assert (FileCount (incr_DirCount t) = FileCount t) as <- by done.
    generalize (incr_DirCount t). clear t. intros t.
    revert t. induction IH as [|c cs Hc _ IHcs]; intros t; simpl.
    + split; [f_equal; lia|done].
    + destruct (Hc t) as [H1 H2]. destruct (IHcs (aggregate lib t c).1) as [H3 H4].
      split; [|auto]. rewrite H3.
      rewrite <- wrap64_add_l, H1, wrap64_add_l. f_equal. lia.
  - rewrite (aggregate_fst_file e t Hdir), FileCount_record_error, FileCount_track_depth.
    assert (Entry_FileCount e = 1) as ->.
    { destruct e; simpl in *. unfold IsDir. simpl. by rewrite bool_decide_eq_false_2. }
    simpl. unfold add64. split; [apply wrap64_idem|]. intros _. apply wrap64_range.
Qed.

(** [aggregate] counts the directories. *)
Lemma aggregate_DirCount e : ∀ t,
  wrap64 (DirCount (aggregate lib t e).1) = wrap64 (DirCount t + Entry_DirCount e)
  ∧ (in_int64 (DirCount t) → in_int64 (DirCount (aggregate lib t e).1)).
Proof.
  induction e as [e IH] using Entry_ind'. intros t.
  destruct (decide (Type_ e = TypeDir)) as [Hdir|Hdir].
  - rewrite (aggregate_fst_dir e t Hdir), DirCount_record_error, DirCount_track_depth.
    assert (Entry_DirCount e = sum64_from 1 (map Entry_DirCount (Children e))) as ->.
    { destruct e; simpl in *. unfold IsDir. simpl. by rewrite bool_decide_eq_true_2. }
    rewrite <- wrap64_add_r, sum64_from_wrap, wrap64_add_r.
    assert (wrap64 (DirCount (incr_DirCount t)) = wrap64 (DirCount t + 1)) as Hstart.
    { simpl. unfold add64. apply wrap64_idem. }
    assert (in_int64 (DirCount t) → in_int64 (DirCount (incr_DirCount t))) as Hrange.
    { intros _. simpl. apply wrap64_range. }
    revert Hstart Hrange. generalize (incr_DirCount t). intros t1 Hstart Hrange.
    assert (wrap64 (DirCount (foldl (λ t c, (aggregate lib t c).1) t1 (Children e)))
            = wrap64 (DirCount t1 + sumZ (map Entry_DirCount (Children e)))
            ∧ (in_int64 (DirCount t1) →
               in_int64 (DirCount (foldl (λ t c, (aggregate lib t c).1) t1 (Children e)))))
      as [H1 H2].
    { clear Hstart Hrange. revert t1. induction IH as [|c cs Hc _ IHcs]; intros t1; simpl.
      - split; [f_equal; lia|done].
      - destruct (Hc t1) as [H1 H2]. destruct (IHcs (aggregate lib t1 c).1) as [H3 H4].
        split; [|auto]. rewrite H3.
        rewrite <- wrap64_add_l, H1, wrap64_add_l. f_equal. lia. }
    split; [|auto]. rewrite H1.
    rewrite <- wrap64_add_l, Hstart, wrap64_add_l. f_equal. lia.
  - rewrite (aggregate_fst_file e t Hdir), DirCount_record_error, DirCount_track_depth.
    assert (Entry_DirCount e = 0) as ->.
    { destruct e; simpl in *. unfold IsDir. simpl. by rewrite bool_decide_eq_false_2. }
    simpl. split; [f_equal; lia|done].
Qed.
End StatisticsFacts.

Section AggregatedTree.
Variable lib : Lib.
Hypothesis sort_ok : sort_permutes (sort_Slice lib).

Lemma aggregate_entry_dir e :
  Type_ e = TypeDir →
  aggregate_entry lib e =
    mkEntry (Name e) (Path e) (Type_ e)
      (sum64 (Size <$> map (aggregate_entry lib) (Children e))) (ModTime e)
      (sort_Slice lib Entry bySizeDesc (map (aggregate_entry lib) (Children e)))
      (Depth e) (Error e) (Loaded e).
Proof. intros Hdir. destruct e as [n p ty sz mt cs dp err ld]. simpl in *. by subst ty. Qed.

Lemma aggregate_entry_file e : Type_ e ≠ TypeDir → aggregate_entry lib e = e.
Proof. intros Hdir. destruct e as [n p ty sz mt cs dp err ld]. simpl in *. by destruct ty. Qed.

(** [aggregate] only rewrites [Size] and [Children]. *)
Lemma aggregate_entry_fields e :
  Name (aggregate_entry lib e) = Name e ∧ Path (aggregate_entry lib e) = Path e
  ∧ Type_ (aggregate_entry lib e) = Type_ e ∧ ModTime (aggregate_entry lib e) = ModTime e
  ∧ Depth (aggregate_entry lib e) = Depth e ∧ Error (aggregate_entry lib e) = Error e
  ∧ Loaded (aggregate_entry lib e) = Loaded e.
Proof. destruct e as [n p ty sz mt cs dp err ld]. by destruct ty. Qed.

Lemma aggregate_entry_Children e :
  Type_ e = TypeDir →
  Children (aggregate_entry lib e) ≡ₚ map (aggregate_entry lib) (Children e).
Proof. intros Hdir. rewrite (aggregate_entry_dir e Hdir). simpl. apply sort_ok. Qed.

(** The entries of the aggregated tree are the aggregated entries of the
    tree. *)
Lemma InTree_aggregate_entry d e :
  files_are_leaves e → InTree d e → InTree (aggregate_entry lib d) (aggregate_entry lib e).
Proof.
  intros Hwf Hd. induction Hd as [|c e Hc Hd IH]; [constructor|].
  destruct (decide (Type_ e = TypeDir)) as [Hdir|Hdir].
  - apply (InTree_child _ (aggregate_entry lib c)).
    + rewrite (aggregate_entry_Children e Hdir). apply list_elem_of_fmap. eauto.
    + apply IH. by eapply files_are_leaves_child.
  - rewrite (Hwf e (InTree_here e) Hdir) in Hc. by apply elem_of_nil in Hc.
Qed.

Lemma InTree_aggregate_entry_inv e : ∀ d',
  files_are_leaves e → InTree d' (aggregate_entry lib e) →
  ∃ d, InTree d e ∧ d' = aggregate_entry lib d.
Proof.
  induction e as [e IH] using Entry_ind'. intros d' Hwf Hd'.
  apply InTree_inv in Hd' as [->|(c' & Hc' & Hd')]; [exists e; split; [constructor|done]|].
  destruct (decide (Type_ e = TypeDir)) as [Hdir|Hdir].
  - rewrite (aggregate_entry_Children e Hdir) in Hc'.
    apply list_elem_of_fmap in Hc' as (c & -> & Hc).
    rewrite Forall_forall in IH.
    destruct (IH c Hc d') as (d & Hd & ->); [by eapply files_are_leaves_child|done|].
    exists d. split; [|done]. by eapply InTree_child.
  - rewrite (aggregate_entry_file e Hdir), (Hwf e (InTree_here e) Hdir) in Hc'.
    by apply elem_of_nil in Hc'.
Qed.

Lemma files_are_leaves_aggregate_entry e :
  files_are_leaves e → files_are_leaves (aggregate_entry lib e).
Proof.
  intros Hwf d' Hd' Hty.
  destruct (InTree_aggregate_entry_inv e d' Hwf Hd') as (d & Hd & ->).
  destruct (aggregate_entry_fields d) as (_ & _ & HT & _). rewrite HT in Hty.
  rewrite (aggregate_entry_file d Hty). by apply (Hwf d Hd).
Qed.

Lemma sum64_from_perm acc xs ys :
  in_int64 acc → xs ≡ₚ ys → sum64_from acc xs = sum64_from acc ys.
Proof.
  intros Hacc Hp.
  rewrite <- (wrap64_id (sum64_from acc xs)), <- (wrap64_id (sum64_from acc ys))
    by by apply sum64_from_in_range.
  rewrite !sum64_from_wrap. f_equal. f_equal. by apply sumZ_perm.
Qed.

Lemma Entry_FileCount_aggregate_entry e :
  Entry_FileCount (aggregate_entry lib e) = Entry_FileCount e.
Proof.
  induction e as [e IH] using Entry_ind'.
  destruct (decide (Type_ e = TypeDir)) as [Hdir|Hdir].
  - rewrite (aggregate_entry_dir e Hdir).
    destruct e as [n p ty sz mt cs dp err ld]. simpl in *. subst ty.
    unfold IsDir. simpl.
    rewrite (sum64_perm _ (map Entry_FileCount (map (aggregate_entry lib) cs)))
      by (apply fmap_Permutation, sort_ok).
    f_equal. rewrite map_map. apply map_ext_Forall. done.
  - by rewrite (aggregate_entry_file e Hdir).
Qed.

Lemma Entry_DirCount_aggregate_entry e :
  Entry_DirCount (aggregate_entry lib e) = Entry_DirCount e.
Proof.
  induction e as [e IH] using Entry_ind'.
  destruct (decide (Type_ e = TypeDir)) as [Hdir|Hdir].
  - rewrite (aggregate_entry_dir e Hdir).
    destruct e as [n p ty sz mt cs dp err ld]. simpl in *. subst ty.
    unfold IsDir. simpl.
    rewrite (sum64_from_perm 1 _ (map Entry_DirCount (map (aggregate_entry lib) cs)))
      by (try apply fmap_Permutation, sort_ok; unfold in_int64; lia).
    f_equal. rewrite map_map. apply map_ext_Forall. done.
  - by rewrite (aggregate_entry_file e Hdir).
Qed.

Lemma Entry_FileCount_in_int64 e : in_int64 (Entry_FileCount e).
Proof.
  destruct e as [n p ty sz mt cs dp err ld]. simpl. destruct (negb _).
  - unfold in_int64. lia.
  - apply sum64_from_in_range. unfold in_int64. lia.
Qed.

Lemma Entry_DirCount_in_int64 e : in_int64 (Entry_DirCount e).
Proof.
  destruct e as [n p ty sz mt cs dp err ld]. simpl. destruct (negb _).
  - unfold in_int64. lia.
  - apply sum64_from_in_range. unfold in_int64. lia.
Qed.

(** What [aggregate] does to [MaxDepth]. *)
Lemma aggregate_MaxDepth e : files_are_leaves e → ∀ t,
  MaxDepth t ≤ MaxDepth (aggregate lib t e).1
  ∧ (∀ d, InTree d e → Depth d ≤ MaxDepth (aggregate lib t e).1)
  ∧ (MaxDepth (aggregate lib t e).1 = MaxDepth t
     ∨ ∃ d, InTree d e ∧ Depth d = MaxDepth (aggregate lib t e).1).
Proof.
  induction e as [e IH] using Entry_ind'. intros Hwf t.
  destruct (decide (Type_ e = TypeDir)) as [Hdir|Hdir].
  - rewrite (aggregate_fst_dir lib e t Hdir), MaxDepth_record_error, MaxDepth_track_depth.
    assert (MaxDepth (incr_DirCount t) = MaxDepth t) as <- by done.
    generalize (incr_DirCount t). clear t. intros t.
    assert (MaxDepth t ≤ MaxDepth (foldl (λ t c, (aggregate lib t c).1) t (Children e))
      ∧ (∀ c d, c ∈ Children e → InTree d c →
           Depth d ≤ MaxDepth (foldl (λ t c, (aggregate lib t c).1) t (Children e)))
      ∧ (MaxDepth (foldl (λ t c, (aggregate lib t c).1) t (Children e)) = MaxDepth t
         ∨ ∃ c d, c ∈ Children e ∧ InTree d c
             ∧ Depth d = MaxDepth (foldl (λ t c, (aggregate lib t c).1) t (Children e))))
      as (F1 & F2 & F3).
    { assert (Forall files_are_leaves (Children e)) as Hcs.
      { apply Forall_forall. intros c Hc. by eapply files_are_leaves_child. }
      revert t. induction IH as [|c cs Hc _ IHcs]; intros t; simpl.
      - split; [lia|]. split; [by intros c d ?%elem_of_nil|by left].
      - inversion Hcs as [|? ? Hwc Hwcs]; subst.
        destruct (Hc Hwc t) as (A1 & A2 & A3).
        destruct (IHcs Hwcs (aggregate lib t c).1) as (B1 & B2 & B3).
        split; [lia|]. split.
        + intros c0 d [->|Hc0]%elem_of_cons Hd.
          * specialize (A2 d Hd). lia.
          * by eapply B2.
        + destruct B3 as [B3|(c0 & d & Hc0 & Hd & B3)].
          * destruct A3 as [A3|(d & Hd & A3)]; [left; lia|].
            right. exists c, d. split; [apply list_elem_of_here|]. split; [done|lia].
          * right. exists c0, d. split; [by apply list_elem_of_further|done]. }
    split; [lia|]. split.
    + intros d Hd. apply InTree_inv in Hd as [->|(c & Hc & Hd)]; [lia|].
      specialize (F2 c d Hc Hd). lia.
    + destruct (Z.max_spec (MaxDepth (foldl (λ t c, (aggregate lib t c).1) t (Children e)))
                  (Depth e)) as [[_ ->]|[_ ->]].
      * right. exists e. split; [constructor|done].
      * destruct F3 as [F3|(c & d & Hc & Hd & F3)]; [by left|].
        right. exists d. split; [by eapply InTree_child|done].
  - rewrite (aggregate_fst_file lib e t Hdir), MaxDepth_record_error, MaxDepth_track_depth.
    simpl. split; [lia|]. split.
    + intros d Hd. apply InTree_inv in Hd as [->|(c & Hc & _)]; [lia|].
      rewrite (Hwf e (InTree_here e) Hdir) in Hc. by apply elem_of_nil in Hc.
    + destruct (Z.max_spec (MaxDepth t) (Depth e)) as [[_ ->]|[_ ->]]; [|by left].
      right. exists e. split; [constructor|done].
Qed.

Lemma Errors_record_error t e :
  Errors (record_error t e)
  = Errors t ++ (if decide (Error e = ""%string) then [] else [mkScanError (Path e) (Error e)]).
Proof. unfold record_error. case_decide; simpl; [by rewrite app_nil_r|done]. Qed.

(** What [aggregate] appends to [Errors]. *)
Lemma aggregate_Errors e : files_are_leaves e → ∀ t,
  ∃ errs, Errors (aggregate lib t e).1 = Errors t ++ errs
    ∧ ∀ se, se ∈ errs ↔
        ∃ d, InTree d e ∧ Error d ≠ ""%string ∧ se = mkScanError (Path d) (Error d).
Proof.
  induction e as [e IH] using Entry_ind'. intros Hwf t.
  destruct (decide (Type_ e = TypeDir)) as [Hdir|Hdir].
  - rewrite (aggregate_fst_dir lib e t Hdir), Errors_record_error, Errors_track_depth.
    assert (Errors (incr_DirCount t) = Errors t) as <- by done.
    generalize (incr_DirCount t). clear t. intros t.
    assert (∃ errs,
      Errors (foldl (λ t c, (aggregate lib t c).1) t (Children e)) = Errors t ++ errs
      ∧ ∀ se, se ∈ errs ↔
          ∃ c d, c ∈ Children e ∧ InTree d c ∧ Error d ≠ ""%string
                 ∧ se = mkScanError (Path d) (Error d)) as (errs & F1 & F2).
    { assert (Forall files_are_leaves (Children e)) as Hcs.
      { apply Forall_forall. intros c Hc. by eapply files_are_leaves_child. }
      revert t. induction IH as [|c cs Hc _ IHcs]; intros t; simpl.
      - exists []. split; [by rewrite app_nil_r|].
        intros se. split; [by intros ?%elem_of_nil|].
        by intros (c & d & ?%elem_of_nil & _).
      - inversion Hcs as [|? ? Hwc Hwcs]; subst.
        destruct (Hc Hwc t) as (e1 & A1 & A2).
        destruct (IHcs Hwcs (aggregate lib t c).1) as (e2 & B1 & B2).
        exists (e1 ++ e2). split; [by rewrite B1, A1, app_assoc|].
        intros se. rewrite elem_of_app, A2, B2. split.
        + intros [(d & Hd & Hne & ->)|(c0 & d & Hc0 & Hd & Hne & ->)].
          * exists c, d. split; [apply list_elem_of_here|done].
          * exists c0, d. split; [by apply list_elem_of_further|done].
        + intros (c0 & d & [->|Hc0]%elem_of_cons & Hd & Hne & ->).
          * left. eauto.
          * right. exists c0, d. eauto. }
    rewrite F1, <- app_assoc. eexists. split; [done|].
    intros se. rewrite elem_of_app, F2. split.
    + intros [(c & d & Hc & Hd & Hne & ->)|Hse].
      * exists d. split; [by eapply InTree_child|done].
      * case_decide; [by apply elem_of_nil in Hse|].
        apply list_elem_of_singleton in Hse as ->.
        exists e. split; [constructor|done].
    + intros (d & Hd & Hne & ->).
      apply InTree_inv in Hd as [->|(c & Hc & Hd)].
      * right. rewrite decide_False by done. by apply list_elem_of_singleton.
      * left. exists c, d. eauto.
  - rewrite (aggregate_fst_file lib e t Hdir), Errors_record_error, Errors_track_depth.
    simpl. eexists. split; [done|].
    intros se. split.
    + intros Hse. case_decide; [by apply elem_of_nil in Hse|].
      apply list_elem_of_singleton in Hse as ->. exists e. split; [constructor|done].
    + intros (d & Hd & Hne & ->).
      apply InTree_inv in Hd as [->|(c & Hc & _)].
      * rewrite decide_False by done. by apply list_elem_of_singleton.
      * rewrite (Hwf e (InTree_here e) Hdir) in Hc. by apply elem_of_nil in Hc.
Qed.
End AggregatedTree.

Section AggregateTransfer.
Variable lib : Lib.
Hypothesis sort_ok : sort_permutes (sort_Slice lib).

(** A property of single entries that does not look at [Size] nor at more
    than the number of [Children] survives aggregation. *)
Lemma aggregate_entry_all_nodes (Q : Entry → Prop) :
  (∀ e sz cs, Q e → length cs = length (Children e) →
     Q (mkEntry (Name e) (Path e) (Type_ e) sz (ModTime e) cs (Depth e) (Error e)
          (Loaded e))) →
  ∀ e, all_nodes Q e → all_nodes Q (aggregate_entry lib e).
Proof.
  intros HQ e. induction e as [e IH] using Entry_ind'. intros He.
  destruct (decide (Type_ e = TypeDir)) as [Hdir|Hdir];
    [|by rewrite (aggregate_entry_file lib e Hdir)].
  apply all_nodes_unfold in He as [Htop Hcs].
  rewrite (aggregate_entry_dir lib e Hdir). apply all_nodes_unfold. simpl. split.
  - apply HQ; [done|]. by rewrite (sort_ok _ _ _), length_map.
  - apply Forall_forall. intros c'. rewrite (sort_ok _ _ _).
    intros (c & -> & Hc)%list_elem_of_fmap.
    rewrite Forall_forall in IH, Hcs. apply IH; [done|]. by apply Hcs.
Qed.

Lemma aggregate_entry_children_all_nodes (Q : Entry → Prop) e :
  (∀ e sz cs, Q e → length cs = length (Children e) →
     Q (mkEntry (Name e) (Path e) (Type_ e) sz (ModTime e) cs (Depth e) (Error e)
          (Loaded e))) →
  Forall (all_nodes Q) (Children e) →
  Forall (all_nodes Q) (Children (aggregate_entry lib e)).
Proof.
  intros HQ Hcs. destruct (decide (Type_ e = TypeDir)) as [Hdir|Hdir];
    [|by rewrite (aggregate_entry_file lib e Hdir)].
  apply Forall_forall. intros c'. rewrite (aggregate_entry_Children lib sort_ok e Hdir).
  intros (c & -> & Hc)%list_elem_of_fmap.
  apply aggregate_entry_all_nodes; [done|]. rewrite Forall_forall in Hcs. by apply Hcs.
Qed.
End AggregateTransfer.

Section WalkFacts.
Variable lib : Lib.
Variable s : Scanner.

(** [s.maxDepth > 0 && parent.Depth >= s.maxDepth] *)
Definition at_depth_limit (e : Entry) : bool :=
  (0 <? maxDepth s) && (maxDepth s <=? Depth e).

(** What [walkDir] makes of the [i]-th directory entry. *)
Definition walked_child (ctx : Ctx) (g : list nat) (parent : Entry)
    (de : DirEntry) (sub : ReadDirResult) : Entry :=
  if negb (de_IsSymlink de) && de_IsDir de
  then walkDir lib s ctx g (walk_classify lib parent de) sub
  else walk_classify lib parent de.

Lemma walk_entries_Forall (R : Entry → Prop) ctx g parent des :
  (∀ de sub g', (de, sub) ∈ des → skipped lib s de = false →
     R (walked_child ctx g' parent de sub)) →
  ∀ i acc cs,
    Forall R acc →
    walk_entries lib s (walkDir lib s ctx) ctx g parent des i acc = Some cs →
    Forall R cs.
Proof.
  induction des as [|[de sub] des IH]; intros HR i acc cs Hacc Hrun; simpl in Hrun.
  - by inversion Hrun; subst.
  - destruct (ctx g (S (S i))); [done|].
    assert (∀ de' sub' g', (de', sub') ∈ des → skipped lib s de' = false →
              R (walked_child ctx g' parent de' sub')) as HR'.
    { intros de' sub' g' Hin. apply HR. by apply list_elem_of_further. }
    destruct (skipped lib s de) eqn:Hskip; [by eapply IH|].
    eapply IH; [done| |exact Hrun].
    apply Forall_app. split; [done|]. constructor; [|done].
    apply (HR de sub (g ++ [i])); [apply list_elem_of_here|done].
Qed.

Lemma walk_classify_fields parent de :
  Name (walk_classify lib parent de) = de_Name de
  ∧ Path (walk_classify lib parent de) = filepath_Join lib (Path parent) (de_Name de)
  ∧ Children (walk_classify lib parent de) = []
  ∧ Depth (walk_classify lib parent de) = add64 (Depth parent) 1
  ∧ Error (walk_classify lib parent de) = ""%string
  ∧ Loaded (walk_classify lib parent de) = false.
Proof.
  unfold walk_classify, with_Size_ModTime, with_ModTime.
  repeat (case_match; simpl); done.
Qed.

(** The type that the [switch] of [walkDir] and of [LoadDir] gives an
    entry: the symlink bit wins over the directory bit. *)
Definition classified_type (de : DirEntry) : EntryType :=
  if de_IsSymlink de then TypeSymlink
  else if de_IsDir de then TypeDir
  else if de_IsRegular de then TypeFile
  else TypeOther.

Lemma walk_classify_Type parent de :
  Type_ (walk_classify lib parent de) = classified_type de.
Proof.
  unfold walk_classify, classified_type, with_Size_ModTime, with_ModTime.
  repeat (case_match; simpl); done.
Qed.

Lemma load_classify_Type parent de :
  Type_ (load_classify lib parent de) = classified_type de.
Proof.
  unfold load_classify, classified_type, with_Size_ModTime, with_ModTime.
  repeat (case_match; simpl); done.
Qed.

(** The ways [walkDir] can leave its entry, with the conditions. *)
Lemma walkDir_outcomes ctx g parent rd :
  walkDir lib s ctx g parent rd = parent
  ∨ (∃ msg, rd_err rd = Some msg ∧ at_depth_limit parent = false
            ∧ walkDir lib s ctx g parent rd = set_Error parent msg)
  ∨ (∃ cs, rd_err rd = None ∧ at_depth_limit parent = false
           ∧ walk_entries lib s (walkDir lib s ctx) ctx g parent (rd_entries rd) 0 [] = Some cs
           ∧ walkDir lib s ctx g parent rd = set_Loaded (set_Children parent cs) true).
Proof.
  destruct rd as [err des]. simpl. unfold at_depth_limit.
  destruct (ctx g 0%nat); [by left|].
  destruct ((0 <? maxDepth s) && (maxDepth s <=? Depth parent)); [by left|].
  destruct (ctx g 1%nat); [by left|].
  destruct err as [msg|]; [right; left; eauto|].
  destruct (walk_entries _ _ _ _ _ _ _ _ _) as [cs|]; [|by left].
  right. right. eauto.
Qed.

Section WalkInvariant.
Variables F C Q : Entry → Prop.
Hypothesis Hfresh : ∀ parent de,
  F parent → Type_ parent = TypeDir → at_depth_limit parent = false →
  skipped lib s de = false →
  F (walk_classify lib parent de) ∧ C (walk_classify lib parent de).
Hypothesis Hleaf : ∀ e,
  F e → C e → Children e = [] → Loaded e = false → Error e = ""%string → Q e.
Hypothesis Herr : ∀ e msg,
  F e → C e → Type_ e = TypeDir → at_depth_limit e = false → Children e = [] →
  Loaded e = false → Error e = ""%string → Q (set_Error e msg).
Hypothesis Hnode : ∀ e cs,
  F e → C e → Type_ e = TypeDir → at_depth_limit e = false →
  Loaded e = false → Error e = ""%string → Q (set_Loaded (set_Children e cs) true).

(** An invariant of the entries that a walk creates: [F] flows from a
    directory to the entries found in it, [C] holds of an entry when it is
    created, [Q] of every entry as the walk leaves it. *)
Lemma walkDir_children_all_nodes ctx rd : ∀ g parent,
  F parent → Type_ parent = TypeDir →
  Forall (all_nodes Q) (Children parent) →
  Forall (all_nodes Q) (Children (walkDir lib s ctx g parent rd)).
Proof.
  induction rd as [rd IH] using ReadDirResult_ind'. intros g parent HF Hdir Hcs0.
  destruct (walkDir_outcomes ctx g parent rd)
    as [->|[(msg & _ & _ & ->)|(cs & _ & Hlim & Hcs & ->)]]; try done.
  simpl.
  eapply (walk_entries_Forall (all_nodes Q) ctx g parent (rd_entries rd));
    [|constructor|exact Hcs].
  intros de sub g' Hin Hskip.
  destruct (Hfresh parent de HF Hdir Hlim Hskip) as [HF' HC'].
  destruct (walk_classify_fields parent de) as (_ & _ & Hnil & _ & Herr0 & Hld).
  unfold walked_child.
  destruct (negb (de_IsSymlink de) && de_IsDir de) eqn:Hwalk.
  - apply andb_true_iff in Hwalk as [Hsym Hisdir]. apply negb_true_iff in Hsym.
    assert (Type_ (walk_classify lib parent de) = TypeDir) as Hty
      by by apply walk_classify_dir.
    rewrite Forall_forall in IH.
    specialize (IH (de, sub) Hin g' (walk_classify lib parent de) HF' Hty).
    rewrite Hnil in IH. specialize (IH (Forall_nil_2 _)).
    apply all_nodes_unfold. split; [|exact IH].
    destruct (walkDir_outcomes ctx g' (walk_classify lib parent de) sub)
      as [->|[(msg & _ & Hlim' & ->)|(cs' & _ & Hlim' & _ & ->)]].
    + by apply Hleaf.
    + by apply Herr.
    + by apply Hnode.
  - apply all_nodes_leaf; [done|]. by apply Hleaf.
Qed.

Lemma walkDir_all_nodes ctx rd g parent :
  F parent → C parent → Type_ parent = TypeDir → Children parent = [] →
  Loaded parent = false → Error parent = ""%string →
  all_nodes Q (walkDir lib s ctx g parent rd).
Proof.
  intros HF HC Hdir Hnil Hld Herr0.
  apply all_nodes_unfold. split.
  - destruct (walkDir_outcomes ctx g parent rd)
      as [->|[(msg & _ & Hlim' & ->)|(cs' & _ & Hlim' & _ & ->)]].
    + by apply Hleaf.
    + by apply Herr.
    + by apply Hnode.
  - apply walkDir_children_all_nodes; [done|done|]. by rewrite Hnil.
Qed.
End WalkInvariant.

(** What a successful [scanSync] has done. *)
Lemma scanSync_inv os ctx now root tree :
  ScanSync lib s os ctx now root = (Some tree, None) →
  ∃ absRoot info,
    os_Abs os root = Ok absRoot ∧ os_Stat os absRoot = Ok info ∧ fi_IsDir info = true
    ∧ tree = buildTree lib now
               (walkDir lib s ctx []
                  (mkEntry (filepath_Base lib absRoot) absRoot TypeDir 0 (fi_ModTime info)
                     [] 0 "" false)
                  (os_ReadDir os absRoot)).
Proof.
  unfold ScanSync, scanSync. intros Hscan.
  destruct (os_Abs os root) as [absRoot|] eqn:Habs; [|done].
  destruct (os_Stat os absRoot) as [info|] eqn:Hstat; [|done].
  destruct (fi_IsDir info) eqn:Hdir; simpl in Hscan; [|done].
  exists absRoot, info. repeat split; try done. congruence.
Qed.

Lemma buildTree_fields now root :
  TotalSize (buildTree lib now root) = Size (aggregate_entry lib root)
  ∧ FileCount (buildTree lib now root)
    = FileCount (aggregate lib (mkTree root now 0 0 0 0 []) root).1
  ∧ DirCount (buildTree lib now root)
    = DirCount (aggregate lib (mkTree root now 0 0 0 0 []) root).1
  ∧ MaxDepth (buildTree lib now root)
    = MaxDepth (aggregate lib (mkTree root now 0 0 0 0 []) root).1
  ∧ Errors (buildTree lib now root)
    = Errors (aggregate lib (mkTree root now 0 0 0 0 []) root).1.
Proof.
  unfold buildTree. rewrite <- (aggregate_snd lib root (mkTree root now 0 0 0 0 [])).
  by destruct (aggregate lib _ root).
Qed.
End WalkFacts.

(** The tree of the full scan of the sample file system. *)
Definition sample_scan_tree : Tree :=
  Eval vm_compute in
    match ScanSync go_lib sample_scanner sample_os background 0 "/r" with
    | (Some tree, _) => tree
    | _ => mkTree sample_root 0 0 0 0 0 []
    end.

Lemma sample_scan_tree_scanned :
  ScanSync go_lib sample_scanner sample_os background 0 "/r" = (Some sample_scan_tree, None).
Proof. vm_compute. reflexivity. Qed.

Lemma sample_scan_shallow_scanned :
  ScanSync go_lib (NewScanner 4 (mkScannerOptions 0 1 [] false)) sample_os background 0 "/r"
  = (Some (mkTree shallow_root 0 300 2 3 1 []), None).
Proof. vm_compute. reflexivity. Qed.

(** *** The statistics of a tree *)

(** After [buildTree] the counters of the tree agree with the methods of
    its root entry: [tree.FileCount] is [tree.Root.FileCount()] and
    [tree.DirCount] is [tree.Root.DirCount()] (every entry that is not a
    directory counts as a file). *)
Theorem buildTree_counts_agree (lib : Lib) (now : Time) (root : Entry) :
  sort_permutes (sort_Slice lib) →
  FileCount (buildTree lib now root) = Entry_FileCount (Root (buildTree lib now root))
  ∧ DirCount (buildTree lib now root) = Entry_DirCount (Root (buildTree lib now root)).
Proof.
  intros Hsort. rewrite buildTree_Root.
  rewrite (Entry_FileCount_aggregate_entry lib Hsort),
    (Entry_DirCount_aggregate_entry lib Hsort).
  destruct (buildTree_fields lib now root) as (_ & -> & -> & _).
  destruct (aggregate_FileCount lib root (mkTree root now 0 0 0 0 [])) as [F1 F2].
  destruct (aggregate_DirCount lib root (mkTree root now 0 0 0 0 [])) as [D1 D2].
  simpl in *. split.
  - rewrite <- (wrap64_id _ (F2 ltac:(unfold in_int64; lia))), F1.
    apply wrap64_id, Entry_FileCount_in_int64.
  - rewrite <- (wrap64_id _ (D2 ltac:(unfold in_int64; lia))), D1.
    apply wrap64_id, Entry_DirCount_in_int64.
Qed.

Lemma buildTree_counts_agree_witness :
  FileCount (buildTree go_lib 0 sample_root)
    = Entry_FileCount (Root (buildTree go_lib 0 sample_root))
  ∧ DirCount (buildTree go_lib 0 sample_root)
    = Entry_DirCount (Root (buildTree go_lib 0 sample_root)).
Proof. apply (buildTree_counts_agree go_lib 0 sample_root go_sort_Slice_permutes). Defined.

(** [MaxDepth] of a scanned tree is the largest [Depth] found in it. *)
Theorem scanSync_MaxDepth (lib : Lib) (s : Scanner) (os : Os) (ctx : Ctx) (now : Time)
    (root : string) (tree : Tree) :
  sort_permutes (sort_Slice lib) →
  ScanSync lib s os ctx now root = (Some tree, None) →
  (∀ d, InTree d (Root tree) → Depth d ≤ MaxDepth tree)
  ∧ ∃ d, InTree d (Root tree) ∧ Depth d = MaxDepth tree.
Proof.
  intros Hsort (absRoot & info & _ & _ & _ & ->)%scanSync_inv.
  set (root0 := mkEntry _ _ _ _ _ _ _ _ _).
  set (w := walkDir lib s ctx [] root0 (os_ReadDir os absRoot)).
  assert (files_are_leaves w) as Hwf by by apply walkDir_scan_ok.
  assert (Depth w = 0) as Hw0 by apply (walkDir_Depth lib s ctx [] root0).
  rewrite buildTree_Root.
  destruct (buildTree_fields lib now w) as (_ & _ & _ & -> & _).
  destruct (aggregate_MaxDepth lib w Hwf (mkTree w now 0 0 0 0 [])) as (M1 & M2 & M3).
  simpl in M1, M3. split.
  - intros d' (d & Hd & ->)%(InTree_aggregate_entry_inv lib Hsort); [|done].
    destruct (aggregate_entry_fields lib d) as (_ & _ & _ & _ & -> & _). by apply M2.
  - destruct M3 as [M3|(d & Hd & M3)].
    + exists (aggregate_entry lib w). split; [constructor|].
      destruct (aggregate_entry_fields lib w) as (_ & _ & _ & _ & -> & _). lia.
    + exists (aggregate_entry lib d). split; [by apply InTree_aggregate_entry|].
      by destruct (aggregate_entry_fields lib d) as (_ & _ & _ & _ & -> & _).
Qed.

Lemma scanSync_MaxDepth_witness :
  (∀ d, InTree d (Root sample_scan_tree) → Depth d ≤ MaxDepth sample_scan_tree)
  ∧ ∃ d, InTree d (Root sample_scan_tree) ∧ Depth d = MaxDepth sample_scan_tree.
Proof.
  apply (scanSync_MaxDepth go_lib sample_scanner sample_os background 0 "/r" sample_scan_tree
           go_sort_Slice_permutes).
  vm_compute. reflexivity.
Defined.

(** [Errors] of a scanned tree holds the path and the message of exactly
    the entries whose [Error] is not empty; these are directories that
    could not be read, and they are left without children and not
    [Loaded]. *)
Theorem scanSync_Errors (lib : Lib) (s : Scanner) (os : Os) (ctx : Ctx) (now : Time)
    (root : string) (tree : Tree) :
  sort_permutes (sort_Slice lib) →
  ScanSync lib s os ctx now root = (Some tree, None) →
  (∀ se, se ∈ Errors tree ↔
     ∃ d, InTree d (Root tree) ∧ Error d ≠ ""%string ∧ se = mkScanError (Path d) (Error d))
  ∧ (∀ d, InTree d (Root tree) → Error d ≠ ""%string →
       Type_ d = TypeDir ∧ Children d = [] ∧ Loaded d = false).
Proof.
  intros Hsort (absRoot & info & _ & _ & _ & ->)%scanSync_inv.
  set (root0 := mkEntry _ _ _ _ _ _ _ _ _).
  set (w := walkDir lib s ctx [] root0 (os_ReadDir os absRoot)).
  assert (files_are_leaves w) as Hwf by by apply walkDir_scan_ok.
  rewrite buildTree_Root.
  destruct (buildTree_fields lib now w) as (_ & _ & _ & _ & ->).
  destruct (aggregate_Errors lib w Hwf (mkTree w now 0 0 0 0 [])) as (errs & E1 & E2).
  simpl in E1. rewrite E1. split.
  - intros se. rewrite E2. split.
    + intros (d & Hd & Hne & ->). exists (aggregate_entry lib d).
      destruct (aggregate_entry_fields lib d) as (_ & -> & _ & _ & _ & -> & _).
      split; [by apply InTree_aggregate_entry|done].
    + intros (d' & (d & Hd & ->)%(InTree_aggregate_entry_inv lib Hsort) & Hne & ->);
        [|done].
      destruct (aggregate_entry_fields lib d) as (_ & HP & _ & _ & _ & HE & _).
      rewrite HP, HE in *. eauto.
  - apply (aggregate_entry_all_nodes lib Hsort
             (λ d, Error d ≠ ""%string →
                   Type_ d = TypeDir ∧ Children d = [] ∧ Loaded d = false)).
    { intros e sz cs He Hlen Hne. simpl in *. destruct (He Hne) as (? & Hnil & ?).
      rewrite Hnil in Hlen. by destruct cs. }
    apply (walkDir_all_nodes lib s (λ _, True) (λ _, True)); done.
Qed.

Lemma scanSync_Errors_witness :
  (∀ se, se ∈ Errors sample_scan_tree ↔
     ∃ d, InTree d (Root sample_scan_tree) ∧ Error d ≠ ""%string
          ∧ se = mkScanError (Path d) (Error d))
  ∧ (∀ d, InTree d (Root sample_scan_tree) → Error d ≠ ""%string →
       Type_ d = TypeDir ∧ Children d = [] ∧ Loaded d = false).
Proof.
  apply (scanSync_Errors go_lib sample_scanner sample_os background 0 "/r" sample_scan_tree
           go_sort_Slice_permutes).
  vm_compute. reflexivity.
Defined.

Lemma sumZ_app xs ys : sumZ (xs ++ ys) = sumZ xs + sumZ ys.
Proof. induction xs as [|x xs IH]; simpl; lia. Qed.

Lemma leaf_sizes_cons c cs :
  sumZ (Size <$> concat (map leaf_entries (c :: cs)))
  = sumZ (Size <$> leaf_entries c) + sumZ (Size <$> concat (map leaf_entries cs)).
Proof. simpl. by rewrite fmap_app, sumZ_app. Qed.

Lemma leaf_sizes_perm cs cs' :
  cs ≡ₚ cs' →
  sumZ (Size <$> concat (map leaf_entries cs)) = sumZ (Size <$> concat (map leaf_entries cs')).
Proof.
  induction 1 as [|c cs cs' _ IH|c1 c2 cs|cs1 cs2 cs3 _ IH1 _ IH2].
  - done.
  - rewrite !leaf_sizes_cons. lia.
  - rewrite !leaf_sizes_cons. lia.
  - lia.
Qed.

(** The [Size] of an aggregated entry is the sum of the sizes of the
    entries below it that are not directories. *)
Lemma aggregate_entry_Size_leaves (lib : Lib) e :
  sort_permutes (sort_Slice lib) →
  wrap64 (Size (aggregate_entry lib e))
  = wrap64 (sumZ (Size <$> leaf_entries (aggregate_entry lib e))).
Proof.
  intros Hsort. induction e as [e IH] using Entry_ind'.
  destruct (decide (Type_ e = TypeDir)) as [Hdir|Hdir].
  - rewrite (aggregate_entry_dir lib e Hdir).
    assert (∀ sz cs, leaf_entries
              (mkEntry (Name e) (Path e) (Type_ e) sz (ModTime e) cs (Depth e) (Error e)
                 (Loaded e)) = concat (map leaf_entries cs)) as ->.
    { intros sz cs. simpl. unfold IsDir. simpl. by rewrite bool_decide_eq_true_2. }
    simpl. rewrite (leaf_sizes_perm _ _ (Hsort _ _ _)).
    rewrite sum64_wrap, wrap64_idem.
    induction IH as [|c cs Hc _ IHcs]; [done|].
    simpl. rewrite fmap_app, sumZ_app. by apply wrap64_add_both.
  - rewrite (aggregate_entry_file lib e Hdir).
    assert (leaf_entries e = [e]) as ->.
    { destruct e; simpl in *. unfold IsDir. simpl. by rewrite bool_decide_eq_false_2. }
    simpl. f_equal. lia.
Qed.

(** [TotalSize] of a scanned tree is the sum, in [int64], of the sizes of
    all its entries that are not directories: what a directory itself
    occupies is not counted. *)
Theorem scanSync_TotalSize (lib : Lib) (s : Scanner) (os : Os) (ctx : Ctx) (now : Time)
    (root : string) (tree : Tree) :
  sort_permutes (sort_Slice lib) →
  ScanSync lib s os ctx now root = (Some tree, None) →
  TotalSize tree = wrap64 (sumZ (Size <$> leaf_entries (Root tree)))
  ∧ (in_int64 (sumZ (Size <$> leaf_entries (Root tree))) →
     TotalSize tree = sumZ (Size <$> leaf_entries (Root tree))).
Proof.
  intros Hsort (absRoot & info & _ & _ & _ & ->)%scanSync_inv.
  set (root0 := mkEntry _ _ _ _ _ _ _ _ _).
  set (w := walkDir lib s ctx [] root0 (os_ReadDir os absRoot)).
  assert (Type_ w = TypeDir) as Hdir by apply (walkDir_Depth lib s ctx [] root0).
  rewrite buildTree_Root.
  destruct (buildTree_fields lib now w) as (-> & _).
  assert (Size (aggregate_entry lib w)
          = wrap64 (sumZ (Size <$> leaf_entries (aggregate_entry lib w)))) as Heq.
  { rewrite <- (aggregate_entry_Size_leaves lib w Hsort).
    symmetry. apply wrap64_id. rewrite (aggregate_entry_dir lib w Hdir). simpl.
    apply sum64_from_in_range. unfold in_int64. lia. }
  split; [done|]. intros Hfit. rewrite Heq. by apply wrap64_id.
Qed.

Lemma scanSync_TotalSize_witness :
  TotalSize sample_scan_tree = wrap64 (sumZ (Size <$> leaf_entries (Root sample_scan_tree)))
  ∧ (in_int64 (sumZ (Size <$> leaf_entries (Root sample_scan_tree))) →
     TotalSize sample_scan_tree = sumZ (Size <$> leaf_entries (Root sample_scan_tree))).
Proof.
  apply (scanSync_TotalSize go_lib sample_scanner sample_os background 0 "/r"
           sample_scan_tree go_sort_Slice_permutes).
  vm_compute. reflexivity.
Defined.

(** *** What a scan leaves out *)

(** With a depth limit ([MaxDepth > 0]) no entry of the scanned tree lies
    deeper than the limit, the entries at the limit are not listed
    (no children, not [Loaded]), and [tree.MaxDepth] stays within it. *)
Theorem scanSync_respects_maxDepth (lib : Lib) (s : Scanner) (os : Os) (ctx : Ctx)
    (now : Time) (root : string) (tree : Tree) :
  sort_permutes (sort_Slice lib) →
  0 < maxDepth s → maxDepth s < 2 ^ 63 →
  ScanSync lib s os ctx now root = (Some tree, None) →
  (∀ d, InTree d (Root tree) →
     0 ≤ Depth d ≤ maxDepth s
     ∧ (Depth d = maxDepth s → Children d = [] ∧ Loaded d = false))
  ∧ MaxDepth tree ≤ maxDepth s.
Proof.
  intros Hsort Hpos Hmax (absRoot & info & _ & _ & _ & ->)%scanSync_inv.
  set (root0 := mkEntry _ _ _ _ _ _ _ _ _).
  set (w := walkDir lib s ctx [] root0 (os_ReadDir os absRoot)).
  assert (files_are_leaves w) as Hwf by by apply walkDir_scan_ok.
  assert (all_nodes (λ d, 0 ≤ Depth d ≤ maxDepth s
                          ∧ (Depth d = maxDepth s → Children d = [] ∧ Loaded d = false)) w)
    as Hw.
  { apply (walkDir_all_nodes lib s (λ e, 0 ≤ Depth e ≤ maxDepth s) (λ _, True));
      try done.
    - intros parent de [Hp1 Hp2] _ Hlim _. split; [|done].
      destruct (walk_classify_fields lib parent de) as (_ & _ & _ & -> & _).
      unfold at_depth_limit in Hlim.
      rewrite (proj2 (Z.ltb_lt 0 (maxDepth s)) Hpos) in Hlim. simpl in Hlim.
      apply Z.leb_gt in Hlim. unfold add64. rewrite wrap64_id; unfold in_int64; lia.
    - intros e cs HF _ _ Hlim _ _. simpl. split; [done|].
      unfold at_depth_limit in Hlim.
      rewrite (proj2 (Z.ltb_lt 0 (maxDepth s)) Hpos) in Hlim. simpl in Hlim.
      apply Z.leb_gt in Hlim. lia.
    - simpl. lia. }
  rewrite buildTree_Root.
  destruct (buildTree_fields lib now w) as (_ & _ & _ & -> & _).
  split.
  - apply (aggregate_entry_all_nodes lib Hsort
             (λ d, 0 ≤ Depth d ≤ maxDepth s
                   ∧ (Depth d = maxDepth s → Children d = [] ∧ Loaded d = false)));
      [|done].
    intros e sz cs [He1 He2] Hlen. simpl. split; [done|].
    intros Heq. destruct (He2 Heq) as [Hnil ?]. rewrite Hnil in Hlen. by destruct cs.
  - destruct (aggregate_MaxDepth lib w Hwf (mkTree w now 0 0 0 0 [])) as (_ & _ & M3).
    simpl in M3. destruct M3 as [->|(d & Hd & <-)]; [lia|]. by apply (Hw d Hd).
Qed.

Lemma scanSync_respects_maxDepth_witness :
  (∀ d, InTree d shallow_root →
     0 ≤ Depth d ≤ 1 ∧ (Depth d = 1 → Children d = [] ∧ Loaded d = false))
  ∧ MaxDepth (mkTree shallow_root 0 300 2 3 1 []) ≤ 1.
Proof.
  apply (scanSync_respects_maxDepth go_lib (NewScanner 4 (mkScannerOptions 0 1 [] false))
           sample_os background 0 "/r" (mkTree shallow_root 0 300 2 3 1 [])
           go_sort_Slice_permutes).
  - reflexivity.
  - reflexivity.
  - vm_compute. reflexivity.
Defined.

(** No entry below the root of a scanned tree bears a name that matches
    an ignore pattern, nor, unless hidden entries are shown, a name that
    starts with a dot. *)
Theorem scanSync_skips_ignored (lib : Lib) (s : Scanner) (os : Os) (ctx : Ctx)
    (now : Time) (root : string) (tree : Tree) :
  sort_permutes (sort_Slice lib) →
  ScanSync lib s os ctx now root = (Some tree, None) →
  Forall (all_nodes (λ d, shouldIgnore lib s (Name d) = false
                          ∧ (showHidden s = false → hasDotPrefix (Name d) = false)))
    (Children (Root tree)).
Proof.
  intros Hsort (absRoot & info & _ & _ & _ & ->)%scanSync_inv.
  set (root0 := mkEntry _ _ _ _ _ _ _ _ _).
  rewrite buildTree_Root.
  apply (aggregate_entry_children_all_nodes lib Hsort); [done|].
  apply (walkDir_children_all_nodes lib s (λ _, True)
           (λ d, shouldIgnore lib s (Name d) = false
                 ∧ (showHidden s = false → hasDotPrefix (Name d) = false))); try done.
  intros parent de _ _ _ Hskip. split; [done|].
  destruct (walk_classify_fields lib parent de) as (-> & _).
  unfold skipped in Hskip. apply orb_false_iff in Hskip as [H1 H2].
  split; [done|]. intros Hhid. by rewrite Hhid in H2.
Qed.

Lemma scanSync_skips_ignored_witness :
  Forall (all_nodes (λ d, shouldIgnore go_lib sample_scanner (Name d) = false
                          ∧ (showHidden sample_scanner = false →
                             hasDotPrefix (Name d) = false)))
    (Children (Root sample_scan_tree)).
Proof.
  apply (scanSync_skips_ignored go_lib sample_scanner sample_os background 0 "/r"
           sample_scan_tree go_sort_Slice_permutes).
  vm_compute. reflexivity.
Defined.

(** The hidden file of the sample file system is not in the tree. *)
Example sample_scan_names :
  Name <$> Children (Root sample_scan_tree) = ["sub"; "d"; "a"; "locked"]%string
  ∧ de_Name <$> (rd_entries root_listing).*1 = ["a"; "sub"; "locked"; ".hidden"; "d"]%string.
Proof. vm_compute. done. Qed.

(** *** A scan that is not cancelled is complete *)

(** Two entries that stand for the same file: all fields but [Size],
    [Children], [Error] and [Loaded] agree. *)
Definition same_identity (c c0 : Entry) : Prop :=
  Name c = Name c0 ∧ Path c = Path c0 ∧ Type_ c = Type_ c0
  ∧ ModTime c = ModTime c0 ∧ Depth c = Depth c0.

Section Complete.
Variable lib : Lib.
Variable s : Scanner.

(** [listed e rd]: the directory entry [e] is what a complete scan makes
    of a directory that [os.ReadDir] lists as [rd].  At the depth limit the
    directory is left as found; a failed read is recorded in [Error];
    otherwise there is, in some order, one child for every directory entry
    that is not skipped: a subdirectory is listed in turn, any other entry
    is as the [switch] of [walkDir] classifies it. *)
Inductive listed : Entry → ReadDirResult → Prop :=
| listed_limit e rd :
    at_depth_limit s e = true →
    Children e = [] → Loaded e = false → Error e = ""%string →
    listed e rd
| listed_failed e rd msg :
    at_depth_limit s e = false → rd_err rd = Some msg →
    Error e = msg → Children e = [] → Loaded e = false →
    listed e rd
| listed_read e rd cs :
    at_depth_limit s e = false → rd_err rd = None →
    Error e = ""%string → Loaded e = true → Children e ≡ₚ cs →
    Forall2 (λ c x,
               (classified_type x.1 = TypeDir →
                  same_identity c (walk_classify lib e x.1) ∧ listed c x.2)
               ∧ (classified_type x.1 ≠ TypeDir → c = walk_classify lib e x.1))
      cs (filter (λ x, negb (skipped lib s x.1)) (rd_entries rd)) →
    listed e rd.

Lemma classified_type_dir de :
  classified_type de = TypeDir ↔ negb (de_IsSymlink de) && de_IsDir de = true.
Proof.
  unfold classified_type.
  destruct (de_IsSymlink de), (de_IsDir de), (de_IsRegular de); simpl; split; done.
Qed.

Lemma walk_classify_ext parent parent' de :
  Path parent = Path parent' → Depth parent = Depth parent' →
  walk_classify lib parent de = walk_classify lib parent' de.
Proof. intros Hp Hd. unfold walk_classify, newChild. by rewrite Hp, Hd. Qed.

Lemma walkDir_identity ctx g parent rd :
  same_identity (walkDir lib s ctx g parent rd) parent.
Proof.
  destruct (walkDir_cases lib s ctx g parent rd) as [->|[[msg ->]|(cs & _ & ->)]];
    by repeat split.
Qed.

Section Uncancelled.
Variable ctx : Ctx.
Hypothesis Hctx : ∀ g k, ctx g k = false.

Lemma walkDir_uncancelled g parent rd :
  walkDir lib s ctx g parent rd =
    if at_depth_limit s parent then parent
    else match rd_err rd with
         | Some msg => set_Error parent msg
         | None =>
             match walk_entries lib s (walkDir lib s ctx) ctx g parent (rd_entries rd) 0 []
             with
             | None => parent
             | Some children => set_Loaded (set_Children parent children) true
             end
         end.
Proof. destruct rd as [err des]. simpl. by rewrite !Hctx. Qed.

Lemma walk_entries_uncancelled g parent des : ∀ i acc,
  ∃ cs,
    walk_entries lib s (walkDir lib s ctx) ctx g parent des i acc = Some (acc ++ cs)
    ∧ Forall2 (λ c x, ∃ g', c = walked_child lib s ctx g' parent x.1 x.2)
        cs (filter (λ x, negb (skipped lib s x.1)) des).
Proof.
  induction des as [|[de sub] des IH]; intros i acc; simpl.
  - exists []. by rewrite app_nil_r.
  - rewrite Hctx.
    destruct (skipped lib s de) eqn:Hskip; simpl.
    + rewrite filter_cons_False by (simpl; rewrite Hskip; simpl; tauto). apply IH.
    + rewrite filter_cons_True by (simpl; rewrite Hskip; simpl; tauto).
      destruct (IH (S i) (acc ++ [walked_child lib s ctx (g ++ [i]) parent de sub]))
        as (cs & Hrun & Hcs).
      exists (walked_child lib s ctx (g ++ [i]) parent de sub :: cs).
      split; [unfold walked_child in *; by rewrite Hrun, <- app_assoc|].
      constructor; [by exists (g ++ [i])|done].
Qed.

(** The aggregated walk of a freshly created directory entry lists its
    directory completely. *)
Lemma aggregate_walkDir_listed :
  sort_permutes (sort_Slice lib) →
  ∀ rd g parent,
    Type_ parent = TypeDir → Children parent = [] → Loaded parent = false →
    Error parent = ""%string →
    listed (aggregate_entry lib (walkDir lib s ctx g parent rd)) rd.
Proof.
  intros Hsort rd. induction rd as [rd IH] using ReadDirResult_ind'.
  intros g parent Hdir Hnil Hld Herr.
  rewrite walkDir_uncancelled.
  destruct (at_depth_limit s parent) eqn:Hlim.
  { apply listed_limit.
    - unfold at_depth_limit in *.
      by destruct (aggregate_entry_fields lib parent) as (_ & _ & _ & _ & -> & _).
    - rewrite (aggregate_entry_dir lib parent Hdir). simpl. rewrite Hnil. simpl.
      apply Permutation_nil_r. by rewrite (Hsort _ _ _).
    - by destruct (aggregate_entry_fields lib parent) as (_ & _ & _ & _ & _ & _ & ->).
    - by destruct (aggregate_entry_fields lib parent) as (_ & _ & _ & _ & _ & -> & _). }
  destruct (rd_err rd) as [msg|] eqn:Hrd.
  { apply (listed_failed _ _ msg); try done.
    - unfold at_depth_limit in *.
      by destruct (aggregate_entry_fields lib (set_Error parent msg))
        as (_ & _ & _ & _ & -> & _).
    - by destruct (aggregate_entry_fields lib (set_Error parent msg))
        as (_ & _ & _ & _ & _ & -> & _).
    - rewrite (aggregate_entry_dir lib (set_Error parent msg) Hdir). simpl.
      rewrite Hnil. simpl. apply Permutation_nil_r. by rewrite (Hsort _ _ _).
    - by destruct (aggregate_entry_fields lib (set_Error parent msg))
        as (_ & _ & _ & _ & _ & _ & ->). }
  destruct (walk_entries_uncancelled g parent (rd_entries rd) 0 []) as (cs & Hrun & Hcs).
  rewrite Hrun, app_nil_l. cbv iota.
  set (final := set_Loaded (set_Children parent cs) true).
  assert (Type_ final = TypeDir) as Hfdir by done.
  destruct (aggregate_entry_fields lib final) as (_ & HP & _ & _ & HD & HE & HL).
  apply (listed_read _ _ (map (aggregate_entry lib) cs)).
  - unfold at_depth_limit in *. by rewrite HD.
  - done.
  - by rewrite HE.
  - by rewrite HL.
  - by apply aggregate_entry_Children.
  - apply Forall2_fmap_l.
    assert (∀ de, walk_classify lib (aggregate_entry lib final) de
                  = walk_classify lib parent de) as Hext.
    { intros de. apply walk_classify_ext; [by rewrite HP|by rewrite HD]. }
    assert (Forall (λ x, x ∈ rd_entries rd)
              (filter (λ x, negb (skipped lib s x.1)) (rd_entries rd))) as Hin.
    { apply Forall_forall. intros x Hx. by apply list_elem_of_filter in Hx as [_ ?]. }
    remember (aggregate_entry lib final) as E eqn:HeqE.
    clear HeqE HP HD HE HL Hfdir Hrun. clear final.
    revert Hin. induction Hcs as [|c [de sub] cs' xs (g' & ->) _ IHcs]; intros Hin;
      constructor.
    + inversion Hin as [|? ? Hx _]; subst. simpl. rewrite Hext.
      destruct (walk_classify_fields lib parent de) as (_ & _ & Hcn & _ & Hce & Hcl).
      unfold walked_child. split.
      * intros Hty. rewrite (proj1 (classified_type_dir de) Hty). split.
        -- unfold same_identity.
           destruct (aggregate_entry_fields lib
                       (walkDir lib s ctx g' (walk_classify lib parent de) sub))
             as (-> & -> & -> & -> & -> & _).
           apply walkDir_identity.
        -- rewrite Forall_forall in IH. apply (IH (de, sub) Hx); try done.
           by rewrite walk_classify_Type.
      * intros Hty.
        destruct (negb (de_IsSymlink de) && de_IsDir de) eqn:Hwalk;
          [by apply classified_type_dir in Hwalk|].
        apply aggregate_entry_file. by rewrite walk_classify_Type.
    + apply IHcs. by inversion Hin.
Qed.
End Uncancelled.
End Complete.

(** Under a context that is never cancelled the scanned tree lists the
    file system completely, down to the depth limit if there is one: every
    directory has exactly one child for each directory entry that is not
    skipped, unreadable directories carry their error, and symbolic links
    are not followed. *)
Theorem scanSync_complete (lib : Lib) (s : Scanner) (os : Os) (ctx : Ctx) (now : Time)
    (root : string) (tree : Tree) :
  sort_permutes (sort_Slice lib) →
  (∀ g k, ctx g k = false) →
  ScanSync lib s os ctx now root = (Some tree, None) →
  ∃ absRoot, os_Abs os root = Ok absRoot
    ∧ Path (Root tree) = absRoot
    ∧ listed lib s (Root tree) (os_ReadDir os absRoot).
Proof.
  intros Hsort Hctx (absRoot & info & Habs & _ & _ & ->)%scanSync_inv.
  exists absRoot. split; [done|].
  rewrite buildTree_Root. split.
  - destruct (aggregate_entry_fields lib
                (walkDir lib s ctx []
                   (mkEntry (filepath_Base lib absRoot) absRoot TypeDir 0 (fi_ModTime info)
                      [] 0 "" false) (os_ReadDir os absRoot))) as (_ & -> & _).
    apply walkDir_identity.
  - by apply aggregate_walkDir_listed.
Qed.

Lemma scanSync_complete_witness :
  ∃ absRoot, os_Abs sample_os "/r" = Ok absRoot
    ∧ Path (Root sample_scan_tree) = absRoot
    ∧ listed go_lib sample_scanner (Root sample_scan_tree) (os_ReadDir sample_os absRoot).
Proof.
  apply (scanSync_complete go_lib sample_scanner sample_os background 0 "/r"
           sample_scan_tree go_sort_Slice_permutes).
  - reflexivity.
  - vm_compute. reflexivity.
Defined.

(** *** Lazy loading *)

(** A successful [LoadDir] lists one level only: the entry becomes
    [Loaded], it gets one child for each directory entry that is not
    skipped, and every child is a leaf for now, not [Loaded] and without
    error; subdirectories and special files weigh nothing. *)
Theorem LoadDir_lists_one_level (lib : Lib) (s : Scanner) (os : Os) (e : Entry) :
  sort_permutes (sort_Slice lib) →
  Type_ e = TypeDir → Loaded e = false → rd_err (os_ReadDir os (Path e)) = None →
  (LoadDir lib s os e).2 = None
  ∧ Loaded (LoadDir lib s os e).1 = true
  ∧ Name <$> Children (LoadDir lib s os e).1
      ≡ₚ de_Name <$> filter (λ de, negb (skipped lib s de))
                       (rd_entries (os_ReadDir os (Path e))).*1
  ∧ Forall (λ c, Children c = [] ∧ Loaded c = false ∧ Error c = ""%string
                 ∧ Depth c = add64 (Depth e) 1
                 ∧ (Type_ c = TypeDir ∨ Type_ c = TypeOther → Size c = 0))
      (Children (LoadDir lib s os e).1).
Proof.
  intros Hsort Hdir Hld Hrd. unfold LoadDir.
  rewrite Hdir, Hld, Hrd, bool_decide_eq_true_2 by done. simpl.
  split; [done|]. split; [done|]. split.
  - rewrite (Hsort _ _ _). unfold load_entries.
    rewrite <- list_fmap_compose.
    assert (∀ de, (Name ∘ load_classify lib e) de = de_Name de) as Hname.
    { intros de. simpl. unfold load_classify, with_Size_ModTime, with_ModTime.
      repeat (case_match; simpl); done. }
    rewrite (list_fmap_ext (Name ∘ load_classify lib e) de_Name); [done|].
    intros i de _. apply Hname.
  - apply Forall_forall. intros c. rewrite (Hsort _ _ _). unfold load_entries.
    intros (de & -> & _)%list_elem_of_fmap.
    unfold load_classify, with_Size_ModTime, with_ModTime.
    repeat (case_match; simpl); repeat split; try done; intros [|]; done.
Qed.

Lemma LoadDir_lists_one_level_witness :
  (LoadDir go_lib sample_scanner sample_os
     (mkEntry "sub" "/r/sub" TypeDir 0 7 [] 1 "" false)).2 = None
  ∧ Loaded (LoadDir go_lib sample_scanner sample_os
              (mkEntry "sub" "/r/sub" TypeDir 0 7 [] 1 "" false)).1 = true
  ∧ Name <$> Children (LoadDir go_lib sample_scanner sample_os
                         (mkEntry "sub" "/r/sub" TypeDir 0 7 [] 1 "" false)).1
      ≡ₚ de_Name <$> filter (λ de, negb (skipped go_lib sample_scanner de))
                       (rd_entries (os_ReadDir sample_os "/r/sub")).*1
  ∧ Forall (λ c, Children c = [] ∧ Loaded c = false ∧ Error c = ""%string
                 ∧ Depth c = add64 1 1
                 ∧ (Type_ c = TypeDir ∨ Type_ c = TypeOther → Size c = 0))
      (Children (LoadDir go_lib sample_scanner sample_os
                   (mkEntry "sub" "/r/sub" TypeDir 0 7 [] 1 "" false)).1).
Proof.
  apply (LoadDir_lists_one_level go_lib sample_scanner sample_os
           (mkEntry "sub" "/r/sub" TypeDir 0 7 [] 1 "" false) go_sort_Slice_permutes);
    reflexivity.
Defined.

(** [LoadDir] classifies a directory entry as the scan does: the two
    entries agree in every field, except that [LoadDir] leaves [ModTime]
    unset for a special file and for a symbolic link whose target cannot be
    examined. *)
Theorem load_classify_agrees_with_walk (lib : Lib) (parent : Entry) (de : DirEntry) :
  Name (load_classify lib parent de) = Name (walk_classify lib parent de)
  ∧ Path (load_classify lib parent de) = Path (walk_classify lib parent de)
  ∧ Type_ (load_classify lib parent de) = Type_ (walk_classify lib parent de)
  ∧ Size (load_classify lib parent de) = Size (walk_classify lib parent de)
  ∧ Depth (load_classify lib parent de) = Depth (walk_classify lib parent de)
  ∧ Children (load_classify lib parent de) = Children (walk_classify lib parent de)
  ∧ Error (load_classify lib parent de) = Error (walk_classify lib parent de)
  ∧ Loaded (load_classify lib parent de) = Loaded (walk_classify lib parent de)
  ∧ (ModTime (load_classify lib parent de) = ModTime (walk_classify lib parent de)
     ∨ (ModTime (load_classify lib parent de) = zeroTime
        ∧ (classified_type de = TypeOther
           ∨ (classified_type de = TypeSymlink ∧ ∃ msg, de_Stat de = Err msg)))).
Proof.
  unfold load_classify, walk_classify, classified_type, with_Size_ModTime, with_ModTime.
  destruct (de_IsSymlink de), (de_IsDir de), (de_IsRegular de),
    (de_Stat de) as [?|msg] eqn:Hstat, (de_Info de), (de_Lstat de); simpl;
    repeat split; eauto 10.
Qed.

(** A scanner created without ignore patterns skips the default names:
    no entry below the root of its trees is called [.git], [node_modules]
    and so on (names are compared by [strings.EqualFold]). *)
Theorem default_scanner_skips_default_names (lib : Lib) (numCPU : Z)
    (workers depth : Z) (hidden : bool) (os : Os) (ctx : Ctx) (now : Time)
    (root : string) (tree : Tree) :
  sort_permutes (sort_Slice lib) →
  (∀ name, strings_EqualFold lib name name = true) →
  ScanSync lib (NewScanner numCPU (mkScannerOptions workers depth [] hidden)) os ctx now root
    = (Some tree, None) →
  Forall (all_nodes (λ d, Name d ∉ defaultIgnorePatterns)) (Children (Root tree)).
Proof.
  intros Hsort Hfold Hscan.
  pose proof (scanSync_inv _ _ _ _ _ _ _ Hscan) as (absRoot & info & _ & _ & _ & ->).
  rewrite buildTree_Root.
  apply (aggregate_entry_children_all_nodes lib Hsort); [done|].
  apply (walkDir_children_all_nodes lib _ (λ _, True)
           (λ d, Name d ∉ defaultIgnorePatterns)); try done.
  intros parent de _ _ _ Hskip. split; [done|].
  destruct (walk_classify_fields lib parent de) as (-> & _).
  unfold skipped in Hskip. apply orb_false_iff in Hskip as [H1 _].
  unfold shouldIgnore, NewScanner in H1.
  cbn [ignorePatterns opt_IgnorePatterns] in H1. intros Hin.
  assert (existsb
            (λ pattern, strings_EqualFold lib (de_Name de) pattern
                        || filepath_Match lib pattern (de_Name de))
            defaultIgnorePatterns = true) as Hex; [|by rewrite Hex in H1].
  apply existsb_exists. exists (de_Name de). split; [by apply list_elem_of_In|].
  by rewrite Hfold.
Qed.

Lemma default_scanner_skips_default_names_witness :
  Forall (all_nodes (λ d, Name d ∉ defaultIgnorePatterns)) (Children (Root sample_scan_tree)).
Proof.
  apply (default_scanner_skips_default_names go_lib 4 0 0 false sample_os background 0 "/r"
           sample_scan_tree go_sort_Slice_permutes).
  - intros name. simpl. by apply bool_decide_eq_true_2.
  - vm_compute. reflexivity.
Defined.

(** A check of the depth invariant that runs on a given tree. *)
Fixpoint depth_ok (e : Entry) : bool :=
  forallb (λ c, (Depth c =? add64 (Depth e) 1) && depth_ok c) (Children e).

Lemma depth_ok_inv e : depth_ok e = true → depth_inv e.
Proof.
  induction e as [e IH] using Entry_ind'. intros H.
  apply all_nodes_unfold.
  destruct e as [n p ty sz mt cs dp err ld]. simpl in *.
  rewrite forallb_forall in H. rewrite Forall_forall in IH.
  split.
  - intros c Hc. apply list_elem_of_In, H in Hc.
    apply andb_true_iff in Hc as [Hc _]. by apply Z.eqb_eq in Hc.
  - apply Forall_forall. intros c Hc. apply IH; [done|].
    apply list_elem_of_In, H in Hc. by apply andb_true_iff in Hc as [_ Hc].
Qed.

(** *** Loaded and unloaded entries *)

(** An entry that is not [Loaded] has no children, and only a directory is
    ever [Loaded]. *)
Definition loaded_or_empty (d : Entry) : Prop :=
  (Loaded d = false → Children d = []) ∧ (Loaded d = true → Type_ d = TypeDir).

Lemma loaded_or_empty_resized e sz cs :
  loaded_or_empty e → length cs = length (Children e) →
  loaded_or_empty
    (mkEntry (Name e) (Path e) (Type_ e) sz (ModTime e) cs (Depth e) (Error e) (Loaded e)).
Proof.
  intros [H1 H2] Hlen. split; simpl; [|done].
  intros Hld. rewrite (H1 Hld) in Hlen. by destruct cs.
Qed.

Lemma load_classify_unloaded lib e de :
  Children (load_classify lib e de) = [] ∧ Loaded (load_classify lib e de) = false.
Proof.
  unfold load_classify, with_Size_ModTime, with_ModTime.
  repeat (case_match; simpl); done.
Qed.

Lemma LoadDir_loaded_or_empty lib s os e :
  sort_permutes (sort_Slice lib) →
  all_nodes loaded_or_empty e → all_nodes loaded_or_empty (LoadDir lib s os e).1.
Proof.
  intros Hsort He. unfold LoadDir.
  destruct (bool_decide (Type_ e = TypeDir)) eqn:Hdir; simpl; [|done].
  apply bool_decide_eq_true in Hdir.
  destruct (Loaded e) eqn:Hld; [done|].
  apply all_nodes_unfold in He as [[Hnil _] Hcs].
  destruct (rd_err (os_ReadDir os (Path e))) as [msg|]; simpl.
  - apply all_nodes_unfold. split; [by split|done].
  - apply all_nodes_unfold. simpl. split; [by split|].
    apply Forall_forall. intros c. rewrite (Hsort _ _ _). unfold load_entries.
    intros (de & -> & _)%list_elem_of_fmap.
    destruct (load_classify_unloaded lib e de) as [Hc Hl].
    apply all_nodes_leaf; [done|]. split; [done|]. by rewrite Hl.
Qed.

(** A check of a property of single entries that runs on a given tree. *)
Fixpoint all_nodes_check (q : Entry → bool) (e : Entry) : bool :=
  q e && forallb (all_nodes_check q) (Children e).

Lemma all_nodes_check_sound (q : Entry → bool) (Q : Entry → Prop) :
  (∀ e, q e = true → Q e) → ∀ e, all_nodes_check q e = true → all_nodes Q e.
Proof.
  intros Hq e. induction e as [e IH] using Entry_ind'. intros H.
  destruct e as [n p ty sz mt cs dp err ld]. simpl in *.
  apply andb_true_iff in H as [Htop Hcs].
  rewrite forallb_forall in Hcs. rewrite Forall_forall in IH.
  apply all_nodes_unfold. split; [by apply Hq|].
  apply Forall_forall. intros c Hc. apply IH; [done|].
  by apply Hcs, list_elem_of_In.
Qed.

(** In the tree of a scan, and after any lazy loads, an entry that is not
    [Loaded] has no children: the children of a directory are there
    all or not at all; and nothing but a directory is ever [Loaded]. *)
Theorem unloaded_entries_have_no_children (lib : Lib) (s : Scanner) (os : Os) (ctx : Ctx)
    (now : Time) (root : string) (tree : Tree) (ops : list (Os * list nat)) :
  sort_permutes (sort_Slice lib) →
  ScanSync lib s os ctx now root = (Some tree, None) →
  all_nodes loaded_or_empty (Root tree)
  ∧ all_nodes loaded_or_empty (load_all lib s ops (Root tree)).
Proof.
  intros Hsort (absRoot & info & _ & _ & _ & ->)%scanSync_inv.
  set (root0 := mkEntry _ _ _ _ _ _ _ _ _).
  rewrite buildTree_Root.
  assert (all_nodes loaded_or_empty
            (aggregate_entry lib (walkDir lib s ctx [] root0 (os_ReadDir os absRoot)))) as Hscan.
  { apply (aggregate_entry_all_nodes lib Hsort loaded_or_empty).
    { intros e sz cs. apply loaded_or_empty_resized. }
    apply (walkDir_all_nodes lib s (λ _, True) (λ _, True)); try done.
    intros e _ _ Hnil Hld _. split; [done|]. by rewrite Hld. }
  split; [exact Hscan|].
  unfold load_all. revert Hscan.
  generalize (aggregate_entry lib (walkDir lib s ctx [] root0 (os_ReadDir os absRoot))).
  induction ops as [|[os' addr] ops IH]; intros r Hr; simpl; [done|].
  apply IH. unfold LoadDir_at.
  apply (update_at_inv (all_nodes loaded_or_empty)); try done.
  - intros e. apply LoadDir_Depth.
  - intros e. by apply LoadDir_loaded_or_empty.
  - intros e cs He _ Hlen Hcs. apply all_nodes_unfold. split; [|done].
    apply all_nodes_unfold in He as [He _]. destruct e. by apply loaded_or_empty_resized.
  - intros e c He Hc. by eapply all_nodes_child.
Qed.

Lemma unloaded_entries_have_no_children_witness :
  all_nodes loaded_or_empty shallow_root
  ∧ all_nodes loaded_or_empty
      (load_all go_lib sample_scanner [(sample_os, [2%nat]); (sample_os, [3%nat])]
         shallow_root).
Proof.
  apply (unloaded_entries_have_no_children go_lib
           (NewScanner 4 (mkScannerOptions 0 1 [] false))
           sample_os background 0 "/r" (mkTree shallow_root 0 300 2 3 1 [])
           [(sample_os, [2%nat]); (sample_os, [3%nat])] go_sort_Slice_permutes).
  vm_compute. reflexivity.
Defined.

(** *** The progress counters *)

(** The counters [dirsScanned], [filesFound] and [bytesTotal] of a scanner,
    each an [atomic.Int64].  The goroutines of a scan only ever add to
    them, and additions commute, so what they hold once all goroutines are
    done does not depend on the order in which the goroutines ran. *)
Record Counters : Type := mkCounters { dirsScanned : Z; filesFound : Z; bytesTotal : Z }.

Definition add_dirsScanned (p : Counters) (n : Z) : Counters :=
  mkCounters (add64 (dirsScanned p) n) (filesFound p) (bytesTotal p).
Definition add_filesFound (p : Counters) (n : Z) : Counters :=
  mkCounters (dirsScanned p) (add64 (filesFound p) n) (bytesTotal p).
Definition add_bytesTotal (p : Counters) (n : Z) : Counters :=
  mkCounters (dirsScanned p) (filesFound p) (add64 (bytesTotal p) n).

(** The sizes of the regular files below an entry. *)
Definition file_bytes (e : Entry) : Z :=
  sumZ (Size <$> filter (λ d, Type_ d = TypeFile) (leaf_entries e)).
Definition symlink_bytes (e : Entry) : Z :=
  sumZ (Size <$> filter (λ d, Type_ d = TypeSymlink) (leaf_entries e)).

Section Progress.
Variable lib : Lib.
Variable s : Scanner.

(** What the [switch] of [walkDir] adds to the counters for a directory
    entry; a subdirectory is counted by its own walk. *)
Definition count_entry (de : DirEntry) (p : Counters) : Counters :=
  if de_IsSymlink de then add_filesFound p 1
  else if de_IsDir de then p
  else if de_IsRegular de then
    add_filesFound
      (match de_Info de with
       | Ok info => add_bytesTotal p (fi_Size info)
       | Err _ => p
       end) 1
  else add_filesFound p 1.

Section ProgressEntries.
Variable walk : list nat → Entry → ReadDirResult → Counters → Counters.
Variable ctx : Ctx.
Variable g : list nat.
Variable parent : Entry.

(** The counters along the loop over the directory entries of [walkDir]. *)
Fixpoint progress_entries (des : list (DirEntry * ReadDirResult)) (i : nat) (p : Counters)
    : Counters :=
  match des with
  | [] => p
  | (de, sub) :: rest =>
      if ctx g (2 + i)%nat then p
      else if skipped lib s de then progress_entries rest (S i) p
      else
        let child := walk_classify lib parent de in
        let p := count_entry de p in
        let p :=
          if negb (de_IsSymlink de) && de_IsDir de
          then walk (g ++ [i]) child sub p else p in
        progress_entries rest (S i) p
  end.
End ProgressEntries.

(** The counters along [walkDir], the goroutines of the subdirectories
    included. *)
Fixpoint walkDir_progress (ctx : Ctx) (g : list nat) (parent : Entry) (rd : ReadDirResult)
    (p : Counters) {struct rd} : Counters :=
  if ctx g 0%nat then p
  else if (0 <? maxDepth s) && (maxDepth s <=? Depth parent) then p
  else if ctx g 1%nat then p
  else
    match rd_err rd with
    | Some _ => add_dirsScanned p 1
    | None =>
        progress_entries (walkDir_progress ctx) ctx g parent (rd_entries rd) 0
          (add_dirsScanned p 1)
    end.

(** The counters along [scanSync]. *)
Definition scanSync_progress (os : Os) (ctx : Ctx) (root : string) (p : Counters)
    : Counters :=
  match os_Abs os root with
  | Err _ => p
  | Ok absRoot =>
      match os_Stat os absRoot with
      | Err _ => p
      | Ok info =>
          if negb (fi_IsDir info) then p
          else
            let rootEntry :=
              mkEntry (filepath_Base lib absRoot) absRoot TypeDir 0 (fi_ModTime info)
                [] 0 "" false in
            walkDir_progress ctx [] rootEntry (os_ReadDir os absRoot) p
      end
  end.

(** What [Progress] returns once [Scan], which first resets the counters,
    has delivered its result. *)
Definition Progress_after_Scan (os : Os) (ctx : Ctx) (root : string) : Counters :=
  scanSync_progress os ctx root (mkCounters 0 0 0).

Lemma wrap_step x x' x'' a b :
  wrap64 x' = wrap64 (x + a) → wrap64 x'' = wrap64 (x' + b) →
  wrap64 x'' = wrap64 (x + (a + b)).
Proof.
  intros H1 H2. rewrite H2, <- wrap64_add_l, H1, wrap64_add_l. f_equal. lia.
Qed.

Lemma file_bytes_leaf e : IsDir e = false →
  file_bytes e = if bool_decide (Type_ e = TypeFile) then Size e else 0.
Proof.
  intros Hd. unfold file_bytes.
  assert (leaf_entries e = [e]) as -> by (destruct e; simpl in *; by rewrite Hd).
  rewrite filter_cons. case_bool_decide; destruct (decide _); simpl; try done; lia.
Qed.

Lemma file_bytes_dir e : IsDir e = true →
  file_bytes e = sumZ (file_bytes <$> Children e).
Proof.
  intros Hd. unfold file_bytes.
  assert (leaf_entries e = concat (map leaf_entries (Children e))) as ->
    by (destruct e; simpl in *; by rewrite Hd).
  induction (Children e) as [|c cs IH]; [done|]. simpl.
  by rewrite filter_app, fmap_app, sumZ_app, IH.
Qed.

Lemma counts_leaf e : IsDir e = false → Entry_FileCount e = 1 ∧ Entry_DirCount e = 0.
Proof. intros Hd. destruct e; simpl in *. by rewrite Hd. Qed.

Lemma counts_dir e : IsDir e = true →
  Entry_FileCount e = sum64 (map Entry_FileCount (Children e))
  ∧ Entry_DirCount e = sum64_from 1 (map Entry_DirCount (Children e)).
Proof. intros Hd. destruct e; simpl in *. by rewrite Hd. Qed.

Section Tally.
Variable ctx : Ctx.
Hypothesis Hctx : ∀ g k, ctx g k = false.

(** The counters of a walk against the entry that the walk leaves. *)
Definition tallied (rd : ReadDirResult) : Prop :=
  ∀ g parent p,
    Type_ parent = TypeDir → Children parent = [] →
    wrap64 (filesFound (walkDir_progress ctx g parent rd p))
      = wrap64 (filesFound p + Entry_FileCount (walkDir lib s ctx g parent rd))
    ∧ wrap64 (bytesTotal (walkDir_progress ctx g parent rd p))
      = wrap64 (bytesTotal p + file_bytes (walkDir lib s ctx g parent rd))
    ∧ (maxDepth s ≤ 0 →
       wrap64 (dirsScanned (walkDir_progress ctx g parent rd p))
       = wrap64 (dirsScanned p + Entry_DirCount (walkDir lib s ctx g parent rd))).

Lemma count_entry_leaf parent de p :
  negb (de_IsSymlink de) && de_IsDir de = false →
  IsDir (walk_classify lib parent de) = false
  ∧ wrap64 (filesFound (count_entry de p)) = wrap64 (filesFound p + 1)
  ∧ wrap64 (bytesTotal (count_entry de p))
    = wrap64 (bytesTotal p + file_bytes (walk_classify lib parent de))
  ∧ dirsScanned (count_entry de p) = dirsScanned p.
Proof.
  intros Hleaf.
  assert (IsDir (walk_classify lib parent de) = false) as Hd.
  { apply IsDir_false. rewrite walk_classify_Type. intros Hty.
    apply classified_type_dir in Hty. congruence. }
  split; [done|]. rewrite (file_bytes_leaf _ Hd), walk_classify_Type.
  unfold count_entry, classified_type, walk_classify, with_Size_ModTime, with_ModTime.
  destruct (de_IsSymlink de); simpl in *.
  - unfold add64. rewrite wrap64_idem, Z.add_0_r. done.
  - rewrite Hleaf. destruct (de_IsRegular de); simpl.
    + destruct (de_Info de); simpl; unfold add64; rewrite ?wrap64_idem, ?Z.add_0_r; done.
    + unfold add64. rewrite wrap64_idem, Z.add_0_r. done.
Qed.

Lemma progress_entries_tally g parent des :
  Forall (λ x, tallied x.2) des →
  ∀ i acc p, ∃ cs,
    walk_entries lib s (walkDir lib s ctx) ctx g parent des i acc = Some (acc ++ cs)
    ∧ wrap64 (filesFound (progress_entries (walkDir_progress ctx) ctx g parent des i p))
      = wrap64 (filesFound p + sumZ (Entry_FileCount <$> cs))
    ∧ wrap64 (bytesTotal (progress_entries (walkDir_progress ctx) ctx g parent des i p))
      = wrap64 (bytesTotal p + sumZ (file_bytes <$> cs))
    ∧ (maxDepth s ≤ 0 →
       wrap64 (dirsScanned (progress_entries (walkDir_progress ctx) ctx g parent des i p))
       = wrap64 (dirsScanned p + sumZ (Entry_DirCount <$> cs))).
Proof.
  induction 1 as [|[de sub] des Hsub _ IH]; intros i acc p.
  - exists []. simpl. rewrite app_nil_r, !Z.add_0_r. done.
  - cbn [walk_entries progress_entries]. rewrite Hctx.
    destruct (skipped lib s de); [apply IH|].
    destruct (negb (de_IsSymlink de) && de_IsDir de) eqn:Hdir.
    + set (child := walk_classify lib parent de).
      assert (count_entry de p = p) as ->.
      { unfold count_entry. apply andb_true_iff in Hdir as [Hs Hd].
        apply negb_true_iff in Hs. by rewrite Hs, Hd. }
      destruct (Hsub (g ++ [i]) child p) as (F1 & B1 & D1).
      { apply walk_classify_dir; by apply andb_true_iff in Hdir as [?%negb_true_iff ?]. }
      { apply walk_classify_fresh. }
      destruct (IH (S i) (acc ++ [walkDir lib s ctx (g ++ [i]) child sub])
                  (walkDir_progress ctx (g ++ [i]) child sub p))
        as (cs & Hrun & F2 & B2 & D2).
      exists (walkDir lib s ctx (g ++ [i]) child sub :: cs).
      rewrite Hrun, <- app_assoc. split; [done|]. cbn [fmap list_fmap sumZ foldr].
      split; [by eapply wrap_step|]. split; [by eapply wrap_step|].
      intros Hlim. eapply wrap_step; [by apply D1|by apply D2].
    + destruct (count_entry_leaf parent de p Hdir) as (Hd & F1 & B1 & D1).
      destruct (counts_leaf _ Hd) as [HF HD].
      destruct (IH (S i) (acc ++ [walk_classify lib parent de]) (count_entry de p))
        as (cs & Hrun & F2 & B2 & D2).
      exists (walk_classify lib parent de :: cs).
      rewrite Hrun, <- app_assoc. split; [done|]. cbn [fmap list_fmap sumZ foldr].
      rewrite HF, HD.
      split; [|split].
      * by eapply wrap_step.
      * by eapply wrap_step.
      * intros Hlim. rewrite (D2 Hlim), D1. f_equal; lia.
Qed.

Lemma walkDir_progress_tallied rd : tallied rd.
Proof.
  induction rd as [rd IH] using ReadDirResult_ind'. intros g parent p Hty Hnil.
  assert (IsDir parent = true) as Hdir by by apply IsDir_Type.
  rewrite (walkDir_uncancelled lib s ctx Hctx g parent rd).
  assert (walkDir_progress ctx g parent rd p
          = if at_depth_limit s parent then p
            else match rd_err rd with
                 | Some _ => add_dirsScanned p 1
                 | None => progress_entries (walkDir_progress ctx) ctx g parent
                             (rd_entries rd) 0 (add_dirsScanned p 1)
                 end) as ->.
  { destruct rd as [err des]. cbn [walkDir_progress]. rewrite !Hctx. done. }
  destruct (at_depth_limit s parent) eqn:Hlimit.
  { destruct (counts_dir _ Hdir) as [-> _]. rewrite (file_bytes_dir _ Hdir), Hnil. simpl.
    rewrite !Z.add_0_r. split; [done|]. split; [done|].
    intros Hle. unfold at_depth_limit in Hlimit. apply andb_true_iff in Hlimit as [H _].
    apply Z.ltb_lt in H. lia. }
  destruct (rd_err rd) as [msg|].
  { assert (IsDir (set_Error parent msg) = true) as Hdir' by done.
    destruct (counts_dir _ Hdir') as [-> ->]. rewrite (file_bytes_dir _ Hdir'). simpl.
    rewrite Hnil. simpl. rewrite !Z.add_0_r. split; [done|]. split; [done|].
    intros _. unfold add64. apply wrap64_idem. }
  destruct (progress_entries_tally g parent (rd_entries rd) IH 0 [] (add_dirsScanned p 1))
    as (cs & Hrun & F & B & D).
  rewrite Hrun. simpl app.
  assert (IsDir (set_Loaded (set_Children parent cs) true) = true) as Hdir' by done.
  destruct (counts_dir _ Hdir') as [-> ->]. rewrite (file_bytes_dir _ Hdir'). simpl Children.
  split; [|split].
  - rewrite F. simpl. rewrite sum64_wrap, wrap64_add_r. done.
  - rewrite B. done.
  - intros Hlim. rewrite (D Hlim). simpl.
    assert (sum64_from 1 (map Entry_DirCount cs)
            = wrap64 (1 + sumZ (Entry_DirCount <$> cs))) as ->.
    { rewrite <- sum64_from_wrap. symmetry.
      apply wrap64_id, sum64_from_in_range. unfold in_int64. lia. }
    rewrite wrap64_add_r. unfold add64. rewrite wrap64_add_l. f_equal. lia.
Qed.
End Tally.
End Progress.

(** *** The counters of a scan and the statistics of its tree *)

Lemma concat_perm_ext {A B} (f g : A → list B) (l : list A) :
  (∀ x, x ∈ l → f x ≡ₚ g x) → concat (map f l) ≡ₚ concat (map g l).
Proof.
  induction l as [|x l IH]; intros Hfg; [done|]. simpl.
  rewrite (Hfg x) by left. rewrite IH; [done|].
  intros z Hz. apply Hfg. by right.
Qed.

Lemma concat_map_perm {A B} (f : A → list B) (l l' : list A) :
  l ≡ₚ l' → concat (map f l) ≡ₚ concat (map f l').
Proof.
  induction 1 as [|x l l' _ IH|x y l|l l' l'' _ IH1 _ IH2]; simpl.
  - done.
  - by rewrite IH.
  - rewrite !app_assoc. f_equiv. apply Permutation_app_comm.
  - by etrans.
Qed.

Lemma leaf_entries_dir e :
  IsDir e = true → leaf_entries e = concat (map leaf_entries (Children e)).
Proof. intros Hd. destruct e; simpl in *. by rewrite Hd. Qed.

Lemma leaf_entries_leaf e : IsDir e = false → leaf_entries e = [e].
Proof. intros Hd. destruct e; simpl in *. by rewrite Hd. Qed.

(** Aggregation leaves the entries that are not directories as they are,
    and moves them only. *)
Lemma leaf_entries_aggregate (lib : Lib) e :
  sort_permutes (sort_Slice lib) →
  leaf_entries (aggregate_entry lib e) ≡ₚ leaf_entries e.
Proof.
  intros Hsort. induction e as [e IH] using Entry_ind'.
  destruct (decide (Type_ e = TypeDir)) as [Hdir|Hdir];
    [|by rewrite (aggregate_entry_file lib e Hdir)].
  rewrite (leaf_entries_dir e) by by apply IsDir_Type.
  rewrite (aggregate_entry_dir lib e Hdir).
  rewrite leaf_entries_dir by (by apply IsDir_Type). simpl Children.
  rewrite (concat_map_perm leaf_entries _ _ (Hsort _ _ _)), map_map.
  apply concat_perm_ext. intros c Hc. rewrite Forall_forall in IH. by apply IH.
Qed.

Lemma leaf_entries_InTree e : ∀ d, d ∈ leaf_entries e → InTree d e ∧ IsDir d = false.
Proof.
  induction e as [e IH] using Entry_ind'. intros d Hd.
  destruct (IsDir e) eqn:Hdir.
  - rewrite (leaf_entries_dir e Hdir) in Hd.
    assert (∃ c, c ∈ Children e ∧ d ∈ leaf_entries c) as (c & Hc & Hdc).
    { clear IH. induction (Children e) as [|c cs IHcs]; [by apply elem_of_nil in Hd|].
      simpl in Hd. apply elem_of_app in Hd as [Hd|Hd].
      - exists c. split; [left|done].
      - destruct (IHcs Hd) as (c' & Hc' & Hd'). exists c'. split; [by right|done]. }
    rewrite Forall_forall in IH. destruct (IH c Hc d Hdc) as [Hin Hleaf].
    split; [|done]. by eapply InTree_child.
  - rewrite (leaf_entries_leaf e Hdir) in Hd. apply list_elem_of_singleton in Hd as ->.
    split; [constructor|done].
Qed.

(** The sizes of regular files and of symbolic links make up the sizes of
    all entries that are not directories, when special files weigh
    nothing. *)
Lemma sizes_by_type (l : list Entry) :
  Forall (λ d, IsDir d = false ∧ (Type_ d = TypeOther → Size d = 0)) l →
  sumZ (Size <$> l)
  = sumZ (Size <$> filter (λ d, Type_ d = TypeFile) l)
    + sumZ (Size <$> filter (λ d, Type_ d = TypeSymlink) l).
Proof.
  induction 1 as [|d l [Hd Hother] _ IH]; [done|].
  rewrite !filter_cons. apply IsDir_false in Hd.
  rewrite fmap_cons. change (sumZ (Size d :: (Size <$> l))) with (Size d + sumZ (Size <$> l)).
  destruct (Type_ d) eqn:Hty; try done;
    repeat (destruct (decide _) as [?|?]; try done);
    rewrite ?fmap_cons;
    repeat match goal with
           | |- context [sumZ (?x :: ?xs)] =>
               change (sumZ (x :: xs)) with (x + sumZ xs)
           end;
    try lia.
  specialize (Hother eq_refl). lia.
Qed.

Definition in_range (p : Counters) : Prop :=
  in_int64 (dirsScanned p) ∧ in_int64 (filesFound p) ∧ in_int64 (bytesTotal p).

Section ProgressRange.
Variable lib : Lib.
Variable s : Scanner.
Variable ctx : Ctx.

Lemma in_range_intro d f b :
  in_int64 d → in_int64 f → in_int64 b → in_range (mkCounters d f b).
Proof. intros H1 H2 H3. exact (conj H1 (conj H2 H3)). Qed.

Lemma count_entry_in_range de p : in_range p → in_range (count_entry de p).
Proof.
  intros (H1 & H2 & H3). unfold count_entry.
  destruct (de_IsSymlink de); [by apply in_range_intro; try apply wrap64_range|].
  destruct (de_IsDir de); [done|].
  destruct (de_IsRegular de); [|by apply in_range_intro; try apply wrap64_range].
  destruct (de_Info de); by apply in_range_intro; try apply wrap64_range.
Qed.

Lemma progress_entries_in_range g parent des :
  Forall (λ x, ∀ g parent p, in_range p →
                 in_range (walkDir_progress lib s ctx g parent x.2 p)) des →
  ∀ i p, in_range p →
    in_range (progress_entries lib s (walkDir_progress lib s ctx) ctx g parent des i p).
Proof.
  induction 1 as [|[de sub] des Hsub _ IH]; intros i p Hp; [done|].
  cbn [progress_entries]. destruct (ctx g (2 + i)%nat); [done|].
  destruct (skipped lib s de); [by apply IH|].
  apply IH. destruct (negb _ && _); [apply Hsub|]; by apply count_entry_in_range.
Qed.

Lemma walkDir_progress_in_range rd : ∀ g parent p,
  in_range p → in_range (walkDir_progress lib s ctx g parent rd p).
Proof.
  induction rd as [rd IH] using ReadDirResult_ind'. intros g parent p Hp.
  destruct rd as [err des]. cbn [walkDir_progress]. simpl in IH.
  destruct (ctx g 0%nat); [done|]. destruct (_ && _); [done|].
  destruct (ctx g 1%nat); [done|].
  assert (in_range (add_dirsScanned p 1)) as Hp'.
  { destruct Hp as (H1 & H2 & H3). by apply in_range_intro; try apply wrap64_range. }
  destruct err; [done|]. simpl. by apply progress_entries_in_range.
Qed.
End ProgressRange.

Lemma buildTree_counts (lib : Lib) (now : Time) (root : Entry) :
  FileCount (buildTree lib now root) = Entry_FileCount root
  ∧ DirCount (buildTree lib now root) = Entry_DirCount root.
Proof.
  destruct (buildTree_fields lib now root) as (_ & -> & -> & _).
  destruct (aggregate_FileCount lib root (mkTree root now 0 0 0 0 [])) as [F1 F2].
  destruct (aggregate_DirCount lib root (mkTree root now 0 0 0 0 [])) as [D1 D2].
  simpl in *. split.
  - rewrite <- (wrap64_id _ (F2 ltac:(unfold in_int64; lia))), F1.
    apply wrap64_id, Entry_FileCount_in_int64.
  - rewrite <- (wrap64_id _ (D2 ltac:(unfold in_int64; lia))), D1.
    apply wrap64_id, Entry_DirCount_in_int64.
Qed.

(** After a scan that was not cancelled, [Progress] and the tree tell the
    same story: [FilesFound] is the tree's [FileCount]; without depth limit
    [DirsScanned] is the tree's [DirCount]; [BytesTotal] is the size of the
    regular files of the tree, so that the tree's [TotalSize], which also
    counts the targets of symbolic links, exceeds it by their sizes. *)
Theorem Progress_agrees_with_tree (lib : Lib) (s : Scanner) (os : Os) (ctx : Ctx)
    (now : Time) (root : string) (tree : Tree) :
  sort_permutes (sort_Slice lib) →
  (∀ g k, ctx g k = false) →
  ScanSync lib s os ctx now root = (Some tree, None) →
  filesFound (Progress_after_Scan lib s os ctx root) = FileCount tree
  ∧ (maxDepth s ≤ 0 → dirsScanned (Progress_after_Scan lib s os ctx root) = DirCount tree)
  ∧ bytesTotal (Progress_after_Scan lib s os ctx root) = wrap64 (file_bytes (Root tree))
  ∧ TotalSize tree
    = wrap64 (bytesTotal (Progress_after_Scan lib s os ctx root) + symlink_bytes (Root tree)).
Proof.
  intros Hsort Hctx (absRoot & info & Habs & Hstat & Hisdir & ->)%scanSync_inv.
  unfold Progress_after_Scan, scanSync_progress. rewrite Habs, Hstat, Hisdir. simpl negb.
  cbv iota.
  set (root0 := mkEntry _ _ _ _ _ _ _ _ _).
  set (w := walkDir lib s ctx [] root0 (os_ReadDir os absRoot)).
  set (p := walkDir_progress lib s ctx [] root0 (os_ReadDir os absRoot) (mkCounters 0 0 0)).
  destruct (walkDir_progress_tallied lib s ctx Hctx (os_ReadDir os absRoot) [] root0
              (mkCounters 0 0 0) eq_refl eq_refl) as (F & B & D).
  fold w p in F, B, D. simpl in F, B, D.
  destruct (walkDir_progress_in_range lib s ctx (os_ReadDir os absRoot) [] root0
              (mkCounters 0 0 0)) as (R1 & R2 & R3).
  { apply in_range_intro; unfold in_int64; lia. }
  fold p in R1, R2, R3.
  destruct (buildTree_counts lib now w) as [-> ->].
  assert (Type_ w = TypeDir) as Hdir by apply (walkDir_Depth lib s ctx [] root0).
  assert (leaf_entries (Root (buildTree lib now w)) ≡ₚ leaf_entries w) as Hleaves.
  { rewrite buildTree_Root. by apply leaf_entries_aggregate. }
  assert (file_bytes (Root (buildTree lib now w)) = file_bytes w) as Hfb.
  { unfold file_bytes. apply sumZ_perm. by rewrite Hleaves. }
  assert (symlink_bytes (Root (buildTree lib now w)) = symlink_bytes w) as Hsb.
  { unfold symlink_bytes. apply sumZ_perm. by rewrite Hleaves. }
  rewrite Hfb, Hsb.
  assert (bytesTotal p = wrap64 (file_bytes w)) as HB.
  { rewrite <- (wrap64_id _ R3). exact B. }
  split; [|split; [|split]].
  - rewrite <- (wrap64_id _ R2), F. apply wrap64_id, Entry_FileCount_in_int64.
  - intros Hlim. rewrite <- (wrap64_id _ R1), (D Hlim).
    apply wrap64_id, Entry_DirCount_in_int64.
  - exact HB.
  - destruct (buildTree_fields lib now w) as (-> & _).
    assert (Size (aggregate_entry lib w)
            = wrap64 (sumZ (Size <$> leaf_entries (aggregate_entry lib w)))) as ->.
    { rewrite <- (aggregate_entry_Size_leaves lib w Hsort).
      symmetry. apply wrap64_id. rewrite (aggregate_entry_dir lib w Hdir). simpl.
      apply sum64_from_in_range. unfold in_int64. lia. }
    rewrite (sumZ_perm _ (Size <$> leaf_entries w))
      by (by rewrite (leaf_entries_aggregate lib w Hsort)).
    rewrite HB, wrap64_add_l. f_equal.
    apply sizes_by_type. apply Forall_forall. intros d Hd.
    apply leaf_entries_InTree in Hd as [Hd Hleaf]. split; [done|].
    clear Hleaf. revert d Hd.
    change (all_nodes (λ d, Type_ d = TypeOther → Size d = 0) w).
    apply (walkDir_all_nodes lib s (λ _, True) (λ d, Type_ d = TypeOther → Size d = 0)
             (λ d, Type_ d = TypeOther → Size d = 0)); try done.
    intros parent de _ _ _ _. split; [done|].
    unfold walk_classify, with_Size_ModTime, with_ModTime.
    repeat (case_match; simpl); done.
Qed.

(** A directory with a regular file of 10 bytes and a symbolic link to a
    file of 100 bytes. *)
Definition link_os : Os :=
  mkOs (λ p, Ok p) (λ p, info_dir)
    (λ p, if decide (p = "/l"%string)
          then mkReadDir None
                 [ (de_file "f" 10, not_a_dir);
                   (mkDirEntry "ln" ModeSymlink (info_file 0) (info_file 100) (info_file 0),
                    not_a_dir) ]
          else not_a_dir).

Definition link_scan_tree : Tree :=
  Eval vm_compute in
    match ScanSync go_lib sample_scanner link_os background 0 "/l" with
    | (Some tree, _) => tree
    | _ => mkTree sample_root 0 0 0 0 0 []
    end.

Lemma Progress_agrees_with_tree_witness :
  filesFound (Progress_after_Scan go_lib sample_scanner link_os background "/l")
    = FileCount link_scan_tree
  ∧ (maxDepth sample_scanner ≤ 0 →
     dirsScanned (Progress_after_Scan go_lib sample_scanner link_os background "/l")
     = DirCount link_scan_tree)
  ∧ bytesTotal (Progress_after_Scan go_lib sample_scanner link_os background "/l")
    = wrap64 (file_bytes (Root link_scan_tree))
  ∧ TotalSize link_scan_tree
    = wrap64 (bytesTotal (Progress_after_Scan go_lib sample_scanner link_os background "/l")
              + symlink_bytes (Root link_scan_tree)).
Proof.
  apply (Progress_agrees_with_tree go_lib sample_scanner link_os background 0 "/l"
           link_scan_tree go_sort_Slice_permutes).
  - reflexivity.
  - vm_compute. reflexivity.
Defined.

(** On this directory [Progress] reports one directory, two files and 10
    bytes, the tree a total size of 110 bytes. *)
Example link_progress :
  Progress_after_Scan go_lib sample_scanner link_os background "/l" = mkCounters 1 2 10
  ∧ (DirCount link_scan_tree, FileCount link_scan_tree, TotalSize link_scan_tree)
    = (1, 2, 110).
Proof. vm_compute. done. Qed.

(** *** What the inspect panel shows *)

(** The entries of a tree, parents before children. *)
Fixpoint entries (e : Entry) : list Entry := e :: concat (map entries (Children e)).

Lemma entries_unfold e : entries e = e :: concat (map entries (Children e)).
Proof. by destruct e. Qed.

Lemma elem_of_concat {A} (x : A) (ls : list (list A)) :
  x ∈ concat ls ↔ ∃ l, x ∈ l ∧ l ∈ ls.
Proof.
  induction ls as [|l ls IH]; simpl.
  - split; [by intros ?%elem_of_nil|]. by intros (l & _ & ?%elem_of_nil).
  - rewrite elem_of_app, IH. split.
    + intros [Hx|(l' & Hx & Hl')]; [exists l; split; [done|left]|].
      exists l'. split; [done|by right].
    + intros (l' & Hx & [->|Hl']%elem_of_cons); [by left|]. right. eauto.
Qed.

Lemma entries_InTree e : ∀ d, d ∈ entries e ↔ InTree d e.
Proof.
  induction e as [e IH] using Entry_ind'. intros d.
  rewrite entries_unfold, elem_of_cons. rewrite Forall_forall in IH. split.
  - intros [->|Hd]; [constructor|].
    apply elem_of_concat in Hd as (l & Hd & (c & -> & Hc)%list_elem_of_fmap).
    eapply InTree_child; [exact Hc|]. by apply IH.
  - intros [->|(c & Hc & Hd)]%InTree_inv; [by left|]. right.
    apply elem_of_concat. exists (entries c). split; [by apply IH|].
    apply list_elem_of_fmap. eauto.
Qed.

(** [func (t EntryType) String() string] *)
Definition EntryType_String (t : EntryType) : string :=
  match t with
  | TypeFile => "file"
  | TypeDir => "directory"
  | TypeSymlink => "symlink"
  | TypeOther => "other"
  end.

(** [type InspectInfo struct] *)
Record InspectInfo : Type := mkInspectInfo {
  ii_Name : string;
  ii_Path : string;
  ii_TypeStr : string;
  ii_Extension : string;
  ii_Size : Z;
  ii_Perms : string;
  ii_ModTime : Time;
  ii_IsDir : bool;
  ii_FileCount : Z;
  ii_DirCount : Z;
  ii_ChildCount : Z;
  ii_Loaded : bool
}.

Section Inspect.
(** [filepath.Ext], and the permission string [stat.Mode().Perm().String()]
    of what [os.Lstat] finds at a path. *)
Variable filepath_Ext : string → string.
Variable os_Lstat_Perm : string → Result string.

(** [func (e *Entry) Inspect() InspectInfo] *)
Definition Inspect (e : Entry) : InspectInfo :=
  let perms := match os_Lstat_Perm (Path e) with Ok perm => perm | Err _ => "" end in
  if IsDir e then
    mkInspectInfo (Name e) (Path e) (EntryType_String (Type_ e)) "" (Size e) perms (ModTime e)
      (IsDir e)
      (if Loaded e then Entry_FileCount e else 0)
      (if Loaded e then add64 (Entry_DirCount e) (-1) else 0)
      (Z.of_nat (length (Children e)))
      (Loaded e)
  else
    mkInspectInfo (Name e) (Path e) (EntryType_String (Type_ e)) (filepath_Ext (Name e))
      (Size e) perms (ModTime e) (IsDir e) 0 0 0 (Loaded e).

(** The entries counted by [FileCount] and by [DirCount]. *)
Definition files_in (e : Entry) : Z :=
  Z.of_nat (length (filter (λ d, IsDir d = false) (entries e))).
Definition dirs_in (e : Entry) : Z :=
  Z.of_nat (length (filter (λ d, IsDir d = true) (entries e))).

Lemma entries_count_cons (P : Entry → Prop) `{∀ d, Decision (P d)} c cs :
  Z.of_nat (length (filter P (concat (map entries (c :: cs)))))
  = Z.of_nat (length (filter P (entries c)))
    + Z.of_nat (length (filter P (concat (map entries cs)))).
Proof. simpl. rewrite filter_app, length_app. lia. Qed.

Lemma entries_count (P : Entry → Prop) `{∀ d, Decision (P d)} cs :
  Z.of_nat (length (filter P (concat (map entries cs))))
  = sumZ (map (λ c, Z.of_nat (length (filter P (entries c)))) cs).
Proof.
  induction cs as [|c cs IH]; [done|].
  rewrite entries_count_cons, IH. reflexivity.
Qed.

Lemma sum64_counts (count : Entry → Z) (n : Entry → Z) (acc : Z) cs :
  Forall (λ c, count c = wrap64 (n c)) cs →
  wrap64 (sum64_from acc (map count cs)) = wrap64 (acc + sumZ (map n cs)).
Proof.
  intros H. rewrite sum64_from_wrap. apply wrap64_add_both; [done|].
  induction H as [|c cs Hc _ IH]; [done|]. simpl.
  apply wrap64_add_both; [|done]. by rewrite Hc, wrap64_idem.
Qed.

Lemma counts_in e :
  files_are_leaves e →
  Entry_FileCount e = wrap64 (files_in e) ∧ Entry_DirCount e = wrap64 (dirs_in e).
Proof.
  induction e as [e IH] using Entry_ind'. intros Hwf.
  apply all_nodes_unfold in Hwf as [Htop Hcs].
  unfold files_in, dirs_in. rewrite entries_unfold, !filter_cons.
  destruct (IsDir e) eqn:Hdir.
  - destruct (counts_dir e Hdir) as [-> ->].
    assert (Forall (λ c, Entry_FileCount c = wrap64 (files_in c)
                         ∧ Entry_DirCount c = wrap64 (dirs_in c)) (Children e)) as Hkids.
    { rewrite Forall_forall in IH, Hcs. apply Forall_forall. intros c Hc.
      apply IH; [done|]. by apply Hcs. }
    destruct (decide (true = false)) as [?|_]; [done|].
    destruct (decide (true = true)) as [_|?]; [|done]. simpl length.
    split.
    + rewrite <- (wrap64_id (sum64 _)) by (apply sum64_from_in_range; unfold in_int64; lia).
      unfold sum64. rewrite (sum64_counts Entry_FileCount files_in 0).
      * by rewrite (entries_count (λ d, IsDir d = false)).
      * eapply Forall_impl; [exact Hkids|]. by intros c [? _].
    + rewrite <- (wrap64_id (sum64_from 1 _))
        by (apply sum64_from_in_range; unfold in_int64; lia).
      rewrite (sum64_counts Entry_DirCount dirs_in 1).
      * rewrite Nat2Z.inj_succ, (entries_count (λ d, IsDir d = true)).
        f_equal. unfold dirs_in. lia.
      * eapply Forall_impl; [exact Hkids|]. by intros c [_ ?].
  - destruct (counts_leaf e Hdir) as [-> ->].
    rewrite (Htop (proj1 (IsDir_false e) Hdir)).
    destruct (decide (false = false)) as [_|?]; [|done].
    destruct (decide (false = true)) as [?|_]; [done|]. done.
Qed.

(** The entries strictly below an entry. *)
Definition descendants (e : Entry) : list Entry := concat (map entries (Children e)).

Lemma entries_descendants e : entries e = e :: descendants e.
Proof. apply entries_unfold. Qed.

(** The counts of the inspect panel are those of the entries below the
    inspected one.  For an entry of a scanned tree (only directories have
    children, and an entry that is not [Loaded] has none) [ChildCount] is
    the number of its children, [FileCount] the number of entries below it
    that are not directories and [DirCount] the number of directories
    below it, the entry itself left out: together, all the entries below
    it.  An entry that is not a directory shows zeros. *)
Theorem Inspect_counts_the_entries_below (e : Entry) :
  files_are_leaves e → (Loaded e = false → Children e = []) →
  Z.of_nat (length (entries e)) < 2 ^ 63 →
  ii_ChildCount (Inspect e) = Z.of_nat (length (Children e))
  ∧ ii_FileCount (Inspect e) = Z.of_nat (length (filter (λ d, IsDir d = false) (descendants e)))
  ∧ ii_DirCount (Inspect e) = Z.of_nat (length (filter (λ d, IsDir d = true) (descendants e)))
  ∧ ii_FileCount (Inspect e) + ii_DirCount (Inspect e) = Z.of_nat (length (descendants e)).
Proof.
  intros Hwf Hld Hfit.
  assert (∀ l : list Entry,
            Z.of_nat (length (filter (λ d, IsDir d = false) l))
            + Z.of_nat (length (filter (λ d, IsDir d = true) l))
            = Z.of_nat (length l)) as Hsplit.
  { intros l. induction l as [|d l IH]; [done|].
    rewrite !filter_cons. destruct (IsDir d); simpl;
      repeat (destruct (decide _) as [?|?]; try done); simpl length; lia. }
  rewrite <- (Hsplit (descendants e)).
  assert (descendants e = [] →
          ii_FileCount (Inspect e) = 0 → ii_DirCount (Inspect e) = 0 →
          ii_FileCount (Inspect e)
          = Z.of_nat (length (filter (λ d, IsDir d = false) (descendants e)))
          ∧ ii_DirCount (Inspect e)
            = Z.of_nat (length (filter (λ d, IsDir d = true) (descendants e)))
          ∧ ii_FileCount (Inspect e) + ii_DirCount (Inspect e)
            = Z.of_nat (length (filter (λ d, IsDir d = false) (descendants e)))
              + Z.of_nat (length (filter (λ d, IsDir d = true) (descendants e)))) as Hnone.
  { intros -> -> ->. done. }
  destruct (IsDir e) eqn:Hdir.
  - split; [by unfold Inspect; rewrite Hdir|].
    destruct (Loaded e) eqn:Hl.
    + destruct (counts_in e Hwf) as [HF HD].
      unfold files_in, dirs_in in HF, HD. rewrite entries_descendants, !filter_cons in HF, HD.
      rewrite Hdir in HF, HD.
      destruct (decide (true = false)) as [?|_]; [done|].
      destruct (decide (true = true)) as [_|?]; [|done].
      rewrite entries_descendants in Hfit. simpl length in Hfit, HD.
      pose proof (Hsplit (descendants e)) as Hs.
      rewrite wrap64_id in HF by (unfold in_int64; lia).
      rewrite wrap64_id in HD by (unfold in_int64; lia).
      assert (ii_FileCount (Inspect e) = Entry_FileCount e) as ->
        by (by unfold Inspect; rewrite Hdir, Hl).
      assert (ii_DirCount (Inspect e) = add64 (Entry_DirCount e) (-1)) as ->
        by (by unfold Inspect; rewrite Hdir, Hl).
      rewrite HF, HD. unfold add64. rewrite wrap64_id by (unfold in_int64; lia).
      split; [done|]. split; lia.
    + apply Hnone.
      * unfold descendants. by rewrite (Hld eq_refl).
      * by unfold Inspect; rewrite Hdir, Hl.
      * by unfold Inspect; rewrite Hdir, Hl.
  - assert (Children e = []) as Hnil
      by exact (Hwf e (InTree_here e) (proj1 (IsDir_false e) Hdir)).
    split; [by unfold Inspect; rewrite Hdir, Hnil|].
    apply Hnone.
    + unfold descendants. by rewrite Hnil.
    + by unfold Inspect; rewrite Hdir.
    + by unfold Inspect; rewrite Hdir.
Qed.
End Inspect.

(** A model of [filepath.Ext]: the suffix from the last dot on. *)
Fixpoint ext_from (s : string) : string :=
  match s with
  | EmptyString => ""
  | String c rest =>
      match ext_from rest with
      | EmptyString => if Ascii.eqb c "." then s else ""
      | found => found
      end
  end.

Definition sample_perms (path : string) : Result string :=
  if String.eqb path "/r" then Ok "-rwxr-xr-x"%string else Err "no such file"%string.

Lemma Inspect_counts_the_entries_below_witness :
  ii_ChildCount (Inspect ext_from sample_perms shallow_root)
  = Z.of_nat (length (Children shallow_root))
  ∧ ii_FileCount (Inspect ext_from sample_perms shallow_root)
    = Z.of_nat (length (filter (λ d, IsDir d = false) (descendants shallow_root)))
  ∧ ii_DirCount (Inspect ext_from sample_perms shallow_root)
    = Z.of_nat (length (filter (λ d, IsDir d = true) (descendants shallow_root)))
  ∧ ii_FileCount (Inspect ext_from sample_perms shallow_root)
    + ii_DirCount (Inspect ext_from sample_perms shallow_root)
    = Z.of_nat (length (descendants shallow_root)).
Proof.
  apply (Inspect_counts_the_entries_below ext_from sample_perms shallow_root).
  - apply leaves_check_sound. vm_compute. reflexivity.
  - simpl. intros H. discriminate H.
  - vm_compute. reflexivity.
Defined.

Example inspect_shallow_root :
  let info := Inspect ext_from sample_perms shallow_root in
  (ii_ChildCount info, ii_FileCount info, ii_DirCount info, ii_Perms info)
  = (4, 2, 2, "-rwxr-xr-x"%string).
Proof. vm_compute. reflexivity. Qed.

End Fs.

(** ** Package [internal/layout]: the treemap and the pedestal tree *)
Module Layout.
Import Go Fs.

(** Floating-point arithmetic.  The layout computes in [float32] and
    [float64]; the properties proved below hold whatever the arithmetic
    is, so it is a parameter: the two types, the conversion of an (exact)
    untyped constant, the IEEE operations, the conversions and the
    functions of package [math]. *)
Record Floats : Type := mkFloats {
  float32 : Type;
  float64 : Type;
  f32 : Q → float32;
  f64 : Q → float64;
  add32 : float32 → float32 → float32;
  sub32 : float32 → float32 → float32;
  mul32 : float32 → float32 → float32;
  div32 : float32 → float32 → float32;
  neg32 : float32 → float32;
  lt32 : float32 → float32 → bool;
  eq32 : float32 → float32 → bool;
  add64f : float64 → float64 → float64;
  mul64 : float64 → float64 → float64;
  div64 : float64 → float64 → float64;
  lt64 : float64 → float64 → bool;
  le64 : float64 → float64 → bool;
  eq64 : float64 → float64 → bool;
  math_Max : float64 → float64 → float64;
  math_Sqrt : float64 → float64;
  math_Ceil : float64 → float64;
  math_Log2 : float64 → float64;
  math_MaxFloat64 : float64;
  to_float32 : float64 → float32;
  to_float64 : float32 → float64;
  int_to_float32 : Z → float32;
  int_to_float64 : Z → float64;
  float64_to_int : float64 → Z
}.

(** Package [color], as far as the layout calls it. *)
Record Colors : Type := mkColors {
  Color : Type;
  DirColor : Color;
  FileColor : Color;
  ColorFromAge : Time → Color;
  ColorFromSize : Z → Z → Color
}.

(** *** IEEE 754 arithmetic

    An instance of [Floats] on the Standard Library's specification of
    binary floating point ([SpecFloat]): binary32 and binary64 with
    rounding to nearest even.  It runs the layout on concrete trees. *)
Module IEEE754.

Definition round_to (prec emax : Z) (x : spec_float) : spec_float :=
  match x with
  | S754_finite s m e => binary_round prec emax s m e
  | _ => x
  end.

Definition of_int (prec emax : Z) (z : Z) : spec_float := binary_normalize prec emax z 0 false.

(** An untyped constant given as a fraction of two integers that the format
    represents exactly: the correctly rounded quotient. *)
Definition of_const (prec emax : Z) (q : Q) : spec_float :=
  SFdiv prec emax (of_int prec emax (Qnum q)) (of_int prec emax (Zpos (Qden q))).

(** [math.Ceil] *)
Definition ceil (prec emax : Z) (x : spec_float) : spec_float :=
  match x with
  | S754_finite s m e =>
      if 0 <=? e then x
      else
        let d := 2 ^ (- e) in
        let q := Zpos m / d in
        if s then binary_normalize prec emax (- q) 0 true
        else binary_normalize prec emax (if Zpos m `mod` d =? 0 then q else q + 1) 0 false
  | _ => x
  end.

(** [int(x)]: truncation towards zero; what an out-of-range conversion
    gives is left to the implementation by the language, amd64 gives the
    least [int64]. *)
Definition to_int (x : spec_float) : Z :=
  match x with
  | S754_zero _ => 0
  | S754_finite s m e =>
      let v := if 0 <=? e then Zpos m * 2 ^ e else Zpos m / 2 ^ (- e) in
      let v := if s then - v else v in
      if (- 2 ^ 63 <=? v) && (v <? 2 ^ 63) then v else - 2 ^ 63
  | _ => - 2 ^ 63
  end.

(** [math.Max] *)
Definition max (prec emax : Z) (x y : spec_float) : spec_float :=
  match x, y with
  | S754_infinity false, _ | _, S754_infinity false => S754_infinity false
  | S754_nan, _ | _, S754_nan => S754_nan
  | S754_zero sx, S754_zero sy => S754_zero (sx && sy)
  | _, _ => if SFltb y x then x else y
  end.

(** The binary logarithm of a positive finite number, digit by digit: the
    integer part is read off the exponent, 56 fractional bits come from
    repeated squaring in fixed point.  It agrees with [math.Log2] on the
    powers of two and up to the last place elsewhere. *)
Fixpoint log2_bits (n : nat) (y acc : Z) : Z :=
  match n with
  | O => acc
  | S n' =>
      let y2 := y * y / 2 ^ 192 in
      if 2 ^ 193 <=? y2 then log2_bits n' (y2 / 2) (2 * acc + 1)
      else log2_bits n' y2 (2 * acc)
  end.

Definition log2 (prec emax : Z) (x : spec_float) : spec_float :=
  match x with
  | S754_zero _ => S754_infinity true
  | S754_finite false m e =>
      let d := Z.log2 (Zpos m) in
      let y := Zpos m * 2 ^ (192 - d) in
      binary_normalize prec emax ((e + d) * 2 ^ 56 + log2_bits 56 y 0) (- 56) false
  | S754_infinity false => x
  | _ => S754_nan
  end.

Definition floats : Floats :=
  {| float32 := spec_float;
     float64 := spec_float;
     f32 := of_const 24 128;
     f64 := of_const 53 1024;
     add32 := SFadd 24 128;
     sub32 := SFsub 24 128;
     mul32 := SFmul 24 128;
     div32 := SFdiv 24 128;
     neg32 := SFopp;
     lt32 := SFltb;
     eq32 := SFeqb;
     add64f := SFadd 53 1024;
     mul64 := SFmul 53 1024;
     div64 := SFdiv 53 1024;
     lt64 := SFltb;
     le64 := SFleb;
     eq64 := SFeqb;
     math_Max := max 53 1024;
     math_Sqrt := SFsqrt 53 1024;
     math_Ceil := ceil 53 1024;
     math_Log2 := log2 53 1024;
     math_MaxFloat64 := SFmax_float 53 1024;
     to_float32 := round_to 24 128;
     to_float64 := round_to 53 1024;
     int_to_float32 := of_int 24 128;
     int_to_float64 := of_int 53 1024;
     float64_to_int := to_int |}.

(** Colours by name. *)
Definition colors : Colors :=
  {| Color := string;
     DirColor := "DirColor";
     FileColor := "FileColor";
     ColorFromAge := λ _, "ColorFromAge"%string;
     ColorFromSize := λ _ _, "ColorFromSize"%string |}.

End IEEE754.

Inductive Mode : Type := ModeMapV | ModeTreeV.

(** Layout parameters of the pedestal tree (untyped constants). *)
Definition lpFileSize : Q := 5 # 10.
Definition lpFileSpacing : Q := 1 # 10.
Definition lpFileHeight : Q := 1 # 10.
Definition lpDirSize : Q := 7 # 10.
Definition lpDirSpacing : Q := 5 # 10.
Definition lpDirHeight : Q := 1 # 10.
Definition lpDirDist : Q := 5 # 1.

Section Layout.
Variable fl : Floats.
Variable pal : Colors.
Variable lib : Lib.

Local Abbreviation float32 := (float32 fl).
Local Abbreviation float64 := (float64 fl).
Local Abbreviation f32 := (f32 fl).
Local Abbreviation f64 := (f64 fl).

(** [rl.Vector3] *)
Record Vector3 : Type := mkVector3 { vX : float32; vY : float32; vZ : float32 }.

(** [type Options struct]; a nil [ExpandedPaths] map is [None]. *)
Record Options : Type := mkOptions {
  opt_Mode : Mode;
  MaxDepth : Z;
  PaddingRatio : float32;
  HeightScale : float32;
  MinHeight : float32;
  MaxHeight : float32;
  ExpandedPaths : option (gmap string bool)
}.

Definition DefaultOptions (mode : Mode) : Options :=
  mkOptions mode 0 (f32 (2 # 100)) (f32 1) (f32 (1 # 10)) (f32 20) None.

(** [type Node struct] *)
Inductive Node : Type := mkNode {
  n_Entry : Entry;
  Position : Vector3;
  n_Size : Vector3;
  n_Color : Color pal;
  n_Children : list Node;
  n_Depth : Z
}.

Definition set_n_Children (n : Node) (cs : list Node) : Node :=
  mkNode (n_Entry n) (Position n) (n_Size n) (n_Color n) cs (n_Depth n).
Definition set_Position (n : Node) (p : Vector3) : Node :=
  mkNode (n_Entry n) p (n_Size n) (n_Color n) (n_Children n) (n_Depth n).

(** [type Rect2D struct] *)
Record Rect2D : Type := mkRect2D { rX : float32; rY : float32; rW : float32; rH : float32 }.

(** [opts.ExpandedPaths == nil || opts.ExpandedPaths[entry.Path]] *)
Definition isExpanded (opts : Options) (entry : Entry) : bool :=
  match ExpandedPaths opts with
  | None => true
  | Some m => default false (m !! Path entry)
  end.

(** *** Shared height mapping *)

(** [func scaleHeight(size int64, opts Options) float32] *)
Definition scaleHeight (size : Z) (opts : Options) : float32 :=
  if size <=? 0 then MinHeight opts
  else
    let sizeKB := div64 fl (int_to_float64 fl size) (f64 1024) in
    let h := mul32 fl (to_float32 fl (math_Log2 fl (add64f fl sizeKB (f64 1))))
               (HeightScale opts) in
    let h := if lt32 fl h (MinHeight opts) then MinHeight opts else h in
    let h := if lt32 fl (MaxHeight opts) h then MaxHeight opts else h in
    h.

(** Following the spec's words: [clamp(x, lo, hi)] and, for a positive
    size, [height = clamp(log2(sizeKB + 1) × HeightScale, MinHeight,
    MaxHeight)] with [sizeKB = size/1024]; the operations are typed as in
    [scaleHeight]. *)
Definition clamp (x lo hi : float32) : float32 :=
  if lt32 fl x lo then lo else if lt32 fl hi x then hi else x.

Definition scaleHeight_spec (size : Z) (opts : Options) : float32 :=
  let sizeKB := div64 fl (int_to_float64 fl size) (f64 1024) in
  clamp (mul32 fl (to_float32 fl (math_Log2 fl (add64f fl sizeKB (f64 1))))
           (HeightScale opts))
    (MinHeight opts) (MaxHeight opts).


(** *** Pedestal tree ([computeTreeV]) *)

(** [type dirBounds struct] *)
Record dirBounds : Type := mkDirBounds {
  minX : float32;
  maxX : float32;
  size : Vector3
}.

(** The map [bounds map[*fs.Entry]*dirBounds].  An entry pointer is
    represented by the position of the entry in the tree (the child indices
    from the root): the scanner allocates every entry once and stores it in
    its parent's [Children] only, so pointers and positions correspond. *)
Local Abbreviation Bounds := (gmap (list nat) dirBounds).

(** [func calcDirSize(numFiles int) (float32, float32)] *)
Definition calcDirSize (numFiles : Z) : float32 * float32 :=
  if numFiles =? 0 then (f32 lpDirSize, f32 lpDirSize)
  else
    let filesX := float64_to_int fl (math_Ceil fl (math_Sqrt fl (int_to_float64 fl numFiles))) in
    let filesY :=
      float64_to_int fl
        (math_Ceil fl (div64 fl (int_to_float64 fl numFiles) (int_to_float64 fl filesX))) in
    let xsz := add32 fl (mul32 fl (int_to_float32 fl filesX) (f32 lpFileSize))
                 (mul32 fl (int_to_float32 fl (add64 filesX 1)) (f32 lpFileSpacing)) in
    let ysz := add32 fl (mul32 fl (int_to_float32 fl filesY) (f32 lpFileSize))
                 (mul32 fl (int_to_float32 fl (add64 filesY 1)) (f32 lpFileSpacing)) in
    let xsz := if lt32 fl xsz (f32 lpDirSize) then f32 lpDirSize else xsz in
    let ysz := if lt32 fl ysz (f32 lpDirSize) then f32 lpDirSize else ysz in
    (xsz, ysz).

(** The bounds of a collapsed directory: the minimum pedestal. *)
Definition collapsedBounds : dirBounds :=
  mkDirBounds
    (f32 (- (lpDirSize + lpDirSpacing) / 2)%Q)
    (f32 ((lpDirSize + lpDirSpacing) / 2)%Q)
    (mkVector3 (f32 lpDirSize) (f32 lpDirHeight) (f32 lpDirSize)).

(** [-(w + lpDirSpacing) / 2] and [(w + lpDirSpacing) / 2] for a computed
    width [w]. *)
Definition spanBounds (w : float32) (sz : Vector3) : dirBounds :=
  mkDirBounds
    (div32 fl (neg32 fl (add32 fl w (f32 lpDirSpacing))) (f32 2))
    (div32 fl (add32 fl w (f32 lpDirSpacing)) (f32 2))
    sz.

(** [numFiles]: the children that are not directories. *)
Definition countFiles (children : list Entry) : Z :=
  foldl (λ n child, if IsDir child then n else add64 n 1) 0 children.

Section CalcChildren.
Variable calc : Entry → list nat → Bounds → Bounds.
Variable addr : list nat.

(** The loop "Recurse into subdirs" of [calcBounds]; [i] is the index of
    the next child. *)
Fixpoint calc_children (children : list Entry) (i : nat) (bounds : Bounds)
    (childWidth : float32) : Bounds * float32 :=
  match children with
  | [] => (bounds, childWidth)
  | child :: rest =>
      if IsDir child then
        let bounds := calc child (addr ++ [i]) bounds in
        let childWidth :=
          match bounds !! (addr ++ [i]) with
          | Some cb => add32 fl childWidth (sub32 fl (maxX cb) (minX cb))
          | None => childWidth
          end in
        calc_children rest (S i) bounds childWidth
      else calc_children rest (S i) bounds childWidth
  end.
End CalcChildren.

(** [func calcBounds(entry *fs.Entry, bounds map[*fs.Entry]*dirBounds, opts Options)];
    [addr] is the position of [entry]. *)
Fixpoint calcBounds (opts : Options) (entry : Entry) (addr : list nat) (bounds : Bounds)
    {struct entry} : Bounds :=
  if negb (IsDir entry) then bounds
  else if negb (isExpanded opts entry) then <[addr := collapsedBounds]> bounds
  else
    let numFiles := countFiles (Children entry) in
    let '(dirW, dirD) := calcDirSize numFiles in
    let sz := mkVector3 dirW (f32 lpDirHeight) dirD in
    if (0 <? MaxDepth opts) && (MaxDepth opts <=? Depth entry)
    then <[addr := spanBounds dirW sz]> bounds
    else
      let '(bounds, childWidth) :=
        calc_children (calcBounds opts) addr (Children entry) 0 bounds (f32 0) in
      let width := if lt32 fl dirW childWidth then childWidth else dirW in
      <[addr := spanBounds width sz]> bounds.

Definition fileNode (entry : Entry) (pos : Vector3) (col : Color pal) : Node :=
  mkNode entry pos (mkVector3 (f32 lpFileSize) (f32 lpFileHeight) (f32 lpFileSize))
    col [] (Depth entry).

(** The grid loop of [place]: [i] is the index of the next file, [fPosX]
    and [fPosZ] the running position. *)
Fixpoint place_files (files : list Entry) (i : Z) (sideFiles : Z) (maxFileSize : Z)
    (fStartX fStartY fPosX fPosZ : float32) : list Node :=
  match files with
  | [] => []
  | file :: rest =>
      let col := Z.rem i sideFiles in
      let fileNode := fileNode file (mkVector3 fPosX fStartY fPosZ)
                        (ColorFromSize pal (Size file) maxFileSize) in
      let fPosX := add32 fl fPosX (f32 (lpFileSize + lpFileSpacing)%Q) in
      let '(fPosX, fPosZ) :=
        if col =? sideFiles - 1
        then (fStartX, add32 fl fPosZ (f32 (lpFileSize + lpFileSpacing)%Q))
        else (fPosX, fPosZ) in
      fileNode :: place_files rest (i + 1) sideFiles maxFileSize fStartX fStartY fPosX fPosZ
  end.

(** The loop over [dirs] of [place]: each directory comes with its position
    in the tree and with its own placement, still waiting for the position
    in space. *)
Fixpoint place_dirs (bounds : Bounds) (pos : Vector3) (b : dirBounds)
    (dirs : list (list nat * (Vector3 → option Node))) (x : float32) : list Node :=
  match dirs with
  | [] => []
  | (a, place_dir) :: rest =>
      match bounds !! a with
      | None => place_dirs bounds pos b rest x
      | Some cb =>
          let width := sub32 fl (maxX cb) (minX cb) in
          let childPos :=
            mkVector3
              (add32 fl (add32 fl (vX pos) x) (div32 fl width (f32 2)))
              (vY pos)
              (sub32 fl (vZ pos) (add32 fl (div32 fl (vZ (size b)) (f32 2)) (f32 lpDirDist))) in
          let x := add32 fl x (add32 fl width (f32 lpDirSpacing)) in
          match place_dir childPos with
          | Some childNode => childNode :: place_dirs bounds pos b rest x
          | None => place_dirs bounds pos b rest x
          end
      end
  end.

(** [var maxFileSize int64; for ... if file.Size > maxFileSize ...] *)
Definition maxSize (files : list Entry) : Z :=
  foldl (λ m file, if m <? Size file then Size file else m) 0 files.

(** [func place(entry *fs.Entry, pos rl.Vector3, bounds, opts) *Node];
    [None] is the nil node. *)
Fixpoint place (opts : Options) (bounds : Bounds) (entry : Entry) (addr : list nat)
    (pos : Vector3) {struct entry} : option Node :=
  if (0 <? MaxDepth opts) && (MaxDepth opts <? Depth entry) then None
  else
    match bounds !! addr with
    | None => Some (fileNode entry pos (FileColor pal))
    | Some b =>
        let node := mkNode entry pos (size b) (DirColor pal) [] (Depth entry) in
        if negb (IsDir entry) then Some node
        else if negb (isExpanded opts entry) then Some node
        else
          let children :=
            zip_with (λ i child, (addr ++ [i], child))
              (seq 0 (length (Children entry)))
              (map (λ child, (child, λ a, place opts bounds child a)) (Children entry)) in
          let files := filter (λ child, negb (IsDir child)) (Children entry) in
          let dirs :=
            omap (λ '(a, (child, place_child)),
                    if IsDir child then Some (a, place_child a) else None) children in
          let fileNodes :=
            if 0 <? Z.of_nat (length files) then
              let sideFiles :=
                float64_to_int fl
                  (math_Ceil fl (math_Sqrt fl (int_to_float64 fl (Z.of_nat (length files))))) in
              let offs := f32 (lpFileSize / 2 + lpFileSpacing)%Q in
              let fStartX := add32 fl (sub32 fl (vX pos) (div32 fl (vX (size b)) (f32 2))) offs in
              let fStartZ := add32 fl (sub32 fl (vZ pos) (div32 fl (vZ (size b)) (f32 2))) offs in
              let fStartY := add32 fl (add32 fl (vY pos) (div32 fl (vY (size b)) (f32 2)))
                               (f32 (lpFileHeight / 2)%Q) in
              place_files files 0 sideFiles (maxSize files) fStartX fStartY fStartX fStartZ
            else [] in
          let dirNodes :=
            if (0 <? Z.of_nat (length dirs))
               && ((MaxDepth opts =? 0) || (Depth entry <? MaxDepth opts))
            then place_dirs bounds pos b dirs (sub32 fl (minX b) (f32 (lpDirSpacing / 2)%Q))
            else [] in
          Some (set_n_Children node (fileNodes ++ dirNodes))
    end.

(** [func computeTreeV(tree *fs.Tree, opts Options) *Node] *)
Definition computeTreeV (tree : Tree) (opts : Options) : option Node :=
  let bounds := calcBounds opts (Root tree) [] ∅ in
  place opts bounds (Root tree) [] (mkVector3 (f32 0) (f32 (lpDirHeight / 2)%Q) (f32 0)).

(** *** Squarified treemap ([computeMapV]) *)

(** [type indexedArea struct] *)
Record indexedArea : Type := mkIndexedArea { ia_index : nat; ia_area : float64 }.

(** [math.Max(float64(c.Size), 1)] *)
Definition weight (c : Entry) : float64 := math_Max fl (int_to_float64 fl (Size c)) (f64 1).

(** [func worstAspectRatio(row []indexedArea, rowArea float64, shortSide float32) float64] *)
Definition worstAspectRatio (row : list indexedArea) (rowArea : float64)
    (shortSide : float32) : float64 :=
  if (length row =? 0)%nat || eq32 fl shortSide (f32 0) || eq64 fl rowArea (f64 0)
  then math_MaxFloat64 fl
  else
    let s2 := mul64 fl (to_float64 fl shortSide) (to_float64 fl shortSide) in
    foldl (λ worst item,
             let r1 := div64 fl (mul64 fl s2 (ia_area item)) (mul64 fl rowArea rowArea) in
             let r2 := div64 fl (mul64 fl rowArea rowArea) (mul64 fl s2 (ia_area item)) in
             let ratio := math_Max fl r1 r2 in
             if lt64 fl worst ratio then ratio else worst)
      (f64 0) row.

(** The two loops of [layoutRow]: the running coordinate and the rectangles
    written so far. *)
Definition layoutRow (row : list indexedArea) (rowArea : float64) (rect : Rect2D)
    (rects : list Rect2D) (shortSide : float32) : Rect2D * list Rect2D :=
  if (length row =? 0)%nat then (rect, rects)
  else if lt32 fl (rW rect) (rH rect) then
    let rowHeight := to_float32 fl (div64 fl rowArea (to_float64 fl (rW rect))) in
    let '(rects, _) :=
      foldl (λ '(rects, x) item,
               let w := to_float32 fl (div64 fl (ia_area item) (to_float64 fl rowHeight)) in
               (<[ia_index item := mkRect2D x (rY rect) w rowHeight]> rects, add32 fl x w))
        (rects, rX rect) row in
    (mkRect2D (rX rect) (add32 fl (rY rect) rowHeight) (rW rect) (sub32 fl (rH rect) rowHeight),
     rects)
  else
    let rowWidth := to_float32 fl (div64 fl rowArea (to_float64 fl (rH rect))) in
    let '(rects, _) :=
      foldl (λ '(rects, y) item,
               let h := to_float32 fl (div64 fl (ia_area item) (to_float64 fl rowWidth)) in
               (<[ia_index item := mkRect2D (rX rect) y rowWidth h]> rects, add32 fl y h))
        (rects, rY rect) row in
    (mkRect2D (add32 fl (rX rect) rowWidth) (rY rect) (sub32 fl (rW rect) rowWidth) (rH rect),
     rects).

(** The inner loop of [squarify]: items are added to the row while the
    worst aspect ratio improves; returns the row, its area and the items
    left. *)
Fixpoint grow_row (row : list indexedArea) (rowArea : float64) (shortSide : float32)
    (rest : list indexedArea) : list indexedArea * float64 * list indexedArea :=
  match rest with
  | [] => (row, rowArea, [])
  | item :: rest' =>
      let testArea := add64f fl rowArea (ia_area item) in
      if le64 fl (worstAspectRatio row rowArea shortSide)
           (worstAspectRatio (row ++ [item]) testArea shortSide)
      then (row, rowArea, rest)
      else grow_row (row ++ [item]) (add64f fl rowArea (ia_area item)) shortSide rest'
  end.

(** The outer loop of [squarify] over the items still to place. *)
Fixpoint squarify_loop (fuel : nat) (sorted : list indexedArea) (remaining : Rect2D)
    (rects : list Rect2D) : list Rect2D :=
  match fuel, sorted with
  | S fuel', first :: rest =>
      let shortSide := if lt32 fl (rH remaining) (rW remaining)
                       then rH remaining else rW remaining in
      let '(row, rowArea, rest) := grow_row [first] (ia_area first) shortSide rest in
      let '(remaining, rects) := layoutRow row rowArea remaining rects shortSide in
      squarify_loop fuel' rest remaining rects
  | _, _ => rects
  end.

Definition zeroRect : Rect2D := mkRect2D (f32 0) (f32 0) (f32 0) (f32 0).

(** [func squarify(children []*fs.Entry, rect Rect2D, parentSize int64) []Rect2D] *)
Definition squarify (children : list Entry) (rect : Rect2D) (parentSize : Z) : list Rect2D :=
  match children with
  | [] => []
  | _ =>
      let totalSize := foldl (λ t c, add64f fl t (weight c)) (f64 0) children in
      let totalArea := mul64 fl (to_float64 fl (rW rect)) (to_float64 fl (rH rect)) in
      let areas := map (λ c, mul64 fl (div64 fl (weight c) totalSize) totalArea) children in
      let sorted := imap (λ i a, mkIndexedArea i a) areas in
      let sorted :=
        sort_Slice lib indexedArea (λ a b, lt64 fl (ia_area b) (ia_area a)) sorted in
      squarify_loop (length sorted) sorted rect (replicate (length children) zeroRect)
  end.

(** [func raiseChildren(node *Node, offset float32)], returning the
    children once raised. *)
Fixpoint raiseChildren (node : Node) (offset : float32) : list Node :=
  map (λ child,
         mkNode (n_Entry child)
           (mkVector3 (vX (Position child)) (add32 fl (vY (Position child)) offset)
              (vZ (Position child)))
           (n_Size child) (n_Color child) (raiseChildren child offset) (n_Depth child))
    (n_Children node).

(** The loop [for i, child := range sizedChildren] of [layoutMapVNode]:
    each child comes with its own layout, still waiting for its rectangle. *)
Fixpoint layout_children (sized : list (Rect2D → option Node)) (rects : list Rect2D)
    (i : nat) (height : float32) : list Node :=
  match sized with
  | [] => []
  | layout_child :: rest =>
      match rects !! i with
      | Some rect =>
          match layout_child rect with
          | Some childNode =>
              let childNode := set_Position childNode
                (mkVector3 (vX (Position childNode))
                   (add32 fl (vY (Position childNode)) height) (vZ (Position childNode))) in
              let childNode := set_n_Children childNode (raiseChildren childNode height) in
              childNode :: layout_children rest rects (S i) height
          | None => layout_children rest rects (S i) height
          end
      | None => layout_children rest rects (S i) height
      end
  end.

(** [func layoutMapVNode(entry *fs.Entry, rect Rect2D, depth int, opts Options) *Node] *)
Fixpoint layoutMapVNode (opts : Options) (entry : Entry) (rect : Rect2D) (depth : Z)
    {struct entry} : option Node :=
  if (0 <? MaxDepth opts) && (MaxDepth opts <? depth) then None
  else
    let height := scaleHeight (Size entry) opts in
    let nodeColor := if IsDir entry then DirColor pal else ColorFromAge pal (ModTime entry) in
    let node :=
      mkNode entry
        (mkVector3 (add32 fl (rX rect) (div32 fl (rW rect) (f32 2)))
           (div32 fl height (f32 2))
           (add32 fl (rY rect) (div32 fl (rH rect) (f32 2))))
        (mkVector3 (mul32 fl (rW rect) (sub32 fl (f32 1) (PaddingRatio opts)))
           height
           (mul32 fl (rH rect) (sub32 fl (f32 1) (PaddingRatio opts))))
        nodeColor [] depth in
    if IsDir entry && (0 <? Z.of_nat (length (Children entry))) then
      let padding := mul32 fl (rW rect) (PaddingRatio opts) in
      let innerRect :=
        mkRect2D (add32 fl (rX rect) padding) (add32 fl (rY rect) padding)
          (sub32 fl (rW rect) (mul32 fl (f32 2) padding))
          (sub32 fl (rH rect) (mul32 fl (f32 2) padding)) in
      let children :=
        map (λ child, (child, λ r, layoutMapVNode opts child r (add64 depth 1)))
          (Children entry) in
      let sizedChildren :=
        filter (λ c, 0 <? Size c.1) children ++ filter (λ c, Size c.1 =? 0) children in
      if 0 <? Z.of_nat (length sizedChildren) then
        let rects := squarify (map fst sizedChildren) innerRect (Size entry) in
        Some (set_n_Children node (layout_children (map snd sizedChildren) rects 0 height))
      else Some node
    else Some node.

(** [func computeMapV(tree *fs.Tree, opts Options) *Node] *)
Definition computeMapV (tree : Tree) (opts : Options) : option Node :=
  let totalArea := f32 30 in
  let rootRect := mkRect2D (f32 (- 30 / 2)%Q) (f32 (- 30 / 2)%Q) totalArea totalArea in
  layoutMapVNode opts (Root tree) rootRect 0.

(** [func Compute(tree *fs.Tree, opts Options) *Node]; [None] is a nil
    tree, respectively a nil node. *)
Definition Compute (tree : option Tree) (opts : Options) : option Node :=
  match tree with
  | None => None
  | Some tree =>
      match opt_Mode opts with
      | ModeMapV => computeMapV tree opts
      | ModeTreeV => computeTreeV tree opts
      end
  end.

(** *** Facts about the pedestal tree *)

Lemma Node_ind' (P : Node → Prop) :
  (∀ n, Forall P (n_Children n) → P n) → ∀ n, P n.
Proof.
  intros H. fix IH 1. intros n. apply H.
  destruct n as [? ? ? ? cs ?]. simpl.
  induction cs as [|c cs IHcs]; constructor; [apply IH | apply IHcs].
Qed.

(** [InNode n root]: [n] is [root] or one of the nodes below it. *)
Inductive InNode (n : Node) : Node → Prop :=
| InNode_here : InNode n n
| InNode_child c root : c ∈ n_Children root → InNode n c → InNode n root.

Lemma InNode_inv n root :
  InNode n root → n = root ∨ ∃ c, c ∈ n_Children root ∧ InNode n c.
Proof. destruct 1; eauto. Qed.

Lemma InNode_leaf n root : n_Children root = [] → InNode n root → n = root.
Proof.
  intros Hnil [->|(c & Hc & _)]%InNode_inv; [done|].
  rewrite Hnil in Hc. by apply elem_of_nil in Hc.
Qed.

Lemma get_at_app addr j root :
  get_at (addr ++ [j]) root = get_at addr root ≫= λ e, Children e !! j.
Proof.
  revert root. induction addr as [|i addr IH]; intros root; simpl.
  - by destruct (Children root !! j).
  - destruct (Children root !! i) as [c|]; simpl; [apply IH|done].
Qed.

(** What [calcBounds] maintains about the map: a collapsed directory of the
    tree under [root] is only ever given the minimum pedestal. *)
Definition collapsed_minimal (opts : Options) (root : Entry) (bounds : Bounds) : Prop :=
  ∀ a b d, bounds !! a = Some b → get_at a root = Some d →
    IsDir d = true → isExpanded opts d = false → b = collapsedBounds.

Lemma collapsed_minimal_insert opts root bounds addr entry b :
  get_at addr root = Some entry →
  (isExpanded opts entry = false → b = collapsedBounds) →
  collapsed_minimal opts root bounds →
  collapsed_minimal opts root (<[addr := b]> bounds).
Proof.
  intros Hget Hb Hinv a b' d Hlook Hd Hdir Hcol.
  destruct (decide (addr = a)) as [<-|Hne].
  - rewrite lookup_insert_eq in Hlook. inversion Hlook; subst.
    rewrite Hget in Hd. inversion Hd; subst. by apply Hb.
  - rewrite lookup_insert_ne in Hlook by done. by eapply Hinv.
Qed.

Lemma calc_children_minimal opts root addr children :
  Forall (λ c, ∀ a bounds, get_at a root = Some c →
                 collapsed_minimal opts root bounds →
                 collapsed_minimal opts root (calcBounds opts c a bounds)) children →
  ∀ i bounds w,
    (∀ k c, children !! k = Some c → get_at (addr ++ [(i + k)%nat]) root = Some c) →
    collapsed_minimal opts root bounds →
    collapsed_minimal opts root (calc_children (calcBounds opts) addr children i bounds w).1.
Proof.
  induction 1 as [|c cs Hc _ IH]; intros i bounds w Hget Hinv; simpl; [done|].
  assert (∀ k c', cs !! k = Some c' → get_at (addr ++ [(S i + k)%nat]) root = Some c') as Hget'.
  { intros k c' Hk. replace (S i + k)%nat with (i + S k)%nat by lia. by apply Hget. }
  destruct (IsDir c); [|by apply IH].
  apply IH; [done|]. apply Hc; [|done].
  specialize (Hget 0%nat c eq_refl). by rewrite Nat.add_0_r in Hget.
Qed.

Lemma calcBounds_minimal opts root entry :
  ∀ addr bounds, get_at addr root = Some entry →
    collapsed_minimal opts root bounds →
    collapsed_minimal opts root (calcBounds opts entry addr bounds).
Proof.
  induction entry as [e IH] using Entry_ind'. intros addr bounds Hget Hinv.
  destruct e as [n p ty sz mt cs dp err ld]. simpl in *.
  set (e := mkEntry n p ty sz mt cs dp err ld) in *.
  destruct (IsDir e) eqn:Hdir; simpl; [|done].
  destruct (isExpanded opts e) eqn:Hexp; simpl.
  - destruct (calcDirSize (countFiles cs)) as [dirW dirD].
    destruct ((0 <? MaxDepth opts) && (MaxDepth opts <=? dp)).
    + eapply collapsed_minimal_insert; eauto. by rewrite Hexp.
    + pose proof (calc_children_minimal opts root addr cs IH 0 bounds (f32 0)) as Hcs.
      destruct (calc_children (calcBounds opts) addr cs 0 bounds (f32 0)) as [bounds' w].
      eapply collapsed_minimal_insert; eauto; [by rewrite Hexp|].
      apply Hcs; [|done]. intros k c Hk. rewrite get_at_app, Hget. done.
  - eapply collapsed_minimal_insert; eauto.
Qed.

Lemma calcBounds_own opts entry addr bounds :
  IsDir entry = true → is_Some (calcBounds opts entry addr bounds !! addr).
Proof.
  intros Hdir. destruct entry as [n p ty sz mt cs dp err ld]. simpl.
  rewrite Hdir. simpl.
  destruct (isExpanded opts _); simpl; [|by rewrite lookup_insert_eq].
  destruct (calcDirSize (countFiles cs)) as [dirW dirD].
  destruct ((0 <? MaxDepth opts) && (MaxDepth opts <=? dp)); [by rewrite lookup_insert_eq|].
  destruct (calc_children (calcBounds opts) addr cs 0 bounds (f32 0)) as [bounds' w].
  by rewrite lookup_insert_eq.
Qed.

(** The nodes that [place_files] and [place_dirs] produce. *)
Lemma place_files_nodes files : ∀ i side mx sx sy px pz n,
  n ∈ place_files files i side mx sx sy px pz →
  ∃ file, file ∈ files ∧ n_Entry n = file ∧ n_Children n = [].
Proof.
  induction files as [|file files IH]; intros i side mx sx sy px pz n Hn; simpl in Hn.
  - by apply elem_of_nil in Hn.
  - destruct (Z.rem i side =? side - 1); apply elem_of_cons in Hn as [->|Hn];
      try (exists file; split; [left|done]);
      apply IH in Hn as (f & Hf & ?); exists f; (split; [by right|done]).
Qed.

Lemma place_dirs_nodes bounds pos b dirs : ∀ x n,
  n ∈ place_dirs bounds pos b dirs x →
  ∃ a place_dir childPos, (a, place_dir) ∈ dirs ∧ is_Some (bounds !! a)
    ∧ place_dir childPos = Some n.
Proof.
  induction dirs as [|[a pd] dirs IH]; intros x n Hn; simpl in Hn.
  - by apply elem_of_nil in Hn.
  - destruct (bounds !! a) as [cb|] eqn:Hcb.
    + match type of Hn with context [pd ?cp] => destruct (pd cp) as [cn|] eqn:Hpd end.
      * apply elem_of_cons in Hn as [->|Hn].
        -- eexists a, pd, _. split; [left|]. split; [by rewrite Hcb|done].
        -- apply IH in Hn as (a' & pd' & cp & Hin & ?). eexists a', pd', cp. split; [by right|done].
      * apply IH in Hn as (a' & pd' & cp & Hin & ?). eexists a', pd', cp. split; [by right|done].
    + apply IH in Hn as (a' & pd' & cp & Hin & ?). eexists a', pd', cp. split; [by right|done].
Qed.

(** A collapsed directory is laid out as the minimum pedestal, alone. *)
Definition placeholder (n : Node) : Prop :=
  n_Size n = mkVector3 (f32 lpDirSize) (f32 lpDirHeight) (f32 lpDirSize)
  ∧ n_Children n = [].

Lemma place_collapsed opts root bounds entry :
  collapsed_minimal opts root bounds →
  ∀ addr pos out n,
    get_at addr root = Some entry →
    (IsDir entry = true → is_Some (bounds !! addr)) →
    place opts bounds entry addr pos = Some out →
    InNode n out →
    IsDir (n_Entry n) = true → isExpanded opts (n_Entry n) = false →
    placeholder n.
Proof.
  intros Hinv. induction entry as [e IH] using Entry_ind'.
  intros addr pos out n Hget Hown Hplace Hn Hdir Hcol.
  destruct e as [nm p ty sz mt cs dp err ld]. simpl in Hplace.
  set (e := mkEntry nm p ty sz mt cs dp err ld) in *.
  destruct ((0 <? MaxDepth opts) && (MaxDepth opts <? dp)); [done|].
  destruct (bounds !! addr) as [b|] eqn:Hb.
  2: { inversion Hplace; subst out. apply InNode_leaf in Hn; [|done]. subst n.
       simpl in Hdir. destruct (Hown Hdir) as [? ?]. done. }
  destruct (IsDir e) eqn:He; simpl in Hplace.
  2: { inversion Hplace; subst out. apply InNode_leaf in Hn; [|done]. subst n.
       simpl in Hdir. congruence. }
  destruct (isExpanded opts e) eqn:Hexp; simpl in Hplace.
  2: { inversion Hplace; subst out. apply InNode_leaf in Hn; [|done]. subst n.
       split; [|done]. simpl. by rewrite (Hinv addr b e Hb Hget He Hexp). }
  inversion Hplace; subst out. clear Hplace.
  apply InNode_inv in Hn as [->|(c & Hc & Hn)].
  { simpl in Hcol. congruence. }
  simpl in Hc. apply elem_of_app in Hc as [Hc|Hc].
  - destruct (0 <? Z.of_nat _); [|by apply elem_of_nil in Hc].
    apply place_files_nodes in Hc as (f & Hf & Hentry & Hnil).
    apply InNode_leaf in Hn; [|done]. subst n.
    apply list_elem_of_filter in Hf as [Hf _]. rewrite Hentry in Hdir.
    by rewrite Hdir in Hf.
  - destruct (_ && _); [|by apply elem_of_nil in Hc].
    apply place_dirs_nodes in Hc as (a & pd & cp & Hin & Hsome & Hpd).
    apply list_elem_of_omap in Hin as ([a' [child pc]] & Hin & Hopt).
    destruct (IsDir child) eqn:Hchild; [|done]. inversion Hopt; subst a' pd. clear Hopt.
    apply list_elem_of_lookup in Hin as [k Hk].
    apply lookup_zip_with_Some in Hk as (i & [child' pc'] & [= -> <- <-] & Hi & Hk).
    apply lookup_seq in Hi as [-> _]. simpl in *.
    rewrite list_lookup_fmap in Hk.
    destruct (cs !! k) as [ck|] eqn:Hck; [|done]. simpl in Hk. inversion Hk; subst.
    rewrite Forall_forall in IH.
    eapply (IH child); eauto.
    + apply list_elem_of_lookup. eauto.
    + rewrite get_at_app, Hget. done.
Qed.

(** Replacing the directory at [addr] by another collapsed directory does
    not change the width pass. *)
Lemma countFiles_ext cs cs' :
  Forall2 (λ c c', IsDir c = IsDir c') cs cs' → countFiles cs = countFiles cs'.
Proof.
  unfold countFiles. intros H. generalize 0.
  induction H as [|c c' cs cs' Hc _ IH]; intros acc; simpl; [done|].
  rewrite Hc. apply IH.
Qed.

Lemma calc_children_ext opts addr cs cs' :
  Forall2 (λ c c', IsDir c = IsDir c'
                   ∧ ∀ a bounds, calcBounds opts c a bounds = calcBounds opts c' a bounds)
    cs cs' →
  ∀ i bounds w,
    calc_children (calcBounds opts) addr cs i bounds w
    = calc_children (calcBounds opts) addr cs' i bounds w.
Proof.
  induction 1 as [|c c' cs cs' [Hd Hc] _ IH]; intros i bounds w; simpl; [done|].
  rewrite Hd, Hc. destruct (IsDir c'); apply IH.
Qed.

Lemma update_at_IsDir (D' : Entry) addr : ∀ root D,
  get_at addr root = Some D → IsDir D = IsDir D' →
  IsDir (update_at (λ _, D') addr root) = IsDir root.
Proof.
  destruct addr as [|i addr]; intros root D Hget HD; simpl in *.
  - by inversion Hget; subst.
  - done.
Qed.

Lemma calcBounds_replace_collapsed opts (D' : Entry) addr : ∀ root D,
  get_at addr root = Some D →
  IsDir D = true → IsDir D' = true → Path D' = Path D →
  isExpanded opts D = false →
  ∀ a bounds,
    calcBounds opts (update_at (λ _, D') addr root) a bounds = calcBounds opts root a bounds.
Proof.
  induction addr as [|i addr IH]; intros root D Hget HD HD' Hpath Hcol a bounds.
  - simpl in *. inversion Hget; subst D. clear Hget.
    assert (isExpanded opts D' = false) as Hcol'.
    { unfold isExpanded in *. by rewrite Hpath. }
    destruct root as [n p ty sz mt cs dp err ld], D' as [n' p' ty' sz' mt' cs' dp' err' ld'].
    simpl. rewrite HD, HD', Hcol, Hcol'. done.
  - simpl in Hget. destruct (Children root !! i) as [ci|] eqn:Hci; [|done]. simpl in Hget.
    destruct root as [n p ty sz mt cs dp err ld]. simpl in *.
    assert (Forall2 (λ c c', IsDir c = IsDir c'
              ∧ ∀ a bounds, calcBounds opts c a bounds = calcBounds opts c' a bounds)
              (alter (update_at (λ _, D') addr) i cs) cs) as Hall.
    { apply Forall2_same_length_lookup. split; [by rewrite length_alter|].
      intros k c c' Hk Hk'. destruct (decide (i = k)) as [->|Hne].
      - rewrite list_lookup_alter_eq, Hk' in Hk. simpl in Hk. inversion Hk; subst c.
        rewrite Hci in Hk'. inversion Hk'; subst c'. split.
        + eapply update_at_IsDir; [exact Hget|]. by rewrite HD, HD'.
        + by eapply IH.
      - rewrite list_lookup_alter_ne, Hk' in Hk by done. by inversion Hk. }
    unfold isExpanded, IsDir. simpl.
    rewrite (countFiles_ext _ cs) by (eapply Forall2_impl; [exact Hall|]; by intros ? ? [? _]).
    by rewrite (calc_children_ext opts a _ cs Hall).
Qed.

Lemma not_expanded opts m e :
  ExpandedPaths opts = Some m → m !! Path e ≠ Some true → isExpanded opts e = false.
Proof.
  intros Hm Hp. unfold isExpanded. rewrite Hm.
  destruct (m !! Path e) as [[]|]; done.
Qed.

Lemma IsDir_true e : Type_ e = TypeDir → IsDir e = true.
Proof. intros H. unfold IsDir. by rewrite bool_decide_eq_true_2. Qed.

Lemma collapsed_minimal_empty opts root : collapsed_minimal opts root ∅.
Proof. intros a b d Hlook. by rewrite lookup_empty in Hlook. Qed.

(** *** Properties of the layout *)


(** The height of a positive size is the clamp that the specification
    gives, whatever the arithmetic, as long as [MinHeight] is not above
    [MaxHeight]. *)
Lemma scaleHeight_clamp (size : Z) (opts : Options) :
  0 < size → lt32 fl (MaxHeight opts) (MinHeight opts) = false →
  scaleHeight size opts = scaleHeight_spec size opts.
Proof.
  intros Hsize Hle. unfold scaleHeight, scaleHeight_spec, clamp.
  rewrite (proj2 (Z.leb_gt size 0) Hsize). cbv zeta.
  match goal with
  | |- context [lt32 fl ?h (MinHeight opts)] =>
      destruct (lt32 fl h (MinHeight opts)) eqn:Hlow
  end; [by rewrite Hle|done].
Qed.


(** C3, as amended. In the pedestal-tree layout with a non-nil
    [ExpandedPaths], every node laid out for a directory whose path is not
    expanded is the fixed minimum pedestal and has no child nodes, whatever
    the directory's size and contents.  (The treemap does not consult
    [ExpandedPaths]; see [mapV_lays_out_unexpanded_children].) *)
Theorem treeV_collapsed_is_placeholder (tree : Tree) (opts : Options)
    (m : gmap string bool) (root n : Node) :
  opt_Mode opts = ModeTreeV →
  ExpandedPaths opts = Some m →
  Compute (Some tree) opts = Some root →
  InNode n root →
  Type_ (n_Entry n) = TypeDir →
  m !! Path (n_Entry n) ≠ Some true →
  n_Size n = mkVector3 (f32 lpDirSize) (f32 lpDirHeight) (f32 lpDirSize)
  ∧ n_Children n = [].
Proof.
  intros Hmode Hm Hrun Hn Hdir Hcol.
  unfold Compute in Hrun. rewrite Hmode in Hrun. unfold computeTreeV in Hrun.
  eapply (place_collapsed opts (Root tree)); [| |  |exact Hrun|exact Hn| |].
  - apply calcBounds_minimal; [done|]. apply collapsed_minimal_empty.
  - done.
  - intros Hroot. by apply calcBounds_own.
  - by apply IsDir_true.
  - by eapply not_expanded.
Qed.

(** C9. In the pedestal-tree layout with a non-nil [ExpandedPaths], let two
    trees differ only in what stands at one position: a directory [D] in
    one, a directory [D'] of the same path in the other, with arbitrary
    sizes and contents.  If the path is not expanded, the width pass
    computes the same bounds for both trees (so [D] and [D'] get the same
    footprint, the fixed minimum one, and so does everything else), and a
    node laid out for [D] or [D'] is the same minimum pedestal. *)
Theorem treeV_collapsed_footprint_independent (opts : Options) (m : gmap string bool)
    (root : Entry) (addr : list nat) (D D' : Entry) :
  ExpandedPaths opts = Some m →
  get_at addr root = Some D →
  Type_ D = TypeDir → Type_ D' = TypeDir → Path D' = Path D →
  m !! Path D ≠ Some true →
  calcBounds opts (update_at (λ _, D') addr root) [] ∅ = calcBounds opts root [] ∅
  ∧ (∀ b, calcBounds opts root [] ∅ !! addr = Some b → b = collapsedBounds)
  ∧ (∀ b, calcBounds opts (update_at (λ _, D') addr root) [] ∅ !! addr = Some b →
       b = collapsedBounds)
  ∧ (∀ pos out n,
       place opts (calcBounds opts root [] ∅) root [] pos = Some out →
       InNode n out → n_Entry n = D → placeholder n)
  ∧ (∀ pos out n,
       place opts (calcBounds opts (update_at (λ _, D') addr root) [] ∅)
         (update_at (λ _, D') addr root) [] pos = Some out →
       InNode n out → n_Entry n = D' → placeholder n).
Proof.
  intros Hm Hget HD HD' Hpath Hcol.
  assert (isExpanded opts D = false) as HcD by by eapply not_expanded.
  assert (isExpanded opts D' = false) as HcD'.
  { eapply not_expanded; [done|]. by rewrite Hpath. }
  assert (calcBounds opts (update_at (λ _, D') addr root) [] ∅ = calcBounds opts root [] ∅)
    as Heq.
  { eapply calcBounds_replace_collapsed; eauto using IsDir_true. }
  assert (collapsed_minimal opts root (calcBounds opts root [] ∅)) as Hmin.
  { apply calcBounds_minimal; [done|]. apply collapsed_minimal_empty. }
  assert (collapsed_minimal opts (update_at (λ _, D') addr root)
            (calcBounds opts (update_at (λ _, D') addr root) [] ∅)) as Hmin'.
  { apply calcBounds_minimal; [done|]. apply collapsed_minimal_empty. }
  split; [done|]. split; [|split; [|split]].
  - intros b Hb. eapply Hmin; eauto using IsDir_true.
  - rewrite Heq. intros b Hb. eapply Hmin; eauto using IsDir_true.
  - intros pos out n Hout Hn Hent.
    eapply (place_collapsed opts root); [exact Hmin| | |exact Hout|exact Hn| |].
    + done.
    + intros Hroot. by apply calcBounds_own.
    + rewrite Hent. by apply IsDir_true.
    + by rewrite Hent.
  - intros pos out n Hout Hn Hent.
    eapply (place_collapsed opts (update_at (λ _, D') addr root));
      [exact Hmin'| | |exact Hout|exact Hn| |].
    + done.
    + intros Hroot. by apply calcBounds_own.
    + rewrite Hent. by apply IsDir_true.
    + by rewrite Hent.
Qed.

(** *** The shape of the treemap *)

(** [opts.MaxDepth > 0 && depth > opts.MaxDepth] *)
Definition beyond_MaxDepth (opts : Options) (depth : Z) : bool :=
  (0 <? MaxDepth opts) && (MaxDepth opts <? depth).

(** The children that the treemap lays out: those of positive [Size], then
    those of [Size] zero. *)
Definition sized_children (entry : Entry) : list Entry :=
  filter (λ c, 0 <? Size c) (Children entry) ++ filter (λ c, Size c =? 0) (Children entry).

Lemma layoutRow_length row rowArea rect rects shortSide :
  length (layoutRow row rowArea rect rects shortSide).2 = length rects.
Proof.
  unfold layoutRow. destruct (length row =? 0)%nat; [done|].
  destruct (lt32 fl (rW rect) (rH rect)).
  - match goal with
    | |- context [foldl ?f (rects, ?x0) row] =>
        assert (∀ acc, length (foldl f acc row).1 = length acc.1) as Hlen
    end.
    { induction row as [|item row IH]; intros [rs x]; simpl; [done|].
      rewrite IH. simpl. by rewrite length_insert. }
    match goal with
    | |- context [foldl ?f (rects, ?x0) row] =>
        specialize (Hlen (rects, x0)); destruct (foldl f (rects, x0) row)
    end. done.
  - match goal with
    | |- context [foldl ?f (rects, ?x0) row] =>
        assert (∀ acc, length (foldl f acc row).1 = length acc.1) as Hlen
    end.
    { induction row as [|item row IH]; intros [rs x]; simpl; [done|].
      rewrite IH. simpl. by rewrite length_insert. }
    match goal with
    | |- context [foldl ?f (rects, ?x0) row] =>
        specialize (Hlen (rects, x0)); destruct (foldl f (rects, x0) row)
    end. done.
Qed.

Lemma squarify_loop_length fuel : ∀ sorted remaining rects,
  length (squarify_loop fuel sorted remaining rects) = length rects.
Proof.
  induction fuel as [|fuel IH]; intros sorted remaining rects; simpl; [done|].
  destruct sorted as [|first rest]; [done|].
  destruct (grow_row _ _ _ _) as [[row rowArea] rest'].
  pose proof (layoutRow_length row rowArea remaining rects
                (if lt32 fl (rH remaining) (rW remaining)
                 then rH remaining else rW remaining)) as Hrow.
  destruct (layoutRow _ _ _ _ _) as [remaining' rects']. simpl in Hrow.
  by rewrite IH.
Qed.

Lemma squarify_length children rect parentSize :
  length (squarify children rect parentSize) = length children.
Proof.
  unfold squarify. destruct children as [|c cs]; [done|].
  by rewrite squarify_loop_length, length_replicate.
Qed.

(** [squarify] returns one rectangle per child, and none without
    children. *)
Theorem squarify_one_rect_per_child (children : list Entry) (rect : Rect2D)
    (parentSize : Z) :
  length (squarify children rect parentSize) = length children
  ∧ (children = [] → squarify children rect parentSize = [])
  ∧ ∀ i, is_Some (children !! i) ↔ is_Some (squarify children rect parentSize !! i).
Proof.
  split; [apply squarify_length|]. split; [by intros ->|].
  intros i. rewrite !lookup_lt_is_Some. by rewrite squarify_length.
Qed.

(** A child node once raised above its parent. *)
Definition raised (childNode : Node) (height : float32) : Node :=
  let childNode :=
    set_Position childNode
      (mkVector3 (vX (Position childNode)) (add32 fl (vY (Position childNode)) height)
         (vZ (Position childNode))) in
  set_n_Children childNode (raiseChildren childNode height).

(** Raising changes positions only. *)
Lemma raiseChildren_shape n : ∀ offset,
  map n_Entry (raiseChildren n offset) = map n_Entry (n_Children n)
  ∧ map n_Depth (raiseChildren n offset) = map n_Depth (n_Children n).
Proof.
  intros offset. destruct n as [e p sz col cs d]. simpl.
  rewrite !map_map. simpl. done.
Qed.

(** Every node of a raised tree comes from a node of the tree with the
    same entry, depth and children entries. *)
Lemma raise_nodes n : ∀ offset m,
  (∃ c, c ∈ raiseChildren n offset ∧ InNode m c) →
  ∃ m0 c0, c0 ∈ n_Children n ∧ InNode m0 c0
    ∧ n_Entry m = n_Entry m0 ∧ n_Depth m = n_Depth m0
    ∧ map n_Entry (n_Children m) = map n_Entry (n_Children m0)
    ∧ map n_Depth (n_Children m) = map n_Depth (n_Children m0).
Proof.
  induction n as [n IH] using Node_ind'. intros offset m (c & Hc & Hm).
  destruct n as [e p sz col cs d]. simpl in *.
  apply list_elem_of_fmap in Hc as (c0 & -> & Hc0).
  rewrite Forall_forall in IH.
  apply InNode_inv in Hm as [->|(c' & Hc' & Hm)].
  - exists c0, c0. split; [done|]. split; [constructor|]. simpl.
    destruct (raiseChildren_shape c0 offset) as [-> ->]. done.
  - simpl in Hc'.
    destruct (IH c0 Hc0 offset m) as (m0 & c1 & Hc1 & Hm0 & Hrest).
    { exists c'. done. }
    exists m0, c0. split; [done|]. split; [|done].
    by eapply InNode_child.
Qed.

Lemma filter_map_fst {B} (P : Entry → bool) (l : list (Entry * B)) :
  map fst (filter (λ c, P c.1) l) = filter (λ c, P c) (map fst l).
Proof.
  induction l as [|[e b] l IH]; [done|]. simpl.
  rewrite !filter_cons. simpl. destruct (P e); simpl; by rewrite IH.
Qed.

Lemma layout_children_entries height rects : ∀ sized es i,
  Forall2 (λ lc e, ∀ r, ∃ n, lc r = Some n ∧ n_Entry n = e) sized es →
  (i + length sized ≤ length rects)%nat →
  ∃ ns, layout_children sized rects i height = map (λ n, raised n height) ns
    ∧ map n_Entry ns = es
    ∧ Forall2 (λ lc n, ∃ r, lc r = Some n) sized ns.
Proof.
  intros sized es i H. revert i.
  induction H as [|lc e sized es Hlc _ IH]; intros i Hlen; simpl.
  - by exists [].
  - simpl in Hlen.
    destruct (lookup_lt_is_Some_2 rects i ltac:(lia)) as [r Hr]. rewrite Hr.
    destruct (Hlc r) as (n & Hn & He). rewrite Hn.
    destruct (IH (S i) ltac:(lia)) as (ns & -> & Hes & Hall).
    exists (n :: ns). simpl. split; [done|]. split; [by rewrite He, Hes|].
    constructor; eauto.
Qed.

Lemma layout_children_none height rects : ∀ sized i,
  Forall (λ lc, ∀ r, lc r = None) sized →
  layout_children sized rects i height = [].
Proof.
  induction sized as [|lc sized IH]; intros i Hall; simpl; [done|].
  inversion Hall as [|? ? Hlc Hrest]; subst.
  destruct (rects !! i) as [r|]; [rewrite Hlc|]; by apply IH.
Qed.

Lemma layoutMapVNode_beyond opts entry rect depth :
  beyond_MaxDepth opts depth = true → layoutMapVNode opts entry rect depth = None.
Proof.
  intros Hb. destruct entry as [n p ty sz mt cs dp err ld]. simpl.
  unfold beyond_MaxDepth in Hb. by rewrite Hb.
Qed.

(** What [layoutMapVNode] makes of an entry: the node, and the nodes of the
    children before they are raised. *)
Lemma layoutMapVNode_node opts entry : ∀ rect depth,
  beyond_MaxDepth opts depth = false →
  ∃ node ns,
    layoutMapVNode opts entry rect depth = Some node
    ∧ n_Entry node = entry ∧ n_Depth node = depth
    ∧ n_Children node = map (λ n, raised n (scaleHeight (Size entry) opts)) ns
    ∧ map n_Entry ns =
        (if IsDir entry && negb (beyond_MaxDepth opts (add64 depth 1))
         then sized_children entry else [])
    ∧ Forall (λ n, ∃ c r, c ∈ Children entry
                   ∧ layoutMapVNode opts c r (add64 depth 1) = Some n) ns.
Proof.
  induction entry as [entry IH] using Entry_ind'. intros rect depth Hb.
  destruct entry as [nm p ty sz mt cs dp err ld]. simpl in IH.
  unfold sized_children. simpl.
  unfold beyond_MaxDepth in Hb. rewrite Hb.
  set (node0 := mkNode _ _ _ _ [] depth).
  destruct (IsDir _) eqn:Hdir; simpl; [|by exists node0, []].
  destruct (0 <? Z.of_nat (length cs)) eqn:Hlen; simpl.
  2: { apply Z.ltb_ge in Hlen. destruct cs; [|simpl in Hlen; lia].
       exists node0, []. repeat split; try done. by destruct (negb _). }
  set (children := map (λ child, (child, λ r, layoutMapVNode opts child r (add64 depth 1))) cs).
  set (sizedChildren :=
         filter (λ c, 0 <? Size c.1) children ++ filter (λ c, Size c.1 =? 0) children).
  assert (map fst sizedChildren
          = filter (λ c, 0 <? Size c) cs ++ filter (λ c, Size c =? 0) cs) as Hfst.
  { unfold sizedChildren. rewrite map_app.
    rewrite (filter_map_fst (λ c, 0 <? Size c)), (filter_map_fst (λ c, Size c =? 0)).
    unfold children. rewrite map_map. simpl. by rewrite map_id. }
  assert (Forall (λ x, x.1 ∈ cs ∧ x.2 = λ r, layoutMapVNode opts x.1 r (add64 depth 1))
            sizedChildren) as Hsized.
  { apply Forall_forall. intros x Hx.
    assert (x ∈ children) as Hin.
    { unfold sizedChildren in Hx. apply elem_of_app in Hx as [Hx|Hx];
        by apply list_elem_of_filter in Hx as [_ ?]. }
    unfold children in Hin. apply list_elem_of_fmap in Hin as (c & -> & Hc). done. }
  destruct (0 <? Z.of_nat (length sizedChildren)) eqn:Hlen2; simpl.
  2: { apply Z.ltb_ge in Hlen2.
       assert (sizedChildren = []) as Hnil by (destruct sizedChildren; [done|simpl in *; lia]).
       exists node0, []. repeat split; try done.
       rewrite <- Hfst, Hnil. by destruct (negb _). }
  destruct (beyond_MaxDepth opts (add64 depth 1)) eqn:Hb1; simpl.
  - rewrite layout_children_none.
    + by exists node0, [].
    + apply Forall_forall. intros lc (x & -> & Hx)%list_elem_of_fmap r.
      rewrite Forall_forall in Hsized. destruct (Hsized x Hx) as [_ ->].
      by apply layoutMapVNode_beyond.
  - destruct (layout_children_entries (scaleHeight sz opts)
                (squarify (map fst sizedChildren)
                   (mkRect2D (add32 fl (rX rect) (mul32 fl (rW rect) (PaddingRatio opts)))
                      (add32 fl (rY rect) (mul32 fl (rW rect) (PaddingRatio opts)))
                      (sub32 fl (rW rect) (mul32 fl (f32 2) (mul32 fl (rW rect) (PaddingRatio opts))))
                      (sub32 fl (rH rect) (mul32 fl (f32 2) (mul32 fl (rW rect) (PaddingRatio opts)))))
                   sz)
                (map snd sizedChildren) (map fst sizedChildren) 0)
      as (ns & Hns & Hes & Hall).
    + apply Forall2_fmap_l, Forall2_fmap_r, Forall_Forall2_diag.
      apply Forall_forall. intros x Hx r.
      rewrite Forall_forall in Hsized. rewrite Forall_forall in IH.
      destruct (Hsized x Hx) as [Hc ->].
      destruct (IH x.1 Hc r (add64 depth 1) Hb1) as (n & ns' & Hn & He & _).
      eauto.
    + rewrite squarify_length, !length_map. lia.
    + eexists _, ns.
      split; [reflexivity|]. split; [done|]. split; [done|]. split; [exact Hns|].
      split; [by rewrite Hes, Hfst|].
      apply Forall_forall. intros n Hn.
      apply list_elem_of_lookup in Hn as [k Hk].
      destruct (Forall2_lookup_r _ _ _ _ _ Hall Hk) as (lc & Hlc & r & Hr).
      apply list_lookup_fmap_Some in Hlc as (x & -> & Hx).
      apply list_elem_of_lookup_2 in Hx.
      rewrite Forall_forall in Hsized. destruct (Hsized x Hx) as [Hc Heq].
      rewrite Heq in Hr. eauto.
Qed.

Lemma raised_shape c height :
  n_Entry (raised c height) = n_Entry c
  ∧ n_Depth (raised c height) = n_Depth c
  ∧ n_Children (raised c height) = raiseChildren c height.
Proof. by destruct c. Qed.

Lemma raised_nodes c height m :
  InNode m (raised c height) →
  ∃ m0, InNode m0 c
    ∧ n_Entry m = n_Entry m0 ∧ n_Depth m = n_Depth m0
    ∧ map n_Entry (n_Children m) = map n_Entry (n_Children m0)
    ∧ map n_Depth (n_Children m) = map n_Depth (n_Children m0).
Proof.
  destruct (raised_shape c height) as (He & Hd & Hcs).
  intros Hm. apply InNode_inv in Hm as [->|(c' & Hc' & Hm)].
  - exists c. split; [constructor|]. rewrite He, Hd, Hcs.
    destruct (raiseChildren_shape c height) as [-> ->]. done.
  - rewrite Hcs in Hc'.
    destruct (raise_nodes c height m) as (m0 & c0 & Hc0 & Hm0 & Hrest); [by exists c'|].
    exists m0. split; [by eapply InNode_child|done].
Qed.

Lemma sized_children_subseteq entry c : c ∈ sized_children entry → c ∈ Children entry.
Proof.
  unfold sized_children. intros [Hc|Hc]%elem_of_app;
    by apply list_elem_of_filter in Hc as [_ ?].
Qed.

(** What holds of a node of the treemap. *)
Definition mapV_node_ok (opts : Options) (root : Entry) (n : Node) : Prop :=
  InTree (n_Entry n) root
  ∧ beyond_MaxDepth opts (n_Depth n) = false
  ∧ map n_Entry (n_Children n) =
      (if IsDir (n_Entry n) && negb (beyond_MaxDepth opts (add64 (n_Depth n) 1))
       then sized_children (n_Entry n) else [])
  ∧ Forall (λ d, d = add64 (n_Depth n) 1) (map n_Depth (n_Children n)).

Lemma layoutMapVNode_all opts root entry : ∀ rect depth node,
  InTree entry root →
  layoutMapVNode opts entry rect depth = Some node →
  ∀ n, InNode n node → mapV_node_ok opts root n.
Proof.
  induction entry as [entry IH] using Entry_ind'. intros rect depth node Hin Hnode n Hn.
  destruct (beyond_MaxDepth opts depth) eqn:Hb;
    [by rewrite layoutMapVNode_beyond in Hnode|].
  destruct (layoutMapVNode_node opts entry rect depth Hb)
    as (node' & ns & Hnode' & He & Hd & Hcs & Hes & Hall).
  rewrite Hnode in Hnode'. inversion Hnode'; subst node'. clear Hnode'.
  assert (∀ c, c ∈ ns → n_Depth c = add64 depth 1 ∧
            ∀ m, InNode m c → mapV_node_ok opts root m) as Hns.
  { intros c Hc. rewrite Forall_forall in Hall. rewrite Forall_forall in IH.
    destruct (Hall c Hc) as (ce & r & Hce & Hlay).
    split.
    - destruct (beyond_MaxDepth opts (add64 depth 1)) eqn:Hb1;
        [by rewrite layoutMapVNode_beyond in Hlay|].
      destruct (layoutMapVNode_node opts ce r (add64 depth 1) Hb1)
        as (c' & _ & Hc' & _ & Hd' & _).
      rewrite Hlay in Hc'. by inversion Hc'; subst.
    - intros m Hm. eapply (IH ce Hce r (add64 depth 1) c); [|done|done].
      apply (InTree_trans ce entry root); [|done].
      eapply InTree_child; [done|constructor]. }
  apply InNode_inv in Hn as [->|(c' & Hc' & Hn)].
  - split; [by rewrite He|]. split; [by rewrite Hd|]. split.
    + rewrite Hcs, He, Hd, <- Hes, map_map. apply map_ext. intros c.
      by destruct (raised_shape c (scaleHeight (Size entry) opts)) as (-> & _).
    + rewrite Hcs, Hd, map_map. apply Forall_forall.
      intros d (c & -> & Hc)%list_elem_of_fmap.
      match goal with |- n_Depth (raised c ?h) = _ =>
        destruct (raised_shape c h) as (_ & -> & _) end.
      by apply Hns.
  - rewrite Hcs in Hc'. apply list_elem_of_fmap in Hc' as (c & -> & Hc).
    destruct (raised_nodes c _ n Hn) as (m0 & Hm0 & E1 & E2 & E3 & E4).
    destruct (Hns c Hc) as [_ Hok]. destruct (Hok m0 Hm0) as (O1 & O2 & O3 & O4).
    unfold mapV_node_ok. by rewrite E1, E2, E3, E4.
Qed.

(** The treemap of a tree: there is a node for the root, at depth 0; every
    node stands for an entry of the tree; the children of a node are
    the nodes of the entry's children of positive size followed by those of
    size zero (an entry of negative size is left out), one level deeper;
    and with a depth limit no node lies deeper than the limit. *)
Theorem mapV_shape (tree : Tree) (opts : Options) :
  ∃ node, computeMapV tree opts = Some node
    ∧ n_Entry node = Root tree ∧ n_Depth node = 0
    ∧ ∀ n, InNode n node →
        InTree (n_Entry n) (Root tree)
        ∧ (0 < MaxDepth opts → n_Depth n ≤ MaxDepth opts)
        ∧ map n_Entry (n_Children n) =
            (if IsDir (n_Entry n) && negb (beyond_MaxDepth opts (add64 (n_Depth n) 1))
             then sized_children (n_Entry n) else [])
        ∧ Forall (λ c, n_Depth c = add64 (n_Depth n) 1) (n_Children n).
Proof.
  unfold computeMapV.
  assert (beyond_MaxDepth opts 0 = false) as Hb0.
  { unfold beyond_MaxDepth. destruct (0 <? MaxDepth opts) eqn:H; [|done].
    apply Z.ltb_lt in H. simpl. apply Z.ltb_ge. lia. }
  match goal with
  | |- context [layoutMapVNode opts (Root tree) ?rect 0] =>
      destruct (layoutMapVNode_node opts (Root tree) rect 0 Hb0)
        as (node & ns & Hnode & He & Hd & _);
      pose proof (layoutMapVNode_all opts (Root tree) (Root tree) rect 0 node
                    (InTree_here _) Hnode) as Hall
  end.
  exists node. split; [done|]. split; [done|]. split; [done|].
  intros n Hn. destruct (Hall n Hn) as (O1 & O2 & O3 & O4).
  split; [done|]. split; [|split; [done|]].
  - intros Hpos. unfold beyond_MaxDepth in O2.
    rewrite (proj2 (Z.ltb_lt _ _) Hpos) in O2. simpl in O2. by apply Z.ltb_ge in O2.
  - apply Forall_forall. intros c Hc. rewrite Forall_forall in O4.
    apply O4. apply list_elem_of_fmap. eauto.
Qed.

(** *** The shape of the pedestal tree *)

(** [opts.MaxDepth > 0 && entry.Depth >= opts.MaxDepth]: [calcBounds] does
    not go below such a directory. *)
Definition stops_at (opts : Options) (e : Entry) : bool :=
  (0 <? MaxDepth opts) && (MaxDepth opts <=? Depth e).

(** The children that [place] gives the node of an entry: for an expanded
    directory its files and then, unless the depth limit forbids it, its
    subdirectories within the limit. *)
Definition treeV_children (opts : Options) (e : Entry) : list Entry :=
  if IsDir e && isExpanded opts e then
    filter (λ c, negb (IsDir c)) (Children e)
    ++ (if (MaxDepth opts =? 0) || (Depth e <? MaxDepth opts)
        then filter (λ c, IsDir c && negb (beyond_MaxDepth opts (Depth c))) (Children e)
        else [])
  else [].

(** [covered opts bounds e a]: the width pass has given bounds to the
    directory [e] at position [a] and to the directories that [place]
    reaches from it. *)
Inductive covered (opts : Options) (bounds : Bounds) : Entry → list nat → Prop :=
| covered_file e a : IsDir e = false → covered opts bounds e a
| covered_dir e a :
    IsDir e = true → is_Some (bounds !! a) →
    (isExpanded opts e = true → stops_at opts e = false →
     ∀ k c, Children e !! k = Some c → covered opts bounds c (a ++ [k])) →
    covered opts bounds e a.

Lemma covered_mono opts bounds bounds' e a :
  (∀ x, is_Some (bounds !! x) → is_Some (bounds' !! x)) →
  covered opts bounds e a → covered opts bounds' e a.
Proof.
  intros Hsub H. induction H as [e a Hf|e a Hd Hs Hc IH]; [by apply covered_file|].
  apply covered_dir; auto.
Qed.

Lemma insert_keeps (bounds : Bounds) a b x :
  is_Some (bounds !! x) → is_Some (<[a := b]> bounds !! x).
Proof.
  intros H. destruct (decide (a = x)) as [->|Hne].
  - rewrite lookup_insert_eq. eauto.
  - by rewrite lookup_insert_ne.
Qed.

Lemma calc_children_dom opts addr children :
  Forall (λ c, ∀ a bounds x, is_Some (bounds !! x) →
                 is_Some (calcBounds opts c a bounds !! x)) children →
  ∀ i bounds w x, is_Some (bounds !! x) →
    is_Some ((calc_children (calcBounds opts) addr children i bounds w).1 !! x).
Proof.
  induction 1 as [|c cs Hc _ IH]; intros i bounds w x Hx; simpl; [done|].
  destruct (IsDir c); [|by apply IH].
  apply IH. by apply Hc.
Qed.

Lemma calcBounds_dom opts entry :
  ∀ addr bounds x, is_Some (bounds !! x) →
    is_Some (calcBounds opts entry addr bounds !! x).
Proof.
  induction entry as [e IH] using Entry_ind'. intros addr bounds x Hx.
  destruct e as [n p ty sz mt cs dp err ld]. simpl in *.
  set (e := mkEntry n p ty sz mt cs dp err ld) in *.
  destruct (IsDir e) eqn:Hdir; simpl; [|done].
  destruct (isExpanded opts e) eqn:Hexp; simpl; [|by apply insert_keeps].
  destruct (calcDirSize (countFiles cs)) as [dirW dirD].
  destruct ((0 <? MaxDepth opts) && (MaxDepth opts <=? dp)); [by apply insert_keeps|].
  pose proof (calc_children_dom opts addr cs IH 0 bounds (f32 0) x Hx) as Hcs.
  destruct (calc_children (calcBounds opts) addr cs 0 bounds (f32 0)) as [bounds' w].
  by apply insert_keeps.
Qed.

Lemma calc_children_covered opts addr children :
  Forall (λ c, ∀ a bounds, covered opts (calcBounds opts c a bounds) c a) children →
  ∀ i bounds w k c, children !! k = Some c →
    covered opts (calc_children (calcBounds opts) addr children i bounds w).1 c
      (addr ++ [(i + k)%nat]).
Proof.
  induction 1 as [|c0 cs Hc0 _ IH]; intros i bounds w k c Hk; [done|].
  destruct k as [|k]; simpl in Hk.
  - inversion Hk; subst c0. rewrite Nat.add_0_r. simpl.
    destruct (IsDir c) eqn:Hd; [|by apply covered_file].
    eapply covered_mono; [|apply Hc0].
    intros x. apply calc_children_dom.
    apply Forall_forall. intros ? _. apply calcBounds_dom.
  - replace (i + S k)%nat with (S i + k)%nat by lia. cbn [calc_children].
    destruct (IsDir c0); by apply IH.
Qed.

Lemma calcBounds_covered opts entry :
  ∀ addr bounds, covered opts (calcBounds opts entry addr bounds) entry addr.
Proof.
  induction entry as [e IH] using Entry_ind'. intros addr bounds.
  destruct (IsDir e) eqn:Hdir; [|by apply covered_file].
  apply covered_dir; [done|by apply calcBounds_own|].
  intros Hexp Hstop k c Hk.
  destruct e as [n p ty sz mt cs dp err ld]. simpl in *.
  set (e := mkEntry n p ty sz mt cs dp err ld) in *.
  rewrite Hdir, Hexp. simpl.
  destruct (calcDirSize (countFiles cs)) as [dirW dirD].
  unfold stops_at in Hstop. simpl in Hstop. rewrite Hstop.
  pose proof (calc_children_covered opts addr cs IH 0 bounds (f32 0) k c Hk) as Hcs.
  destruct (calc_children (calcBounds opts) addr cs 0 bounds (f32 0)) as [bounds' w].
  eapply covered_mono; [|exact Hcs]. intros x. apply insert_keeps.
Qed.

(** The file nodes, in the order of the files. *)
Lemma place_files_entries files : ∀ i side mx sx sy px pz,
  map n_Entry (place_files files i side mx sx sy px pz) = files.
Proof.
  induction files as [|file files IH]; intros i side mx sx sy px pz; simpl; [done|].
  destruct (Z.rem i side =? side - 1); simpl; by rewrite IH.
Qed.

Lemma place_files_depth files : ∀ i side mx sx sy px pz n,
  n ∈ place_files files i side mx sx sy px pz → n_Depth n = Depth (n_Entry n).
Proof.
  induction files as [|file files IH]; intros i side mx sx sy px pz n Hn; simpl in Hn.
  - by apply elem_of_nil in Hn.
  - destruct (Z.rem i side =? side - 1); apply elem_of_cons in Hn as [->|Hn];
      try done; by eapply IH.
Qed.

(** What [place] returns for one entry. *)
Lemma place_entry opts bounds entry addr pos :
  if beyond_MaxDepth opts (Depth entry) then place opts bounds entry addr pos = None
  else ∃ node, place opts bounds entry addr pos = Some node
         ∧ n_Entry node = entry ∧ n_Depth node = Depth entry.
Proof.
  destruct entry as [n p ty sz mt cs dp err ld]. unfold beyond_MaxDepth. simpl.
  set (e := mkEntry n p ty sz mt cs dp err ld) in *.
  destruct ((0 <? MaxDepth opts) && (MaxDepth opts <? dp)); [done|].
  destruct (bounds !! addr) as [b|]; [|by eexists].
  destruct (IsDir e); simpl; [|by eexists].
  destruct (isExpanded opts e); simpl; by eexists.
Qed.

(** The directories handed to [place_dirs], starting with the child of
    index [i]. *)
Definition dirs_from (opts : Options) (bounds : Bounds) (addr : list nat) (i : nat)
    (children : list Entry) : list (list nat * (Vector3 → option Node)) :=
  omap (λ '(a, (child, place_child)),
          if IsDir child then Some (a, place_child a) else None)
    (zip_with (λ i child, (addr ++ [i], child))
       (seq i (length children))
       (map (λ child, (child, λ a, place opts bounds child a)) children)).

Lemma dirs_from_cons opts bounds addr i c cs :
  dirs_from opts bounds addr i (c :: cs)
  = (if IsDir c then [(addr ++ [i], place opts bounds c (addr ++ [i]))] else [])
    ++ dirs_from opts bounds addr (S i) cs.
Proof. unfold dirs_from. simpl. by destruct (IsDir c). Qed.

Lemma place_dirs_entries opts bounds addr pos b : ∀ children i x,
  (∀ k c, children !! k = Some c → IsDir c = true →
          is_Some (bounds !! (addr ++ [(i + k)%nat]))) →
  map n_Entry (place_dirs bounds pos b (dirs_from opts bounds addr i children) x)
  = filter (λ c, IsDir c && negb (beyond_MaxDepth opts (Depth c))) children.
Proof.
  induction children as [|c cs IH]; intros i x Hcov; [done|].
  assert (∀ k c', cs !! k = Some c' → IsDir c' = true →
                  is_Some (bounds !! (addr ++ [(S i + k)%nat]))) as Hcov'.
  { intros k c' Hk Hd. replace (S i + k)%nat with (i + S k)%nat by lia.
    by apply (Hcov (S k) c'). }
  rewrite dirs_from_cons.
  destruct (IsDir c) eqn:Hd.
  2: { rewrite filter_cons_False by (rewrite Hd; simpl; tauto). by apply IH. }
  destruct (Hcov 0%nat c eq_refl Hd) as [cb Hcb]. rewrite Nat.add_0_r in Hcb.
  cbn [app place_dirs]. rewrite Hcb.
  match goal with
  | |- context [place opts bounds c (addr ++ [i]) ?p] =>
      pose proof (place_entry opts bounds c (addr ++ [i]) p) as Hp
  end.
  destruct (beyond_MaxDepth opts (Depth c)) eqn:Hbey.
  - rewrite Hp. rewrite filter_cons_False by (rewrite Hd, Hbey; simpl; tauto).
    by apply IH.
  - destruct Hp as (node & -> & He & _).
    rewrite filter_cons_True by (by rewrite Hd, Hbey).
    cbn [map]. by rewrite He, IH.
Qed.

Definition treeV_node_ok (opts : Options) (root : Entry) (n : Node) : Prop :=
  InTree (n_Entry n) root
  ∧ n_Depth n = Depth (n_Entry n)
  ∧ map n_Entry (n_Children n) = treeV_children opts (n_Entry n).

Lemma place_all opts bounds root entry :
  ∀ addr pos out n,
    InTree entry root →
    covered opts bounds entry addr →
    place opts bounds entry addr pos = Some out →
    InNode n out → treeV_node_ok opts root n.
Proof.
  induction entry as [e IH] using Entry_ind'.
  intros addr pos out n Hin Hcov Hplace Hn.
  assert (∀ node, n_Entry node = e → n_Depth node = Depth e → n_Children node = [] →
            (IsDir e && isExpanded opts e = false) → InNode n node →
            treeV_node_ok opts root n) as Hleaf.
  { intros node He Hd Hnil Hno Hm. apply InNode_leaf in Hm; [|done]. subst n.
    split; [by rewrite He|]. split; [by rewrite Hd, He|].
    unfold treeV_children. by rewrite Hnil, He, Hno. }
  destruct e as [nm p ty sz mt cs dp err ld]. simpl in Hplace.
  set (e := mkEntry nm p ty sz mt cs dp err ld) in *.
  destruct ((0 <? MaxDepth opts) && (MaxDepth opts <? dp)); [done|].
  destruct (IsDir e) eqn:He.
  2: { destruct (bounds !! addr) as [b|]; simpl in Hplace;
         inversion Hplace; subst out; by refine (Hleaf _ _ _ _ _ Hn). }
  inversion Hcov as [? ? Hf|? ? _ [b Hb] Hkids]; subst; [congruence|].
  rewrite Hb in Hplace. simpl in Hplace.
  destruct (isExpanded opts e) eqn:Hexp; simpl in Hplace.
  2: { inversion Hplace; subst out. by refine (Hleaf _ _ _ _ _ Hn). }
  inversion Hplace; subst out. clear Hplace Hleaf.
  assert (stops_at opts e = false →
          ∀ k c, cs !! k = Some c → covered opts bounds c (addr ++ [k])) as Hkids'
    by (intros; by apply Hkids).
  clear Hkids.
  fold (dirs_from opts bounds addr 0 cs) in Hn.
  set (files := filter (λ child, negb (IsDir child)) cs) in *.
  assert ((MaxDepth opts =? 0) || (dp <? MaxDepth opts) = true →
          stops_at opts e = false) as Hgo.
  { unfold stops_at. simpl. intros H. apply orb_true_iff in H as [H|H].
    - apply Z.eqb_eq in H. rewrite H. done.
    - apply Z.ltb_lt in H. apply andb_false_iff. right. apply Z.leb_gt. lia. }
  apply InNode_inv in Hn as [->|(c & Hc & Hn)].
  - split; [done|]. split; [done|]. simpl.
    unfold treeV_children. rewrite He, Hexp. simpl. rewrite map_app. f_equal.
    + fold files. destruct (0 <? Z.of_nat (length files)) eqn:Hlen.
      * apply place_files_entries.
      * apply Z.ltb_ge in Hlen. destruct files; [done|simpl in Hlen; lia].
    + destruct ((MaxDepth opts =? 0) || (dp <? MaxDepth opts)) eqn:Hlim.
      2: { by rewrite andb_false_r. }
      rewrite andb_true_r.
      pose proof (place_dirs_entries opts bounds addr pos b cs 0
                    (sub32 fl (minX b) (f32 (lpDirSpacing / 2)%Q))) as Hdirs.
      destruct (0 <? Z.of_nat (length (dirs_from opts bounds addr 0 cs))) eqn:Hlen.
      * apply Hdirs. intros k c Hk Hd.
        specialize (Hkids' (Hgo eq_refl) k c Hk).
        inversion Hkids'; subst; [congruence|done].
      * apply Z.ltb_ge in Hlen.
        destruct (dirs_from opts bounds addr 0 cs) eqn:Hnil; [|simpl in Hlen; lia].
        simpl in Hdirs. rewrite <- Hdirs; [done|].
        intros k c Hk Hd.
        specialize (Hkids' (Hgo eq_refl) k c Hk).
        inversion Hkids'; subst; [congruence|done].
  - simpl in Hc. apply elem_of_app in Hc as [Hc|Hc].
    + destruct (0 <? Z.of_nat _); [|by apply elem_of_nil in Hc].
      pose proof (place_files_depth _ _ _ _ _ _ _ _ _ Hc) as Hdepth.
      apply place_files_nodes in Hc as (f & Hf & Hentry & Hnil).
      apply InNode_leaf in Hn; [|done]. subst n.
      apply list_elem_of_filter in Hf as [Hf Hfin].
      split; [|split; [done|]].
      * rewrite Hentry. eapply InTree_trans; [|exact Hin].
        eapply InTree_child; [exact Hfin|constructor].
      * unfold treeV_children. rewrite Hnil, Hentry.
        by destruct (IsDir f).
    + destruct ((MaxDepth opts =? 0) || (dp <? MaxDepth opts)) eqn:Hlim;
        [|rewrite andb_false_r in Hc; by apply elem_of_nil in Hc].
      destruct (0 <? Z.of_nat _); [|by apply elem_of_nil in Hc].
      simpl in Hc.
      apply place_dirs_nodes in Hc as (a & pd & cp & Hin' & Hsome & Hpd).
      apply list_elem_of_omap in Hin' as ([a' [child pc]] & Hin' & Hopt).
      destruct (IsDir child) eqn:Hchild; [|done]. inversion Hopt; subst a' pd. clear Hopt.
      apply list_elem_of_lookup in Hin' as [k Hk].
      apply lookup_zip_with_Some in Hk as (i & [child' pc'] & [= -> <- <-] & Hi & Hk).
      apply lookup_seq in Hi as [-> _]. simpl in *.
      rewrite list_lookup_fmap in Hk.
      destruct (cs !! k) as [ck|] eqn:Hck; [|done]. simpl in Hk. inversion Hk; subst.
      rewrite Forall_forall in IH.
      assert (child ∈ cs) as Hcin by (apply list_elem_of_lookup; eauto).
      eapply (IH child Hcin (addr ++ [k]) cp c n); [| |done|done].
      * eapply InTree_trans; [|exact Hin]. eapply InTree_child; [exact Hcin|constructor].
      * apply Hkids'; [by apply Hgo|done].
Qed.

(** The pedestal tree of a tree.  There is no layout when the root lies
    beyond the depth limit; otherwise there is a node for the root, every
    node stands for an entry of the tree and carries the entry's depth, a
    node of a collapsed directory or of a file has no children, and the
    children of the node of an expanded directory are the nodes of its
    files followed by the nodes of its subdirectories, each group in the
    order of the entry's children.  With a depth limit the subdirectories
    of a directory at the limit are left out, its files are not. *)
Theorem treeV_shape (tree : Tree) (opts : Options) :
  if beyond_MaxDepth opts (Depth (Root tree)) then computeTreeV tree opts = None
  else ∃ node, computeTreeV tree opts = Some node
         ∧ n_Entry node = Root tree
         ∧ ∀ n, InNode n node →
             InTree (n_Entry n) (Root tree)
             ∧ n_Depth n = Depth (n_Entry n)
             ∧ map n_Entry (n_Children n) = treeV_children opts (n_Entry n).
Proof.
  unfold computeTreeV.
  match goal with
  | |- context [place opts ?bounds (Root tree) [] ?p] =>
      pose proof (place_entry opts bounds (Root tree) [] p) as Hp
  end.
  destruct (beyond_MaxDepth opts (Depth (Root tree))); [done|].
  destruct Hp as (node & Hnode & He & _).
  exists node. split; [done|]. split; [done|].
  intros n Hn.
  eapply (place_all opts _ (Root tree) (Root tree) [] _ node n); try done.
  - constructor.
  - apply calcBounds_covered.
Qed.

Lemma InNode_trans n c root : InNode n c → InNode c root → InNode n root.
Proof. intros Hn Hc. induction Hc; [done|]. eapply InNode_child; eauto. Qed.

(** On a tree that keeps the depth invariant from a root at depth 0, as
    the trees of the scanner do, the depth that the treemap counts for a
    node is the depth of the node's entry. *)
Theorem mapV_depth_matches_entry (tree : Tree) (opts : Options) :
  Depth (Root tree) = 0 → depth_inv (Root tree) →
  ∃ node, computeMapV tree opts = Some node
    ∧ ∀ n, InNode n node → n_Depth n = Depth (n_Entry n).
Proof.
  intros H0 Hinv. unfold computeMapV.
  assert (beyond_MaxDepth opts 0 = false) as Hb0.
  { unfold beyond_MaxDepth. destruct (0 <? MaxDepth opts) eqn:H; [|done].
    apply Z.ltb_lt in H. simpl. apply Z.ltb_ge. lia. }
  match goal with
  | |- context [layoutMapVNode opts (Root tree) ?rect 0] =>
      destruct (layoutMapVNode_node opts (Root tree) rect 0 Hb0)
        as (node & ns & Hnode & He & Hd & _);
      pose proof (layoutMapVNode_all opts (Root tree) (Root tree) rect 0 node
                    (InTree_here _) Hnode) as Hall
  end.
  exists node. split; [done|].
  assert (∀ r n, InNode n r → InNode r node →
            n_Depth r = Depth (n_Entry r) → n_Depth n = Depth (n_Entry n)) as Hdown.
  { intros r n Hn. induction Hn as [|c r Hc Hn IH]; [done|]. intros Hr Hdr.
    apply IH.
    - eapply InNode_trans; [|exact Hr]. eapply InNode_child; [exact Hc|constructor].
    - destruct (Hall r Hr) as (Hin & _ & Hes & Hds).
      rewrite Forall_forall in Hds.
      rewrite (Hds (n_Depth c)) by (apply list_elem_of_fmap; eauto).
      assert (n_Entry c ∈ map n_Entry (n_Children r)) as Hce
        by (apply list_elem_of_fmap; eauto).
      rewrite Hes in Hce.
      destruct (IsDir (n_Entry r) && _); [|by apply elem_of_nil in Hce].
      apply sized_children_subseteq in Hce.
      rewrite (Hinv (n_Entry r) Hin (n_Entry c) Hce). by rewrite Hdr. }
  intros n Hn. apply (Hdown node n Hn); [constructor|].
  by rewrite He, Hd, H0.
Qed.


End Layout.

Global Arguments n_Entry {fl pal} n.
Global Arguments Position {fl pal} n.
Global Arguments n_Size {fl pal} n.
Global Arguments n_Color {fl pal} n.
Global Arguments n_Children {fl pal} n.
Global Arguments n_Depth {fl pal} n.
Global Arguments InNode {fl pal} n root.
Global Arguments placeholder {fl pal} n.
Global Arguments ExpandedPaths {fl} o.
Global Arguments MaxDepth {fl} o.
Global Arguments opt_Mode {fl} o.

(** *** The layout on a sample tree, in IEEE 754 arithmetic *)

(** The aggregated tree of [Fs.sample_scan], without the unreadable
    directory. *)
Definition sample_sub : Entry :=
  mkEntry "sub" "/r/sub" TypeDir 350 7
    [ mkEntry "b" "/r/sub/b" TypeFile 300 7 [] 2 "" false;
      mkEntry "c" "/r/sub/c" TypeFile 50 7 [] 2 "" false ] 1 "" true.

Definition sample_tree : Tree :=
  mkTree
    (mkEntry "/r" "/r" TypeDir 650 7
       [ sample_sub;
         mkEntry "d" "/r/d" TypeFile 200 7 [] 1 "" false;
         mkEntry "a" "/r/a" TypeFile 100 7 [] 1 "" false ] 0 "" true)
    0 650 4 2 2 [].

(** The same directory before it was listed: empty, size unknown. *)
Definition sample_sub_unloaded : Entry :=
  mkEntry "sub" "/r/sub" TypeDir 0 7 [] 1 "" false.

(** Default options with the given mode and expanded paths. *)
Definition sample_options (mode : Mode) (expanded : gmap string bool)
  : Options IEEE754.floats :=
  mkOptions IEEE754.floats mode 0
    (f32 IEEE754.floats (2 # 100)) (f32 IEEE754.floats 1)
    (f32 IEEE754.floats (1 # 10)) (f32 IEEE754.floats 20) (Some expanded).

Definition root_expanded : gmap string bool := {[ "/r"%string := true ]}.

(** The pedestal-tree layout of the sample tree with only the root
    expanded, and the treemap layout with nothing expanded. *)
Definition sample_treeV : option (Node IEEE754.floats IEEE754.colors) :=
  Eval vm_compute in
    Compute IEEE754.floats IEEE754.colors go_lib (Some sample_tree)
      (sample_options ModeTreeV root_expanded).

(** What is read off a layout: the type and path of the entry of the node
    at [addr] and the names of the entries of its child nodes. *)
Fixpoint node_at {fl pal} (addr : list nat) (n : Node fl pal) : option (Node fl pal) :=
  match addr with
  | [] => Some n
  | i :: addr' => n_Children n !! i ≫= node_at addr'
  end.

Definition summary {fl pal} (addr : list nat) (layout : option (Node fl pal))
  : option (EntryType * string * list string) :=
  match layout ≫= node_at addr with
  | Some n =>
      Some (Type_ (n_Entry n), Path (n_Entry n),
            map (λ c : Node fl pal, Name (n_Entry c)) (n_Children n))
  | None => None
  end.

Lemma treeV_collapsed_is_placeholder_witness :
  ∃ root n,
    Compute IEEE754.floats IEEE754.colors go_lib (Some sample_tree)
      (sample_options ModeTreeV root_expanded) = Some root
    ∧ n_Children root !! 2%nat = Some n
    ∧ n_Entry n = sample_sub
    ∧ n_Size n = mkVector3 IEEE754.floats
                   (f32 IEEE754.floats lpDirSize) (f32 IEEE754.floats lpDirHeight)
                   (f32 IEEE754.floats lpDirSize)
    ∧ n_Children n = [].
Proof.
  assert (Compute IEEE754.floats IEEE754.colors go_lib (Some sample_tree)
            (sample_options ModeTreeV root_expanded) = sample_treeV) as Hrun
    by reflexivity.
  unfold sample_treeV in Hrun.
  eexists _, _. split; [exact Hrun|]. split; [reflexivity|]. split; [reflexivity|].
  eapply (treeV_collapsed_is_placeholder IEEE754.floats IEEE754.colors go_lib sample_tree
            (sample_options ModeTreeV root_expanded) root_expanded).
  - reflexivity.
  - reflexivity.
  - exact Hrun.
  - eapply InNode_child; [|apply InNode_here].
    apply list_elem_of_lookup. exists 2%nat. reflexivity.
  - reflexivity.
  - change (root_expanded !! "/r/sub"%string ≠ Some true). vm_compute. discriminate.
Defined.

(** C3, as stated, fails for the treemap: with the non-nil, empty
    [ExpandedPaths] no path is expanded, yet the node of the root directory
    [/r] has a child node for each of its three children, and the node of
    the directory [/r/sub] one for each of its two files. *)
Lemma mapV_lays_out_unexpanded_children :
  ExpandedPaths (sample_options ModeMapV ∅) = Some ∅
  ∧ (∅ : gmap string bool) !! "/r"%string = None
  ∧ (∅ : gmap string bool) !! "/r/sub"%string = None
  ∧ summary []
      (Compute IEEE754.floats IEEE754.colors go_lib (Some sample_tree)
         (sample_options ModeMapV ∅))
    = Some (TypeDir, "/r", ["sub"; "d"; "a"])%string
  ∧ summary [0%nat]
      (Compute IEEE754.floats IEEE754.colors go_lib (Some sample_tree)
         (sample_options ModeMapV ∅))
    = Some (TypeDir, "/r/sub", ["b"; "c"])%string.
Proof.
  split; [reflexivity|]. split; [reflexivity|]. split; [reflexivity|].
  split; vm_compute; reflexivity.
Qed.

(** The same tree in the pedestal layout: [sub], not expanded, has no child
    nodes. *)
Example treeV_sample_summary :
  summary [] sample_treeV = Some (TypeDir, "/r", ["d"; "a"; "sub"])%string
  ∧ summary [2%nat] sample_treeV = Some (TypeDir, "/r/sub", []).
Proof. split; vm_compute; reflexivity. Qed.

Lemma treeV_collapsed_footprint_independent_witness :
  calcBounds IEEE754.floats (sample_options ModeTreeV root_expanded)
    (update_at (λ _, sample_sub_unloaded) [0%nat] (Root sample_tree)) [] ∅
  = calcBounds IEEE754.floats (sample_options ModeTreeV root_expanded) (Root sample_tree) [] ∅
  ∧ (∀ b, calcBounds IEEE754.floats (sample_options ModeTreeV root_expanded)
            (Root sample_tree) [] ∅ !! [0%nat] = Some b →
          b = collapsedBounds IEEE754.floats)
  ∧ (∀ b, calcBounds IEEE754.floats (sample_options ModeTreeV root_expanded)
            (update_at (λ _, sample_sub_unloaded) [0%nat] (Root sample_tree)) [] ∅
            !! [0%nat] = Some b →
          b = collapsedBounds IEEE754.floats)
  ∧ (∀ pos out n,
       place IEEE754.floats IEEE754.colors (sample_options ModeTreeV root_expanded)
         (calcBounds IEEE754.floats (sample_options ModeTreeV root_expanded)
            (Root sample_tree) [] ∅) (Root sample_tree) [] pos = Some out →
       InNode n out → n_Entry n = sample_sub →
       placeholder n)
  ∧ (∀ pos out n,
       place IEEE754.floats IEEE754.colors (sample_options ModeTreeV root_expanded)
         (calcBounds IEEE754.floats (sample_options ModeTreeV root_expanded)
            (update_at (λ _, sample_sub_unloaded) [0%nat] (Root sample_tree)) [] ∅)
         (update_at (λ _, sample_sub_unloaded) [0%nat] (Root sample_tree)) [] pos = Some out →
       InNode n out → n_Entry n = sample_sub_unloaded →
       placeholder n).
Proof.
  apply (treeV_collapsed_footprint_independent IEEE754.floats IEEE754.colors
           (sample_options ModeTreeV root_expanded) root_expanded
           (Root sample_tree) [0%nat] sample_sub sample_sub_unloaded).
  - reflexivity.
  - reflexivity.
  - reflexivity.
  - reflexivity.
  - reflexivity.
  - vm_compute. discriminate.
Defined.


(** With the default options a kilobyte is 1 high, a megabyte about 10 and
    a terabyte is capped at 20 (binary32 values). *)
Example scaleHeight_samples :
  scaleHeight IEEE754.floats 0 (sample_options ModeMapV ∅) = S754_finite false 13421773 (-27)
  ∧ scaleHeight IEEE754.floats 1024 (sample_options ModeMapV ∅) = S754_finite false 8388608 (-23)
  ∧ scaleHeight IEEE754.floats (1024 * 1024) (sample_options ModeMapV ∅)
    = S754_finite false 10487237 (-20)
  ∧ scaleHeight IEEE754.floats (2 ^ 40) (sample_options ModeMapV ∅)
    = S754_finite false 10485760 (-19).
Proof. vm_compute. done. Qed.

(** Options with [HeightScale] 0, [MinHeight] 1 and [MaxHeight] 2. *)
Definition flat_options : Options IEEE754.floats :=
  mkOptions IEEE754.floats ModeMapV 0
    (f32 IEEE754.floats (2 # 100)) (f32 IEEE754.floats 0)
    (f32 IEEE754.floats 1) (f32 IEEE754.floats 2) None.

Lemma scaleHeight_clamp_witness :
  scaleHeight IEEE754.floats (2 ^ 63 - 1) flat_options
  = scaleHeight_spec IEEE754.floats (2 ^ 63 - 1) flat_options.
Proof.
  apply (scaleHeight_clamp IEEE754.floats (2 ^ 63 - 1) flat_options).
  - lia.
  - vm_compute. reflexivity.
Defined.

(** Sizes are [int64] values, so the logarithm stays below 54: with
    [HeightScale] 0 the largest size is [MinHeight] (1) high, not
    [MaxHeight] (2); with [HeightScale] 1 and [MaxHeight] 100 it is 53
    high. *)
Example scaleHeight_largest_size :
  scaleHeight IEEE754.floats (2 ^ 63 - 1) flat_options = S754_finite false 8388608 (-23)
  ∧ MinHeight IEEE754.floats flat_options = S754_finite false 8388608 (-23)
  ∧ MaxHeight IEEE754.floats flat_options = S754_finite false 8388608 (-22)
  ∧ scaleHeight IEEE754.floats (2 ^ 63 - 1)
      (mkOptions IEEE754.floats ModeMapV 0
         (f32 IEEE754.floats (2 # 100)) (f32 IEEE754.floats 1)
         (f32 IEEE754.floats (1 # 10)) (f32 IEEE754.floats 100) None)
    = S754_finite false 13893632 (-18).
Proof. vm_compute. done. Qed.







(** The footprint of the collapsed [sub]: a pedestal of 0.7 by 0.7 between
    -0.6 and 0.6, in both trees. *)
Example sample_sub_footprint :
  calcBounds IEEE754.floats (sample_options ModeTreeV root_expanded) (Root sample_tree) [] ∅
    !! [0%nat] = Some (collapsedBounds IEEE754.floats)
  ∧ calcBounds IEEE754.floats (sample_options ModeTreeV root_expanded)
      (update_at (λ _, sample_sub_unloaded) [0%nat] (Root sample_tree)) [] ∅
    !! [0%nat] = Some (collapsedBounds IEEE754.floats)
  ∧ collapsedBounds IEEE754.floats
    = mkDirBounds IEEE754.floats
        (S754_finite true 10066330 (-24)) (S754_finite false 10066330 (-24))
        (mkVector3 IEEE754.floats (S754_finite false 11744051 (-24))
           (S754_finite false 13421773 (-27)) (S754_finite false 11744051 (-24))).
Proof. repeat split; reflexivity. Qed.


Lemma mapV_depth_matches_entry_witness :
  Depth (Root sample_tree) = 0 ∧ depth_inv (Root sample_tree)
  ∧ ∃ node, computeMapV IEEE754.floats IEEE754.colors go_lib sample_tree
              (sample_options ModeMapV ∅) = Some node
      ∧ ∀ n, InNode n node → n_Depth n = Depth (n_Entry n).
Proof.
  assert (depth_inv (Root sample_tree)) as Hinv by (by apply depth_ok_inv).
  split; [reflexivity|]. split; [exact Hinv|].
  exact (mapV_depth_matches_entry IEEE754.floats IEEE754.colors go_lib sample_tree
           (sample_options ModeMapV ∅) eq_refl Hinv).
Defined.

End Layout.


(** ** Package [scene]: the scene graph built from a layout *)
Module Scene.
Import Go Fs Layout.

Section Scene.
Variable fl : Floats.
Variable pal : Colors.

Local Abbreviation Vector3 := (Vector3 fl).
Local Abbreviation Node := (Node fl pal).

(** [rl.BoundingBox] *)
Record BoundingBox : Type := mkBoundingBox { bb_Min : Vector3; bb_Max : Vector3 }.

(** [type SceneNode struct].  A [*SceneNode] is the index of the node in
    the store of allocated nodes, [None] the nil pointer.  The entry of a
    layout node is never nil, so neither is the entry of a scene node. *)
Record SceneNode : Type := mkSceneNode {
  sn_ID : Z;
  sn_Entry : Entry;
  sn_Position : Vector3;
  sn_Size : Vector3;
  sn_Color : Color pal;
  sn_Bounds : BoundingBox;
  sn_Visible : bool;
  sn_Expanded : bool;
  sn_Depth : Z;
  sn_Children : list nat;
  sn_Parent : option nat
}.

Definition set_Bounds (n : SceneNode) (b : BoundingBox) : SceneNode :=
  mkSceneNode (sn_ID n) (sn_Entry n) (sn_Position n) (sn_Size n) (sn_Color n) b
    (sn_Visible n) (sn_Expanded n) (sn_Depth n) (sn_Children n) (sn_Parent n).
Definition set_sn_Children (n : SceneNode) (cs : list nat) : SceneNode :=
  mkSceneNode (sn_ID n) (sn_Entry n) (sn_Position n) (sn_Size n) (sn_Color n) (sn_Bounds n)
    (sn_Visible n) (sn_Expanded n) (sn_Depth n) cs (sn_Parent n).

(** [func (n *SceneNode) ComputeBounds()] *)
Definition ComputeBounds (n : SceneNode) : SceneNode :=
  let halfSize :=
    mkVector3 fl (div32 fl (vX fl (sn_Size n)) (f32 fl 2))
      (div32 fl (vY fl (sn_Size n)) (f32 fl 2))
      (div32 fl (vZ fl (sn_Size n)) (f32 fl 2)) in
  set_Bounds n
    (mkBoundingBox
       (mkVector3 fl (sub32 fl (vX fl (sn_Position n)) (vX fl halfSize))
          (sub32 fl (vY fl (sn_Position n)) (vY fl halfSize))
          (sub32 fl (vZ fl (sn_Position n)) (vZ fl halfSize)))
       (mkVector3 fl (add32 fl (vX fl (sn_Position n)) (vX fl halfSize))
          (add32 fl (vY fl (sn_Position n)) (vY fl halfSize))
          (add32 fl (vZ fl (sn_Position n)) (vZ fl halfSize)))).

(** [type Graph struct] *)
Record Graph : Type := mkGraph {
  g_Root : option nat;
  NodeIndex : gmap Z nat;
  NodeByPath : gmap string nat;
  NodeCount : Z
}.

(** What the package keeps in memory: the scene nodes allocated so far and
    the counter [nextID] (an [atomic.Uint32]). *)
Record Store : Type := mkStore { nodes : list SceneNode; nextID : Z }.

(** [expandedPaths[path]]; reading a nil map gives [false]. *)
Definition expanded_in (expandedPaths : option (gmap string bool)) (path : string) : bool :=
  match expandedPaths with
  | Some m => default false (m !! path)
  | None => false
  end.

(** [node.Children = append(node.Children, child)] for the node at [p]. *)
Definition append_child (p child : nat) (h : list SceneNode) : list SceneNode :=
  alter (λ n, set_sn_Children n (sn_Children n ++ [child])) p h.

Section BuildChildren.
Variable build : Node → option nat → Graph * Store → nat * (Graph * Store).
Variable p : nat.

(** The loop [for _, childLayout := range ln.Children] of [buildNode]. *)
Fixpoint build_children (children : list Node) (gs : Graph * Store) : Graph * Store :=
  match children with
  | [] => gs
  | childLayout :: rest =>
      let '(child, (g, st)) := build childLayout (Some p) gs in
      build_children rest (g, mkStore (append_child p child (nodes st)) (nextID st))
  end.
End BuildChildren.

(** [func (g *Graph) buildNode(ln *layout.Node, parent *SceneNode,
    expandedPaths map[string]bool) *SceneNode] *)
Fixpoint buildNode (expandedPaths : option (gmap string bool)) (ln : Node)
    (parent : option nat) (gs : Graph * Store) {struct ln} : nat * (Graph * Store) :=
  let '(g, st) := gs in
  let id := (nextID st + 1) `mod` 2 ^ 32 in
  let expanded := expanded_in expandedPaths (Path (n_Entry ln)) in
  let zero := mkVector3 fl (f32 fl 0) (f32 fl 0) (f32 fl 0) in
  let node :=
    ComputeBounds
      (mkSceneNode id (n_Entry ln) (Position ln) (n_Size ln) (n_Color ln)
         (mkBoundingBox zero zero) true expanded (n_Depth ln) [] parent) in
  let p := length (nodes st) in
  let st := mkStore (nodes st ++ [node]) id in
  let g :=
    mkGraph (g_Root g) (<[id := p]> (NodeIndex g))
      (<[Path (n_Entry ln) := p]> (NodeByPath g)) (add64 (NodeCount g) 1) in
  (p, build_children (buildNode expandedPaths) p (n_Children ln) (g, st)).

(** [func NewGraph(layoutRoot *layout.Node, expandedPaths map[string]bool) *Graph] *)
Definition NewGraph (layoutRoot : option Node) (expandedPaths : option (gmap string bool))
    (st : Store) : Graph * Store :=
  match layoutRoot with
  | None => (mkGraph None ∅ ∅ 0, st)
  | Some ln =>
      let '(root, (g, st)) := buildNode expandedPaths ln None (mkGraph None ∅ ∅ 0, st) in
      (mkGraph (Some root) (NodeIndex g) (NodeByPath g) (NodeCount g), st)
  end.

Section Traverse.
Context {S : Type}.

(** The callback [fn]: it is handed the node and may update what it has
    captured, of type [S]. *)
Variable fn : nat → S → bool * S.

Section TraverseChildren.
Variable traverse : nat → S → option S.

Fixpoint traverse_children (children : list nat) (s : S) : option S :=
  match children with
  | [] => Some s
  | child :: rest =>
      match traverse child s with
      | Some s => traverse_children rest s
      | None => None
      end
  end.
End TraverseChildren.

(** [func traverseNode(node, fn)].  The
    recursion follows pointers; [fuel] bounds its depth, and [None] tells
    that it was exhausted (or that a pointer led nowhere). *)
Fixpoint traverseNode (fuel : nat) (h : list SceneNode) (node : nat) (s : S) : option S :=
  match fuel with
  | O => None
  | Datatypes.S fuel =>
      match h !! node with
      | None => None
      | Some n =>
          if negb (sn_Visible n) then Some s
          else
            let '(continue, s) := fn node s in
            if negb continue then Some s
            else if sn_Expanded n
                 then traverse_children (traverseNode fuel h) (sn_Children n) s
                 else Some s
      end
  end.

(** [func (g *Graph) Traverse(fn func(node *SceneNode) bool)] *)
Definition Traverse (fuel : nat) (g : Graph) (h : list SceneNode) (s : S) : option S :=
  match g_Root g with
  | None => Some s
  | Some root => traverseNode fuel h root s
  end.
End Traverse.

(** [func (g *Graph) FindByPath(path string) *SceneNode] *)
Definition FindByPath (g : Graph) (path : string) : option nat := NodeByPath g !! path.

(** [func (g *Graph) VisibleNodeCount() int] *)
Definition VisibleNodeCount (fuel : nat) (g : Graph) (h : list SceneNode) : option Z :=
  Traverse (λ _ count, (true, add64 count 1)) fuel g h 0.


(** *** What [buildNode] allocates *)

(** The number of nodes of a layout. *)
Fixpoint size (ln : Node) : nat := S (sum_list_with size (n_Children ln)).

Section PerChild.
Context {A : Type}.
Variable f : Node → nat → A.

(** [f] of every child and of the pointer at which the nodes of the child
    begin, [q] being the pointer for the first child. *)
Fixpoint per_child (children : list Node) (q : nat) : list A :=
  match children with
  | [] => []
  | c :: rest => f c q :: per_child rest (q + size c)
  end.
End PerChild.

Definition child_ptrs (children : list Node) (q : nat) : list nat :=
  per_child (λ _ q, q) children q.

(** The nodes of a layout in the order in which [buildNode] allocates
    their scene nodes, each with its pointer and the pointer of its
    parent; [p] is the pointer of the first one. *)
Fixpoint ptr_info (ln : Node) (p : nat) (parent : option nat)
  : list (nat * (Node * option nat)) :=
  (p, (ln, parent)) :: concat (per_child (λ c q, ptr_info c q (Some p)) (n_Children ln) (S p)).

Definition below (children : list Node) (q p : nat) : list (nat * (Node * option nat)) :=
  concat (per_child (λ c q, ptr_info c q (Some p)) children q).

(** The scene node that ends up at a pointer; [base] relates pointers to
    identifiers. *)
Definition cell (m : option (gmap string bool)) (base : Z)
    (x : nat * (Node * option nat)) : SceneNode :=
  let zero := mkVector3 fl (f32 fl 0) (f32 fl 0) (f32 fl 0) in
  set_sn_Children
    (ComputeBounds
       (mkSceneNode ((base + Z.of_nat x.1) `mod` 2 ^ 32) (n_Entry x.2.1) (Position x.2.1)
          (n_Size x.2.1) (n_Color x.2.1) (mkBoundingBox zero zero) true
          (expanded_in m (Path (n_Entry x.2.1))) (n_Depth x.2.1) [] x.2.2))
    (child_ptrs (n_Children x.2.1) (S x.1)).

Definition by_path (mp : gmap string nat) (x : nat * (Node * option nat)) : gmap string nat :=
  <[Path (n_Entry x.2.1) := x.1]> mp.
Definition by_id (base : Z) (mp : gmap Z nat) (x : nat * (Node * option nat)) : gmap Z nat :=
  <[(base + Z.of_nat x.1) `mod` 2 ^ 32 := x.1]> mp.

Lemma ptr_info_unfold ln p parent :
  ptr_info ln p parent = (p, (ln, parent)) :: below (n_Children ln) (S p) p.
Proof. by destruct ln. Qed.

Lemma below_cons c cs q p :
  below (c :: cs) q p = ptr_info c q (Some p) ++ below cs (q + size c) p.
Proof. done. Qed.

Lemma size_unfold ln : size ln = S (sum_list_with size (n_Children ln)).
Proof. by destruct ln. Qed.

Lemma below_fst cs p :
  Forall (λ c, ∀ q parent, (ptr_info c q parent).*1 = seq q (size c)) cs →
  ∀ q, (below cs q p).*1 = seq q (sum_list_with size cs).
Proof.
  induction 1 as [|c cs Hc _ IH]; intros q; [done|].
  rewrite below_cons, fmap_app, Hc, IH. cbn [sum_list_with].
  by rewrite seq_app.
Qed.

(** The pointers are consecutive. *)
Lemma ptr_info_fst ln : ∀ p parent, (ptr_info ln p parent).*1 = seq p (size ln).
Proof.
  induction ln as [ln IH] using Node_ind'. intros p parent.
  rewrite ptr_info_unfold, size_unfold. cbn [fmap list_fmap seq fst]. f_equal.
  by apply below_fst.
Qed.

Lemma ptr_info_length ln p parent : length (ptr_info ln p parent) = size ln.
Proof.
  by rewrite <- (length_fmap fst), ptr_info_fst, length_seq.
Qed.

Lemma below_length cs q p : length (below cs q p) = sum_list_with size cs.
Proof.
  revert q. induction cs as [|c cs IH]; intros q; [done|].
  rewrite below_cons, length_app, ptr_info_length, IH. done.
Qed.

Lemma next_id_step (x base : Z) (n : nat) :
  (x + 1) `mod` 2 ^ 32 = (base + Z.of_nat n) `mod` 2 ^ 32 →
  ((x + 1) `mod` 2 ^ 32 + 1) `mod` 2 ^ 32 = (base + Z.of_nat (S n)) `mod` 2 ^ 32.
Proof.
  intros H. rewrite H, Zplus_mod_idemp_l. f_equal. lia.
Qed.

(** [g.NodeCount++], [n] times. *)
Definition counted (n : nat) (count : Z) : Z := Nat.iter n (λ a, add64 a 1) count.

Lemma counted_app (a b : nat) (count : Z) :
  counted (a + b) count = counted b (counted a count).
Proof. unfold counted. by rewrite Nat.add_comm, Nat.iter_add. Qed.

Lemma counted_S (n : nat) (count : Z) : counted (S n) count = counted n (add64 count 1).
Proof. unfold counted. by rewrite Nat.iter_succ_r. Qed.

Lemma counted_wrap (n : nat) (count : Z) :
  (0 < n)%nat → counted n count = wrap64 (count + Z.of_nat n).
Proof.
  intros Hn. induction n as [|n IH]; [lia|].
  change (counted (S n) count) with (add64 (counted n count) 1).
  destruct n as [|n]; [done|].
  rewrite IH by lia. unfold add64. rewrite wrap64_add_l. f_equal. lia.
Qed.

(** What the store and the graph are after [buildNode]. *)
Definition built (m : option (gmap string bool)) (base : Z) (g : Graph) (st : Store)
    (added : list (nat * (Node * option nat))) (g' : Graph) (st' : Store)
    (h' : list SceneNode) : Prop :=
  nodes st' = h'
  ∧ (nextID st' + 1) `mod` 2 ^ 32 = (base + Z.of_nat (length h')) `mod` 2 ^ 32
  ∧ g_Root g' = g_Root g
  ∧ NodeCount g' = counted (length added) (NodeCount g)
  ∧ NodeByPath g' = foldl by_path (NodeByPath g) added
  ∧ NodeIndex g' = foldl (by_id base) (NodeIndex g) added.

Definition buildNode_exact (m : option (gmap string bool)) (base : Z) (ln : Node) : Prop :=
  ∀ parent g st,
    (nextID st + 1) `mod` 2 ^ 32 = (base + Z.of_nat (length (nodes st))) `mod` 2 ^ 32 →
    ∃ g' st',
      buildNode m ln parent (g, st) = (length (nodes st), (g', st'))
      ∧ built m base g st (ptr_info ln (length (nodes st)) parent) g' st'
          (nodes st ++ map (cell m base) (ptr_info ln (length (nodes st)) parent)).

Lemma build_children_exact m base h0 node0 cs :
  Forall (buildNode_exact m base) cs →
  ∀ kids done g st,
    nodes st = h0 ++ set_sn_Children node0 kids :: done →
    (nextID st + 1) `mod` 2 ^ 32 = (base + Z.of_nat (length (nodes st))) `mod` 2 ^ 32 →
    ∃ g' st',
      build_children (buildNode m) (length h0) cs (g, st) = (g', st')
      ∧ built m base g st (below cs (length (nodes st)) (length h0)) g' st'
          (h0 ++ set_sn_Children node0 (kids ++ child_ptrs cs (length (nodes st)))
              :: done ++ map (cell m base) (below cs (length (nodes st)) (length h0))).
Proof.
  induction 1 as [|c cs Hc _ IH]; intros kids done g st Hst Hid.
  - exists g, st. split; [done|]. unfold built, below, child_ptrs. simpl.
    rewrite !app_nil_r. rewrite <- Hst. done.
  - destruct (Hc (Some (length h0)) g st Hid) as (g1 & st1 & Hbuild & H1 & H2 & H3 & H4 & H5 & H6).
    cbn [build_children]. rewrite Hbuild.
    set (q := length (nodes st)) in *.
    set (st2 := mkStore (append_child (length h0) q (nodes st1)) (nextID st1)).
    assert (nodes st2 = h0 ++ set_sn_Children node0 (kids ++ [q])
                           :: (done ++ map (cell m base) (ptr_info c q (Some (length h0)))))
      as Hst2.
    { unfold st2, append_child. cbn [nodes]. rewrite H1, Hst, <- app_assoc.
      rewrite <- (Nat.add_0_r (length h0)) at 1. rewrite alter_app_r. done. }
    assert (length (nodes st2) = (q + size c)%nat) as Hlen.
    { unfold st2, append_child. cbn [nodes]. rewrite length_alter, H1, length_app, length_map.
      by rewrite ptr_info_length. }
    destruct (IH (kids ++ [q]) (done ++ map (cell m base) (ptr_info c q (Some (length h0))))
                g1 st2 Hst2) as (g' & st' & Hloop & K1 & K2 & K3 & K4 & K5 & K6).
    { rewrite Hlen. cbn [nextID st2]. rewrite H2, length_app, length_map, ptr_info_length.
      done. }
    exists g', st'. split; [exact Hloop|].
    rewrite Hlen in *. rewrite below_cons.
    unfold built. split; [|split; [|split; [|split; [|split]]]].
    + rewrite K1. unfold child_ptrs. cbn [per_child].
      rewrite <- !app_assoc, map_app. done.
    + rewrite K2. do 2 f_equal. rewrite map_app, !length_app. cbn [length].
      rewrite !length_app. lia.
    + by rewrite K3, H3.
    + by rewrite K4, H4, length_app, counted_app.
    + by rewrite K5, H5, foldl_app.
    + by rewrite K6, H6, foldl_app.
Qed.

Lemma buildNode_is_exact m base ln : buildNode_exact m base ln.
Proof.
  induction ln as [ln IH] using Node_ind'. intros parent g st Hid.
  pose proof (next_id_step _ _ _ Hid) as Hid'.
  destruct ln as [e pos sz col cs d]. cbn [n_Children] in IH.
  cbn [buildNode n_Children n_Entry Position n_Size n_Color n_Depth].
  set (node0 := ComputeBounds _).
  set (g0 := mkGraph _ _ _ _).
  destruct (build_children_exact m base (nodes st) node0 cs IH [] [] g0
              (mkStore (nodes st ++ [node0]) ((nextID st + 1) `mod` 2 ^ 32)))
    as (g' & st' & Hloop & K1 & K2 & K3 & K4 & K5 & K6).
  { done. }
  { cbn [nodes nextID]. rewrite length_app. simpl. rewrite Nat.add_1_r. exact Hid'. }
  cbn [nodes] in *. rewrite length_app in *. simpl in Hloop, K1, K2, K4, K5, K6.
  rewrite Nat.add_1_r in *.
  exists g', st'. rewrite Hloop. split; [done|].
  rewrite ptr_info_unfold. cbn [n_Children].
  unfold built. split; [|split; [|split; [|split; [|split]]]].
  - rewrite K1. cbn [map]. do 2 f_equal.
    unfold cell, node0. cbn [fst snd n_Children n_Entry Position n_Size n_Color n_Depth].
    by rewrite Hid.
  - rewrite K2. do 2 f_equal. rewrite !length_app. simpl.
    by rewrite !length_map, !below_length.
  - by rewrite K3.
  - rewrite K4. cbn [length]. by rewrite counted_S.
  - rewrite K5. done.
  - rewrite K6. cbn [foldl]. f_equal. unfold by_id. cbn [fst]. by rewrite <- Hid.
Qed.



(** *** The scene graph mirrors the layout *)

(** The fields that a scene node takes from its layout node, and those that
    [buildNode] computes. *)
Definition copy_of (m : option (gmap string bool)) (ln : Node) (sn : SceneNode) : Prop :=
  sn_Entry sn = n_Entry ln ∧ sn_Position sn = Position ln ∧ sn_Size sn = n_Size ln
  ∧ sn_Color sn = n_Color ln ∧ sn_Depth sn = n_Depth ln
  ∧ sn_Visible sn = true
  ∧ sn_Expanded sn = expanded_in m (Path (n_Entry ln))
  ∧ sn_Bounds sn = sn_Bounds (ComputeBounds sn).

(** [mirrors m h ln p parent]: in the store [h] the pointer [p] leads to a
    scene node for the layout node [ln], whose parent pointer is [parent]
    and whose children are, one for one, scene nodes for the children of
    [ln]. *)
Inductive mirrors (m : option (gmap string bool)) (h : list SceneNode)
  : Node → nat → option nat → Prop :=
| mirrors_node ln p parent sn :
    h !! p = Some sn → copy_of m ln sn → sn_Parent sn = parent →
    Forall2 (λ c q, mirrors m h c q (Some p)) (n_Children ln) (sn_Children sn) →
    mirrors m h ln p parent.

Definition stored (m : option (gmap string bool)) (base : Z) (h : list SceneNode)
    (info : list (nat * (Node * option nat))) : Prop :=
  Forall (λ x, h !! x.1 = Some (cell m base x)) info.

Lemma stored_appended m base h0 info :
  info.*1 = seq (length h0) (length info) →
  stored m base (h0 ++ map (cell m base) info) info.
Proof.
  intros Hfst. apply Forall_lookup. intros k x Hk.
  assert (x.1 = (length h0 + k)%nat) as ->.
  { assert (info.*1 !! k = Some x.1) as H by (by rewrite list_lookup_fmap, Hk).
    rewrite Hfst in H. by apply lookup_seq in H as [-> _]. }
  rewrite lookup_app_r by lia.
  replace (length h0 + k - length h0)%nat with k by lia.
  by rewrite list_lookup_fmap, Hk.
Qed.

Lemma children_mirror m base h p cs :
  Forall (λ c, ∀ q parent, stored m base h (ptr_info c q parent) → mirrors m h c q parent) cs →
  ∀ q, stored m base h (below cs q p) →
    Forall2 (λ c q, mirrors m h c q (Some p)) cs (child_ptrs cs q).
Proof.
  induction 1 as [|c cs Hc _ IH]; intros q Hst; [constructor|].
  rewrite below_cons in Hst. apply Forall_app in Hst as [H1 H2].
  unfold child_ptrs. cbn [per_child]. constructor; [by apply Hc|by apply IH].
Qed.

Lemma mirrors_of_stored m base h ln :
  ∀ p parent, stored m base h (ptr_info ln p parent) → mirrors m h ln p parent.
Proof.
  induction ln as [ln IH] using Node_ind'. intros p parent Hst.
  rewrite ptr_info_unfold in Hst. apply Forall_cons in Hst as [Hp Hbelow].
  apply (mirrors_node m h ln p parent (cell m base (p, (ln, parent)))); try done.
  by eapply children_mirror.
Qed.

(** The entries of the nodes that [Traverse] visits, in this order: every
    node whose ancestors are all expanded. *)
Fixpoint visible_nodes (m : option (gmap string bool)) (ln : Node) : list Node :=
  ln :: (if expanded_in m (Path (n_Entry ln))
         then concat (map (visible_nodes m) (n_Children ln)) else []).

Lemma visible_nodes_unfold m ln :
  visible_nodes m ln
  = ln :: (if expanded_in m (Path (n_Entry ln))
           then concat (map (visible_nodes m) (n_Children ln)) else []).
Proof. by destruct ln. Qed.

(** [shows m h q n]: the pointer [q] leads to a scene node for [n]. *)
Definition shows (m : option (gmap string bool)) (h : list SceneNode) (q : nat) (n : Node)
  : Prop :=
  ∃ sn, h !! q = Some sn ∧ copy_of m n sn.

Section Visits.
Variable m : option (gmap string bool).
Variable h : list SceneNode.

(** A callback that always returns [true] and updates what it has captured
    by [f]. *)
Definition always {S : Type} (f : nat → S → S) : nat → S → bool * S := λ q s, (true, f q s).

Definition visits (ln : Node) : Prop :=
  ∀ p parent,
    mirrors m h ln p parent →
    ∃ ptrs, Forall2 (shows m h) ptrs (visible_nodes m ln)
      ∧ ∀ (S : Type) (f : nat → S → S) fuel s, (size ln ≤ fuel)%nat →
          traverseNode (always f) fuel h p s = Some (foldl (λ s q, f q s) s ptrs).

Lemma traverse_children_visits p cs qs :
  Forall visits cs →
  Forall2 (λ c q, mirrors m h c q (Some p)) cs qs →
  ∃ ptrs, Forall2 (shows m h) ptrs (concat (map (visible_nodes m) cs))
    ∧ ∀ (S : Type) (f : nat → S → S) fuel s, (sum_list_with size cs ≤ fuel)%nat →
        traverse_children (traverseNode (always f) fuel h) qs s
        = Some (foldl (λ s q, f q s) s ptrs).
Proof.
  intros IH Hm. induction Hm as [|c q cs qs Hc _ IHcs].
  - by exists [].
  - inversion IH as [|? ? Hvc Hvcs]; subst.
    destruct (Hvc q (Some p) Hc) as (ptrs1 & Hshow1 & Hrun1).
    destruct (IHcs Hvcs) as (ptrs2 & Hshow2 & Hrun2).
    exists (ptrs1 ++ ptrs2). split; [by apply Forall2_app|].
    intros S f fuel s Hfuel. cbn [sum_list_with] in Hfuel.
    cbn [traverse_children].
    rewrite Hrun1 by lia. rewrite Hrun2 by lia. by rewrite foldl_app.
Qed.

Lemma traverseNode_visits ln : visits ln.
Proof.
  induction ln as [ln IH] using Node_ind'. intros p parent Hm.
  inversion Hm as [? ? ? sn Hsn Hcopy Hpar Hkids]; subst.
  assert (shows m h p ln) as Hshow by (by exists sn).
  destruct Hcopy as (He & Hpos & Hsz & Hcol & Hd & Hvis & Hexp & Hb).
  rewrite visible_nodes_unfold.
  destruct (traverse_children_visits p (n_Children ln) (sn_Children sn) IH Hkids)
    as (ptrs & Hshows & Hrun).
  destruct (expanded_in m (Path (n_Entry ln))) eqn:Hex.
  - exists (p :: ptrs). split; [by constructor|].
    intros S f fuel s Hfuel. rewrite size_unfold in Hfuel.
    destruct fuel as [|fuel]; [lia|].
    cbn [traverseNode]. rewrite Hsn, Hvis, Hexp. cbn [negb always].
    rewrite Hrun by lia. done.
  - exists [p]. split; [by repeat constructor|].
    intros S f fuel s Hfuel. rewrite size_unfold in Hfuel.
    destruct fuel as [|fuel]; [lia|].
    cbn [traverseNode]. by rewrite Hsn, Hvis, Hexp.
Qed.
End Visits.

(** Whatever the callback does, the traversal of a mirrored layout comes
    to an end. *)
Section Terminates.
Context {S : Type}.
Variable fn : nat → S → bool * S.
Variable m : option (gmap string bool).
Variable h : list SceneNode.

Definition returns (ln : Node) : Prop :=
  ∀ p parent fuel s,
    mirrors m h ln p parent → (size ln ≤ fuel)%nat → is_Some (traverseNode fn fuel h p s).

Lemma traverse_children_returns p fuel cs qs :
  Forall returns cs →
  Forall2 (λ c q, mirrors m h c q (Some p)) cs qs →
  (sum_list_with size cs ≤ fuel)%nat →
  ∀ s, is_Some (traverse_children (traverseNode fn fuel h) qs s).
Proof.
  intros IH Hm. induction Hm as [|c q cs qs Hc _ IHcs]; intros Hfuel s.
  - by eexists.
  - cbn [sum_list_with] in Hfuel. inversion IH as [|? ? Hvc Hvcs]; subst.
    destruct (Hvc q (Some p) fuel s Hc ltac:(lia)) as [s1 Hrun1].
    cbn [traverse_children]. rewrite Hrun1. apply IHcs; [done|lia].
Qed.

Lemma traverseNode_returns ln : returns ln.
Proof.
  induction ln as [ln IH] using Node_ind'. intros p parent fuel s Hm Hfuel.
  inversion Hm as [? ? ? sn Hsn Hcopy Hpar Hkids]; subst.
  rewrite size_unfold in Hfuel. destruct fuel as [|fuel]; [lia|].
  cbn [traverseNode]. rewrite Hsn.
  destruct (negb (sn_Visible sn)); [by eexists|].
  destruct (fn p s) as [continue s1].
  destruct (negb continue); [by eexists|].
  destruct (sn_Expanded sn); [|by eexists].
  eapply traverse_children_returns; eauto. lia.
Qed.
End Terminates.

(** *** Paths *)

Lemma by_path_lookup info : ∀ (mp : gmap string nat) path q,
  foldl by_path mp info !! path = Some q →
  mp !! path = Some q ∨ ∃ x, x ∈ info ∧ x.1 = q ∧ Path (n_Entry x.2.1) = path.
Proof.
  induction info as [|x info IH]; intros mp path q Hq; [by left|].
  cbn [foldl] in Hq. apply IH in Hq as [Hq|(y & Hy & ?)].
  - unfold by_path in Hq. destruct (decide (Path (n_Entry x.2.1) = path)) as [<-|Hne].
    + rewrite lookup_insert_eq in Hq. inversion Hq; subst.
      right. exists x. split; [left|done].
    + rewrite lookup_insert_ne in Hq by done. by left.
  - right. exists y. split; [by right|done].
Qed.

Lemma by_path_keeps info : ∀ (mp : gmap string nat) path,
  is_Some (mp !! path) → is_Some (foldl by_path mp info !! path).
Proof.
  induction info as [|x info IH]; intros mp path Hq; [done|].
  cbn [foldl]. apply IH. unfold by_path.
  destruct (decide (Path (n_Entry x.2.1) = path)) as [<-|Hne].
  - rewrite lookup_insert_eq. by eexists.
  - by rewrite lookup_insert_ne.
Qed.

Lemma by_path_finds info : ∀ (mp : gmap string nat) x,
  x ∈ info → is_Some (foldl by_path mp info !! Path (n_Entry x.2.1)).
Proof.
  induction info as [|y info IH]; intros mp x Hx; [by apply elem_of_nil in Hx|].
  cbn [foldl]. apply elem_of_cons in Hx as [->|Hx]; [|by apply IH].
  apply by_path_keeps. unfold by_path. rewrite lookup_insert_eq. by eexists.
Qed.

Lemma below_elem x cs : ∀ q p,
  x ∈ below cs q p → ∃ c q' , c ∈ cs ∧ x ∈ ptr_info c q' (Some p).
Proof.
  induction cs as [|c cs IH]; intros q p Hx; [by apply elem_of_nil in Hx|].
  rewrite below_cons in Hx. apply elem_of_app in Hx as [Hx|Hx].
  - exists c, q. split; [left|done].
  - apply IH in Hx as (c' & q' & Hc' & Hx). exists c', q'. split; [by right|done].
Qed.

Lemma ptr_info_InNode ln : ∀ p parent x, x ∈ ptr_info ln p parent → InNode x.2.1 ln.
Proof.
  induction ln as [ln IH] using Node_ind'. intros p parent x Hx.
  rewrite ptr_info_unfold in Hx. apply elem_of_cons in Hx as [->|Hx]; [constructor|].
  apply below_elem in Hx as (c & q & Hc & Hx).
  rewrite Forall_forall in IH. eapply InNode_child; [exact Hc|]. by eapply IH.
Qed.

Lemma below_covers c cs : c ∈ cs → ∀ q p, ∃ q', ptr_info c q' (Some p) ⊆ below cs q p.
Proof.
  induction 1 as [c cs|c c' cs _ IH]; intros q p.
  - exists q. rewrite below_cons. intros x Hx. apply elem_of_app. by left.
  - destruct (IH (q + size c')%nat p) as [q' Hq']. exists q'.
    rewrite below_cons. intros x Hx. apply elem_of_app. right. by apply Hq'.
Qed.

Lemma InNode_ptr_info n ln :
  InNode n ln → ∀ p parent, ∃ x, x ∈ ptr_info ln p parent ∧ x.2.1 = n.
Proof.
  induction 1 as [|c ln Hc _ IH]; intros p parent.
  - exists (p, (n, parent)). split; [|done]. rewrite ptr_info_unfold. left.
  - destruct (below_covers c (n_Children ln) Hc (S p) p) as [q Hq].
    destruct (IH q (Some p)) as (x & Hx & Hn).
    exists x. split; [|done]. rewrite ptr_info_unfold. right. by apply Hq.
Qed.


(** *** The graph of a layout *)

(** The graph and the store that [NewGraph] leaves. *)
Lemma NewGraph_built (m : option (gmap string bool)) (ln : Node) (st : Store) :
  ∃ g st' base,
    NewGraph (Some ln) m st = (g, st')
    ∧ g_Root g = Some (length (nodes st))
    ∧ nodes st' = nodes st ++ map (cell m base) (ptr_info ln (length (nodes st)) None)
    ∧ stored m base (nodes st') (ptr_info ln (length (nodes st)) None)
    ∧ NodeCount g = counted (size ln) 0
    ∧ NodeByPath g = foldl by_path ∅ (ptr_info ln (length (nodes st)) None).
Proof.
  set (base := nextID st + 1 - Z.of_nat (length (nodes st))).
  destruct (buildNode_is_exact m base ln None (mkGraph None ∅ ∅ 0) st)
    as (g' & st' & Hbuild & K1 & K2 & K3 & K4 & K5 & K6).
  { f_equal. unfold base. lia. }
  unfold NewGraph. rewrite Hbuild.
  eexists _, st', base. split; [reflexivity|]. cbn [g_Root NodeCount NodeByPath].
  split; [done|]. split; [done|]. split; [|split; [|done]].
  - rewrite K1. apply stored_appended.
    by rewrite ptr_info_fst, ptr_info_length.
  - by rewrite K4, ptr_info_length.
Qed.

Lemma stored_shows m base h info x :
  stored m base h info → x ∈ info → shows m h x.1 x.2.1.
Proof.
  intros Hst Hx. unfold stored in Hst. rewrite Forall_forall in Hst.
  exists (cell m base x). split; [by apply Hst|]. by repeat split.
Qed.

Lemma counted_foldl (ptrs : list nat) (count : Z) :
  foldl (λ s _, add64 s 1) count ptrs = counted (length ptrs) count.
Proof.
  revert count. induction ptrs as [|q ptrs IH]; intros count; [done|].
  cbn [foldl length]. by rewrite IH, counted_S.
Qed.

(** [NewGraph] builds a tree of scene nodes that mirrors the layout: the
    nodes already in the store are left as they are, one scene node is
    allocated for each node of the layout, the root of the graph is the scene
    node of the root of the layout, without parent, every scene node takes
    entry, position, size, colour and depth from its layout node, is
    visible, is expanded exactly if [expandedPaths] holds [true] for the
    path of its entry, has the bounding box of [ComputeBounds], and has for
    children the scene nodes of the children of its layout node, in their
    order, each with this node as parent; [NodeCount] is the number of
    nodes of the layout (in [int]). *)
Theorem NewGraph_mirrors_layout (m : option (gmap string bool)) (ln : Node) (st : Store) :
  let '(g, st') := NewGraph (Some ln) m st in
  g_Root g = Some (length (nodes st))
  ∧ (∃ added, nodes st' = nodes st ++ added ∧ length added = size ln)
  ∧ mirrors m (nodes st') ln (length (nodes st)) None
  ∧ NodeCount g = wrap64 (Z.of_nat (size ln)).
Proof.
  destruct (NewGraph_built m ln st) as (g & st' & base & -> & Hroot & Hnodes & Hst & Hcount & _).
  split; [done|]. split; [|split].
  - eexists. split; [exact Hnodes|]. by rewrite length_map, ptr_info_length.
  - by eapply mirrors_of_stored.
  - rewrite Hcount, counted_wrap; [done|]. rewrite size_unfold. lia.
Qed.

(** [Traverse] on the graph of a layout comes to an end whatever the
    callback does, and with a callback that always returns [true] it calls
    it once for each node that is the root or whose ancestors are all
    expanded, parents before children and children in their order;
    [VisibleNodeCount] is the number of these nodes (in [int]). *)
Theorem Traverse_visits_expanded (m : option (gmap string bool)) (ln : Node) (st : Store) :
  let '(g, st') := NewGraph (Some ln) m st in
  ∃ ptrs,
    Forall2 (shows m (nodes st')) ptrs (visible_nodes m ln)
    ∧ (∀ (S : Type) (f : nat → S → S) (fuel : nat) (s : S), (size ln ≤ fuel)%nat →
         Traverse (always f) fuel g (nodes st') s = Some (foldl (λ s q, f q s) s ptrs))
    ∧ (∀ fuel, (size ln ≤ fuel)%nat →
         VisibleNodeCount fuel g (nodes st')
         = Some (wrap64 (Z.of_nat (length (visible_nodes m ln)))))
    ∧ (∀ (S : Type) (fn : nat → S → bool * S) (fuel : nat) (s : S), (size ln ≤ fuel)%nat →
         is_Some (Traverse fn fuel g (nodes st') s)).
Proof.
  destruct (NewGraph_built m ln st) as (g & st' & base & -> & Hroot & Hnodes & Hst & _).
  pose proof (mirrors_of_stored m base (nodes st') ln _ _ Hst) as Hm.
  destruct (traverseNode_visits m (nodes st') ln _ _ Hm) as (ptrs & Hshows & Hrun).
  exists ptrs. split; [done|]. unfold VisibleNodeCount, Traverse. rewrite Hroot.
  split; [exact Hrun|]. split.
  - intros fuel Hfuel.
    etrans; [exact (Hrun Z (λ _ count, add64 count 1) fuel 0 Hfuel)|]. f_equal.
    rewrite counted_foldl.
    rewrite (Forall2_length _ _ _ Hshows), counted_wrap; [done|].
    rewrite visible_nodes_unfold. simpl. lia.
  - intros S fn fuel s Hfuel. by eapply traverseNode_returns.
Qed.

(** [FindByPath] on the graph of a layout finds nothing exactly for the
    paths that no node of the layout has, and what it finds for a path is
    the scene node of a layout node whose entry has this path. *)
Theorem FindByPath_finds_layout_nodes (m : option (gmap string bool)) (ln : Node)
    (st : Store) (path : string) :
  let '(g, st') := NewGraph (Some ln) m st in
  (FindByPath g path = None ↔ ∀ n, InNode n ln → Path (n_Entry n) ≠ path)
  ∧ (∀ q, FindByPath g path = Some q →
       ∃ n, InNode n ln ∧ Path (n_Entry n) = path ∧ shows m (nodes st') q n).
Proof.
  destruct (NewGraph_built m ln st) as (g & st' & base & -> & _ & _ & Hst & _ & Hpaths).
  unfold FindByPath. rewrite Hpaths.
  assert (∀ q, foldl by_path ∅ (ptr_info ln (length (nodes st)) None) !! path = Some q →
            ∃ n, InNode n ln ∧ Path (n_Entry n) = path ∧ shows m (nodes st') q n) as Hfound.
  { intros q Hq. apply by_path_lookup in Hq as [Hq|(x & Hx & <- & <-)].
    - by rewrite lookup_empty in Hq.
    - exists x.2.1. split; [by eapply ptr_info_InNode|]. split; [done|].
      by eapply stored_shows. }
  split; [|exact Hfound]. split.
  - intros Hnone n Hn Hpath.
    destruct (InNode_ptr_info n ln Hn (length (nodes st)) None) as (x & Hx & <-).
    destruct (by_path_finds _ ∅ x Hx) as [q Hq]. rewrite Hpath in Hq. congruence.
  - intros Hno.
    destruct (foldl by_path ∅ _ !! path) as [q|] eqn:Hq; [|done].
    destruct (Hfound q eq_refl) as (n & Hn & Hpath & _). by destruct (Hno n Hn).
Qed.

End Scene.
End Scene.

(** ** Package [ui]: the rows of the tree panel *)
Module Ui.
Import Go Fs.

(** [type treeRow struct] *)
Record treeRow : Type := mkTreeRow { row_Entry : Entry; row_Depth : Z }.

(** [func flattenTree(entry *fs.Entry, depth int, state *TreeViewState,
    rows *[]treeRow)]; of the state it reads [ExpandedDirs] only. *)
Fixpoint flattenTree (entry : Entry) (depth : Z) (ExpandedDirs : option (gmap string bool))
    (rows : list treeRow) : list treeRow :=
  let rows := rows ++ [mkTreeRow entry depth] in
  if IsDir entry && Scene.expanded_in ExpandedDirs (Path entry)
  then foldl (λ rows child, flattenTree child (add64 depth 1) ExpandedDirs rows)
         rows (Children entry)
  else rows.




End Ui.

(** ** The two views of the application *)
Module App.
Import Go Fs Layout.

Section Views.
Variable fl : Floats.
Variable pal : Colors.
Variable lib : Lib.




End Views.

(** *** Search *)

Section Search.
(** [strings.ToLower] and [strings.Contains]. *)
Variable strings_ToLower : string → string.
Variable strings_Contains : string → string → bool.

(** [func (a *App) searchEntries(entry *fs.Entry, query string)]; the
    field [a.searchResults] goes in and out. *)
Fixpoint searchEntries (entry : Entry) (query : string) (searchResults : list string)
    : list string :=
  let searchResults :=
    if strings_Contains (strings_ToLower (Name entry)) query
    then searchResults ++ [Path entry] else searchResults in
  if Loaded entry
  then foldl (λ results child, searchEntries child query results) searchResults
         (Children entry)
  else searchResults.

Lemma searchEntries_unfold entry query results :
  searchEntries entry query results
  = if Loaded entry
    then foldl (λ results child, searchEntries child query results)
           (if strings_Contains (strings_ToLower (Name entry)) query
            then results ++ [Path entry] else results)
           (Children entry)
    else if strings_Contains (strings_ToLower (Name entry)) query
         then results ++ [Path entry] else results.
Proof. by destruct entry. Qed.

Lemma searchEntries_spec query root :
  all_nodes (λ d, Loaded d = false → Children d = []) root →
  ∀ results,
    searchEntries root query results
    = results ++ map Path (filter (λ e, strings_Contains (strings_ToLower (Name e)) query)
                             (entries root)).
Proof.
  induction root as [e IH] using Entry_ind'. intros Hinv results.
  apply all_nodes_unfold in Hinv as [Htop Hcs].
  rewrite searchEntries_unfold, entries_unfold, filter_cons.
  set (hit := strings_Contains (strings_ToLower (Name e)) query).
  assert (∀ results0,
            foldl (λ results child, searchEntries child query results) results0 (Children e)
            = results0 ++ map Path
                (filter (λ e, strings_Contains (strings_ToLower (Name e)) query)
                   (concat (map entries (Children e))))) as Hloop.
  { clear Htop. induction IH as [|c cs Hc _ IHcs]; intros results0; simpl.
    - by rewrite app_nil_r.
    - inversion Hcs as [|? ? Hc' Hcs']; subst.
      rewrite IHcs, Hc, filter_app, map_app, <- app_assoc by done. done. }
  destruct (Loaded e) eqn:Hld.
  - rewrite Hloop. destruct hit; simpl; [|reflexivity]. by rewrite <- app_assoc.
  - rewrite (Htop eq_refl). simpl. destruct hit; simpl; [done|by rewrite app_nil_r].
Qed.

(** A search misses nothing.  On a tree in which an entry that is not
    [Loaded] has no children, as the scanner keeps it, [searchEntries] adds
    to the results the path of every entry whose lower-cased name contains
    the query, once for each such entry and parents before children, and
    nothing else. *)
Theorem searchEntries_finds_every_match (root : Entry) (query : string)
    (results : list string) :
  all_nodes (λ d, Loaded d = false → Children d = []) root →
  ∃ found,
    searchEntries root query results = results ++ found
    ∧ found = map Path (filter (λ e, strings_Contains (strings_ToLower (Name e)) query)
                          (entries root))
    ∧ ∀ p, p ∈ found ↔
        ∃ e, InTree e root ∧ strings_Contains (strings_ToLower (Name e)) query = true
             ∧ Path e = p.
Proof.
  intros Hinv. eexists. split; [by apply searchEntries_spec|]. split; [done|].
  intros p. rewrite list_elem_of_fmap. split.
  - intros (e & -> & He). apply list_elem_of_filter in He as [Hhit He].
    exists e. split; [by apply entries_InTree|]. split; [|done].
    by apply Is_true_true.
  - intros (e & He & Hhit & <-). exists e. split; [done|].
    apply list_elem_of_filter. split; [by apply Is_true_true|by apply entries_InTree].
Qed.
End Search.

(** The sample tree of the layout with only the root expanded: the graph
    shows the root, its two files and the collapsed directory; the panel
    lists the same entries in the order of the tree. *)
Definition sample_views : option (list string) * list string :=
  Eval vm_compute in
    (let '(g, st') :=
       Scene.NewGraph IEEE754.floats IEEE754.colors sample_treeV (Some root_expanded)
         (Scene.mkStore _ _ [] 0) in
     (match Scene.Traverse _ _ (Scene.always (λ node visible, visible ++ [node])) 4 g
              (Scene.nodes _ _ st') [] with
      | Some visible =>
          Some (omap (λ node : nat,
                        match Scene.nodes _ _ st' !! node with
                        | Some sn => Some (Name (Scene.sn_Entry _ _ sn))
                        | None => None
                        end) visible)
      | None => None
      end,
      map (λ row, Name (Ui.row_Entry row))
        (Ui.flattenTree (Root sample_tree) 0 (Some root_expanded) []))).

Example sample_views_agree :
  sample_views = (Some ["/r"; "d"; "a"; "sub"], ["/r"; "sub"; "d"; "a"])%string.
Proof. reflexivity. Qed.


(** A search for "a" in the sample tree, names compared as they are. *)
Definition contains (s sub : string) : bool :=
  match String.index 0 sub s with Some _ => true | None => false end.

Lemma searchEntries_finds_every_match_witness :
  all_nodes (λ d, Loaded d = false → Children d = []) (Root sample_tree)
  ∧ ∃ found,
      searchEntries id contains (Root sample_tree) "a" [] = [] ++ found
      ∧ found = map Path (filter (λ e, contains (id (Name e)) "a")
                            (entries (Root sample_tree)))
      ∧ ∀ p, p ∈ found ↔
          ∃ e, InTree e (Root sample_tree) ∧ contains (id (Name e)) "a" = true ∧ Path e = p.
Proof.
  assert (all_nodes (λ d, Loaded d = false → Children d = []) (Root sample_tree)) as Hinv.
  { apply (all_nodes_check_sound
             (λ d, Loaded d || match Children d with [] => true | _ => false end)).
    - intros e H Hld. rewrite Hld in H. simpl in H. by destruct (Children e).
    - reflexivity. }
  split; [exact Hinv|].
  exact (searchEntries_finds_every_match id contains (Root sample_tree) "a" [] Hinv).
Defined.

Example sample_search :
  searchEntries id contains (Root sample_tree) "a" [] = ["/r/a"]%string.
Proof. reflexivity. Qed.
End App.
